(** * demosaicnet_torch: kernel application and Bayer reassembly

    A shallow embedding of [demosaic/modules.py] and of
    [demosaic/callbacks.py].

    - Tensors as values: dense row-major buffers with a shape, and the
      primitives the module calls (slicing, [permute], [view], [unfold], the
      broadcasting product, [sum], [cat]); on top of them [apply_kernels]
      and the class [BayerKP] with [unroll] and [forward].  Shape errors are
      [None].  The kernel predictor ([ConvChain]) and [F.softmax] are
      parameters of [forward].
    - The construction protocol of [get] and of the [__init__] methods, each
      up to the return of its [super] call ([Construction]).
    - Tensors as views of shared buffers ([Store]), the same code with the
      heap threaded through, for the statements about caller data.
    - The method [on_epoch_end] of the visualization callback
      ([Callbacks]), on the trace of the calls of the visualizer.
    - The layers that the [__init__] methods of [BayerNetwork],
      [BayerExperimental] and [BayerNN] build, and their [forward] methods
      ([Layers]); the weights of the layers are not modelled, a layer is a
      parameter with the shape behaviour the runtime documents.

    Scalars are kept abstract (a type with [zero], [add] and [mul]); sums are
    folded in index order, so the equations below are equations between the
    expressions the program evaluates.  Order properties are proved over the
    rationals, that is for exact arithmetic; what rounding does to them is
    shown on IEEE 754 numbers. *)

From Stdlib Require Import String.
From Stdlib Require Import List Arith ZArith QArith Qminmax Lia Lqa Bool.
From Stdlib Require DecimalString DecimalNat SpecFloat.
Import ListNotations.

Close Scope Q_scope.
Open Scope nat_scope.

(** ** Scalars *)

Class Scalar (A : Type) := {
  zero : A;
  add : A -> A -> A;
  mul : A -> A -> A
}.

#[global] Instance Scalar_Z : Scalar Z :=
  {| zero := 0%Z; add := Z.add; mul := Z.mul |}.

#[global] Instance Scalar_Q : Scalar Q :=
  {| zero := 0%Q; add := Qplus; mul := Qmult |}.

(** *** Floating-point scalars

    The tensors of the program hold IEEE 754 numbers, [torch.float32] unless
    the caller chooses another type.  [SpecFloat] of the Standard Library
    specifies their arithmetic for a precision and an exponent bound, with
    rounding to nearest, ties to even: binary32 is precision 24 with bound
    128, binary64 is precision 53 with bound 1024. *)

Definition Scalar_binary (prec emax : Z) : Scalar SpecFloat.spec_float :=
  {| zero := SpecFloat.S754_zero false;
     add := SpecFloat.SFadd prec emax;
     mul := SpecFloat.SFmul prec emax |}.

#[global] Instance Scalar_binary32 : Scalar SpecFloat.spec_float :=
  Scalar_binary 24 128.

Definition Scalar_binary64 : Scalar SpecFloat.spec_float :=
  Scalar_binary 53 1024.

(** The rational that a finite number denotes. *)
Definition SF2Q (x : SpecFloat.spec_float) : option Q :=
  match x with
  | SpecFloat.S754_zero _ => Some 0%Q
  | SpecFloat.S754_finite s m e =>
      Some (Qred ((if s then - 1 else 1) * inject_Z (Z.pos m) * Qpower 2 e)%Q)
  | _ => None
  end.

(** ** The option monad of shape errors *)

Notation "x <- c1 ;; c2" :=
  (match c1 with Some x => c2 | None => None end)
  (at level 61, c1 at next level, right associativity).

(** ** Shapes and row-major indexing *)

Fixpoint numel (s : list nat) : nat :=
  match s with
  | [] => 1
  | n :: s' => n * numel s'
  end.

Fixpoint ravel (s idx : list nat) : nat :=
  match s, idx with
  | _ :: s', i :: idx' => i * numel s' + ravel s' idx'
  | _, _ => 0
  end.

Fixpoint unravel (s : list nat) (k : nat) : list nat :=
  match s with
  | [] => []
  | _ :: s' => (k / numel s') :: unravel s' (k mod numel s')
  end.

(** [inb s idx]: the multi-index [idx] addresses an element of shape [s]. *)
Fixpoint inb (s idx : list nat) : Prop :=
  match s, idx with
  | [], [] => True
  | n :: s', i :: idx' => i < n /\ inb s' idx'
  | _, _ => False
  end.

Definition ix (idx : list nat) (k : nat) : nat := nth k idx 0.

Fixpoint upd (d v : nat) (l : list nat) : list nat :=
  match l, d with
  | [], _ => []
  | _ :: l', 0 => v :: l'
  | x :: l', S d' => x :: upd d' v l'
  end.

Fixpoint insert_at (d v : nat) (l : list nat) : list nat :=
  match d, l with
  | 0, _ => v :: l
  | S d', x :: l' => x :: insert_at d' v l'
  | S _, [] => [v]
  end.

Fixpoint remove_at (d : nat) (l : list nat) : list nat :=
  match l, d with
  | [], _ => []
  | _ :: l', 0 => l'
  | x :: l', S d' => x :: remove_at d' l'
  end.

Fixpoint index_of (k : nat) (l : list nat) : nat :=
  match l with
  | [] => 0
  | x :: l' => if x =? k then 0 else S (index_of k l')
  end.

(** ** Tensors *)

Record tensor (A : Type) := mkTensor { shape : list nat; data : list A }.

Arguments mkTensor {A} _ _.
Arguments shape {A} _.
Arguments data {A} _.

Definition wf {A} (t : tensor A) : Prop := length (data t) = numel (shape t).

Section Tensor.
Context {A : Type} `{Scalar A}.

Definition get (t : tensor A) (idx : list nat) : A :=
  nth (ravel (shape t) idx) (data t) zero.

Definition tabulate (s : list nat) (f : list nat -> A) : tensor A :=
  mkTensor s (map (fun k => f (unravel s k)) (seq 0 (numel s))).

(** Sum of a list in index order; the sum of one element is that element. *)
Definition sum_list (l : list A) : A :=
  match l with
  | [] => zero
  | x :: l' => fold_left add l' x
  end.

(** *** Primitives of the tensor runtime *)

(** Python slice bounds on an axis of length [n]. *)
Definition norm_index (n : nat) (v : Z) : nat :=
  if (v <? 0)%Z then Z.to_nat (Z.max (v + Z.of_nat n) 0)
  else Nat.min (Z.to_nat v) n.

(** [t[..., start:stop, ...]] on axis [d]. *)
Definition slice (d : nat) (start stop : Z) (t : tensor A) : option (tensor A) :=
  if d <? length (shape t) then
    let n := nth d (shape t) 0 in
    let lo := norm_index n start in
    let hi := norm_index n stop in
    Some (tabulate (upd d (hi - lo) (shape t))
            (fun idx => get t (upd d (ix idx d + lo) idx)))
  else None.

Definition is_perm (dims : list nat) (r : nat) : bool :=
  (length dims =? r) && forallb (fun k => existsb (Nat.eqb k) dims) (seq 0 r).

(** [t.permute(dims)]: axis [k] of the result is axis [dims[k]] of [t]. *)
Definition permute (dims : list nat) (t : tensor A) : option (tensor A) :=
  if is_perm dims (length (shape t)) then
    Some (tabulate (map (fun d => nth d (shape t) 0) dims)
            (fun idx => get t (map (fun k => ix idx (index_of k dims))
                                   (seq 0 (length dims)))))
  else None.

(** [t.contiguous()]: buffers are always dense here. *)
Definition contiguous (t : tensor A) : tensor A := t.

(** [t.view(s)]: same buffer, new shape; the element counts must agree. *)
Definition view (s : list nat) (t : tensor A) : option (tensor A) :=
  if numel s =? numel (shape t) then Some (mkTensor s (data t)) else None.

(** [t.unfold(d, size, step)]: windows of axis [d], new last axis of
    length [size]. *)
Definition unfold (d size step : nat) (t : tensor A) : option (tensor A) :=
  let r := length (shape t) in
  let n := nth d (shape t) 0 in
  if (d <? r) && (size <=? n) && (0 <? step) then
    Some (tabulate (upd d ((n - size) / step + 1) (shape t) ++ [size])
            (fun idx => get t (upd d (ix idx d * step + ix idx r) (firstn r idx))))
  else None.

(** Broadcasting of two shapes of the same rank. *)
Fixpoint broadcast (s1 s2 : list nat) : option (list nat) :=
  match s1, s2 with
  | [], [] => Some []
  | a :: s1', b :: s2' =>
      s' <- broadcast s1' s2' ;;
      if a =? b then Some (a :: s')
      else if a =? 1 then Some (b :: s')
      else if b =? 1 then Some (a :: s')
      else None
  | _, _ => None
  end.

(** Index into an operand of shape [s] from an index of the broadcast. *)
Fixpoint bc_index (s idx : list nat) : list nat :=
  match s, idx with
  | n :: s', i :: idx' => (if n =? 1 then 0 else i) :: bc_index s' idx'
  | _, _ => []
  end.

Definition zip_with_bc (op : A -> A -> A) (t1 t2 : tensor A) : option (tensor A) :=
  s <- broadcast (shape t1) (shape t2) ;;
  Some (tabulate s (fun idx => op (get t1 (bc_index (shape t1) idx))
                                  (get t2 (bc_index (shape t2) idx)))).

(** [t1 * t2] and [t1 + t2]. *)
Definition tmul := zip_with_bc mul.
Definition tadd := zip_with_bc add.

(** [th.sum(t, dim=d)] and [t.sum(d)]. *)
Definition sum_dim (d : nat) (t : tensor A) : option (tensor A) :=
  if d <? length (shape t) then
    let n := nth d (shape t) 0 in
    Some (tabulate (remove_at d (shape t))
            (fun idx => sum_list (map (fun k => get t (insert_at d k idx)) (seq 0 n))))
  else None.

(** [th.cat(ts, 1)]: concatenation along axis 1. *)
Fixpoint cat_get (ts : list (tensor A)) (idx : list nat) : A :=
  match ts with
  | [] => zero
  | t :: ts' =>
      let c := nth 1 (shape t) 0 in
      if ix idx 1 <? c then get t idx
      else cat_get ts' (upd 1 (ix idx 1 - c) idx)
  end.

Definition same_off_axis1 (s1 s2 : list nat) : bool :=
  if list_eq_dec Nat.eq_dec (upd 1 0 s1) (upd 1 0 s2) then true else false.

Definition cat1 (ts : list (tensor A)) : option (tensor A) :=
  match ts with
  | [] => None
  | t :: _ =>
      if (1 <? length (shape t))
         && forallb (fun t' => same_off_axis1 (shape t) (shape t')) ts
      then Some (tabulate
                   (upd 1 (list_sum (map (fun t' => nth 1 (shape t') 0) ts)) (shape t))
                   (cat_get ts))
      else None
  end.

(** [t[:, :, c:-c, c:-c]]. *)
Definition crop_hw (c : Z) (t : tensor A) : option (tensor A) :=
  t1 <- slice 2 c (- c) t ;; slice 3 c (- c) t1.

(** Modelled from the spec: [crop_like] is imported from [torchlib.image],
    which is not part of the sources; the spec describes it as cropping the
    first tensor "to match the inferred-estimate spatial extent via symmetric
    center-cropping".  Half of the excess of each spatial axis is removed
    on either side. *)
Definition crop_like (src tgt : tensor A) : option (tensor A) :=
  match shape src, shape tgt with
  | [_; _; hs; ws], [_; _; ht; wt] =>
      let cy := (hs - ht) / 2 in
      let cx := (ws - wt) / 2 in
      s1 <- slice 2 (Z.of_nat cy) (Z.of_nat (hs - cy)) src ;;
      slice 3 (Z.of_nat cx) (Z.of_nat (ws - cx)) s1
  | _, _ => None
  end.

(** *** [apply_kernels] (modules.py, lines 19-48) *)

(** Lines 24-34, "Crop kernel and input so their sizes match": returns the
    rebound [kernel], [kh], [kw] and [noisy_data]. *)
Definition crop_to_match (kernel noisy_data : tensor A) (kh kw h ksize : nat)
    : option (tensor A * nat * nat * tensor A) :=
  let needed := (Z.of_nat kh + Z.of_nat ksize - 1)%Z in
  if (needed >? Z.of_nat h)%Z then
    let crop := ((needed - Z.of_nat h) / 2)%Z in
    kernel' <- (if (crop >? 0)%Z then crop_hw crop kernel else Some kernel) ;;
    match shape kernel' with
    | [_; _; kh'; kw'] => Some (kernel', kh', kw', noisy_data)
    | _ => None
    end
  else
    let crop := ((Z.of_nat h - needed) / 2)%Z in
    noisy' <- (if (crop >? 0)%Z then crop_hw crop noisy_data
               else Some noisy_data) ;;
    Some (kernel, kh, kw, noisy').

(** Lines 36-48: vectorised kernels, input tiles, product and sum. *)
Definition weighted_sum (bs ci ksize : nat)
    (st : tensor A * nat * nat * tensor A) : option (tensor A) :=
  let '(kernel, kh, kw, noisy_data) := st in
  kernel <- permute [0; 2; 3; 1] kernel ;;
  kernel <- view [bs; 1; kh; kw; ksize * ksize] (contiguous kernel) ;;
  tiles <- unfold 2 ksize 1 noisy_data ;;
  tiles <- unfold 3 ksize 1 tiles ;;
  tiles <- view [bs; ci; kh; kw; ksize * ksize] (contiguous tiles) ;;
  prod <- tmul kernel tiles ;;
  sum_dim 4 prod.

Definition apply_kernels (kernel noisy_data : tensor A) : option (tensor A) :=
  match shape kernel, shape noisy_data with
  | [_; k2; kh; kw], [bs; ci; h; w] =>
      let ksize := Nat.sqrt k2 in
      st <- crop_to_match kernel noisy_data kh kw h ksize ;;
      weighted_sum bs ci ksize st
  | _, _ => None
  end.

(** *** [BayerKP] (modules.py, lines 401-501) *)

Record BayerKP := mkBayerKP {
  ksize : nat;                                   (* self.ksize *)
  kernels : tensor A -> option (tensor A)        (* self.kernels, a ConvChain *)
}.

(** [BayerKP.unroll]. *)
Definition unroll (buf : tensor A) : option (tensor A) :=
  match shape buf with
  | [bs; _; h; w] =>
      b1 <- view [bs; 2; 2; h; w] buf ;;
      b2 <- permute [0; 3; 1; 4; 2] b1 ;;
      view [bs; 1; h * 2; w * 2] (contiguous b2)
  | _ => None
  end.

(** The first lines of [BayerKP.forward]: the 2x2 decimation of the
    channel-summed mosaic into four planes. *)
Definition color_samples_of (mosaic : tensor A) : option (tensor A) :=
  gray_mosaic <- sum_dim 1 mosaic ;;
  c1 <- unfold 2 2 2 gray_mosaic ;;
  c2 <- unfold 1 2 2 c1 ;;
  c3 <- permute [0; 3; 4; 1; 2] c2 ;;
  match shape c3 with
  | [bs; _; _; h; w] => view [bs; 4; h; w] (contiguous c3)
  | _ => None
  end.

Fixpoint for_range {S : Type} (n : nat) (body : S -> option S) (st : S) : option S :=
  match n with
  | 0 => Some st
  | Datatypes.S n' => st' <- body st ;; for_range n' body st'
  end.

Definition item {X : Type} (l : list X) (i : nat) : option X := nth_error l i.

Fixpoint setitem {X : Type} (l : list X) (i : nat) (x : X) : option (list X) :=
  match l, i with
  | [], _ => None
  | _ :: l', 0 => Some (x :: l')
  | y :: l', Datatypes.S i' => l'' <- setitem l' i' x ;; Some (y :: l'')
  end.

Fixpoint lookup {X : Type} (key : string) (d : list (string * X)) : option X :=
  match d with
  | [] => None
  | (k, v) :: d' => if String.eqb k key then Some v else lookup key d'
  end.

Section Forward.
(** [F.softmax(k, 1)], a primitive of the runtime. *)
Variable softmax1 : tensor A -> option (tensor A).

(** One pass of the loops over a single known plane. *)
Definition single_plane_step (self : BayerKP) (kern src : tensor A)
    (st : nat * list (tensor A)) : option (nat * list (tensor A)) :=
  let '(idx, planes) := st in
  let kk := ksize self * ksize self in
  k <- slice 1 (Z.of_nat idx) (Z.of_nat (idx + kk)) kern ;;
  k <- softmax1 k ;;
  e <- apply_kernels k src ;;
  Some (idx + kk, planes ++ [e]).

(** One pass of the loop over the two known green planes. *)
Definition green_step (self : BayerKP) (kern g0 g1 : tensor A)
    (st : nat * list (tensor A)) : option (nat * list (tensor A)) :=
  let '(idx, greens) := st in
  let kk := ksize self * ksize self in
  k <- slice 1 (Z.of_nat idx) (Z.of_nat (idx + 2 * kk)) kern ;;
  k <- softmax1 k ;;
  k0 <- slice 1 0%Z (Z.of_nat kk) k ;;
  from_g0 <- apply_kernels k0 g0 ;;
  k1 <- slice 1 (Z.of_nat kk) (Z.of_nat (2 * kk)) k ;;
  from_g1 <- apply_kernels k1 g1 ;;
  s <- tadd from_g0 from_g1 ;;
  Some (idx + 2 * kk, greens ++ [s]).

(** The lists handed to [th.cat] before [unroll]. *)
Definition red_tiles (self : BayerKP) (kern r : tensor A) (idx : nat)
    : option (nat * list (tensor A)) :=
  st <- for_range 3 (single_plane_step self kern r) (idx, [r]) ;;
  let '(idx, reds) := st in
  r0 <- item reds 0 ;; r1 <- item reds 1 ;;
  c <- crop_like r0 r1 ;;
  reds <- setitem reds 0 c ;;
  a <- item reds 1 ;; b <- item reds 0 ;; c <- item reds 2 ;; d <- item reds 3 ;;
  Some (idx, [a; b; c; d]).

Definition blue_tiles (self : BayerKP) (kern b : tensor A) (idx : nat)
    : option (nat * list (tensor A)) :=
  st <- for_range 3 (single_plane_step self kern b) (idx, [b]) ;;
  let '(idx, blues) := st in
  b0 <- item blues 0 ;; b1 <- item blues 1 ;;
  c <- crop_like b0 b1 ;;
  blues <- setitem blues 0 c ;;
  a <- item blues 1 ;; b <- item blues 2 ;; c <- item blues 0 ;; d <- item blues 3 ;;
  Some (idx, [a; b; c; d]).

Definition green_tiles (self : BayerKP) (kern g0 g1 : tensor A) (idx : nat)
    : option (nat * list (tensor A)) :=
  st <- for_range 2 (green_step self kern g0 g1) (idx, [g0; g1]) ;;
  let '(idx, greens) := st in
  x0 <- item greens 0 ;; x2 <- item greens 2 ;;
  c0 <- crop_like x0 x2 ;;
  greens <- setitem greens 0 c0 ;;
  x1 <- item greens 1 ;; x2 <- item greens 2 ;;
  c1 <- crop_like x1 x2 ;;
  greens <- setitem greens 1 c1 ;;
  a <- item greens 0 ;; b <- item greens 2 ;; c <- item greens 3 ;; d <- item greens 1 ;;
  Some (idx, [a; b; c; d]).

(** [BayerKP.forward]. *)
Definition forward (self : BayerKP) (samples : list (string * tensor A))
    : option (tensor A) :=
  mosaic <- lookup "mosaic" samples ;;
  color_samples <- color_samples_of mosaic ;;
  kern <- kernels self color_samples ;;
  match shape kern with
  | [_; _; _; _] =>
      g0 <- slice 1 0%Z 1%Z color_samples ;;
      b <- slice 1 1%Z 2%Z color_samples ;;
      r <- slice 1 2%Z 3%Z color_samples ;;
      g1 <- slice 1 3%Z 4%Z color_samples ;;
      (* Reconstruct 3 reds from known red *)
      st <- red_tiles self kern r 0 ;;
      let '(idx, reds) := st in
      red <- (c <- cat1 reds ;; unroll c) ;;
      (* Reconstruct 3 blues from known blue *)
      st <- blue_tiles self kern b idx ;;
      let '(idx, blues) := st in
      blue <- (c <- cat1 blues ;; unroll c) ;;
      (* Reconstruct 2 greens from known greens *)
      st <- green_tiles self kern g0 g1 idx ;;
      let '(idx, greens) := st in
      green <- (c <- cat1 greens ;; unroll c) ;;
      cat1 [red; green; blue]
  | _ => None
  end.
End Forward.

End Tensor.

(** *** [BayerKP.__init__] (modules.py, lines 403-413) *)

(** The arguments of the [ConvChain] that [BayerKP.__init__] builds as
    [self.kernels] (lines 411-413): two positional arguments, then
    keywords. *)
Record ConvChain_args := mkConvChain_args {
  cc_inputs : nat;
  cc_outputs : nat;
  cc_width : nat;
  cc_depth : nat;
  cc_pad : bool;
  cc_activation : string;
  cc_output_type : string
}.

Definition BayerKP_init_kernels (ksize : nat) : ConvChain_args :=
  mkConvChain_args 4 (10 * ksize * ksize) 64 5 false "relu" "linear".

(** ** Model construction: [get] and the [__init__] methods
       (modules.py, lines 51-56, 67-68, 122-123, ...) *)

Module Construction.

(** The classes in scope: [object], [nn.Module] and the six classes of the
    module. *)
Inductive pyclass :=
  | Object | NNModule
  | BayerNetwork | XtransNetwork | BayerExperimental | BayerNN | BayerLog | BayerKP.

Definition pyclass_eqb (c1 c2 : pyclass) : bool :=
  match c1, c2 with
  | Object, Object | NNModule, NNModule | BayerNetwork, BayerNetwork
  | XtransNetwork, XtransNetwork | BayerExperimental, BayerExperimental
  | BayerNN, BayerNN | BayerLog, BayerLog | BayerKP, BayerKP => true
  | _, _ => false
  end.

(** The base class in each [class C(...)] statement. *)
Definition base (c : pyclass) : option pyclass :=
  match c with
  | Object => None
  | NNModule => Some Object
  | BayerNetwork | XtransNetwork | BayerExperimental
  | BayerNN | BayerLog | BayerKP => Some NNModule
  end.

(** Method resolution order; the hierarchy is three levels deep. *)
Fixpoint mro_from (fuel : nat) (c : pyclass) : list pyclass :=
  match fuel with
  | 0 => [c]
  | S fuel' =>
      match base c with
      | None => [c]
      | Some b => c :: mro_from fuel' b
      end
  end.

Definition mro (c : pyclass) : list pyclass := mro_from 3 c.

Inductive exn := TypeError | ValueError | AttributeError.

(** The values of a parameter dictionary: [None], integers, booleans,
    strings and dictionaries with string keys. *)
#[warnings="-register-all"]
Inductive pyval :=
  | VNone
  | VInt (n : Z)
  | VBool (b : bool)
  | VStr (s : string)
  | VDict (d : list (string * pyval)).

(** How far a call is followed.  [Raised]: it raises.  [SuperReturned]: the
    [super(...).__init__()] call that opens the [__init__] of the class has
    returned, with the arguments bound as given; the statements after it
    call the layer constructors of the runtime and can still raise
    ([Layers] has the layers they build when the arguments are natural
    numbers).  [Unmodelled]: the name is looked up in the module and is
    none of the classes and functions of the file nor an imported module:
    [AttributeError] when the module has no such attribute, the call of an
    object of the runtime otherwise. *)
Inductive outcome :=
  | Raised (e : exn)
  | SuperReturned (c : pyclass) (args : list (string * pyval))
  | Unmodelled (name : string).

Fixpoint after (ty : pyclass) (l : list pyclass) : option (list pyclass) :=
  match l with
  | [] => None
  | c :: l' => if pyclass_eqb c ty then Some l' else after ty l'
  end.

(** [super(ty, self)] for [self] an instance of [cls]: the classes after
    [ty] in the resolution order of [cls]; [TypeError] when [self] is not an
    instance of [ty]. *)
Definition py_super (ty cls : pyclass) : exn + list pyclass :=
  match after ty (mro cls) with
  | Some rest => inr rest
  | None => inl TypeError
  end.

(** The class named first in the [super(...)] call of each [__init__]. *)
Definition super_target (c : pyclass) : pyclass :=
  match c with
  | XtransNetwork => BayerNetwork          (* line 123 *)
  | c => c
  end.

(** Parameters and defaults of each [__init__]. *)
Definition init_params (c : pyclass) : list (string * pyval) :=
  match c with
  | BayerNetwork => [("depth", VInt 15); ("width", VInt 64)]
  | XtransNetwork => [("depth", VInt 11); ("width", VInt 64)]
  | BayerExperimental => [("depth", VInt 4); ("width", VInt 32)]
  | BayerNN => [("fov", VInt 5); ("normalize", VBool true)]
  | BayerLog => [("fov", VInt 7)]
  | BayerKP => [("ksize", VInt 7); ("normalize", VBool true)]
  | Object | NNModule => []
  end%string.

Fixpoint lookup_arg (key : string) (d : list (string * pyval)) : option pyval :=
  match d with
  | [] => None
  | (k, v) :: d' => if String.eqb k key then Some v else lookup_arg key d'
  end.

Fixpoint remove_key (key : string) (d : list (string * pyval)) : list (string * pyval) :=
  match d with
  | [] => []
  | (k, v) :: d' =>
      if String.eqb k key then remove_key key d' else (k, v) :: remove_key key d'
  end.

(** Binding of keyword arguments: every keyword must name a parameter. *)
Definition bind_kwargs (c : pyclass) (kwargs : list (string * pyval))
    : option (list (string * pyval)) :=
  if forallb (fun kv => match lookup_arg (fst kv) (init_params c) with
                        | Some _ => true
                        | None => false
                        end) kwargs
  then Some (map (fun pv => match lookup_arg (fst pv) kwargs with
                            | Some v => (fst pv, v)
                            | None => pv
                            end) (init_params c))
  else None.

(** [C.__init__(self, ...)] up to the return of its first statement, the
    [super] call. *)
Definition init (c : pyclass) (args : list (string * pyval)) : outcome :=
  match py_super (super_target c) c with
  | inl e => Raised e
  | inr _ => SuperReturned c args
  end.

(** [XtransNetwork(depth=..., width=...)]. *)
Definition XtransNetwork_init (depth width : pyval) : outcome :=
  init XtransNetwork [("depth", depth); ("width", width)]%string.

(** A call of the class with keyword arguments. *)
Definition construct (c : pyclass) (kwargs : list (string * pyval)) : outcome :=
  match bind_kwargs c kwargs with
  | None => Raised TypeError
  | Some args => init c args
  end.

(** The names of the module that [getattr] can find. *)
Definition module_class (name : string) : option pyclass :=
  if String.eqb name "BayerNetwork" then Some BayerNetwork
  else if String.eqb name "XtransNetwork" then Some XtransNetwork
  else if String.eqb name "BayerExperimental" then Some BayerExperimental
  else if String.eqb name "BayerNN" then Some BayerNN
  else if String.eqb name "BayerLog" then Some BayerLog
  else if String.eqb name "BayerKP" then Some BayerKP
  else None.

(** The names that lines 1-16 bind to modules; a module is not callable. *)
Definition imported_module (name : string) : bool :=
  existsb (String.eqb name)
    ["os"; "sys"; "copy"; "time"; "np"; "th"; "nn"; "F"; "viz"]%string.

(** Binding of keyword arguments to the parameters of a function without
    defaults: every keyword names a parameter and every parameter is
    given. *)
Fixpoint lookup_all (names : list string) (kwargs : list (string * pyval))
    : option (list pyval) :=
  match names with
  | [] => Some []
  | n :: names' =>
      match lookup_arg n kwargs, lookup_all names' kwargs with
      | Some v, Some vs => Some (v :: vs)
      | _, _ => None
      end
  end.

Definition bind_required (names : list string) (kwargs : list (string * pyval))
    : option (list pyval) :=
  if forallb (fun kv => existsb (String.eqb (fst kv)) names) kwargs
  then lookup_all names kwargs
  else None.

(** The body of [get(params)] (lines 52-56), with [get] standing for the
    function itself, which [getattr] finds under the name "get".  Called
    with a value that is not a dictionary, [get] raises [AttributeError] at
    [params.pop]; [apply_kernels] called with values of a dictionary raises
    it at [kernel.shape] (line 20). *)
Definition get_body (get : list (string * pyval) -> outcome)
    (params : list (string * pyval)) : outcome :=
  let model_name := lookup_arg "model" params in
  let params := remove_key "model" params in
  match model_name with
  | None | Some VNone => Raised ValueError
  | Some (VStr name) =>
      match module_class name with
      | Some c => construct c params
      | None =>
          if String.eqb name "get" then
            match bind_required ["params"%string] params with
            | Some [VDict d] => get d
            | Some _ => Raised AttributeError
            | None => Raised TypeError
            end
          else if String.eqb name "apply_kernels" then
            match bind_required ["kernel"; "noisy_data"]%string params with
            | Some _ => Raised AttributeError
            | None => Raised TypeError
            end
          else if imported_module name then Raised TypeError
          else Unmodelled name
      end
  | Some _ => Raised TypeError
  end.

(** The nesting depth of a value, which bounds the number of nested
    calls. *)
Fixpoint depth (v : pyval) : nat :=
  match v with
  | VDict d => S (fold_right (fun kv n => Nat.max (depth (snd kv)) n) 0 d)
  | _ => 0
  end.

(** [get] followed through at most [fuel] nested calls of itself; the
    nesting depth of the argument is enough ([get_unfold] below). *)
Fixpoint get_upto (fuel : nat) : list (string * pyval) -> outcome :=
  match fuel with
  | 0 => fun _ => Unmodelled "get"
  | S fuel' => get_body (get_upto fuel')
  end.

(** [get(params)]. *)
Definition get (params : list (string * pyval)) : outcome :=
  get_upto (depth (VDict params)) params.

End Construction.

(** ** Tensors as views of shared buffers

    A second embedding of the same code in which a tensor is a view (buffer,
    offset, shape, strides) into a heap of buffers and the operations thread
    the heap: slicing, [permute], [unfold] and [view] return views of the
    buffer of their argument, [contiguous] copies only a view that is not
    dense, and the arithmetic operations, [sum] and [cat] allocate. *)

Module Store.
Section Views.
Context {A : Type} {SA : Scalar A}.

Definition heap := list (list A).

Record handle := mkHandle {
  loc : nat;
  offset : nat;
  hshape : list nat;
  strides : list nat
}.

Definition M (X : Type) : Type := heap -> option (X * heap).

Definition ret {X : Type} (x : X) : M X := fun h => Some (x, h).

Definition bind {X Y : Type} (m : M X) (k : X -> M Y) : M Y :=
  fun h => match m h with
           | Some (x, h') => k x h'
           | None => None
           end.

Definition lift {X : Type} (o : option X) : M X :=
  fun h => match o with
           | Some x => Some (x, h)
           | None => None
           end.

Fixpoint dense_strides (s : list nat) : list nat :=
  match s with
  | [] => []
  | _ :: s' => numel s' :: dense_strides s'
  end.

Fixpoint dot (idx st : list nat) : nat :=
  match idx, st with
  | i :: idx', k :: st' => i * k + dot idx' st'
  | _, _ => 0
  end.

Definition address (v : handle) (idx : list nat) : nat :=
  offset v + dot idx (strides v).

(** The element of view [v] at [idx] in heap [h]. *)
Definition load (h : heap) (v : handle) (idx : list nat) : A :=
  nth (address v idx) (nth (loc v) h []) zero.

Definition is_dense (v : handle) : bool :=
  if list_eq_dec Nat.eq_dec (strides v) (dense_strides (hshape v)) then true else false.

(** A new buffer holding [f] over shape [s], and the dense view of it. *)
Definition fresh (s : list nat) (f : heap -> list nat -> A) : M handle :=
  fun h =>
    let buf := map (fun k => f h (unravel s k)) (seq 0 (numel s)) in
    Some (mkHandle (length h) 0 s (dense_strides s), h ++ [buf]).

(** The tensor seen through a view. *)
Definition to_tensor (h : heap) (v : handle) : tensor A :=
  tabulate (hshape v) (load h v).

Definition slice_v (d : nat) (start stop : Z) (v : handle) : option handle :=
  if d <? length (hshape v) then
    let n := nth d (hshape v) 0 in
    let lo := norm_index n start in
    let hi := norm_index n stop in
    Some (mkHandle (loc v) (offset v + lo * nth d (strides v) 0)
            (upd d (hi - lo) (hshape v)) (strides v))
  else None.

Definition permute_v (dims : list nat) (v : handle) : option handle :=
  if is_perm dims (length (hshape v)) then
    Some (mkHandle (loc v) (offset v)
            (map (fun d => nth d (hshape v) 0) dims)
            (map (fun d => nth d (strides v) 0) dims))
  else None.

Definition contiguous_v (v : handle) : M handle :=
  if is_dense v then ret v
  else fresh (hshape v) (fun h idx => load h v idx).

Definition view_v (s : list nat) (v : handle) : option handle :=
  if is_dense v && (numel s =? numel (hshape v))
  then Some (mkHandle (loc v) (offset v) s (dense_strides s))
  else None.

Definition unfold_v (d size step : nat) (v : handle) : option handle :=
  let r := length (hshape v) in
  let n := nth d (hshape v) 0 in
  let k := nth d (strides v) 0 in
  if (d <? r) && (size <=? n) && (0 <? step) then
    Some (mkHandle (loc v) (offset v)
            (upd d ((n - size) / step + 1) (hshape v) ++ [size])
            (upd d (k * step) (strides v) ++ [k]))
  else None.

Definition zip_with_bc_v (op : A -> A -> A) (v1 v2 : handle) : M handle :=
  match broadcast (hshape v1) (hshape v2) with
  | Some s =>
      fresh s (fun h idx => op (load h v1 (bc_index (hshape v1) idx))
                               (load h v2 (bc_index (hshape v2) idx)))
  | None => lift None
  end.

Definition tmul_v := zip_with_bc_v mul.
Definition tadd_v := zip_with_bc_v add.

Definition sum_dim_v (d : nat) (v : handle) : M handle :=
  if d <? length (hshape v) then
    let n := nth d (hshape v) 0 in
    fresh (remove_at d (hshape v))
      (fun h idx => sum_list (map (fun k => load h v (insert_at d k idx)) (seq 0 n)))
  else lift None.

Fixpoint cat_load (h : heap) (vs : list handle) (idx : list nat) : A :=
  match vs with
  | [] => zero
  | v :: vs' =>
      let c := nth 1 (hshape v) 0 in
      if ix idx 1 <? c then load h v idx
      else cat_load h vs' (upd 1 (ix idx 1 - c) idx)
  end.

Definition cat1_v (vs : list handle) : M handle :=
  match vs with
  | [] => lift None
  | v :: _ =>
      if (1 <? length (hshape v))
         && forallb (fun v' => same_off_axis1 (hshape v) (hshape v')) vs
      then fresh (upd 1 (list_sum (map (fun v' => nth 1 (hshape v') 0) vs)) (hshape v))
                 (fun h idx => cat_load h vs idx)
      else lift None
  end.

Definition crop_hw_v (c : Z) (v : handle) : option handle :=
  match slice_v 2 c (- c) v with
  | Some v1 => slice_v 3 c (- c) v1
  | None => None
  end.

(** Modelled from the spec: [crop_like] of [torchlib.image], a symmetric
    centre crop by slicing, hence a view of its first argument. *)
Definition crop_like_v (src tgt : handle) : option handle :=
  match hshape src, hshape tgt with
  | [_; _; hs; ws], [_; _; ht; wt] =>
      let cy := (hs - ht) / 2 in
      let cx := (ws - wt) / 2 in
      match slice_v 2 (Z.of_nat cy) (Z.of_nat (hs - cy)) src with
      | Some s1 => slice_v 3 (Z.of_nat cx) (Z.of_nat (ws - cx)) s1
      | None => None
      end
  | _, _ => None
  end.

Notation "x <~ c1 ;; c2" := (bind c1 (fun x => c2))
  (at level 61, c1 at next level, right associativity).

Definition crop_to_match_v (kernel noisy_data : handle) (kh kw h ksize : nat)
    : option (handle * nat * nat * handle) :=
  let needed := (Z.of_nat kh + Z.of_nat ksize - 1)%Z in
  if (needed >? Z.of_nat h)%Z then
    let crop := ((needed - Z.of_nat h) / 2)%Z in
    match (if (crop >? 0)%Z then crop_hw_v crop kernel else Some kernel) with
    | Some kernel' =>
        match hshape kernel' with
        | [_; _; kh'; kw'] => Some (kernel', kh', kw', noisy_data)
        | _ => None
        end
    | None => None
    end
  else
    let crop := ((Z.of_nat h - needed) / 2)%Z in
    match (if (crop >? 0)%Z then crop_hw_v crop noisy_data else Some noisy_data) with
    | Some noisy' => Some (kernel, kh, kw, noisy')
    | None => None
    end.

Definition weighted_sum_v (bs ci ksize : nat)
    (st : handle * nat * nat * handle) : M handle :=
  let '(kernel, kh, kw, noisy_data) := st in
  kernel <~ lift (permute_v [0; 2; 3; 1] kernel) ;;
  kernel <~ contiguous_v kernel ;;
  kernel <~ lift (view_v [bs; 1; kh; kw; ksize * ksize] kernel) ;;
  tiles <~ lift (unfold_v 2 ksize 1 noisy_data) ;;
  tiles <~ lift (unfold_v 3 ksize 1 tiles) ;;
  tiles <~ contiguous_v tiles ;;
  tiles <~ lift (view_v [bs; ci; kh; kw; ksize * ksize] tiles) ;;
  prod <~ tmul_v kernel tiles ;;
  sum_dim_v 4 prod.

(** [apply_kernels] on views. *)
Definition apply_kernels_v (kernel noisy_data : handle) : M handle :=
  match hshape kernel, hshape noisy_data with
  | [_; k2; kh; kw], [bs; ci; h; w] =>
      let ksize := Nat.sqrt k2 in
      st <~ lift (crop_to_match_v kernel noisy_data kh kw h ksize) ;;
      weighted_sum_v bs ci ksize st
  | _, _ => lift None
  end.

Definition unroll_v (buf : handle) : M handle :=
  match hshape buf with
  | [bs; _; h; w] =>
      b1 <~ lift (view_v [bs; 2; 2; h; w] buf) ;;
      b2 <~ lift (permute_v [0; 3; 1; 4; 2] b1) ;;
      b3 <~ contiguous_v b2 ;;
      lift (view_v [bs; 1; h * 2; w * 2] b3)
  | _ => lift None
  end.

Definition color_samples_of_v (mosaic : handle) : M handle :=
  gray_mosaic <~ sum_dim_v 1 mosaic ;;
  c1 <~ lift (unfold_v 2 2 2 gray_mosaic) ;;
  c2 <~ lift (unfold_v 1 2 2 c1) ;;
  c3 <~ lift (permute_v [0; 3; 4; 1; 2] c2) ;;
  match hshape c3 with
  | [bs; _; _; h; w] =>
      c4 <~ contiguous_v c3 ;;
      lift (view_v [bs; 4; h; w] c4)
  | _ => lift None
  end.

Fixpoint for_range_v {S : Type} (n : nat) (body : S -> M S) (st : S) : M S :=
  match n with
  | 0 => ret st
  | Datatypes.S n' => st' <~ body st ;; for_range_v n' body st'
  end.

Record BayerKP_v := mkBayerKP_v {
  ksize_v : nat;
  kernels_v : handle -> M handle
}.

Section ForwardViews.
Variable softmax1_v : handle -> M handle.

Definition single_plane_step_v (self : BayerKP_v) (kern src : handle)
    (st : nat * list handle) : M (nat * list handle) :=
  let '(idx, planes) := st in
  let kk := ksize_v self * ksize_v self in
  k <~ lift (slice_v 1 (Z.of_nat idx) (Z.of_nat (idx + kk)) kern) ;;
  k <~ softmax1_v k ;;
  e <~ apply_kernels_v k src ;;
  ret (idx + kk, planes ++ [e]).

Definition green_step_v (self : BayerKP_v) (kern g0 g1 : handle)
    (st : nat * list handle) : M (nat * list handle) :=
  let '(idx, greens) := st in
  let kk := ksize_v self * ksize_v self in
  k <~ lift (slice_v 1 (Z.of_nat idx) (Z.of_nat (idx + 2 * kk)) kern) ;;
  k <~ softmax1_v k ;;
  k0 <~ lift (slice_v 1 0%Z (Z.of_nat kk) k) ;;
  from_g0 <~ apply_kernels_v k0 g0 ;;
  k1 <~ lift (slice_v 1 (Z.of_nat kk) (Z.of_nat (2 * kk)) k) ;;
  from_g1 <~ apply_kernels_v k1 g1 ;;
  s <~ tadd_v from_g0 from_g1 ;;
  ret (idx + 2 * kk, greens ++ [s]).

Definition red_tiles_v (self : BayerKP_v) (kern r : handle) (idx : nat)
    : M (nat * list handle) :=
  st <~ for_range_v 3 (single_plane_step_v self kern r) (idx, [r]) ;;
  let '(idx, reds) := st in
  r0 <~ lift (item reds 0) ;; r1 <~ lift (item reds 1) ;;
  c <~ lift (crop_like_v r0 r1) ;;
  reds <~ lift (setitem reds 0 c) ;;
  a <~ lift (item reds 1) ;; b <~ lift (item reds 0) ;;
  c <~ lift (item reds 2) ;; d <~ lift (item reds 3) ;;
  ret (idx, [a; b; c; d]).

Definition blue_tiles_v (self : BayerKP_v) (kern b : handle) (idx : nat)
    : M (nat * list handle) :=
  st <~ for_range_v 3 (single_plane_step_v self kern b) (idx, [b]) ;;
  let '(idx, blues) := st in
  b0 <~ lift (item blues 0) ;; b1 <~ lift (item blues 1) ;;
  c <~ lift (crop_like_v b0 b1) ;;
  blues <~ lift (setitem blues 0 c) ;;
  a <~ lift (item blues 1) ;; b <~ lift (item blues 2) ;;
  c <~ lift (item blues 0) ;; d <~ lift (item blues 3) ;;
  ret (idx, [a; b; c; d]).

Definition green_tiles_v (self : BayerKP_v) (kern g0 g1 : handle) (idx : nat)
    : M (nat * list handle) :=
  st <~ for_range_v 2 (green_step_v self kern g0 g1) (idx, [g0; g1]) ;;
  let '(idx, greens) := st in
  x0 <~ lift (item greens 0) ;; x2 <~ lift (item greens 2) ;;
  c0 <~ lift (crop_like_v x0 x2) ;;
  greens <~ lift (setitem greens 0 c0) ;;
  x1 <~ lift (item greens 1) ;; x2 <~ lift (item greens 2) ;;
  c1 <~ lift (crop_like_v x1 x2) ;;
  greens <~ lift (setitem greens 1 c1) ;;
  a <~ lift (item greens 0) ;; b <~ lift (item greens 2) ;;
  c <~ lift (item greens 3) ;; d <~ lift (item greens 1) ;;
  ret (idx, [a; b; c; d]).

(** Lines 431-501 of [forward], after the kernels are predicted. *)
Definition reassemble_v (self : BayerKP_v) (color_samples kern : handle)
    : M handle :=
  match hshape kern with
  | [_; _; _; _] =>
      g0 <~ lift (slice_v 1 0%Z 1%Z color_samples) ;;
      b <~ lift (slice_v 1 1%Z 2%Z color_samples) ;;
      r <~ lift (slice_v 1 2%Z 3%Z color_samples) ;;
      g1 <~ lift (slice_v 1 3%Z 4%Z color_samples) ;;
      st <~ red_tiles_v self kern r 0 ;;
      let '(idx, reds) := st in
      c <~ cat1_v reds ;;
      red <~ unroll_v c ;;
      st <~ blue_tiles_v self kern b idx ;;
      let '(idx, blues) := st in
      c <~ cat1_v blues ;;
      blue <~ unroll_v c ;;
      st <~ green_tiles_v self kern g0 g1 idx ;;
      let '(idx, greens) := st in
      c <~ cat1_v greens ;;
      green <~ unroll_v c ;;
      cat1_v [red; green; blue]
  | _ => lift None
  end.

(** [BayerKP.forward] on views. *)
Definition forward_v (self : BayerKP_v) (samples : list (string * handle))
    : M handle :=
  mosaic <~ lift (lookup "mosaic" samples) ;;
  color_samples <~ color_samples_of_v mosaic ;;
  kern <~ kernels_v self color_samples ;;
  reassemble_v self color_samples kern.

End ForwardViews.

(** [extends h h']: every buffer of [h] is in [h'], unchanged. *)
Definition extends (h h' : heap) : Prop := exists ext, h' = h ++ ext.

(** [keeps n h h']: the first [n] buffers are unchanged. *)
Definition keeps (n : nat) (h h' : heap) : Prop :=
  n <= length h' /\ forall l, l < n -> nth_error h' l = nth_error h l.

(** A computation that never overwrites a buffer. *)
Definition alloc_only {X : Type} (m : M X) : Prop :=
  forall h x h', m h = Some (x, h') -> extends h h'.

(** A function on views that may overwrite the buffer of its argument, and
    no other buffer that exists when it is called. *)
Definition writes_only_argument (f : handle -> M handle) : Prop :=
  forall v h x h', f v h = Some (x, h') ->
    length h <= length h' /\
    forall l, l < length h -> l <> loc v -> nth_error h' l = nth_error h l.

(** [valid h v]: the view [v] addresses an existing buffer of [h];
    [sees h v t]: moreover it shows the tensor [t]. *)
Definition valid (h : list (list A)) (v : handle) : Prop :=
  loc v < length h /\ length (strides v) = length (hshape v).

Definition sees (h : list (list A)) (v : handle) (t : tensor A) : Prop :=
  valid h v /\ to_tensor h v = t.

(** A result on views refines a result on values. *)
Definition refines_o (h : list (list A)) (ov : option handle)
    (ot : option (tensor A)) : Prop :=
  match ov with
  | Some v => exists t, ot = Some t /\ sees h v t
  | None => ot = None
  end.

Definition refines_m (h : list (list A)) (m : M handle)
    (ot : option (tensor A)) : Prop :=
  match m h with
  | Some (v, h') => extends h h' /\ exists t, ot = Some t /\ sees h' v t
  | None => ot = None
  end.

End Views.

(** The demo predictor and softmax on views: both write a new buffer. *)
Definition zero_logits_v (depth margin : nat) (cs : handle) : M (A:=Q) handle :=
  match hshape cs with
  | [bs; _; h; w] =>
      fresh [bs; depth; h - 2 * margin; w - 2 * margin] (fun _ _ => 0%Q)
  | _ => lift None
  end.

Definition uniform_softmax_v (t : handle) : M (A:=Q) handle :=
  match hshape t with
  | _ :: S n :: _ => fresh (hshape t) (fun _ _ => (1 # Pos.of_nat (S n))%Q)
  | _ => lift None
  end.

(** A dense view of buffer [l] with shape [s]. *)
Definition dense_view (l : nat) (s : list nat) : handle :=
  mkHandle l 0 s (dense_strides s).

End Store.

(** ** [DemosaicVizCallback] (callbacks.py)

    The method [on_epoch_end] as a function on the trace of the calls of
    [self.batch_viz.update].  The objects of the runtime (batches, tensors,
    arrays) are opaque; the functions the method calls are the fields of a
    [runtime] and may raise.  The local variables of the method are kept in
    an environment: reading a local that has not been assigned raises
    [UnboundLocalError]. *)

Module Callbacks.

Inductive exn :=
  | UnboundLocalError (name : string)
  | Raised (msg : string).            (* an exception raised by a callee *)

Section Callback.
Variable obj : Type.

Record runtime := mkRuntime {
  make_variable : obj -> bool -> string + obj;  (* utils.make_variable(batch, cuda=c) *)
  call_model : obj -> obj -> string + obj;      (* self.model(batch_v) *)
  getitem : obj -> string -> string + obj;      (* d[key] *)
  data_of : obj -> string + obj;                (* v.data *)
  th_cat : list obj -> Z -> string + obj;       (* th.cat(ts, dim) *)
  cpu : obj -> string + obj;                    (* t.cpu() *)
  numpy : obj -> string + obj;                  (* t.numpy() *)
  np_clip : obj -> Z -> Z -> string + obj;      (* np.clip(a, lo, hi) *)
  float_const : Q -> obj;                       (* a float literal *)
  format1 : string -> obj -> string             (* fmt.format(x) *)
}.

(** The attributes that [__init__] sets (lines 13-20). *)
Record callback := mkCallback {
  batch_size : nat;
  model : obj;
  cuda : bool;
  loader : list obj        (* the batches that iterating [self.loader] yields *)
}.

(** [self.batch_viz.update(vizdata, per_row=..., caption=...)]. *)
Inductive event :=
  | Update (vizdata : obj) (per_row : nat) (caption : string).

Definition env := list (string * obj).

Definition state := (env * list event)%type.

Definition M (X : Type) : Type := state -> (exn + X) * state.

Definition ret {X : Type} (x : X) : M X := fun st => (inr x, st).

Definition bind {X Y : Type} (m : M X) (k : X -> M Y) : M Y :=
  fun st =>
    match m st with
    | (inl e, st') => (inl e, st')
    | (inr x, st') => k x st'
    end.

(** A call of the runtime: its value, or the exception it raises. *)
Definition call {X : Type} (r : string + X) : M X :=
  fun st =>
    match r with
    | inl msg => (inl (Raised msg), st)
    | inr x => (inr x, st)
    end.

Fixpoint find (name : string) (rho : env) : option obj :=
  match rho with
  | [] => None
  | (k, v) :: rho' => if String.eqb k name then Some v else find name rho'
  end.

(** Reading and assigning a local variable. *)
Definition load (name : string) : M obj :=
  fun st =>
    match find name (fst st) with
    | Some v => (inr v, st)
    | None => (inl (UnboundLocalError name), st)
    end.

Definition store (name : string) (v : obj) : M unit :=
  fun st => (inr tt, ((name, v) :: fst st, snd st)).

Definition emit (ev : event) : M unit :=
  fun st => (inr tt, (fst st, snd st ++ [ev])).

(** How a pass of the loop body ends. *)
Inductive flow := Next | Returned.

Fixpoint for_in (body : obj -> M flow) (items : list obj) : M flow :=
  match items with
  | [] => ret Next
  | x :: items' =>
      bind (body x) (fun f =>
        match f with
        | Returned => ret Returned
        | Next => for_in body items'
        end)
  end.

Variable rt : runtime.

(** Lines 24-44, the body of the loop. *)
Definition on_epoch_end_body (self : callback) (epoch : obj) (batch : obj) : M flow :=
  (* batch_v = utils.make_variable(batch, cuda=self._cuda) *)
  bind (call (make_variable rt batch (cuda self))) (fun v =>
  bind (store "batch_v" v) (fun _ =>
  (* output = self.model(batch_v) *)
  bind (load "batch_v") (fun batch_v =>
  bind (call (call_model rt (model self) batch_v)) (fun v =>
  bind (store "output" v) (fun _ =>
  (* eps = 1e-8 *)
  bind (store "eps" (float_const rt (1 # 100000000))) (fun _ =>
  (* mosaic = batch_v["mosaic"].data *)
  bind (load "batch_v") (fun batch_v =>
  bind (call (getitem rt batch_v "mosaic")) (fun v =>
  bind (call (data_of rt v)) (fun v =>
  bind (store "mosaic" v) (fun _ =>
  (* target = batch_v["target"].data *)
  bind (load "batch_v") (fun batch_v =>
  bind (call (getitem rt batch_v "target")) (fun v =>
  bind (call (data_of rt v)) (fun v =>
  bind (store "target" v) (fun _ =>
  (* noise_variance = batch_v["noise_variance"].data *)
  bind (load "batch_v") (fun batch_v =>
  bind (call (getitem rt batch_v "noise_variance")) (fun v =>
  bind (call (data_of rt v)) (fun v =>
  bind (store "noise_variance" v) (fun _ =>
  (* output = output["output"].data *)
  bind (load "output") (fun output =>
  bind (call (getitem rt output "output")) (fun v =>
  bind (call (data_of rt v)) (fun v =>
  bind (store "output" v) (fun _ =>
  (* vizdata = th.cat( [mosaic, output, target], 0) *)
  bind (load "mosaic") (fun mosaic =>
  bind (load "output") (fun output =>
  bind (load "target") (fun target =>
  bind (call (th_cat rt [mosaic; output; target] 0%Z)) (fun v =>
  bind (store "vizdata" v) (fun _ =>
  (* data = np.clip(data.cpu().numpy(), 0, 1) *)
  bind (load "data") (fun data =>
  bind (call (cpu rt data)) (fun v =>
  bind (call (numpy rt v)) (fun v =>
  bind (call (np_clip rt v 0%Z 1%Z)) (fun v =>
  bind (store "data" v) (fun _ =>
  (* self.batch_viz.update(vizdata, per_row=self.batch_size, caption=...) *)
  bind (load "vizdata") (fun vizdata =>
  bind (emit (Update vizdata (batch_size self)
                (format1 rt "{} | input, ours, reference" epoch))) (fun _ =>
  (* return  # process only one batch *)
  ret Returned)))))))))))))))))))))))))))))))))).

(** [on_epoch_end(self, epoch, logs)], started with no local assigned and
    the updates [tr] made so far: the outcome and the updates afterwards. *)
Definition on_epoch_end (self : callback) (epoch logs : obj) (tr : list event)
    : (exn + unit) * list event :=
  match for_in (on_epoch_end_body self epoch) (loader self) ([], tr) with
  | (inl e, st) => (inl e, snd st)
  | (inr _, st) => (inr tt, snd st)
  end.

(** No call of the runtime raises. *)
Definition never_raises : Prop :=
  (forall b c msg, make_variable rt b c <> inl msg) /\
  (forall m b msg, call_model rt m b <> inl msg) /\
  (forall d k msg, getitem rt d k <> inl msg) /\
  (forall v msg, data_of rt v <> inl msg) /\
  (forall ts d msg, th_cat rt ts d <> inl msg) /\
  (forall t msg, cpu rt t <> inl msg) /\
  (forall t msg, numpy rt t <> inl msg) /\
  (forall a lo hi msg, np_clip rt a lo hi <> inl msg).

End Callback.

Arguments make_variable {obj}.
Arguments call_model {obj}.
Arguments getitem {obj}.
Arguments data_of {obj}.
Arguments th_cat {obj}.
Arguments cpu {obj}.
Arguments numpy {obj}.
Arguments np_clip {obj}.
Arguments float_const {obj}.
Arguments format1 {obj}.
Arguments mkCallback {obj}.
Arguments batch_size {obj}.
Arguments model {obj}.
Arguments cuda {obj}.
Arguments loader {obj}.
Arguments Update {obj}.
Arguments ret {obj X}.
Arguments bind {obj X Y}.
Arguments call {obj X}.
Arguments find {obj}.
Arguments load {obj}.
Arguments store {obj}.
Arguments emit {obj}.
Arguments for_in {obj}.
Arguments on_epoch_end_body {obj}.
Arguments on_epoch_end {obj}.
Arguments never_raises {obj}.

(** A runtime in which every call succeeds, on numbers as objects, and a
    callback with one batch. *)
Definition demo_runtime : runtime nat :=
  mkRuntime nat
    (fun b _ => inr b) (fun _ b => inr b) (fun d _ => inr d) (fun v => inr v)
    (fun ts _ => inr (list_sum ts)) (fun t => inr t) (fun t => inr t)
    (fun a _ _ => inr a) (fun _ => 0) (fun fmt _ => fmt).

Definition demo_callback : callback nat := mkCallback 8 0 true [5].

End Callbacks.

(** ** The layers built by the [__init__] methods of [BayerNetwork],
       [BayerExperimental] and [BayerNN] (modules.py, lines 67-94, 162-186,
       245-261), and the [forward] methods that run them *)

Module Layers.

(** The layer constructors with the arguments the module passes; the other
    arguments keep their defaults. *)
Inductive layer :=
  | Conv2d (in_channels out_channels kernel_size stride padding : nat) (bias : bool)
  | ConvTranspose2d (in_channels out_channels kernel_size stride groups : nat)
  | ReLU (inplace : bool)
  | Linear (in_features out_features : nat)
  | LeakyReLU (inplace : bool).

(** An [OrderedDict] of layers, in insertion order. *)
Definition odict : Type := list (string * layer).

(** [d[key] = v]: a new key is appended, an old one keeps its place. *)
Fixpoint setitem (d : odict) (key : string) (v : layer) : odict :=
  match d with
  | [] => [(key, v)]
  | (k, x) :: d' =>
      if String.eqb k key then (k, v) :: d' else (k, x) :: setitem d' key v
  end.

(** [prefix + "{}".format(n)] for a natural number [n]. *)
Definition fmt (prefix : string) (n : nat) : string :=
  (prefix ++ DecimalString.NilEmpty.string_of_uint (Nat.to_uint n))%string.

(** [for i in range(n): st = body(i, st)]. *)
Definition for_i {S : Type} (n : nat) (body : nat -> S -> S) (st : S) : S :=
  fold_left (fun st i => body i st) (seq 0 n) st.

(** *** [BayerNetwork.__init__] *)

Record BayerNetwork := mkBayerNetwork {
  bn_depth : nat;
  bn_width : nat;
  main_processor : odict;          (* nn.Sequential(layers) *)
  residual_predictor : layer;
  upsampler : layer;
  fullres_processor : odict
}.

Definition BayerNetwork_init (depth width : nat) : BayerNetwork :=
  let layers := [("pack_mosaic"%string, Conv2d 3 4 2 2 0 true)] in
  let layers :=
    for_i depth (fun i layers =>
      let n_out := width in
      let n_in := width in
      let n_in := if i =? 0 then 4 else n_in in
      let n_out := if i =? depth - 1 then 2 * width else n_out in
      let layers := setitem layers (fmt "conv" (i + 1)) (Conv2d n_in n_out 3 1 0 true) in
      setitem layers (fmt "relu" (i + 1)) (ReLU true)) layers in
  mkBayerNetwork depth width layers
    (Conv2d width 12 1 1 0 true)
    (ConvTranspose2d 12 3 2 2 3)
    [("post_conv"%string, Conv2d 6 width 3 1 0 true);
     ("post_relu"%string, ReLU true);
     ("output"%string, Conv2d width 3 1 1 0 true)].

(** *** [BayerExperimental.__init__] *)

Record BayerExperimental := mkBayerExperimental {
  be_depth : nat;
  be_width : nat;
  fov : Z;
  local_mean : layer;
  net : odict
}.

Definition BayerExperimental_init (depth width : nat) : BayerExperimental :=
  let fov := ((Z.of_nat depth - 1) * 2 + 1)%Z in
  let layers :=
    for_i depth (fun i layers =>
      let n_out := width in
      let n_in := width in
      let n_in := if i =? 0 then 4 else n_in in
      if (Z.of_nat i <? Z.of_nat depth - 1)%Z then
        let layers := setitem layers (fmt "conv" (i + 1)) (Conv2d n_in n_out 3 1 0 true) in
        setitem layers (fmt "relu" (i + 1)) (ReLU true)
      else
        setitem layers "output" (Conv2d n_in 8 1 1 0 true)) [] in
  mkBayerExperimental depth width fov (Conv2d 4 1 3 1 1 false) layers.

(** The entries that pass [i] of the loop of [BayerNetwork.__init__]
    assigns. *)
Definition bn_pass (depth width i : nat) : odict :=
  [(fmt "conv" (i + 1),
    Conv2d (if i =? 0 then 4 else width) (if i =? depth - 1 then 2 * width else width)
      3 1 0 true);
   (fmt "relu" (i + 1), ReLU true)].

(** The entries that a pass [i < depth - 1] of the loop of
    [BayerExperimental.__init__] assigns. *)
Definition be_pass (width i : nat) : odict :=
  [(fmt "conv" (i + 1), Conv2d (if i =? 0 then 4 else width) width 3 1 0 true);
   (fmt "relu" (i + 1), ReLU true)].

(** The keys assigned before pass [a]. *)
Definition earlier_key (a : nat) (k : string) : Prop :=
  k = "pack_mosaic"%string \/
  exists j, j <= a /\ (k = fmt "conv" j \/ k = fmt "relu" j).

(** *** [BayerNN.__init__] *)

Record BayerNN := mkBayerNN {
  nn_fov : nat;
  nn_normalize : bool;
  nn_net : odict            (* nn.Sequential of positional layers: keys 0, 1, ... *)
}.

Definition BayerNN_init (fov : nat) (normalize : bool) : BayerNN :=
  mkBayerNN fov normalize
    [("0"%string, Linear (fov * fov * 4) 128);
     ("1"%string, LeakyReLU true);
     ("2"%string, Linear 128 64);
     ("3"%string, LeakyReLU true);
     ("4"%string, Linear 64 64);
     ("5"%string, LeakyReLU true);
     ("6"%string, Linear 64 32);
     ("7"%string, LeakyReLU true);
     ("8"%string, Linear 32 12)].

(** *** The shapes of the layers

    The shape of the result of a layer, as the runtime documents it: on an
    input of shape (bs, c, h, w) a convolution needs [in_channels] input
    channels and a padded input no smaller than its kernel; on an input of
    shape (n, f) a linear layer needs f = [in_features]. *)
Definition layer_shape (l : layer) (s : list nat) : option (list nat) :=
  match l, s with
  | Conv2d n_in n_out k stride pad _, [bs; c; h; w] =>
      if (c =? n_in) && (0 <? stride) && (k <=? h + 2 * pad) && (k <=? w + 2 * pad)
      then Some [bs; n_out; (h + 2 * pad - k) / stride + 1; (w + 2 * pad - k) / stride + 1]
      else None
  | ConvTranspose2d n_in n_out k stride _, [bs; c; h; w] =>
      if (c =? n_in) && (0 <? h) && (0 <? w)
      then Some [bs; n_out; (h - 1) * stride + k; (w - 1) * stride + k]
      else None
  | ReLU _, _ => Some s
  | Linear n_in n_out, [n; f] => if f =? n_in then Some [n; n_out] else None
  | LeakyReLU _, _ => Some s
  | _, _ => None
  end.

Fixpoint sequential_shape (ls : list layer) (s : list nat) : option (list nat) :=
  match ls with
  | [] => Some s
  | l :: ls' => s' <- layer_shape l s ;; sequential_shape ls' s'
  end.

Section Networks.
Context {A : Type} `{Scalar A}.

(** [layer(input)]: the weights are not modelled. *)
Variable run : layer -> tensor A -> option (tensor A).

(** [nn.Sequential(layers)(input)]. *)
Fixpoint sequential (ls : odict) (t : tensor A) : option (tensor A) :=
  match ls with
  | [] => Some t
  | (_, l) :: ls' => t' <- run l t ;; sequential ls' t'
  end.

(** [t[:, start:]]. *)
Definition slice_from1 (start : nat) (t : tensor A) : option (tensor A) :=
  slice 1 (Z.of_nat start) (Z.of_nat (nth 1 (shape t) 0)) t.

(** [BayerNetwork.forward] (lines 96-113). *)
Definition BayerNetwork_forward (self : BayerNetwork) (samples : list (string * tensor A))
    : option (tensor A) :=
  mosaic <- lookup "mosaic" samples ;;
  features <- sequential (main_processor self) mosaic ;;
  filters <- slice 1 0%Z (Z.of_nat (bn_width self)) features ;;
  masks <- slice_from1 (bn_width self) features ;;
  filtered <- tmul filters masks ;;
  residual <- run (residual_predictor self) filtered ;;
  upsampled <- run (upsampler self) residual ;;
  (* crop original mosaic to match output size *)
  cropped <- crop_like mosaic upsampled ;;
  (* Concated input samples and residual for further filtering *)
  packed <- cat1 [cropped; upsampled] ;;
  sequential (fullres_processor self) packed.

(** *** [BayerExperimental.forward] (lines 188-241) *)

(** A function applied to every entry, as in [th.log(t + eps)]. *)
Definition tmap (f : A -> A) (t : tensor A) : tensor A :=
  tabulate (shape t) (fun idx => f (get t idx)).

(** [output.resize_(s); output.zero_()]. *)
Definition zeros (s : list nat) : tensor A := tabulate s (fun _ => zero).

(** [t[:, c]]. *)
Definition select1 (c : nat) (t : tensor A) : option (tensor A) :=
  match shape t with
  | n0 :: n1 :: s' =>
      if c <? n1
      then Some (tabulate (n0 :: s') (fun idx => get t (insert_at 1 c idx)))
      else None
  | _ => None
  end.

(** The number of indices that [a::2] selects on an axis of length [n]. *)
Definition phase_len (n a : nat) : nat := (n - a + 1) / 2.

(** [t[:, c, a::2, b::2]] on a tensor of four axes. *)
Definition phase (c a b : nat) (t : tensor A) : option (tensor A) :=
  match shape t with
  | [n0; n1; n2; n3] =>
      if c <? n1
      then Some (tabulate [n0; phase_len n2 a; phase_len n3 b]
                   (fun idx => get t [ix idx 0; c; a + 2 * ix idx 1; b + 2 * ix idx 2]))
      else None
  | _ => None
  end.

(** [out[:, c, a::2, b::2] = src]: [src], of three axes, is broadcast to
    the shape of the selection and replaces its entries. *)
Definition assign_phase (c a b : nat) (out src : tensor A) : option (tensor A) :=
  match shape out with
  | [n0; n1; n2; n3] =>
      if c <? n1 then
        let region := [n0; phase_len n2 a; phase_len n3 b] in
        s <- broadcast (shape src) region ;;
        if list_eq_dec Nat.eq_dec s region then
          Some (tabulate (shape out)
                  (fun idx =>
                     if (ix idx 1 =? c)
                        && (a <=? ix idx 2) && ((ix idx 2 - a) mod 2 =? 0)
                        && (b <=? ix idx 3) && ((ix idx 3 - b) mod 2 =? 0)
                     then get src (bc_index (shape src)
                                     [ix idx 0; (ix idx 2 - a) / 2; (ix idx 3 - b) / 2])
                     else get out idx))
        else None
      else None
  | _ => None
  end.

(** Scalar functions of the runtime. *)
Variable th_log : A -> A.
Variable th_exp : A -> A.
Variable sub : A -> A -> A.
(** The literal [1e-8]. *)
Variable eps : A.

(** Lines 190-211: the mosaic, the batch size and [recons_samples]. *)
Definition BayerExperimental_recons (self : BayerExperimental)
    (samples : list (string * tensor A)) : option (tensor A * nat * tensor A) :=
  mosaic <- lookup "mosaic" samples ;;
  color_samples <- color_samples_of mosaic ;;
  match shape color_samples with
  | [bs; _; _; _] =>
      let color_samples := tmap (fun x => th_log (add x eps)) color_samples in
      input_mean <- run (local_mean self) color_samples ;;
      centred <- zip_with_bc sub color_samples input_mean ;;
      recons_samples <- sequential (net self) centred ;;
      cmean <- crop_like input_mean recons_samples ;;
      recons_samples <- tadd recons_samples cmean ;;
      let recons_samples := tmap (fun x => sub (th_exp x) eps) recons_samples in
      Some (mosaic, bs, recons_samples)
  | _ => None
  end.

(** Lines 213-241: the output buffer and the twelve assignments. *)
Definition BayerExperimental_assemble (st : tensor A * nat * tensor A)
    : option (tensor A) :=
  let '(mosaic, bs, recons_samples) := st in
  match shape recons_samples with
  | [_; _; h; w] =>
      let output := zeros [bs; 3; 2 * h; 2 * w] in
      cmosaic <- crop_like mosaic output ;;
      (* has green *)
      v <- select1 0 recons_samples ;; output <- assign_phase 0 0 0 output v ;;
      v <- phase 1 0 0 cmosaic ;; output <- assign_phase 1 0 0 output v ;;
      v <- select1 1 recons_samples ;; output <- assign_phase 2 0 0 output v ;;
      (* has red *)
      v <- phase 0 0 1 cmosaic ;; output <- assign_phase 0 0 1 output v ;;
      v <- select1 2 recons_samples ;; output <- assign_phase 1 0 1 output v ;;
      v <- select1 3 recons_samples ;; output <- assign_phase 2 0 1 output v ;;
      (* has blue *)
      v <- select1 4 recons_samples ;; output <- assign_phase 0 1 0 output v ;;
      v <- select1 5 recons_samples ;; output <- assign_phase 1 1 0 output v ;;
      v <- phase 2 1 0 cmosaic ;; output <- assign_phase 2 1 0 output v ;;
      (* has green *)
      v <- select1 6 recons_samples ;; output <- assign_phase 0 1 1 output v ;;
      v <- phase 1 1 1 cmosaic ;; output <- assign_phase 1 1 1 output v ;;
      v <- select1 7 recons_samples ;; output <- assign_phase 2 1 1 output v ;;
      Some output
  | _ => None
  end.

Definition BayerExperimental_forward (self : BayerExperimental)
    (samples : list (string * tensor A)) : option (tensor A) :=
  st <- BayerExperimental_recons self samples ;;
  BayerExperimental_assemble st.

(** *** [BayerNN.forward] (lines 263-306) *)

Variable th_clamp : A -> A.               (* th.clamp(x, min=-0.5) on an entry *)
Variable th_mean : list A -> A.           (* the mean of a row *)
(** The literals [1] and [1.0]. *)
Variable one : A.

(** [t.mean(1, keepdim=True)] on a matrix. *)
Definition mean1 (t : tensor A) : option (tensor A) :=
  match shape t with
  | [n; f] =>
      Some (tabulate [n; 1]
              (fun idx => th_mean (map (fun k => get t [ix idx 0; k]) (seq 0 f))))
  | _ => None
  end.

(** [t -= u] and [t += u]: the result of the broadcast must have the shape
    of [t]. *)
Definition inplace (op : A -> A -> A) (t u : tensor A) : option (tensor A) :=
  r <- zip_with_bc op t u ;;
  if list_eq_dec Nat.eq_dec (shape r) (shape t) then Some r else None.

(** Lines 264-278: the matrix of patches, one row per position, and
    [bs, h, w, c]. *)
Definition BayerNN_patches (self : BayerNN) (samples : list (string * tensor A))
    : option (tensor A * nat * nat * nat * nat) :=
  mosaic <- lookup "mosaic" samples ;;
  let fov := nn_fov self in
  color_samples <- color_samples_of mosaic ;;
  in_f <- unfold 3 fov 1 color_samples ;;
  in_f <- unfold 2 fov 1 in_f ;;
  in_f <- permute [0; 2; 3; 1; 4; 5] in_f ;;
  match shape in_f with
  | [bs; h; w; c; _; _] =>
      in_f <- view [bs * h * w; c * fov * fov] (contiguous in_f) ;;
      Some (in_f, bs, h, w, c)
  | _ => None
  end.

(** Lines 280-299: normalization, the network, denormalization. *)
Definition BayerNN_process (self : BayerNN) (st : tensor A * nat * nat * nat * nat)
    : option (tensor A * nat * nat * nat) :=
  let '(in_f, bs, h, w, c) := st in
  let fov := nn_fov self in
  (* Log normalize *)
  st1 <- (if nn_normalize self then
            let in_f := tmap (fun x => th_log (add x one)) in_f in
            mean_f <- mean1 in_f ;;
            in_f <- inplace sub in_f mean_f ;;
            let in_f := tmap (fun x => sub (th_exp x) one) in_f in
            Some (in_f, Some mean_f)
          else Some (in_f, None)) ;;
  let '(in_f, mean_f) := st1 in
  in_f <- view [bs * h * w; c * fov * fov] in_f ;;
  out_f <- sequential (nn_net self) in_f ;;
  (* Log denormalize *)
  out_f <- (if nn_normalize self then
              let out_f := tmap (fun x => th_log (add (th_clamp x) one)) out_f in
              mean_f <- mean_f ;;
              out_f <- inplace add out_f mean_f ;;
              Some (tmap (fun x => sub (th_exp x) one) out_f)
            else Some out_f) ;;
  Some (out_f, bs, h, w).

(** Lines 301-304: from one row of twelve values per position to three
    channels of 2x2 tiles. *)
Definition BayerNN_assemble (st : tensor A * nat * nat * nat) : option (tensor A) :=
  let '(out_f, bs, h, w) := st in
  out_f <- view [bs; h; w; 3; 2; 2] out_f ;;
  out_f <- permute [0; 3; 1; 4; 2; 5] out_f ;;
  view [bs; 3; h * 2; w * 2] (contiguous out_f).

Definition BayerNN_forward (self : BayerNN) (samples : list (string * tensor A))
    : option (tensor A) :=
  st <- BayerNN_patches self samples ;;
  st <- BayerNN_process self st ;;
  BayerNN_assemble st.

End Networks.

(** The layers behave as documented: a layer returns exactly on the inputs
    that [layer_shape] accepts, with the shape it gives. *)
Definition runs_as_documented {A : Type}
    (run : layer -> tensor A -> option (tensor A)) : Prop :=
  forall l t, option_map shape (run l t) = layer_shape l (shape t).

(** Layers with all weights zero. *)
Definition zero_layer (l : layer) (t : tensor Q) : option (tensor Q) :=
  s <- layer_shape l (shape t) ;; Some (tabulate s (fun _ => 0%Q)).

End Layers.

(** ** Vocabulary of the statements *)

(** The crop computed on lines 25-32 of [apply_kernels], per side: on the
    kernel when it needs more rows than the source has, on the source
    otherwise. *)
Definition needed_rows (kh ksize : nat) : Z :=
  (Z.of_nat kh + Z.of_nat ksize - 1)%Z.

Definition kernel_crop (kh ksize h : nat) : nat :=
  if (needed_rows kh ksize >? Z.of_nat h)%Z
  then Z.to_nat ((needed_rows kh ksize - Z.of_nat h) / 2)
  else 0.

Definition source_crop (kh ksize h : nat) : nat :=
  if (needed_rows kh ksize >? Z.of_nat h)%Z
  then 0
  else Z.to_nat ((Z.of_nat h - needed_rows kh ksize) / 2).

(** The K x K window of a source plane anchored at row [y], column [x], in
    the order of the unfolded tiles. *)
Definition neighborhood {A : Type} `{Scalar A} (src : tensor A)
    (K b c y x : nat) : list A :=
  map (fun q => get src [b; c; y + q / K; x + q mod K]) (seq 0 (K * K)).

Definition Qlist_min (l : list Q) : Q :=
  match l with
  | [] => 0%Q
  | x :: l' => fold_left Qmin l' x
  end.

Definition Qlist_max (l : list Q) : Q :=
  match l with
  | [] => 0%Q
  | x :: l' => fold_left Qmax l' x
  end.

(** An order in which [th.sum] can add indexed terms: a term, or the sum of
    two partial sums. *)
Inductive sum_order :=
  | Term (q : nat)
  | Plus (l r : sum_order).

Fixpoint terms (t : sum_order) : list nat :=
  match t with
  | Term q => [q]
  | Plus l r => terms l ++ terms r
  end.

Fixpoint sum_in_order {A : Type} `{Scalar A} (x : nat -> A) (t : sum_order) : A :=
  match t with
  | Term q => x q
  | Plus l r => add (sum_in_order x l) (sum_in_order x r)
  end.

(** [t] adds each of the terms 0, ..., n - 1 once. *)
Definition sums_each_once (n : nat) (t : sum_order) : bool :=
  (length (terms t) =? n) &&
  forallb (fun q => existsb (Nat.eqb q) (terms t)) (seq 0 n).

(** A single-channel plane of batch size [bs]. *)
Definition plane_like {A : Type} (bs : nat) (t : tensor A) : Prop :=
  exists h w, shape t = [bs; 1; h; w].

(** An entry of [gray_mosaic = mosaic.sum(1)]. *)
Definition sensor_reading {A : Type} `{Scalar A} (mosaic : tensor A)
    (C b Y X : nat) : A :=
  sum_list (map (fun k => get mosaic [b; k; Y; X]) (seq 0 C)).

(** What the loops of [forward] append: the output of [apply_kernels] on a
    known plane, or the sum of two such outputs for green. *)
Definition estimate_of {A : Type} `{Scalar A} (src e : tensor A) : Prop :=
  exists k, apply_kernels k src = Some e.

Definition green_estimate_of {A : Type} `{Scalar A} (g0 g1 e : tensor A) : Prop :=
  exists k0 k1 e0 e1,
    apply_kernels k0 g0 = Some e0 /\ apply_kernels k1 g1 = Some e1 /\
    tadd e0 e1 = Some e.

(** A predictor followed by [k[:, 0:n]]. *)
Definition keep_channels {A : Type} `{Scalar A} (n : nat)
    (pred : tensor A -> option (tensor A)) (cs : tensor A) : option (tensor A) :=
  k <- pred cs ;; slice 1 0%Z (Z.of_nat n) k.

(** [F.softmax(k, 1)] returns a tensor of the shape of its argument on every
    bank with at least one channel. *)
Definition softmax_returns {A : Type} (softmax1 : tensor A -> option (tensor A)) : Prop :=
  forall t b c h w, shape t = [b; S c; h; w] ->
    exists t', softmax1 t = Some t' /\ shape t' = shape t.

(** Whatever [F.softmax(k, 1)] returns has the shape of its argument. *)
Definition softmax_keeps_shape {A : Type} (softmax1 : tensor A -> option (tensor A)) : Prop :=
  forall t t', softmax1 t = Some t' -> shape t' = shape t.

(** A predictor without padding: on [bs] batches of four h x w planes it
    returns a bank of [D] channels that is [e] entries smaller on every
    side. *)
Definition predicts_bank {A : Type} (pred : tensor A -> option (tensor A))
    (bs h w D e : nat) : Prop :=
  forall cs, shape cs = [bs; 4; h; w] ->
    exists kern, pred cs = Some kern /\ shape kern = [bs; D; h - 2 * e; w - 2 * e].

Definition bank_of {A : Type} (pred : tensor A -> option (tensor A))
    (bs h w D e : nat) : Prop :=
  forall cs kern, shape cs = [bs; 4; h; w] -> pred cs = Some kern ->
    shape kern = [bs; D; h - 2 * e; w - 2 * e].

(** An estimate computed from the [n] channels of the bank that start at
    channel [lo]: [apply_kernels(F.softmax(kernels[:, lo:lo+n], 1), src)]. *)
Definition estimate_from {A : Type} `{Scalar A}
    (softmax1 : tensor A -> option (tensor A)) (kern src : tensor A)
    (lo n : nat) (e : tensor A) : Prop :=
  exists k k',
    slice 1 (Z.of_nat lo) (Z.of_nat (lo + n)) kern = Some k /\
    softmax1 k = Some k' /\
    apply_kernels k' src = Some e.

(** A green estimate computed from the [2 n] channels that start at [lo]:
    the softmax is taken over all of them, the first half is applied to
    [g0], the second half to [g1], and the results are added. *)
Definition green_estimate_from {A : Type} `{Scalar A}
    (softmax1 : tensor A -> option (tensor A)) (kern g0 g1 : tensor A)
    (lo n : nat) (e : tensor A) : Prop :=
  exists k k' k0 k1 e0 e1,
    slice 1 (Z.of_nat lo) (Z.of_nat (lo + 2 * n)) kern = Some k /\
    softmax1 k = Some k' /\
    slice 1 0%Z (Z.of_nat n) k' = Some k0 /\
    slice 1 (Z.of_nat n) (Z.of_nat (2 * n)) k' = Some k1 /\
    apply_kernels k0 g0 = Some e0 /\ apply_kernels k1 g1 = Some e1 /\
    tadd e0 e1 = Some e.

(** [F.softmax(k, 1)] returns, on every bank with at least one channel, a
    tensor of the shape of its argument whose entries are not negative and
    sum to 1 along the channels. *)
Definition softmax_distribution (softmax1 : tensor Q -> option (tensor Q)) : Prop :=
  forall t b c h w, shape t = [b; S c; h; w] ->
    exists t', softmax1 t = Some t' /\ shape t' = shape t /\
      (forall n q i j, n < b -> q < S c -> i < h -> j < w ->
         Qle 0 (get t' [n; q; i; j])) /\
      (forall n i j, n < b -> i < h -> j < w ->
         (sum_list (map (fun q => get t' [n; q; i; j]) (seq 0 (S c))) == 1)%Q).

(** ** Concrete tensors *)

(** The buffer 1, 2, 3, ... in a given shape. *)
Definition ramp (s : list nat) : tensor Z :=
  mkTensor s (map Z.of_nat (seq 1 (numel s))).

(** A bank of uniform weights 1/n and a rational ramp. *)
Definition uniform (s : list nat) (n : positive) : tensor Q :=
  mkTensor s (repeat (1 # n)%Q (numel s)).

Definition qramp (s : list nat) : tensor Q :=
  mkTensor s (map (fun k => inject_Z (Z.of_nat k)) (seq 1 (numel s))).

(** Floating-point numbers [m * 2^e], and for a precision [p]: the weights
    1/16, 1/16, 5/16 and 9/16 of one kernel of footprint 2, and a 2 x 2 source
    plane that holds [2^p - 1] everywhere.  Every entry is a number of that
    precision (a significand of [p] bits). *)
Definition fl (m : positive) (e : Z) : SpecFloat.spec_float :=
  SpecFloat.S754_finite false m e.

Definition skewed_weights (p : Z) : tensor SpecFloat.spec_float :=
  mkTensor [1; 4; 1; 1]
    [fl (Z.to_pos (2 ^ (p - 1))) (- p - 3); fl (Z.to_pos (2 ^ (p - 1))) (- p - 3);
     fl (Z.to_pos (5 * 2 ^ (p - 3))) (- p - 1); fl (Z.to_pos (9 * 2 ^ (p - 4))) (- p)].

Definition flat_source (p : Z) : tensor SpecFloat.spec_float :=
  mkTensor [1; 1; 2; 2] (repeat (fl (Z.to_pos (2 ^ p - 1)) 0) 4).

(** A kernel predictor that returns zero logits, [margin] pixels smaller on
    every side, and the softmax of constant logits. *)
Definition zero_logits (depth margin : nat) (cs : tensor Q) : option (tensor Q) :=
  match shape cs with
  | [bs; _; h; w] =>
      Some (tabulate [bs; depth; h - 2 * margin; w - 2 * margin] (fun _ => 0%Q))
  | _ => None
  end.

Definition uniform_softmax (t : tensor Q) : option (tensor Q) :=
  match shape t with
  | _ :: S n :: _ => Some (tabulate (shape t) (fun _ => (1 # Pos.of_nat (S n))%Q))
  | _ => None
  end.

Definition demo_kp : BayerKP := mkBayerKP 3 (zero_logits 90 1).

(** A 10 x 10 single-channel mosaic with the squares 1, 4, 9, ... *)
Definition demo_mosaic : tensor Q :=
  mkTensor [1; 1; 10; 10]
    (map (fun k => inject_Z (Z.of_nat (k * k))) (seq 1 (numel [1; 1; 10; 10]))).

Definition demo_samples : list (string * tensor Q) :=
  [("mosaic"%string, demo_mosaic)].

Definition demo_color_samples : tensor Q :=
  Eval vm_compute in
    match color_samples_of demo_mosaic with
    | Some cs => cs
    | None => mkTensor [] []
    end.

Definition demo_kernels : tensor Q :=
  Eval vm_compute in
    match kernels demo_kp demo_color_samples with
    | Some k => k
    | None => mkTensor [] []
    end.

(** Plane [p] of the unpacked demo mosaic, [color_samples[:, p:p+1]]. *)
Definition demo_plane (p : nat) : tensor Q :=
  match slice 1 (Z.of_nat p) (Z.of_nat (S p)) demo_color_samples with
  | Some t => t
  | None => mkTensor [] []
  end.

Definition demo_heap : list (list Q) := [data demo_mosaic].

Definition demo_mosaic_v : Store.handle := Store.dense_view 0 [1; 1; 10; 10].

Definition demo_kp_v : Store.BayerKP_v (A:=Q) :=
  Store.mkBayerKP_v 3 (Store.zero_logits_v 90 1).

Definition demo_output : tensor Q :=
  Eval vm_compute in
    match forward uniform_softmax demo_kp demo_samples with
    | Some out => out
    | None => mkTensor [] []
    end.

(** * Properties *)

(** ** Row-major indexing *)

Lemma ravel_lt (s idx : list nat) : inb s idx -> ravel s idx < numel s.
Proof.
  revert idx; induction s as [|n s IH]; intros [|i idx]; simpl; try tauto.
  - lia.
  - intros [Hi Hr]. specialize (IH _ Hr). nia.
Qed.

Lemma unravel_ravel (s idx : list nat) : inb s idx -> unravel s (ravel s idx) = idx.
Proof.
  revert idx; induction s as [|n s IH]; intros [|i idx]; simpl; try tauto.
  intros [Hi Hr]. pose proof (ravel_lt _ _ Hr) as Hlt.
  f_equal.
  - rewrite Nat.div_add_l by lia. rewrite Nat.div_small by assumption. lia.
  - rewrite Nat.add_comm, Nat.Div0.mod_add, Nat.mod_small by assumption.
    now apply IH.
Qed.

Lemma unravel_inb (s : list nat) (k : nat) : k < numel s -> inb s (unravel s k).
Proof.
  revert k; induction s as [|n s IH]; simpl; intros k Hk; [exact I|].
  assert (Hpos : 0 < numel s) by (destruct (numel s); lia).
  split.
  - apply Nat.Div0.div_lt_upper_bound. lia.
  - apply IH. apply Nat.mod_upper_bound. lia.
Qed.

Lemma ravel_unravel (s : list nat) (k : nat) : k < numel s -> ravel s (unravel s k) = k.
Proof.
  revert k; induction s as [|n s IH]; simpl; intros k Hk; [lia|].
  assert (Hpos : 0 < numel s) by (destruct (numel s); lia).
  rewrite IH by (apply Nat.mod_upper_bound; lia).
  pose proof (Nat.div_mod_eq k (numel s)). lia.
Qed.

Section TensorFacts.
Context {A : Type} `{Scalar A}.

Lemma get_tabulate (s : list nat) (f : list nat -> A) (idx : list nat) :
  inb s idx -> get (tabulate s f) idx = f idx.
Proof.
  intros Hin. unfold get, tabulate; simpl.
  pose proof (ravel_lt _ _ Hin) as Hlt.
  rewrite (nth_indep _ zero (f (unravel s 0))) by (now rewrite length_map, length_seq).
  rewrite (map_nth (fun k => f (unravel s k))), seq_nth by assumption.
  simpl. now rewrite unravel_ravel.
Qed.

Lemma wf_tabulate (s : list nat) (f : list nat -> A) : wf (tabulate s f).
Proof. unfold wf, tabulate; simpl. now rewrite length_map, length_seq. Qed.

(** Two buffers of one shape with the same entries are the same tensor. *)
Lemma tensor_ext (t1 t2 : tensor A) :
  wf t1 -> wf t2 -> shape t1 = shape t2 ->
  (forall idx, inb (shape t1) idx -> get t1 idx = get t2 idx) ->
  t1 = t2.
Proof.
  destruct t1 as [s1 d1], t2 as [s2 d2]; unfold wf, get; simpl.
  intros W1 W2 <- Hget. f_equal.
  apply (nth_ext _ _ zero zero); [congruence|].
  intros k Hk. rewrite W1 in Hk.
  specialize (Hget _ (unravel_inb _ _ Hk)).
  now rewrite ravel_unravel in Hget.
Qed.

Lemma view_some (s : list nat) (t t' : tensor A) :
  view s t = Some t' -> numel s = numel (shape t) /\ shape t' = s /\ data t' = data t.
Proof.
  unfold view. destruct (numel s =? numel (shape t)) eqn:E; [|discriminate].
  intros [= <-]. apply Nat.eqb_eq in E. auto.
Qed.

Lemma view_ok (s : list nat) (t : tensor A) :
  numel s = numel (shape t) -> view s t = Some (mkTensor s (data t)).
Proof. intros E. unfold view. now rewrite E, Nat.eqb_refl. Qed.

End TensorFacts.

(** ** Facts about the primitives *)

Lemma norm_index_nonneg n v : (0 <= v)%Z -> norm_index n v = Nat.min (Z.to_nat v) n.
Proof. intros Hv. unfold norm_index. destruct (Z.ltb_spec v 0); [lia|reflexivity]. Qed.

Lemma norm_index_neg n v : (v < 0)%Z -> norm_index n v = n - Z.to_nat (- v).
Proof. intros Hv. unfold norm_index. destruct (Z.ltb_spec v 0); lia. Qed.

Ltac inb_solve := cbn [inb]; repeat split; try assumption; try lia.

Lemma bc_fix (n i : nat) : i < n -> (if n =? 1 then 0 else i) = i.
Proof. intros Hi. destruct (Nat.eqb_spec n 1); lia. Qed.

Lemma broadcast_axis1 (a m c d e : nat) :
  broadcast [a; 1; c; d; e] [a; m; c; d; e] = Some [a; m; c; d; e].
Proof.
  simpl. rewrite !Nat.eqb_refl.
  destruct m as [|[|m]]; reflexivity.
Qed.

Lemma div_lt_sq (q K : nat) : q < K * K -> q / K < K.
Proof. intros Hq. apply Nat.Div0.div_lt_upper_bound. lia. Qed.

Section Primitives.
Context {A : Type} `{Scalar A}.

Lemma get_reshape (s : list nat) (t : tensor A) (idx' idx : list nat) :
  ravel s idx' = ravel (shape t) idx ->
  get (mkTensor s (data t)) idx' = get t idx.
Proof. intros E. unfold get; simpl. now rewrite E. Qed.

Lemma unfold_ok (d size step : nat) (t : tensor A) :
  d < length (shape t) -> size <= nth d (shape t) 0 -> 0 < step ->
  unfold d size step t =
    Some (tabulate (upd d ((nth d (shape t) 0 - size) / step + 1) (shape t) ++ [size])
            (fun idx => get t (upd d (ix idx d * step + ix idx (length (shape t)))
                                   (firstn (length (shape t)) idx)))).
Proof.
  intros Hd Hs Hst. unfold unfold.
  apply Nat.ltb_lt in Hd, Hst. apply Nat.leb_le in Hs.
  now rewrite Hd, Hs, Hst.
Qed.

Lemma unfold_inv (d size step : nat) (t t' : tensor A) :
  unfold d size step t = Some t' ->
  d < length (shape t) /\ size <= nth d (shape t) 0 /\ 0 < step /\
  shape t' = upd d ((nth d (shape t) 0 - size) / step + 1) (shape t) ++ [size].
Proof.
  unfold unfold.
  destruct (Nat.ltb_spec d (length (shape t))); [|discriminate].
  destruct (Nat.leb_spec size (nth d (shape t) 0)); [|discriminate].
  destruct (Nat.ltb_spec 0 step); [|discriminate].
  simpl. intros [= <-]. auto.
Qed.

Lemma crop_hw_spec (c : Z) (t : tensor A) n0 n1 n2 n3 :
  shape t = [n0; n1; n2; n3] -> (0 < c)%Z ->
  exists t', crop_hw c t = Some t' /\
    shape t' = [n0; n1; n2 - 2 * Z.to_nat c; n3 - 2 * Z.to_nat c] /\
    forall b ch i j, b < n0 -> ch < n1 ->
      i < n2 - 2 * Z.to_nat c -> j < n3 - 2 * Z.to_nat c ->
      get t' [b; ch; i; j] = get t [b; ch; i + Z.to_nat c; j + Z.to_nat c].
Proof.
  intros Hs Hc. unfold crop_hw, slice. rewrite Hs. simpl.
  rewrite !(norm_index_nonneg _ c), !(norm_index_neg _ (- c)) by lia.
  rewrite Z.opp_involutive.
  eexists. split; [reflexivity|]. split.
  - simpl. f_equal. f_equal. f_equal; [lia|]. f_equal; lia.
  - intros b ch i j Hb Hch Hi Hj.
    rewrite get_tabulate by inb_solve. simpl. unfold ix; simpl.
    rewrite get_tabulate by inb_solve. simpl. unfold ix; simpl.
    f_equal. f_equal. f_equal. f_equal; [lia|]. f_equal; lia.
Qed.

Lemma weighted_sum_ok (kernel noisy : tensor A) (bs ci K kh kw : nat) :
  shape kernel = [bs; K * K; kh; kw] ->
  shape noisy = [bs; ci; kh + K - 1; kw + K - 1] ->
  1 <= K -> 1 <= kh -> 1 <= kw ->
  exists out, weighted_sum bs ci K (kernel, kh, kw, noisy) = Some out /\
    shape out = [bs; ci; kh; kw] /\
    forall b c i j, b < bs -> c < ci -> i < kh -> j < kw ->
      get out [b; c; i; j] =
        sum_list (map (fun q => mul (get kernel [b; q; i; j])
                                    (get noisy [b; c; i + q / K; j + q mod K]))
                      (seq 0 (K * K))).
Proof.
  intros Hk Hn HK Hkh Hkw. unfold weighted_sum, permute, contiguous.
  rewrite Hk. cbn [length is_perm Nat.eqb andb forallb seq existsb orb map nth].
  rewrite view_ok by (simpl; ring).
  rewrite unfold_ok by (rewrite ?Hn; simpl; lia).
  rewrite unfold_ok by (simpl; rewrite ?Hn; simpl; lia).
  rewrite Hn. cbn [shape tabulate upd app nth length].
  rewrite !Nat.div_1_r.
  replace (kh + K - 1 - K + 1) with kh by lia.
  replace (kw + K - 1 - K + 1) with kw by lia.
  rewrite view_ok by (simpl; ring).
  unfold tmul, zip_with_bc. cbn [shape]. rewrite broadcast_axis1.
  unfold sum_dim. cbn [shape tabulate length Nat.ltb Nat.leb remove_at nth].
  eexists. split; [reflexivity|]. split; [reflexivity|].
  intros b c i j Hb Hc Hi Hj.
  rewrite get_tabulate by inb_solve.
  f_equal. apply map_ext_in. intros q Hq. apply in_seq in Hq.
  cbn [insert_at].
  rewrite get_tabulate by inb_solve.
  cbn [bc_index Nat.eqb]. rewrite !bc_fix by lia.
  pose proof (div_lt_sq q K ltac:(lia)) as Hu.
  pose proof (Nat.mod_upper_bound q K ltac:(lia)) as Hv.
  f_equal.
  - (* the vectorised kernel *)
    rewrite (get_reshape _ _ _ [b; i; j; q]) by (simpl; ring).
    rewrite get_tabulate by inb_solve. reflexivity.
  - (* the tiles *)
    rewrite (get_reshape _ _ _ [b; c; i; j; q / K; q mod K]).
    2:{ simpl. rewrite (Nat.div_mod_eq q K) at 1. ring. }
    rewrite get_tabulate by inb_solve.
    cbn [length firstn upd ix nth].
    rewrite get_tabulate by inb_solve.
    cbn [length firstn upd ix nth].
    now rewrite !Nat.mul_1_r.
Qed.
Lemma crop_to_match_spec (kernel src : tensor A) (bk k2 kh0 kw0 bs ci h0 w0 K : nat) :
  shape kernel = [bk; k2; kh0; kw0] -> shape src = [bs; ci; h0; w0] ->
  let ck := kernel_crop kh0 K h0 in
  let cs := source_crop kh0 K h0 in
  exists kernel' src',
    crop_to_match kernel src kh0 kw0 h0 K
      = Some (kernel', kh0 - 2 * ck, kw0 - 2 * ck, src') /\
    shape kernel' = [bk; k2; kh0 - 2 * ck; kw0 - 2 * ck] /\
    shape src' = [bs; ci; h0 - 2 * cs; w0 - 2 * cs] /\
    (forall b q i j, b < bk -> q < k2 -> i < kh0 - 2 * ck -> j < kw0 - 2 * ck ->
       get kernel' [b; q; i; j] = get kernel [b; q; i + ck; j + ck]) /\
    (forall b c y x, b < bs -> c < ci -> y < h0 - 2 * cs -> x < w0 - 2 * cs ->
       get src' [b; c; y; x] = get src [b; c; y + cs; x + cs]).
Proof.
  intros Hk Hs ck cs. subst ck cs.
  unfold crop_to_match, kernel_crop, source_crop, needed_rows.
  destruct (Z.gtb_spec (Z.of_nat kh0 + Z.of_nat K - 1) (Z.of_nat h0)) as [Hgt|Hle].
  - (* the kernel is cropped *)
    set (crop := ((Z.of_nat kh0 + Z.of_nat K - 1 - Z.of_nat h0) / 2)%Z).
    destruct (Z.gtb_spec crop 0) as [Hc|Hc].
    + destruct (crop_hw_spec crop kernel _ _ _ _ Hk ltac:(lia)) as (k' & -> & Hk' & Hget).
      rewrite Hk'. exists k', src. repeat split; auto.
      * rewrite Hs. repeat f_equal; lia.
      * intros. repeat f_equal; lia.
    + assert (E : Z.to_nat crop = 0).
      { assert (0 <= crop)%Z by (apply Z.div_pos; lia). lia. }
      rewrite E, Hk. exists kernel, src. replace (2 * 0) with 0 by lia.
      rewrite !Nat.sub_0_r. repeat split; auto; intros; repeat f_equal; lia.
  - (* the source is cropped *)
    set (crop := ((Z.of_nat h0 - (Z.of_nat kh0 + Z.of_nat K - 1)) / 2)%Z).
    destruct (Z.gtb_spec crop 0) as [Hc|Hc].
    + destruct (crop_hw_spec crop src _ _ _ _ Hs ltac:(lia)) as (s' & -> & Hs' & Hget).
      exists kernel, s'. replace (2 * 0) with 0 by lia.
      rewrite !Nat.sub_0_r. repeat split; auto; intros; repeat f_equal; lia.
    + assert (E : Z.to_nat crop = 0).
      { assert (0 <= crop)%Z by (apply Z.div_pos; lia). lia. }
      rewrite E. exists kernel, src. replace (2 * 0) with 0 by lia.
      rewrite !Nat.sub_0_r. repeat split; auto; intros; repeat f_equal; lia.
Qed.

Lemma weighted_sum_inv (kernel noisy out : tensor A)
    (bs ci K kh kw bk k2 kh' kw' bs' ci' h w : nat) :
  shape kernel = [bk; k2; kh'; kw'] -> shape noisy = [bs'; ci'; h; w] ->
  weighted_sum bs ci K (kernel, kh, kw, noisy) = Some out ->
  bs * (kh * kw) * (K * K) = bk * (kh' * kw') * k2 /\
  K <= h /\ K <= w /\
  bs * ci * (kh * kw) * (K * K) = bs' * ci' * ((h - K + 1) * (w - K + 1)) * (K * K) /\
  shape out = [bs; ci; kh; kw].
Proof.
  intros Hk Hn. unfold weighted_sum, permute, contiguous.
  rewrite Hk. cbn [length is_perm Nat.eqb andb forallb seq existsb orb map nth].
  destruct (view _ _) as [kv|] eqn:Ekv; [|discriminate].
  apply view_some in Ekv. destruct Ekv as (Ekv & Skv & _).
  destruct (unfold 2 K 1 noisy) as [t1|] eqn:E1; [|discriminate].
  apply unfold_inv in E1. rewrite Hn in E1. cbn [length nth upd app] in E1.
  destruct E1 as (_ & HKh & _ & S1).
  destruct (unfold 3 K 1 t1) as [t2|] eqn:E2; [|discriminate].
  apply unfold_inv in E2. rewrite S1 in E2. cbn [length nth upd app] in E2.
  destruct E2 as (_ & HKw & _ & S2).
  destruct (view _ t2) as [tv|] eqn:Etv; [|discriminate].
  apply view_some in Etv. destruct Etv as (Etv & Stv & _).
  rewrite S2, !Nat.div_1_r in Etv.
  unfold tmul, zip_with_bc. rewrite Skv, Stv, broadcast_axis1.
  unfold sum_dim. cbn [shape tabulate length Nat.ltb Nat.leb remove_at nth].
  intros [= <-]. cbn [shape].
  simpl in Ekv, Etv. repeat split; auto; nia.
Qed.
End Primitives.

(** ** [apply_kernels] *)

Section ApplyKernels.
Context {A : Type} `{Scalar A}.

Lemma apply_kernels_inv (kernel src out : tensor A) (bk k2 kh0 kw0 bs ci h0 w0 : nat) :
  shape kernel = [bk; k2; kh0; kw0] -> shape src = [bs; ci; h0; w0] ->
  apply_kernels kernel src = Some out ->
  let K := Nat.sqrt k2 in
  let ck := kernel_crop kh0 K h0 in
  let cs := source_crop kh0 K h0 in
  let kh := kh0 - 2 * ck in
  let kw := kw0 - 2 * ck in
  let h := h0 - 2 * cs in
  let w := w0 - 2 * cs in
  bs * (kh * kw) * (K * K) = bk * (kh * kw) * k2 /\
  K <= h /\ K <= w /\
  bs * ci * (kh * kw) * (K * K) = bs * ci * ((h - K + 1) * (w - K + 1)) * (K * K) /\
  shape out = [bs; ci; kh; kw].
Proof.
  intros Hk Hs. unfold apply_kernels. rewrite Hk, Hs.
  destruct (crop_to_match_spec kernel src _ _ _ _ _ _ _ _ (Nat.sqrt k2) Hk Hs)
    as (k' & s' & -> & Hk' & Hs' & _).
  intros Hws. cbv zeta.
  exact (weighted_sum_inv _ _ _ _ _ _ _ _ _ _ _ _ _ _ _ _ Hk' Hs' Hws).
Qed.

(** The value computed by [apply_kernels] on compatible inputs. *)
Lemma apply_kernels_value (kernel src : tensor A) (bs ci K kh0 kw0 h0 w0 : nat) :
  shape kernel = [bs; K * K; kh0; kw0] -> shape src = [bs; ci; h0; w0] ->
  1 <= K ->
  let ck := kernel_crop kh0 K h0 in
  let cs := source_crop kh0 K h0 in
  let kh := kh0 - 2 * ck in
  let kw := kw0 - 2 * ck in
  1 <= kh -> 1 <= kw ->
  kh + K - 1 = h0 - 2 * cs -> kw + K - 1 = w0 - 2 * cs ->
  exists out, apply_kernels kernel src = Some out /\
    shape out = [bs; ci; kh; kw] /\
    forall b c i j, b < bs -> c < ci -> i < kh -> j < kw ->
      get out [b; c; i; j] =
        sum_list (map (fun q => mul (get kernel [b; q; i + ck; j + ck])
                                    (get src [b; c; i + cs + q / K; j + cs + q mod K]))
                      (seq 0 (K * K))).
Proof.
  intros Hk Hs HK ck cs kh kw Hkh Hkw Hh Hw.
  unfold apply_kernels. rewrite Hk, Hs, Nat.sqrt_square.
  destruct (crop_to_match_spec kernel src _ _ _ _ _ _ _ _ K Hk Hs)
    as (k' & s' & -> & Hk' & Hs' & Gk & Gs).
  fold ck cs in Hk', Hs', Gk, Gs. fold kh kw in Hk', Gk |- *.
  rewrite <- Hh, <- Hw in Hs', Gs.
  cbv beta iota zeta. fold ck. fold kh kw.
  destruct (weighted_sum_ok k' s' bs ci K kh kw Hk' Hs' HK Hkh Hkw)
    as (out & -> & Hout & Gout).
  exists out. split; [reflexivity|]. split; [assumption|].
  intros b c i j Hb Hc Hi Hj. rewrite Gout by assumption.
  f_equal. apply map_ext_in. intros q Hq. apply in_seq in Hq.
  assert (q / K < K) by (apply div_lt_sq; lia).
  assert (q mod K < K) by (apply Nat.mod_upper_bound; lia).
  clearbody kh kw. clearbody ck cs.
  rewrite Gk, Gs by lia.
  replace (i + q / K + cs) with (i + cs + q / K) by lia.
  replace (j + q mod K + cs) with (j + cs + q mod K) by lia.
  reflexivity.
Qed.

(** C1.  For a kernel of shape (bs, K*K, kh0, kw0) and a source of shape
    (bs, ci, h0, w0) that are spatially compatible after the symmetric crop
    of lines 25-34 (the cropped kernel, of size kh x kw, is not empty and
    kh + K - 1, kw + K - 1 are the rows and columns of the cropped source),
    [apply_kernels] returns a tensor of shape (bs, ci, kh, kw) whose entry
    at (b, c, i, j) is the sum, in the order q = 0 .. K*K-1, of
    kernel[b, q, i, j] * source[b, c, i + q / K, j + q mod K], the indices
    being those of the cropped tensors ([ck] and [cs] are the offsets of the
    crop in the arguments). *)
Theorem apply_kernels_weighted_sum (kernel src : tensor A) (bs ci K kh0 kw0 h0 w0 : nat) :
  shape kernel = [bs; K * K; kh0; kw0] -> shape src = [bs; ci; h0; w0] ->
  1 <= K ->
  let ck := kernel_crop kh0 K h0 in
  let cs := source_crop kh0 K h0 in
  let kh := kh0 - 2 * ck in
  let kw := kw0 - 2 * ck in
  1 <= kh -> 1 <= kw ->
  kh + K - 1 = h0 - 2 * cs -> kw + K - 1 = w0 - 2 * cs ->
  exists out, apply_kernels kernel src = Some out /\
    shape out = [bs; ci; kh; kw] /\
    forall b c i j, b < bs -> c < ci -> i < kh -> j < kw ->
      get out [b; c; i; j] =
        sum_list (map (fun q => mul (get kernel [b; q; i + ck; j + ck])
                                    (get src [b; c; i + cs + q / K; j + cs + q mod K]))
                      (seq 0 (K * K))).
Proof. exact (apply_kernels_value kernel src bs ci K kh0 kw0 h0 w0). Qed.

(** C6, as amended.  The smallest source on which [apply_kernels] returns is
    K x K, not (K+1) x (K+1): with a 1 x 1 kernel bank of depth K*K and a
    K x K source of the same batch the result has spatial size 1 x 1, and
    whenever the source has fewer than K rows or fewer than K columns, for
    K the integer square root of the kernel depth, no result is returned. *)
Theorem apply_kernels_minimum_size (kernel src : tensor A) (bk k2 kh kw bs ci h w : nat) :
  shape kernel = [bk; k2; kh; kw] -> shape src = [bs; ci; h; w] ->
  let K := Nat.sqrt k2 in
  (1 <= K -> bk = bs -> k2 = K * K -> kh = 1 -> kw = 1 -> h = K -> w = K ->
   exists out, apply_kernels kernel src = Some out /\ shape out = [bs; ci; 1; 1]) /\
  (h < K \/ w < K -> apply_kernels kernel src = None).
Proof.
  intros Hk Hs K. split.
  - intros HK -> E -> -> -> ->. rewrite E in Hk.
    destruct (apply_kernels_value kernel src bs ci K 1 1 K K Hk Hs HK)
      as (out & Hout & Hsh & _);
      unfold kernel_crop, source_crop, needed_rows;
      try (destruct (Z.gtb_spec (Z.of_nat 1 + Z.of_nat K - 1) (Z.of_nat K)); [lia|]);
      try replace (Z.of_nat K - (Z.of_nat 1 + Z.of_nat K - 1))%Z with 0%Z by lia;
      try (simpl; lia).
    exists out. split; [assumption|].
    rewrite Hsh. unfold kernel_crop, needed_rows.
    destruct (Z.gtb_spec (Z.of_nat 1 + Z.of_nat K - 1) (Z.of_nat K)); [lia|reflexivity].
  - intros Hsmall. destruct (apply_kernels kernel src) as [out|] eqn:E; [|reflexivity].
    exfalso. pose proof (apply_kernels_inv _ _ _ _ _ _ _ _ _ _ _ Hk Hs E) as Hinv.
    cbv zeta in Hinv. fold K in Hinv. lia.
Qed.

(** C7, as amended.  On a source with at least one batch entry and one
    channel, [apply_kernels] returns no result whenever
    bk * k2 <> bs * K * K, for K the integer square root of the kernel
    depth k2, bk the kernel batch and bs the source batch.  This covers
    a depth that is not a perfect square with equal batches, and unequal
    batches with a perfect-square depth. *)
Theorem apply_kernels_depth_batch_mismatch (kernel src : tensor A)
    (bk k2 kh kw bs ci h w : nat) :
  shape kernel = [bk; k2; kh; kw] -> shape src = [bs; ci; h; w] ->
  1 <= bs -> 1 <= ci ->
  bk * k2 <> bs * (Nat.sqrt k2 * Nat.sqrt k2) ->
  apply_kernels kernel src = None.
Proof.
  intros Hk Hs Hbs Hci Hne.
  destruct (apply_kernels kernel src) as [out|] eqn:E; [|reflexivity].
  exfalso. pose proof (apply_kernels_inv _ _ _ _ _ _ _ _ _ _ _ Hk Hs E) as Hinv.
  cbv zeta in Hinv.
  set (K := Nat.sqrt k2) in *.
  set (kh' := kh - 2 * kernel_crop kh K h) in *.
  set (kw' := kw - 2 * kernel_crop kh K h) in *.
  set (h' := h - 2 * source_crop kh K h) in *.
  set (w' := w - 2 * source_crop kh K h) in *.
  destruct Hinv as (E1 & HKh & HKw & E2 & _).
  destruct (Nat.eq_dec K 0) as [K0|K0].
  - assert (k2 = 0).
    { pose proof (Nat.sqrt_spec k2 ltac:(lia)) as Hsq. fold K in Hsq. rewrite K0 in Hsq. simpl in Hsq. lia. }
    apply Hne. subst k2. rewrite K0. lia.
  - assert (Hpos : 1 <= (h' - K + 1) * (w' - K + 1)) by nia.
    assert (Hcan : kh' * kw' = (h' - K + 1) * (w' - K + 1)).
    { apply (Nat.mul_cancel_l _ _ (bs * ci * (K * K)) ltac:(nia)). nia. }
    apply Hne.
    apply (Nat.mul_cancel_l _ _ (kh' * kw') ltac:(lia)). nia.
Qed.

(** C9, as amended.  When the kernel and the source differ by the same
    margin along rows and columns (w - kw = h - kh), the source has at least
    one batch entry and one channel, the depth is positive, and
    kh + K - 1 - h is odd, [apply_kernels] returns no result. *)
Theorem apply_kernels_odd_margin (kernel src : tensor A) (bk k2 kh kw bs ci h w : nat) :
  shape kernel = [bk; k2; kh; kw] -> shape src = [bs; ci; h; w] ->
  1 <= bs -> 1 <= ci -> 1 <= k2 ->
  (Z.of_nat w - Z.of_nat kw = Z.of_nat h - Z.of_nat kh)%Z ->
  Z.odd (needed_rows kh (Nat.sqrt k2) - Z.of_nat h) = true ->
  apply_kernels kernel src = None.
Proof.
  intros Hk Hs Hbs Hci Hk2 Hmargin Hodd.
  destruct (apply_kernels kernel src) as [out|] eqn:E; [|reflexivity].
  exfalso. pose proof (apply_kernels_inv _ _ _ _ _ _ _ _ _ _ _ Hk Hs E) as Hinv.
  cbv zeta in Hinv.
  assert (HK : 1 <= Nat.sqrt k2).
  { rewrite <- Nat.sqrt_1. now apply Nat.sqrt_le_mono. }
  set (K := Nat.sqrt k2) in *.
  destruct Hinv as (_ & HKh & HKw & E2 & _).
  apply Z.odd_spec in Hodd. destruct Hodd as [m Hm].
  assert (Hcan : (kh - 2 * kernel_crop kh K h) * (kw - 2 * kernel_crop kh K h)
                 = (h - 2 * source_crop kh K h - K + 1) * (w - 2 * source_crop kh K h - K + 1)).
  { apply (Nat.mul_cancel_l _ _ (bs * ci * (K * K)) ltac:(nia)). nia. }
  clear E2. revert HKh HKw Hcan.
  unfold kernel_crop, source_crop, needed_rows in *.
  destruct (Z.gtb_spec (Z.of_nat kh + Z.of_nat K - 1) (Z.of_nat h)) as [Hgt|Hle].
  - replace ((Z.of_nat kh + Z.of_nat K - 1 - Z.of_nat h) / 2)%Z with m
      by (rewrite Hm; symmetry; rewrite Z.add_comm, Z.mul_comm, Z.div_add by lia; reflexivity).
    intros HKh HKw Hcan. 
    assert (kh - 2 * Z.to_nat m = h - K + 2) by lia.
    assert (kw - 2 * Z.to_nat m = w - K + 2) by lia.
    nia.
  - replace ((Z.of_nat h - (Z.of_nat kh + Z.of_nat K - 1)) / 2)%Z with (- m - 1)%Z.
    2:{ replace (Z.of_nat h - (Z.of_nat kh + Z.of_nat K - 1))%Z with (1 + (- m - 1) * 2)%Z by lia.
        rewrite Z.div_add by lia. reflexivity. }
    intros HKh HKw Hcan.
    assert (h - 2 * Z.to_nat (- m - 1) - K + 1 = kh + 1) by lia.
    assert (w - 2 * Z.to_nat (- m - 1) - K + 1 = kw + 1) by lia.
    nia.
Qed.
End ApplyKernels.

(** ** Unpacking and un-tiling *)

Section Tiles.
Context {A : Type} {SA : Scalar A}.

(** The planes of the unpacked mosaic: plane [p] holds the samples at row
    offset [p mod 2] and column offset [p / 2] of every 2x2 tile. *)
Lemma color_samples_ok (mosaic : tensor A) (bs C H W : nat) :
  shape mosaic = [bs; C; H; W] -> 2 <= H -> 2 <= W ->
  exists cs, color_samples_of mosaic = Some cs /\
    shape cs = [bs; 4; (H - 2) / 2 + 1; (W - 2) / 2 + 1] /\
    forall b p y x, b < bs -> p < 4 -> y < (H - 2) / 2 + 1 -> x < (W - 2) / 2 + 1 ->
      get cs [b; p; y; x] =
        sum_list (map (fun k => get mosaic [b; k; y * 2 + p mod 2; x * 2 + p / 2])
                      (seq 0 C)).
Proof.
  intros Hm HH HW. unfold color_samples_of, sum_dim, permute, contiguous.
  rewrite Hm. cbn [length Nat.ltb Nat.leb nth remove_at].
  rewrite unfold_ok by (simpl; lia).
  rewrite unfold_ok by (simpl; lia).
  cbn [shape tabulate upd app nth length is_perm Nat.eqb andb forallb seq existsb orb map].
  set (h := (H - 2) / 2 + 1). set (w := (W - 2) / 2 + 1).
  rewrite view_ok by (cbn [numel shape tabulate]; lia).
  eexists. split; [reflexivity|]. split; [reflexivity|].
  intros b p y x Hb Hp Hy Hx.
  assert (p / 2 < 2) by (apply Nat.Div0.div_lt_upper_bound; lia).
  assert (p mod 2 < 2) by (apply Nat.mod_upper_bound; lia).
  rewrite (get_reshape _ _ _ [b; p / 2; p mod 2; y; x]).
  2:{ cbn [ravel numel shape tabulate].
      pose proof (Nat.div_mod_eq p 2) as Ep.
      set (u := p / 2) in *. set (v := p mod 2) in *. clearbody u v. subst p. ring. }
  rewrite get_tabulate by inb_solve.
  cbn [map seq length index_of Nat.eqb ix nth].
  rewrite get_tabulate by inb_solve.
  cbn [length firstn upd ix nth].
  assert (y * 2 + p mod 2 < H).
  { subst h. pose proof (Nat.div_mod_eq (H - 2) 2).
    pose proof (Nat.mod_upper_bound (H - 2) 2 ltac:(lia)). lia. }
  assert (x * 2 + p / 2 < W).
  { subst w. pose proof (Nat.div_mod_eq (W - 2) 2).
    pose proof (Nat.mod_upper_bound (W - 2) 2 ltac:(lia)). lia. }
  rewrite get_tabulate by inb_solve.
  cbn [length firstn upd ix nth].
  rewrite get_tabulate by inb_solve.
  reflexivity.
Qed.

Lemma color_samples_inv (mosaic cs : tensor A) (bs C H W : nat) :
  shape mosaic = [bs; C; H; W] -> color_samples_of mosaic = Some cs ->
  2 <= H /\ 2 <= W.
Proof.
  intros Hm. unfold color_samples_of, sum_dim. rewrite Hm.
  cbn [length Nat.ltb Nat.leb nth remove_at].
  destruct (unfold 2 2 2 _) as [c1|] eqn:E1; [|discriminate].
  apply unfold_inv in E1. cbn [shape tabulate length nth upd app] in E1.
  destruct E1 as (_ & HW & _ & S1).
  destruct (unfold 1 2 2 c1) as [c2|] eqn:E2; [|discriminate].
  apply unfold_inv in E2. rewrite S1 in E2. cbn [length nth upd app] in E2.
  intros _. lia.
Qed.

(** [unroll]: channel [p] of the buffer lands at row offset [p / 2] and
    column offset [p mod 2] of every 2x2 tile. *)
Lemma unroll_ok (buf : tensor A) (bs h w : nat) :
  shape buf = [bs; 4; h; w] ->
  exists u, unroll buf = Some u /\ wf u /\
    shape u = [bs; 1; h * 2; w * 2] /\
    forall b y x a0 a1, b < bs -> y < h -> x < w -> a0 < 2 -> a1 < 2 ->
      get u [b; 0; y * 2 + a0; x * 2 + a1] = get buf [b; a0 * 2 + a1; y; x].
Proof.
  intros Hb. unfold unroll, permute, contiguous. rewrite Hb.
  rewrite view_ok by (rewrite Hb; simpl; ring).
  cbn [shape length is_perm Nat.eqb andb forallb seq existsb orb map nth].
  rewrite view_ok by (simpl; ring).
  eexists. split; [reflexivity|]. split.
  { unfold wf. cbn [shape data tabulate]. rewrite length_map, length_seq.
    simpl. ring. }
  split; [reflexivity|].
  intros b y x a0 a1 Hbb Hy Hx Ha0 Ha1.
  rewrite (get_reshape _ _ _ [b; y; a0; x; a1]) by (simpl; ring).
  rewrite get_tabulate by inb_solve.
  cbn [map seq length index_of Nat.eqb ix nth].
  apply get_reshape. rewrite Hb. simpl. ring.
Qed.
Lemma slice_axis1_spec (t : tensor A) (n0 n1 n2 n3 : nat) (lo hi : Z) :
  shape t = [n0; n1; n2; n3] -> (0 <= lo)%Z -> (0 <= hi)%Z ->
  exists t', slice 1 lo hi t = Some t' /\
    shape t' = [n0; Nat.min (Z.to_nat hi) n1 - Nat.min (Z.to_nat lo) n1; n2; n3] /\
    forall b c y x, b < n0 ->
      c < Nat.min (Z.to_nat hi) n1 - Nat.min (Z.to_nat lo) n1 -> y < n2 -> x < n3 ->
      get t' [b; c; y; x] = get t [b; c + Nat.min (Z.to_nat lo) n1; y; x].
Proof.
  intros Ht Hlo Hhi. unfold slice. rewrite Ht. cbn [length Nat.ltb Nat.leb nth upd].
  rewrite !norm_index_nonneg by assumption.
  eexists. split; [reflexivity|]. split; [reflexivity|].
  intros b c y x Hb Hc Hy Hx.
  rewrite get_tabulate by inb_solve. reflexivity.
Qed.

Lemma crop_like_spec (src tgt : tensor A) (n0 n1 hs ws m0 m1 ht wt : nat) :
  shape src = [n0; n1; hs; ws] -> shape tgt = [m0; m1; ht; wt] ->
  let cy := (hs - ht) / 2 in
  let cx := (ws - wt) / 2 in
  exists c, crop_like src tgt = Some c /\
    shape c = [n0; n1; hs - 2 * cy; ws - 2 * cx] /\
    forall b ch y x, b < n0 -> ch < n1 -> y < hs - 2 * cy -> x < ws - 2 * cx ->
      get c [b; ch; y; x] = get src [b; ch; y + cy; x + cx].
Proof.
  intros Hs Ht cy cx. unfold crop_like, slice. rewrite Hs, Ht.
  cbn [length Nat.ltb Nat.leb nth upd shape tabulate].
  fold cy cx.
  rewrite !norm_index_nonneg by lia. rewrite !Nat2Z.id.
  assert (2 * cy <= hs).
  { subst cy. pose proof (Nat.div_mod_eq (hs - ht) 2). lia. }
  assert (2 * cx <= ws).
  { subst cx. pose proof (Nat.div_mod_eq (ws - wt) 2). lia. }
  replace (Nat.min (hs - cy) hs - Nat.min cy hs) with (hs - 2 * cy) by lia.
  replace (Nat.min (ws - cx) ws - Nat.min cx ws) with (ws - 2 * cx) by lia.
  eexists. split; [reflexivity|]. split; [reflexivity|].
  intros b ch y x Hb Hch Hy Hx.
  rewrite get_tabulate by inb_solve. cbn [upd ix nth].
  rewrite get_tabulate by inb_solve. cbn [upd ix nth].
  replace (Nat.min cy hs) with cy by lia.
  replace (Nat.min cx ws) with cx by lia.
  reflexivity.
Qed.

Lemma apply_kernels_shape (kernel src out : tensor A) (bs ci h w : nat) :
  shape src = [bs; ci; h; w] -> apply_kernels kernel src = Some out ->
  exists kh kw, shape out = [bs; ci; kh; kw].
Proof.
  intros Hs E.
  destruct (shape kernel) as [|bk [|k2 [|kh0 [|kw0 [|? ?]]]]] eqn:Hk;
    try (unfold apply_kernels in E; rewrite Hk in E; discriminate).
  pose proof (apply_kernels_inv kernel src out _ _ _ _ _ _ _ _ Hk Hs E) as Hinv.
  cbv zeta in Hinv. destruct Hinv as (_ & _ & _ & _ & ->). eauto.
Qed.

Lemma broadcast_length (s1 s2 s : list nat) :
  broadcast s1 s2 = Some s -> length s = length s1.
Proof.
  revert s2 s; induction s1 as [|a s1 IH]; intros [|b s2] s; simpl; try discriminate.
  - now intros [= <-].
  - destruct (broadcast s1 s2) as [s'|] eqn:E; [|discriminate].
    apply IH in E.
    destruct (a =? b); [|destruct (a =? 1); [|destruct (b =? 1); [|discriminate]]];
      intros [= <-]; simpl; now rewrite E.
Qed.

Lemma tadd_shape (t1 t2 s : tensor A) (bs h1 w1 h2 w2 : nat) :
  shape t1 = [bs; 1; h1; w1] -> shape t2 = [bs; 1; h2; w2] ->
  tadd t1 t2 = Some s ->
  exists h w, shape s = [bs; 1; h; w].
Proof.
  intros H1 H2. unfold tadd, zip_with_bc. rewrite H1, H2.
  change (broadcast [bs; 1; h1; w1] [bs; 1; h2; w2])
    with (s' <- (s'' <- broadcast [h1; w1] [h2; w2] ;;
                 if 1 =? 1 then Some (1 :: s'') else None) ;;
          if bs =? bs then Some (bs :: s')
          else if bs =? 1 then Some (bs :: s')
          else if bs =? 1 then Some (bs :: s') else None).
  destruct (broadcast [h1; w1] [h2; w2]) as [s2|] eqn:E; [|discriminate].
  apply broadcast_length in E. cbn [Nat.eqb]. rewrite Nat.eqb_refl.
  intros [= <-]. cbn [shape tabulate].
  destruct s2 as [|h [|w [|? ?]]]; try discriminate. eauto.
Qed.

(** Concatenation of single-channel planes of one shape. *)
Lemma cat_get_planes (ts : list (tensor A)) (bs h w : nat) (t : tensor A)
    (b k y x : nat) :
  Forall (fun t' => shape t' = [bs; 1; h; w]) ts ->
  nth_error ts k = Some t ->
  cat_get ts [b; k; y; x] = get t [b; 0; y; x].
Proof.
  intros Hall. revert k. induction Hall as [|t0 ts H0 Hall IH]; intros k Hk.
  - destruct k; discriminate.
  - cbn [cat_get]. rewrite H0. cbn [nth ix].
    destruct k as [|k]; cbn [Nat.ltb Nat.leb].
    + injection Hk as <-. reflexivity.
    + cbn [upd]. replace (S k - 1) with k by lia. apply IH. exact Hk.
Qed.

Lemma same_off_axis1_true (s1 s2 : list nat) :
  same_off_axis1 s1 s2 = true <-> upd 1 0 s1 = upd 1 0 s2.
Proof.
  unfold same_off_axis1. destruct (list_eq_dec _ _ _); split; congruence.
Qed.

Lemma cat1_planes (ts : list (tensor A)) (bs h w : nat) :
  ts <> [] -> Forall (fun t' => shape t' = [bs; 1; h; w]) ts ->
  exists c, cat1 ts = Some c /\ wf c /\
    shape c = [bs; length ts; h; w] /\
    forall b k y x t, b < bs -> y < h -> x < w -> nth_error ts k = Some t ->
      get c [b; k; y; x] = get t [b; 0; y; x].
Proof.
  intros Hne Hall. unfold cat1. destruct ts as [|t0 ts]; [congruence|].
  pose proof (Forall_inv Hall) as H0. cbv beta in H0. rewrite H0.
  cbn [length Nat.ltb Nat.leb andb].
  assert (Hf : forallb (fun t' => same_off_axis1 [bs; 1; h; w] (shape t')) (t0 :: ts) = true).
  { apply forallb_forall. intros t' Ht'. rewrite Forall_forall in Hall.
    rewrite (Hall _ Ht'). apply same_off_axis1_true. reflexivity. }
  rewrite Hf.
  assert (Hsum : list_sum (map (fun t' => nth 1 (shape t') 0) (t0 :: ts)) = length (t0 :: ts)).
  { clear -Hall. induction Hall as [|t1 l H1 Hall IH]; [reflexivity|].
    unfold list_sum in *. cbn [map fold_right length]. rewrite H1, IH. reflexivity. }
  rewrite Hsum. cbn [upd].
  eexists. split; [reflexivity|]. split; [apply wf_tabulate|]. split; [reflexivity|].
  intros b k y x t Hb Hy Hx Hk.
  assert (k < length (t0 :: ts)) by (apply nth_error_Some; congruence).
  rewrite get_tabulate by inb_solve.
  now apply (cat_get_planes (t0 :: ts) bs h w).
Qed.

Lemma cat1_inv (t0 : tensor A) (ts : list (tensor A)) (c : tensor A) :
  cat1 (t0 :: ts) = Some c ->
  forall t', In t' (t0 :: ts) -> upd 1 0 (shape t0) = upd 1 0 (shape t').
Proof.
  unfold cat1. destruct (1 <? length (shape t0)); [|discriminate].
  cbn [andb]. destruct (forallb _ _) eqn:Hf; [|discriminate].
  intros _ t' Ht'. rewrite forallb_forall in Hf.
  apply same_off_axis1_true. now apply Hf.
Qed.
End Tiles.

(** ** [BayerKP.forward] *)

Section ForwardFacts.
Context {A : Type} {SA : Scalar A}.
Variable softmax1 : tensor A -> option (tensor A).

Lemma single_plane_step_inv (self : BayerKP) (kern src : tensor A)
    (idx : nat) (planes : list (tensor A)) (st' : nat * list (tensor A)) :
  single_plane_step softmax1 self kern src (idx, planes) = Some st' ->
  exists e, st' = (idx + ksize self * ksize self, planes ++ [e]) /\
    estimate_of src e.
Proof.
  unfold single_plane_step.
  destruct (slice 1 _ _ kern) as [k|]; [|discriminate].
  destruct (softmax1 k) as [k'|]; [|discriminate].
  destruct (apply_kernels k' src) as [e|] eqn:E; [|discriminate].
  intros [= <-]. exists e. split; [reflexivity|]. now exists k'.
Qed.

Lemma green_step_inv (self : BayerKP) (kern g0 g1 : tensor A)
    (idx : nat) (planes : list (tensor A)) (st' : nat * list (tensor A)) :
  green_step softmax1 self kern g0 g1 (idx, planes) = Some st' ->
  exists e, st' = (idx + 2 * (ksize self * ksize self), planes ++ [e]) /\
    green_estimate_of g0 g1 e.
Proof.
  unfold green_step.
  destruct (slice 1 _ _ kern) as [k|]; [|discriminate].
  destruct (softmax1 k) as [k'|]; [|discriminate].
  destruct (slice 1 _ _ k') as [k0|]; [|discriminate].
  destruct (apply_kernels k0 g0) as [e0|] eqn:E0; [|discriminate].
  destruct (slice 1 _ _ k') as [k1|]; [|discriminate].
  destruct (apply_kernels k1 g1) as [e1|] eqn:E1; [|discriminate].
  destruct (tadd e0 e1) as [s|] eqn:Es; [|discriminate].
  intros [= <-]. exists s. split; [reflexivity|]. now exists k0, k1, e0, e1.
Qed.

(** The list handed to [th.cat] for the red channel: the known plane, cropped
    like the first estimate, is its element 1. *)
Lemma red_tiles_inv (self : BayerKP) (kern r : tensor A) (idx idx' : nat)
    (tiles : list (tensor A)) :
  red_tiles softmax1 self kern r idx = Some (idx', tiles) ->
  exists e1 k e2 e3, tiles = [e1; k; e2; e3] /\ crop_like r e1 = Some k /\
    estimate_of r e1 /\ estimate_of r e2 /\ estimate_of r e3.
Proof.
  unfold red_tiles. cbn [for_range].
  destruct (single_plane_step _ _ _ _ (idx, [r])) as [st1|] eqn:E1; [|discriminate].
  destruct (single_plane_step_inv _ _ _ _ _ _ E1) as (e1 & -> & S1).
  destruct (single_plane_step _ _ _ _ (_, [r] ++ [e1])) as [st2|] eqn:E2; [|discriminate].
  destruct (single_plane_step_inv _ _ _ _ _ _ E2) as (e2 & -> & S2).
  destruct (single_plane_step _ _ _ _ (_, ([r] ++ [e1]) ++ [e2])) as [st3|] eqn:E3;
    [|discriminate].
  destruct (single_plane_step_inv _ _ _ _ _ _ E3) as (e3 & -> & S3).
  cbn [app item nth_error setitem].
  destruct (crop_like r e1) as [k|] eqn:Ek; [|discriminate].
  cbn [app item nth_error setitem].
  intros [= _ <-]. exists e1, k, e2, e3. repeat split; assumption.
Qed.

(** For the blue channel the known plane is element 2. *)
Lemma blue_tiles_inv (self : BayerKP) (kern b : tensor A) (idx idx' : nat)
    (tiles : list (tensor A)) :
  blue_tiles softmax1 self kern b idx = Some (idx', tiles) ->
  exists e1 e2 k e3, tiles = [e1; e2; k; e3] /\ crop_like b e1 = Some k /\
    estimate_of b e1 /\ estimate_of b e2 /\ estimate_of b e3.
Proof.
  unfold blue_tiles. cbn [for_range].
  destruct (single_plane_step _ _ _ _ (idx, [b])) as [st1|] eqn:E1; [|discriminate].
  destruct (single_plane_step_inv _ _ _ _ _ _ E1) as (e1 & -> & S1).
  destruct (single_plane_step _ _ _ _ (_, [b] ++ [e1])) as [st2|] eqn:E2; [|discriminate].
  destruct (single_plane_step_inv _ _ _ _ _ _ E2) as (e2 & -> & S2).
  destruct (single_plane_step _ _ _ _ (_, ([b] ++ [e1]) ++ [e2])) as [st3|] eqn:E3;
    [|discriminate].
  destruct (single_plane_step_inv _ _ _ _ _ _ E3) as (e3 & -> & S3).
  cbn [app item nth_error setitem].
  destruct (crop_like b e1) as [k|] eqn:Ek; [|discriminate].
  cbn [app item nth_error setitem].
  intros [= _ <-]. exists e1, e2, k, e3. repeat split; assumption.
Qed.

(** For the green channel the two known planes are elements 0 and 3. *)
Lemma green_tiles_inv (self : BayerKP) (kern g0 g1 : tensor A) (idx idx' : nat)
    (tiles : list (tensor A)) :
  green_tiles softmax1 self kern g0 g1 idx = Some (idx', tiles) ->
  exists k0 e1 e2 k1, tiles = [k0; e1; e2; k1] /\
    crop_like g0 e1 = Some k0 /\ crop_like g1 e1 = Some k1 /\
    green_estimate_of g0 g1 e1 /\ green_estimate_of g0 g1 e2.
Proof.
  unfold green_tiles. cbn [for_range].
  destruct (green_step _ _ _ _ _ (idx, [g0; g1])) as [st1|] eqn:E1; [|discriminate].
  destruct (green_step_inv _ _ _ _ _ _ _ E1) as (e1 & -> & S1).
  destruct (green_step _ _ _ _ _ (_, [g0; g1] ++ [e1])) as [st2|] eqn:E2; [|discriminate].
  destruct (green_step_inv _ _ _ _ _ _ _ E2) as (e2 & -> & S2).
  cbn [app item nth_error setitem].
  destruct (crop_like g0 e1) as [k0|] eqn:Ek0; [|discriminate].
  cbn [app item nth_error setitem].
  destruct (crop_like g1 e1) as [k1|] eqn:Ek1; [|discriminate].
  cbn [app item nth_error setitem].
  intros [= _ <-]. exists k0, e1, e2, k1. repeat split; assumption.
Qed.

Lemma estimate_plane (src e : tensor A) (bs h w : nat) :
  shape src = [bs; 1; h; w] -> estimate_of src e -> plane_like bs e.
Proof.
  intros Hs (k & E). exact (apply_kernels_shape _ _ _ _ _ _ _ Hs E).
Qed.

Lemma green_estimate_plane (g0 g1 e : tensor A) (bs h w h' w' : nat) :
  shape g0 = [bs; 1; h; w] -> shape g1 = [bs; 1; h'; w'] ->
  green_estimate_of g0 g1 e -> plane_like bs e.
Proof.
  intros H0 H1 (k0 & k1 & e0 & e1 & E0 & E1 & Es).
  destruct (apply_kernels_shape _ _ _ _ _ _ _ H0 E0) as (h0 & w0 & He0).
  destruct (apply_kernels_shape _ _ _ _ _ _ _ H1 E1) as (h1 & w1 & He1).
  exact (tadd_shape _ _ _ _ _ _ _ _ He0 He1 Es).
Qed.

(** Four single-channel tiles, concatenated and unrolled: tile [p] lands at
    row offset [p / 2] and column offset [p mod 2]. *)
Lemma group_unroll (tiles : list (tensor A)) (c u tk : tensor A) (bs hk wk : nat) :
  length tiles = 4 -> Forall (plane_like bs) tiles ->
  In tk tiles -> shape tk = [bs; 1; hk; wk] ->
  cat1 tiles = Some c -> unroll c = Some u ->
  shape u = [bs; 1; hk * 2; wk * 2] /\
  forall b y x a0 a1 t, b < bs -> y < hk -> x < wk -> a0 < 2 -> a1 < 2 ->
    nth_error tiles (a0 * 2 + a1) = Some t ->
    get u [b; 0; y * 2 + a0; x * 2 + a1] = get t [b; 0; y; x].
Proof.
  intros Hlen Hall Hin Hk Hcat Hun.
  assert (Hsame : Forall (fun t => shape t = [bs; 1; hk; wk]) tiles).
  { destruct tiles as [|t0 ts]; [discriminate|].
    pose proof (cat1_inv _ _ _ Hcat) as Hinv.
    pose proof (Hinv _ Hin) as E0. rewrite Hk in E0.
    apply Forall_forall. intros t Ht.
    rewrite Forall_forall in Hall. destruct (Hall _ Ht) as (h & w & Hs).
    specialize (Hinv _ Ht). rewrite E0, Hs in Hinv. cbn [upd] in Hinv.
    injection Hinv as -> ->. exact Hs. }
  destruct (cat1_planes tiles bs hk wk) as (c' & Ec & _ & Sc & Gc); auto.
  { intros ->. discriminate. }
  rewrite Hcat in Ec. injection Ec as <-. rewrite Hlen in Sc.
  destruct (unroll_ok c bs hk wk Sc) as (u' & Eu & _ & Su & Gu).
  rewrite Hun in Eu. injection Eu as <-.
  split; [exact Su|].
  intros b y x a0 a1 t Hb Hy Hx Ha0 Ha1 Ht.
  rewrite Gu by assumption. now apply Gc.
Qed.

Lemma plane_spec (cs : tensor A) (bs h w p : nat) :
  shape cs = [bs; 4; h; w] -> p < 4 ->
  exists pl, slice 1 (Z.of_nat p) (Z.of_nat (S p)) cs = Some pl /\
    shape pl = [bs; 1; h; w] /\
    forall b y x, b < bs -> y < h -> x < w ->
      get pl [b; 0; y; x] = get cs [b; p; y; x].
Proof.
  intros Hs Hp.
  destruct (slice_axis1_spec cs bs 4 h w (Z.of_nat p) (Z.of_nat (S p)) Hs)
    as (pl & E & Spl & G); [lia|lia|].
  rewrite !Nat2Z.id in Spl, G.
  replace (Nat.min (S p) 4 - Nat.min p 4) with 1 in Spl, G by lia.
  replace (Nat.min p 4) with p in G by lia.
  exists pl. split; [exact E|]. split; [exact Spl|].
  intros b y x Hb Hy Hx. now rewrite G by lia.
Qed.

Lemma crop_like_plane (plane e k : tensor A) (bs h w : nat) :
  shape plane = [bs; 1; h; w] -> plane_like bs e ->
  crop_like plane e = Some k -> plane_like bs k.
Proof.
  intros Hp (he & we & He) Hk.
  destruct (crop_like_spec plane e _ _ _ _ _ _ _ _ Hp He) as (k' & Ek & Sk & _).
  rewrite Hk in Ek. injection Ek as <-. red. eauto.
Qed.

(** A known plane inside its group of four tiles. *)
Lemma known_in_group (tiles : list (tensor A)) (c u known plane e : tensor A)
    (bs h w p : nat) :
  length tiles = 4 -> Forall (plane_like bs) tiles ->
  nth_error tiles p = Some known -> In e tiles ->
  shape plane = [bs; 1; h; w] -> crop_like plane e = Some known ->
  cat1 tiles = Some c -> unroll c = Some u ->
  exists hk wk cy cx,
    shape u = [bs; 1; hk * 2; wk * 2] /\ hk + 2 * cy = h /\ wk + 2 * cx = w /\
    forall b y x, b < bs -> y < hk -> x < wk ->
      get u [b; 0; y * 2 + p / 2; x * 2 + p mod 2] = get plane [b; 0; y + cy; x + cx].
Proof.
  intros Hlen Hall Hp He Hpl Hcrop Hcat Hun.
  assert (Hp4 : p < 4) by (rewrite <- Hlen; apply nth_error_Some; congruence).
  pose proof Hall as Hall'. rewrite Forall_forall in Hall'.
  destruct (Hall' _ He) as (he & we & Se).
  destruct (crop_like_spec plane e _ _ _ _ _ _ _ _ Hpl Se) as (k' & Ek & Sk & Gk).
  rewrite Hcrop in Ek. injection Ek as <-.
  set (cy := (h - he) / 2) in *. set (cx := (w - we) / 2) in *.
  assert (2 * cy <= h).
  { subst cy. pose proof (Nat.div_mod_eq (h - he) 2). lia. }
  assert (2 * cx <= w).
  { subst cx. pose proof (Nat.div_mod_eq (w - we) 2). lia. }
  destruct (group_unroll tiles c u known bs _ _ Hlen Hall
              (nth_error_In _ _ Hp) Sk Hcat Hun) as (Su & Gu).
  exists (h - 2 * cy), (w - 2 * cx), cy, cx.
  split; [exact Su|]. split; [lia|]. split; [lia|].
  intros b y x Hb Hy Hx.
  assert (p / 2 < 2) by (apply Nat.Div0.div_lt_upper_bound; lia).
  assert (p mod 2 < 2) by (apply Nat.mod_upper_bound; lia).
  rewrite (Gu b y x (p / 2) (p mod 2) known) by
    (try assumption; rewrite Nat.mul_comm, <- Nat.div_mod_eq; assumption).
  apply Gk; lia.
Qed.

(** The known samples in the output of [forward], for a mosaic of any
    number of channels. *)
Lemma forward_known_gray (self : BayerKP) (samples : list (string * tensor A))
    (mosaic out : tensor A) (bs C H W : nat) :
  lookup "mosaic" samples = Some mosaic -> shape mosaic = [bs; C; H; W] ->
  forward softmax1 self samples = Some out ->
  exists ho wo cy cx,
    shape out = [bs; 3; ho * 2; wo * 2] /\
    ho + 2 * cy = (H - 2) / 2 + 1 /\ wo + 2 * cx = (W - 2) / 2 + 1 /\
    2 <= H /\ 2 <= W /\
    forall b y x, b < bs -> y < ho -> x < wo ->
      get out [b; 0; y * 2 + 0; x * 2 + 1]
        = sensor_reading mosaic C b ((y + cy) * 2 + 0) ((x + cx) * 2 + 1) /\
      get out [b; 2; y * 2 + 1; x * 2 + 0]
        = sensor_reading mosaic C b ((y + cy) * 2 + 1) ((x + cx) * 2 + 0) /\
      get out [b; 1; y * 2 + 0; x * 2 + 0]
        = sensor_reading mosaic C b ((y + cy) * 2 + 0) ((x + cx) * 2 + 0) /\
      get out [b; 1; y * 2 + 1; x * 2 + 1]
        = sensor_reading mosaic C b ((y + cy) * 2 + 1) ((x + cx) * 2 + 1).
Proof.
  intros Hl Hm. unfold forward. rewrite Hl.
  destruct (color_samples_of mosaic) as [cs|] eqn:Ecs; [|discriminate].
  destruct (color_samples_inv _ _ _ _ _ _ Hm Ecs) as [HH HW].
  destruct (color_samples_ok mosaic bs C H W Hm HH HW) as (cs' & Ecs' & Scs & Gcs).
  rewrite Ecs in Ecs'. injection Ecs' as <-.
  set (h := (H - 2) / 2 + 1) in *. set (w := (W - 2) / 2 + 1) in *.
  destruct (kernels self cs) as [kern|]; [|discriminate].
  destruct (shape kern) as [|? [|? [|? [|? [|? ?]]]]]; try discriminate.
  destruct (plane_spec cs bs h w 0 Scs ltac:(lia)) as (g0 & Eg0 & Sg0 & Gg0).
  destruct (plane_spec cs bs h w 1 Scs ltac:(lia)) as (b & Eb & Sb & Gb).
  destruct (plane_spec cs bs h w 2 Scs ltac:(lia)) as (r & Er & Sr & Gr).
  destruct (plane_spec cs bs h w 3 Scs ltac:(lia)) as (g1 & Eg1 & Sg1 & Gg1).
  cbn [Z.of_nat Pos.of_succ_nat Pos.succ] in Eg0, Eb, Er, Eg1.
  rewrite Eg0, Eb, Er, Eg1.
  destruct (red_tiles _ _ _ _ _) as [[idx1 reds]|] eqn:Ereds; [|discriminate].
  destruct (cat1 reds) as [cr|] eqn:Ecr; [|discriminate].
  destruct (unroll cr) as [red|] eqn:Eur; [|discriminate].
  destruct (blue_tiles _ _ _ _ _) as [[idx2 blues]|] eqn:Eblues; [|discriminate].
  destruct (cat1 blues) as [cb|] eqn:Ecb; [|discriminate].
  destruct (unroll cb) as [blue|] eqn:Eub; [|discriminate].
  destruct (green_tiles _ _ _ _ _ _) as [[idx3 greens]|] eqn:Egreens; [|discriminate].
  destruct (cat1 greens) as [cg|] eqn:Ecg; [|discriminate].
  destruct (unroll cg) as [green|] eqn:Eug; [|discriminate].
  intros Eout.
  (* red *)
  destruct (red_tiles_inv _ _ _ _ _ _ Ereds)
    as (re1 & rk & re2 & re3 & -> & Hrk & Hr1 & Hr2 & Hr3).
  apply (estimate_plane _ _ _ _ _ Sr) in Hr1, Hr2, Hr3.
  pose proof (crop_like_plane _ _ _ _ _ _ Sr Hr1 Hrk) as Hrk'.
  assert (HallR : Forall (plane_like bs) [re1; rk; re2; re3])
    by (repeat constructor; assumption).
  destruct (known_in_group [re1; rk; re2; re3] cr red rk r re1 bs h w 1
              eq_refl HallR eq_refl (or_introl eq_refl) Sr Hrk Ecr Eur)
    as (hr & wr & cyr & cxr & Sred & Ehr & Ewr & Gred).
  (* blue *)
  destruct (blue_tiles_inv _ _ _ _ _ _ Eblues)
    as (be1 & be2 & bk & be3 & -> & Hbk & Hb1 & Hb2 & Hb3).
  apply (estimate_plane _ _ _ _ _ Sb) in Hb1, Hb2, Hb3.
  pose proof (crop_like_plane _ _ _ _ _ _ Sb Hb1 Hbk) as Hbk'.
  assert (HallB : Forall (plane_like bs) [be1; be2; bk; be3])
    by (repeat constructor; assumption).
  destruct (known_in_group [be1; be2; bk; be3] cb blue bk b be1 bs h w 2
              eq_refl HallB eq_refl (or_introl eq_refl) Sb Hbk Ecb Eub)
    as (hb & wb & cyb & cxb & Sblue & Ehb & Ewb & Gblue).
  (* green *)
  destruct (green_tiles_inv _ _ _ _ _ _ _ Egreens)
    as (gk0 & ge1 & ge2 & gk1 & -> & Hgk0 & Hgk1 & Hg1 & Hg2).
  apply (green_estimate_plane _ _ _ _ _ _ _ _ Sg0 Sg1) in Hg1, Hg2.
  pose proof (crop_like_plane _ _ _ _ _ _ Sg0 Hg1 Hgk0) as Hgk0'.
  pose proof (crop_like_plane _ _ _ _ _ _ Sg1 Hg1 Hgk1) as Hgk1'.
  assert (HallG : Forall (plane_like bs) [gk0; ge1; ge2; gk1])
    by (repeat constructor; assumption).
  destruct (known_in_group [gk0; ge1; ge2; gk1] cg green gk0 g0 ge1 bs h w 0
              eq_refl HallG eq_refl (or_intror (or_introl eq_refl)) Sg0 Hgk0 Ecg Eug)
    as (hg & wg & cyg & cxg & Sgreen & Ehg & Ewg & Ggreen0).
  destruct (known_in_group [gk0; ge1; ge2; gk1] cg green gk1 g1 ge1 bs h w 3
              eq_refl HallG eq_refl (or_intror (or_introl eq_refl)) Sg1 Hgk1 Ecg Eug)
    as (hg' & wg' & cyg' & cxg' & Sgreen' & Ehg' & Ewg' & Ggreen3).
  rewrite Sgreen in Sgreen'. injection Sgreen' as Eh' Ew'.
  assert (hg' = hg) by lia. assert (wg' = wg) by lia. subst hg' wg'.
  assert (cyg' = cyg) by lia. assert (cxg' = cxg) by lia. subst cyg' cxg'.
  (* the three channels *)
  pose proof (cat1_inv _ _ _ Eout) as Hinv.
  pose proof (Hinv green ltac:(right; now left)) as Eg.
  pose proof (Hinv blue ltac:(right; right; now left)) as Ebl.
  rewrite Sred, Sgreen in Eg. rewrite Sred, Sblue in Ebl.
  cbn [upd] in Eg, Ebl. injection Eg as Eg1' Eg2'. injection Ebl as Eb1' Eb2'.
  assert (hg = hr) by lia. assert (wg = wr) by lia.
  assert (hb = hr) by lia. assert (wb = wr) by lia. subst hg wg hb wb.
  assert (cyg = cyr) by lia. assert (cxg = cxr) by lia.
  assert (cyb = cyr) by lia. assert (cxb = cxr) by lia. subst cyg cxg cyb cxb.
  destruct (cat1_planes [red; green; blue] bs (hr * 2) (wr * 2))
    as (out' & Eo & _ & So & Go).
  { discriminate. }
  { repeat constructor; assumption. }
  rewrite Eout in Eo. injection Eo as <-.
  exists hr, wr, cyr, cxr.
  split; [exact So|]. split; [exact Ehr|]. split; [exact Ewr|].
  split; [exact HH|]. split; [exact HW|].
  intros b0 y x Hb0 Hy Hx.
  rewrite (Go b0 0 _ _ red), (Go b0 2 _ _ blue), (Go b0 1 _ _ green) by (try reflexivity; lia).
  rewrite (Go b0 1 _ _ green) by (try reflexivity; lia).
  change (get red [b0; 0; y * 2 + 0; x * 2 + 1])
    with (get red [b0; 0; y * 2 + 1 / 2; x * 2 + 1 mod 2]).
  change (get blue [b0; 0; y * 2 + 1; x * 2 + 0])
    with (get blue [b0; 0; y * 2 + 2 / 2; x * 2 + 2 mod 2]).
  change (get green [b0; 0; y * 2 + 0; x * 2 + 0])
    with (get green [b0; 0; y * 2 + 0 / 2; x * 2 + 0 mod 2]).
  change (get green [b0; 0; y * 2 + 1; x * 2 + 1])
    with (get green [b0; 0; y * 2 + 3 / 2; x * 2 + 3 mod 2]).
  rewrite Gred, Gblue, Ggreen0, Ggreen3 by assumption.
  rewrite Gr, Gb, Gg0, Gg1 by lia.
  rewrite !Gcs by lia.
  repeat split; reflexivity.
Qed.
(** C4, as amended.  In the lists that [forward] hands to [th.cat] and
    [unroll], the known red plane (cropped like the first estimate) is
    element 1, the known blue plane is element 2, not 0, and the two known
    green planes are elements 0 and 3; the other elements are estimates. *)
Theorem reassembly_tile_offsets (self : BayerKP) (kern : tensor A) :
  (forall r idx idx' tiles,
     red_tiles softmax1 self kern r idx = Some (idx', tiles) ->
     exists e k, nth_error tiles 0 = Some e /\ estimate_of r e /\
       crop_like r e = Some k /\ nth_error tiles 1 = Some k) /\
  (forall b idx idx' tiles,
     blue_tiles softmax1 self kern b idx = Some (idx', tiles) ->
     exists e k, nth_error tiles 0 = Some e /\ estimate_of b e /\
       crop_like b e = Some k /\ nth_error tiles 2 = Some k) /\
  (forall g0 g1 idx idx' tiles,
     green_tiles softmax1 self kern g0 g1 idx = Some (idx', tiles) ->
     exists e k0 k1, nth_error tiles 1 = Some e /\ green_estimate_of g0 g1 e /\
       crop_like g0 e = Some k0 /\ crop_like g1 e = Some k1 /\
       nth_error tiles 0 = Some k0 /\ nth_error tiles 3 = Some k1).
Proof.
  split; [|split].
  - intros r idx idx' tiles E.
    destruct (red_tiles_inv _ _ _ _ _ _ E) as (e1 & k & e2 & e3 & -> & Hk & H1 & _).
    exists e1, k. repeat split; assumption.
  - intros b idx idx' tiles E.
    destruct (blue_tiles_inv _ _ _ _ _ _ E) as (e1 & e2 & k & e3 & -> & Hk & H1 & _).
    exists e1, k. repeat split; assumption.
  - intros g0 g1 idx idx' tiles E.
    destruct (green_tiles_inv _ _ _ _ _ _ _ E)
      as (k0 & e1 & e2 & k1 & -> & Hk0 & Hk1 & H1 & _).
    exists e1, k0, k1. repeat split; assumption.
Qed.

(** C5.  For a single-channel mosaic on which [forward] returns, at every
    output pixel whose position has the phase of a known sample (red on even
    rows and odd columns, blue on odd rows and even columns, green where the
    parities agree) the corresponding channel of the output is the mosaic
    value at that position of the centre crop.  (With several channels the
    value is the channel sum, see [forward_known_gray].) *)
Theorem forward_keeps_known_samples (self : BayerKP)
    (samples : list (string * tensor A)) (mosaic out : tensor A) (bs H W : nat) :
  lookup "mosaic" samples = Some mosaic -> shape mosaic = [bs; 1; H; W] ->
  forward softmax1 self samples = Some out ->
  exists Ho Wo, shape out = [bs; 3; Ho; Wo] /\
    let oy := (H - Ho) / 2 in
    let ox := (W - Wo) / 2 in
    forall b Y X, b < bs -> Y < Ho -> X < Wo ->
      (Y mod 2 = 0 -> X mod 2 = 1 ->
       get out [b; 0; Y; X] = get mosaic [b; 0; Y + oy; X + ox]) /\
      (Y mod 2 = 1 -> X mod 2 = 0 ->
       get out [b; 2; Y; X] = get mosaic [b; 0; Y + oy; X + ox]) /\
      (Y mod 2 = X mod 2 ->
       get out [b; 1; Y; X] = get mosaic [b; 0; Y + oy; X + ox]).
Proof.
  intros Hl Hm Hf.
  destruct (forward_known_gray self samples mosaic out bs 1 H W Hl Hm Hf)
    as (ho & wo & cy & cx & So & Eh & Ew & HH & HW & G).
  exists (ho * 2), (wo * 2). split; [exact So|].
  intros oy ox b Y X Hb HY HX.
  assert (Eoy : oy = 2 * cy).
  { subst oy.
    pose proof (Nat.div_mod_eq (H - 2) 2).
    pose proof (Nat.mod_upper_bound (H - 2) 2 ltac:(lia)).
    pose proof (Nat.div_mod_eq (H - ho * 2) 2).
    pose proof (Nat.mod_upper_bound (H - ho * 2) 2 ltac:(lia)). lia. }
  assert (Eox : ox = 2 * cx).
  { subst ox.
    pose proof (Nat.div_mod_eq (W - 2) 2).
    pose proof (Nat.mod_upper_bound (W - 2) 2 ltac:(lia)).
    pose proof (Nat.div_mod_eq (W - wo * 2) 2).
    pose proof (Nat.mod_upper_bound (W - wo * 2) 2 ltac:(lia)). lia. }
  rewrite Eoy, Eox. clear Eoy Eox oy ox.
  pose proof (Nat.div_mod_eq Y 2) as EY. pose proof (Nat.div_mod_eq X 2) as EX.
  pose proof (Nat.mod_upper_bound Y 2 ltac:(lia)) as BY.
  pose proof (Nat.mod_upper_bound X 2 ltac:(lia)) as BX.
  set (y := Y / 2) in *. set (a0 := Y mod 2) in *.
  set (x := X / 2) in *. set (a1 := X mod 2) in *.
  clearbody y a0 x a1.
  destruct (G b y x Hb ltac:(lia) ltac:(lia)) as (Gr & Gb & Gg0 & Gg1).
  unfold sensor_reading in Gr, Gb, Gg0, Gg1.
  cbn [seq map sum_list fold_left] in Gr, Gb, Gg0, Gg1.
  split; [|split].
  - intros -> ->.
    replace Y with (y * 2 + 0) by lia. replace X with (x * 2 + 1) by lia.
    rewrite Gr.
    replace (y * 2 + 0 + 2 * cy) with ((y + cy) * 2 + 0) by lia.
    replace (x * 2 + 1 + 2 * cx) with ((x + cx) * 2 + 1) by lia. reflexivity.
  - intros -> ->.
    replace Y with (y * 2 + 1) by lia. replace X with (x * 2 + 0) by lia.
    rewrite Gb.
    replace (y * 2 + 1 + 2 * cy) with ((y + cy) * 2 + 1) by lia.
    replace (x * 2 + 0 + 2 * cx) with ((x + cx) * 2 + 0) by lia. reflexivity.
  - intros Ea. assert (Ha : a0 = 0 \/ a0 = 1) by lia.
    destruct Ha as [-> | ->]; subst a1.
    + replace Y with (y * 2 + 0) by lia. replace X with (x * 2 + 0) by lia.
      rewrite Gg0.
      replace (y * 2 + 0 + 2 * cy) with ((y + cy) * 2 + 0) by lia.
      replace (x * 2 + 0 + 2 * cx) with ((x + cx) * 2 + 0) by lia. reflexivity.
    + replace Y with (y * 2 + 1) by lia. replace X with (x * 2 + 1) by lia.
      rewrite Gg1.
      replace (y * 2 + 1 + 2 * cy) with ((y + cy) * 2 + 1) by lia.
      replace (x * 2 + 1 + 2 * cx) with ((x + cx) * 2 + 1) by lia. reflexivity.
Qed.
End ForwardFacts.

(** ** Unpacking followed by un-tiling *)

Section Roundtrip.
Context {A : Type} {SA : Scalar A}.

Lemma half_of_even (h : nat) : 1 <= h -> (2 * h - 2) / 2 + 1 = h.
Proof.
  intros Hh. replace (2 * h - 2) with ((h - 1) * 2) by lia.
  rewrite Nat.div_mul by lia. lia.
Qed.

(** C3, as amended.  For a single-channel mosaic with positive even
    dimensions, un-tiling the four unpacked planes with [unroll] in the
    unpacked order yields the mosaic with the two off-diagonal samples of
    every 2x2 tile exchanged; after planes 1 and 2 are exchanged, the order
    the tile lists of [forward] realise, it yields the mosaic itself. *)
Theorem unpack_unroll_roundtrip (mosaic : tensor A) (bs h w : nat) :
  wf mosaic -> shape mosaic = [bs; 1; 2 * h; 2 * w] -> 1 <= h -> 1 <= w ->
  exists cs u0 g0 b r g1 c u,
    color_samples_of mosaic = Some cs /\
    unroll cs = Some u0 /\
    (forall n y x a0 a1, n < bs -> y < h -> x < w -> a0 < 2 -> a1 < 2 ->
       get u0 [n; 0; y * 2 + a0; x * 2 + a1] = get mosaic [n; 0; y * 2 + a1; x * 2 + a0]) /\
    slice 1 0%Z 1%Z cs = Some g0 /\ slice 1 1%Z 2%Z cs = Some b /\
    slice 1 2%Z 3%Z cs = Some r /\ slice 1 3%Z 4%Z cs = Some g1 /\
    cat1 [g0; r; b; g1] = Some c /\ unroll c = Some u /\ u = mosaic.
Proof.
  intros Hwf Hm Hh Hw.
  destruct (color_samples_ok mosaic bs 1 (2 * h) (2 * w) Hm ltac:(lia) ltac:(lia))
    as (cs & Ecs & Scs & Gcs).
  rewrite !half_of_even in Scs, Gcs by assumption.
  cbn [seq map sum_list fold_left] in Gcs.
  destruct (unroll_ok cs bs h w Scs) as (u0 & Eu0 & _ & Su0 & Gu0).
  destruct (plane_spec cs bs h w 0 Scs ltac:(lia)) as (g0 & Eg0 & Sg0 & Gg0).
  destruct (plane_spec cs bs h w 1 Scs ltac:(lia)) as (b & Eb & Sb & Gb).
  destruct (plane_spec cs bs h w 2 Scs ltac:(lia)) as (r & Er & Sr & Gr).
  destruct (plane_spec cs bs h w 3 Scs ltac:(lia)) as (g1 & Eg1 & Sg1 & Gg1).
  cbn [Z.of_nat Pos.of_succ_nat Pos.succ] in Eg0, Eb, Er, Eg1.
  destruct (cat1_planes [g0; r; b; g1] bs h w) as (c & Ec & _ & Sc & Gc).
  { discriminate. }
  { repeat constructor; assumption. }
  cbn [length] in Sc.
  destruct (unroll_ok c bs h w Sc) as (u & Eu & Wu & Su & Gu).
  exists cs, u0, g0, b, r, g1, c, u.
  repeat (split; [assumption|]). split; [|repeat (split; [assumption|])].
  - intros n y x a0 a1 Hn Hy Hx Ha0 Ha1.
    rewrite Gu0, Gcs by (try assumption; lia).
    assert (Ha : (a0 = 0 \/ a0 = 1) /\ (a1 = 0 \/ a1 = 1)) by lia.
    destruct Ha as [[-> | ->] [-> | ->]]; reflexivity.
  - apply tensor_ext; try assumption.
    + rewrite Su, Hm, (Nat.mul_comm h 2), (Nat.mul_comm w 2). reflexivity.
    + rewrite Su. intros [|n [|ch [|Y [|X [|? ?]]]]]; cbn [inb]; try tauto.
      intros (Hn & Hch & HY & HX & _).
      assert (ch = 0) by lia. subst ch.
      pose proof (Nat.div_mod_eq Y 2) as EY. pose proof (Nat.div_mod_eq X 2) as EX.
      pose proof (Nat.mod_upper_bound Y 2 ltac:(lia)) as BY.
      pose proof (Nat.mod_upper_bound X 2 ltac:(lia)) as BX.
      set (y := Y / 2) in *. set (a0 := Y mod 2) in *.
      set (x := X / 2) in *. set (a1 := X mod 2) in *.
      clearbody y a0 x a1.
      replace Y with (y * 2 + a0) by lia. replace X with (x * 2 + a1) by lia.
      rewrite Gu by lia.
      assert (Ha : (a0 = 0 \/ a0 = 1) /\ (a1 = 0 \/ a1 = 1)) by lia.
      destruct Ha as [[-> | ->] [-> | ->]]; cbn [Nat.mul Nat.add].
      * rewrite (Gc n 0 y x g0), Gg0, Gcs by (try reflexivity; lia). reflexivity.
      * rewrite (Gc n 1 y x r), Gr, Gcs by (try reflexivity; lia). reflexivity.
      * rewrite (Gc n 2 y x b), Gb, Gcs by (try reflexivity; lia). reflexivity.
      * rewrite (Gc n 3 y x g1), Gg1, Gcs by (try reflexivity; lia). reflexivity.
Qed.
End Roundtrip.

(** ** Convex combinations over the rationals *)

Lemma fold_left_Qplus_acc (l : list Q) (a : Q) :
  (fold_left Qplus l a == a + fold_right Qplus 0 l)%Q.
Proof.
  revert a; induction l as [|x l IH]; intros a; simpl.
  - ring.
  - rewrite IH. ring.
Qed.

Lemma sum_list_Q (l : list Q) : (sum_list l == fold_right Qplus 0 l)%Q.
Proof.
  destruct l as [|x l]; simpl; [reflexivity|].
  apply fold_left_Qplus_acc.
Qed.

Lemma fold_left_Qmin_le (l : list Q) (a : Q) :
  (fold_left Qmin l a <= a)%Q /\ forall x, In x l -> (fold_left Qmin l a <= x)%Q.
Proof.
  revert a; induction l as [|y l IH]; intros a; simpl.
  - split; [apply Qle_refl|tauto].
  - destruct (IH (Qmin a y)) as [H1 H2]. split.
    + eapply Qle_trans; [exact H1|apply Q.le_min_l].
    + intros x [<-|Hx]; [|now apply H2].
      eapply Qle_trans; [exact H1|apply Q.le_min_r].
Qed.

Lemma fold_left_Qmax_ge (l : list Q) (a : Q) :
  (a <= fold_left Qmax l a)%Q /\ forall x, In x l -> (x <= fold_left Qmax l a)%Q.
Proof.
  revert a; induction l as [|y l IH]; intros a; simpl.
  - split; [apply Qle_refl|tauto].
  - destruct (IH (Qmax a y)) as [H1 H2]. split.
    + eapply Qle_trans; [apply Q.le_max_l|exact H1].
    + intros x [<-|Hx]; [|now apply H2].
      eapply Qle_trans; [apply Q.le_max_r|exact H1].
Qed.

Lemma Qlist_min_le (l : list Q) (x : Q) : In x l -> (Qlist_min l <= x)%Q.
Proof.
  destruct l as [|a l]; simpl; [tauto|].
  destruct (fold_left_Qmin_le l a) as [H1 H2].
  intros [<-|Hx]; auto.
Qed.

Lemma Qlist_max_ge (l : list Q) (x : Q) : In x l -> (x <= Qlist_max l)%Q.
Proof.
  destruct l as [|a l]; simpl; [tauto|].
  destruct (fold_left_Qmax_ge l a) as [H1 H2].
  intros [<-|Hx]; auto.
Qed.

Lemma convex_bounds (l : list nat) (w x : nat -> Q) (lo hi : Q) :
  (forall q, In q l -> (0 <= w q)%Q /\ (lo <= x q)%Q /\ (x q <= hi)%Q) ->
  (lo * fold_right Qplus 0 (map w l) <= fold_right Qplus 0 (map (fun q => w q * x q) l))%Q /\
  (fold_right Qplus 0 (map (fun q => w q * x q) l) <= hi * fold_right Qplus 0 (map w l))%Q.
Proof.
  induction l as [|q l IH]; intros Hall; simpl.
  - split; ring_simplify; apply Qle_refl.
  - destruct (Hall q (or_introl eq_refl)) as (Hw & Hlo & Hhi).
    destruct IH as [IH1 IH2]; [intros; apply Hall; now right|].
    set (sw := fold_right Qplus 0%Q (map w l)) in *.
    set (sx := fold_right Qplus 0%Q (map (fun q => (w q * x q)%Q) l)) in *.
    assert (0 <= w q * (x q - lo))%Q by (apply Qmult_le_0_compat; lra).
    assert (0 <= w q * (hi - x q))%Q by (apply Qmult_le_0_compat; lra).
    split; nra.
Qed.

Lemma convex_sum (n : nat) (w x : nat -> Q) :
  (forall q, q < n -> (0 <= w q)%Q) ->
  (sum_list (map w (seq 0 n)) == 1)%Q ->
  (Qlist_min (map x (seq 0 n)) <= sum_list (map (fun q => mul (w q) (x q)) (seq 0 n)))%Q /\
  (sum_list (map (fun q => mul (w q) (x q)) (seq 0 n)) <= Qlist_max (map x (seq 0 n)))%Q.
Proof.
  intros Hw Hsum. rewrite sum_list_Q in Hsum. rewrite !sum_list_Q.
  destruct (convex_bounds (seq 0 n) w x (Qlist_min (map x (seq 0 n)))
              (Qlist_max (map x (seq 0 n)))) as [H1 H2].
  - intros q Hq. split; [apply Hw; apply in_seq in Hq; lia|].
    split; [apply Qlist_min_le|apply Qlist_max_ge]; now apply in_map.
  - rewrite Hsum in H1, H2. simpl mul. split; lra.
Qed.

(** C2, as amended.  In exact arithmetic, on tensors of rationals: under
    the hypotheses of C1, when the weights of the kernel bank are
    non-negative and sum to 1 along the depth axis at every batch entry and
    position, every output value lies between the minimum and the maximum of
    the K x K source window it is computed from. *)
Theorem apply_kernels_convex (kernel src : tensor Q) (bs ci K kh0 kw0 h0 w0 : nat) :
  shape kernel = [bs; K * K; kh0; kw0] -> shape src = [bs; ci; h0; w0] ->
  1 <= K ->
  let ck := kernel_crop kh0 K h0 in
  let cs := source_crop kh0 K h0 in
  let kh := kh0 - 2 * ck in
  let kw := kw0 - 2 * ck in
  1 <= kh -> 1 <= kw ->
  kh + K - 1 = h0 - 2 * cs -> kw + K - 1 = w0 - 2 * cs ->
  (forall b q i j, b < bs -> q < K * K -> i < kh0 -> j < kw0 ->
     (0 <= get kernel [b; q; i; j])%Q) ->
  (forall b i j, b < bs -> i < kh0 -> j < kw0 ->
     (sum_list (map (fun q => get kernel [b; q; i; j]) (seq 0 (K * K))) == 1)%Q) ->
  exists out, apply_kernels kernel src = Some out /\
    forall b c i j, b < bs -> c < ci -> i < kh -> j < kw ->
      (Qlist_min (neighborhood src K b c (i + cs) (j + cs)) <= get out [b; c; i; j])%Q /\
      (get out [b; c; i; j] <= Qlist_max (neighborhood src K b c (i + cs) (j + cs)))%Q.
Proof.
  intros Hk Hs HK ck cs kh kw Hkh Hkw Hh Hw Hpos Hone.
  destruct (apply_kernels_value kernel src bs ci K kh0 kw0 h0 w0 Hk Hs HK Hkh Hkw Hh Hw)
    as (out & E & _ & G).
  exists out. split; [exact E|].
  intros b c i j Hb Hc Hi Hj.
  fold ck cs kh kw in G. rewrite (G b c i j Hb Hc Hi Hj).
  unfold neighborhood.
  apply (convex_sum (K * K)
           (fun q => get kernel [b; q; i + ck; j + ck])
           (fun q => get src [b; c; i + cs + q / K; j + cs + q mod K])).
  - intros q Hq. apply Hpos; subst kh kw; lia.
  - apply Hone; subst kh kw; lia.
Qed.

Lemma apply_kernels_convex_witness :
  exists out, apply_kernels (uniform [1; 4; 1; 1] 4) (qramp [1; 1; 2; 2]) = Some out /\
    Qle (Qlist_min (neighborhood (qramp [1; 1; 2; 2]) 2 0 0 0 0)) (get out [0; 0; 0; 0]) /\
    Qle (get out [0; 0; 0; 0]) (Qlist_max (neighborhood (qramp [1; 1; 2; 2]) 2 0 0 0 0)).
Proof.
  destruct (apply_kernels_convex (uniform [1; 4; 1; 1] 4) (qramp [1; 1; 2; 2])
              1 1 2 1 1 2 2 eq_refl eq_refl) as (out & E & G).
  - lia.
  - vm_compute; lia.
  - vm_compute; lia.
  - reflexivity.
  - reflexivity.
  - intros b q i j Hb Hq Hi Hj.
    assert (b = 0) by lia. assert (i = 0) by lia. assert (j = 0) by lia. subst.
    destruct q as [|[|[|[|q]]]]; try lia; vm_compute; discriminate.
  - intros b i j Hb Hi Hj.
    assert (b = 0) by lia. assert (i = 0) by lia. assert (j = 0) by lia. subst.
    vm_compute. reflexivity.
  - exists out. split; [exact E|]. apply (G 0 0 0 0); vm_compute; lia.
Defined.

(** ** Rounding

    With floating-point numbers the products and the partial sums are
    rounded, and the bound of the convex combination is lost. *)

Lemma terms_nonempty (t : sum_order) : 1 <= length (terms t).
Proof.
  induction t as [q|l IHl r IHr]; cbn [terms]; [cbn; lia|].
  rewrite length_app. lia.
Qed.

Lemma sum_order_1 (t : sum_order) :
  length (terms t) = 1 -> exists a, t = Term a.
Proof.
  destruct t as [a|l r]; [now exists a|].
  cbn [terms]. rewrite length_app.
  pose proof (terms_nonempty l). pose proof (terms_nonempty r). lia.
Qed.

Lemma sum_order_2 (t : sum_order) :
  length (terms t) = 2 -> exists a b, t = Plus (Term a) (Term b).
Proof.
  destruct t as [a|l r]; [discriminate|].
  cbn [terms]. rewrite length_app.
  pose proof (terms_nonempty l). pose proof (terms_nonempty r). intros E.
  destruct (sum_order_1 l) as [a ->]; [lia|].
  destruct (sum_order_1 r) as [b ->]; [lia|].
  now exists a, b.
Qed.

Lemma sum_order_3 (t : sum_order) :
  length (terms t) = 3 ->
  exists a b c, t = Plus (Term a) (Plus (Term b) (Term c)) \/
                t = Plus (Plus (Term a) (Term b)) (Term c).
Proof.
  destruct t as [a|l r]; [discriminate|].
  cbn [terms]. rewrite length_app.
  pose proof (terms_nonempty l). pose proof (terms_nonempty r). intros E.
  assert (length (terms l) = 1 \/ length (terms l) = 2) as [L|L] by lia.
  - destruct (sum_order_1 l L) as [a ->].
    destruct (sum_order_2 r) as (b & c & ->); [lia|].
    exists a, b, c. now left.
  - destruct (sum_order_2 l L) as (a & b & ->).
    destruct (sum_order_1 r) as [c ->]; [lia|].
    exists a, b, c. now right.
Qed.

Lemma sum_order_4 (t : sum_order) :
  length (terms t) = 4 ->
  exists a b c d,
    t = Plus (Term a) (Plus (Term b) (Plus (Term c) (Term d))) \/
    t = Plus (Term a) (Plus (Plus (Term b) (Term c)) (Term d)) \/
    t = Plus (Plus (Term a) (Term b)) (Plus (Term c) (Term d)) \/
    t = Plus (Plus (Term a) (Plus (Term b) (Term c))) (Term d) \/
    t = Plus (Plus (Plus (Term a) (Term b)) (Term c)) (Term d).
Proof.
  destruct t as [a|l r]; [discriminate|].
  cbn [terms]. rewrite length_app.
  pose proof (terms_nonempty l). pose proof (terms_nonempty r). intros E.
  assert (length (terms l) = 1 \/ length (terms l) = 2 \/ length (terms l) = 3)
    as [L|[L|L]] by lia.
  - destruct (sum_order_1 l L) as [a ->].
    destruct (sum_order_3 r) as (b & c & d & [-> | ->]); [lia| |];
      exists a, b, c, d; tauto.
  - destruct (sum_order_2 l L) as (a & b & ->).
    destruct (sum_order_2 r) as (c & d & ->); [lia|].
    exists a, b, c, d; tauto.
  - destruct (sum_order_3 l L) as (a & b & c & [-> | ->]);
      (destruct (sum_order_1 r) as [d ->]; [lia|]);
      exists a, b, c, d; tauto.
Qed.

(** The rounded products that [apply_kernels] adds for the skewed weights. *)
Lemma skewed_any_order (t : sum_order) :
  sums_each_once 4 t = true ->
  sum_in_order
    (fun q => mul (get (skewed_weights 24) [0; q; 0; 0])
                  (get (flat_source 24) [0; 0; q / 2; q mod 2])) t
    = fl 16777214 0.
Proof.
  intros Ht. unfold sums_each_once in Ht.
  apply andb_prop in Ht as [Hlen Hall].
  apply Nat.eqb_eq in Hlen.
  destruct (sum_order_4 t Hlen) as (a & b & c & d & Hs).
  assert (Hterms : terms t = [a; b; c; d])
    by (destruct Hs as [-> |[-> |[-> |[-> | ->]]]]; reflexivity).
  rewrite Hterms in Hall. clear Hlen Hterms.
  destruct a as [|[|[|[|a]]]]; destruct b as [|[|[|[|b]]]];
    destruct c as [|[|[|[|c]]]]; destruct d as [|[|[|[|d]]]];
    cbn in Hall; try discriminate Hall; clear Hall;
    destruct Hs as [-> |[-> |[-> |[-> | ->]]]]; vm_compute; reflexivity.
Qed.

(** C2 fails as stated on the floating-point tensors of the program: with
    binary32 numbers the bound does not hold.  The weights 1/16, 1/16, 5/16
    and 9/16 are binary32 numbers, none is negative and their sum is 1,
    exactly and as binary32 adds them; every entry of the 2 x 2 source
    window is 16777215 = 2^24 - 1.  [apply_kernels] returns 16777214, below
    every entry of the window: the products by 5/16 and by 9/16 are rounded
    down.  The result is the same in whatever order the four rounded
    products are added. *)
Lemma apply_kernels_convex_counterexample :
  forallb (SpecFloat.valid_binary 24 128)
    (data (skewed_weights 24) ++ data (flat_source 24)) = true /\
  map SF2Q (map (fun q => get (skewed_weights 24) [0; q; 0; 0]) (seq 0 4))
    = [Some (1 # 16)%Q; Some (1 # 16)%Q; Some (5 # 16)%Q; Some (9 # 16)%Q] /\
  SF2Q (sum_list (map (fun q => get (skewed_weights 24) [0; q; 0; 0]) (seq 0 4)))
    = Some 1%Q /\
  map SF2Q (neighborhood (flat_source 24) 2 0 0 0 0)
    = repeat (Some (16777215 # 1)%Q) 4 /\
  (exists out,
     apply_kernels (skewed_weights 24) (flat_source 24) = Some out /\
     shape out = [1; 1; 1; 1] /\
     SF2Q (get out [0; 0; 0; 0]) = Some (16777214 # 1)%Q /\
     forall v, In v (neighborhood (flat_source 24) 2 0 0 0 0) ->
       SpecFloat.SFltb (get out [0; 0; 0; 0]) v = true) /\
  (forall t, sums_each_once 4 t = true ->
     SF2Q (sum_in_order
             (fun q => mul (get (skewed_weights 24) [0; q; 0; 0])
                           (get (flat_source 24) [0; 0; q / 2; q mod 2])) t)
       = Some (16777214 # 1)%Q).
Proof.
  split; [vm_compute; reflexivity|].
  split; [vm_compute; reflexivity|].
  split; [vm_compute; reflexivity|].
  split; [vm_compute; reflexivity|].
  split.
  - eexists. split; [vm_compute; reflexivity|].
    split; [reflexivity|]. split; [vm_compute; reflexivity|].
    intros v Hv. vm_compute in Hv.
    destruct Hv as [<- |[<- |[<- |[<- |[]]]]]; vm_compute; reflexivity.
  - intros t Ht. rewrite (skewed_any_order t Ht). vm_compute. reflexivity.
Qed.

(** The same with binary64 numbers and the source value 2^53 - 1. *)
Lemma apply_kernels_convex_binary64 :
  forallb (SpecFloat.valid_binary 53 1024)
    (data (skewed_weights 53) ++ data (flat_source 53)) = true /\
  map SF2Q (data (skewed_weights 53))
    = [Some (1 # 16)%Q; Some (1 # 16)%Q; Some (5 # 16)%Q; Some (9 # 16)%Q] /\
  map SF2Q (data (flat_source 53)) = repeat (Some (9007199254740991 # 1)%Q) 4 /\
  exists out,
    apply_kernels (H := Scalar_binary64) (skewed_weights 53) (flat_source 53)
      = Some out /\
    SF2Q (get out [0; 0; 0; 0]) = Some (9007199254740990 # 1)%Q.
Proof.
  split; [vm_compute; reflexivity|].
  split; [vm_compute; reflexivity|].
  split; [vm_compute; reflexivity|].
  eexists. split; vm_compute; reflexivity.
Qed.

Lemma apply_kernels_weighted_sum_witness :
  exists out, apply_kernels (ramp [1; 4; 4; 4]) (ramp [1; 2; 3; 3]) = Some out /\
    shape out = [1; 2; 2; 2] /\
    get out [0; 1; 1; 0] =
      sum_list (map (fun q => mul (get (ramp [1; 4; 4; 4]) [0; q; 1 + 1; 0 + 1])
                                  (get (ramp [1; 2; 3; 3]) [0; 1; 1 + 0 + q / 2; 0 + 0 + q mod 2]))
                    (seq 0 (2 * 2))).
Proof.
  destruct (apply_kernels_weighted_sum (ramp [1; 4; 4; 4]) (ramp [1; 2; 3; 3])
              1 2 2 4 4 3 3 eq_refl eq_refl) as (out & E & S & G).
  - lia.
  - vm_compute; lia.
  - vm_compute; lia.
  - reflexivity.
  - reflexivity.
  - exists out. split; [exact E|]. split; [exact S|].
    apply (G 0 1 1 0); vm_compute; lia.
Defined.

Lemma apply_kernels_minimum_size_witness :
  (exists out, apply_kernels (ramp [1; 4; 1; 1]) (ramp [1; 1; 2; 2]) = Some out /\
     shape out = [1; 1; 1; 1]) /\
  apply_kernels (ramp [1; 4; 1; 1]) (ramp [1; 1; 1; 2]) = None.
Proof.
  split.
  - apply (proj1 (apply_kernels_minimum_size (ramp [1; 4; 1; 1]) (ramp [1; 1; 2; 2])
                    1 4 1 1 1 1 2 2 eq_refl eq_refl));
      try reflexivity; vm_compute; lia.
  - apply (proj2 (apply_kernels_minimum_size (ramp [1; 4; 1; 1]) (ramp [1; 1; 1; 2])
                    1 4 1 1 1 1 1 2 eq_refl eq_refl)).
    left. vm_compute. lia.
Defined.

(** C6 fails as stated: with K = 2, the 3 x 3 source (K + 1 rows and columns)
    yields no 1 x 1 output for any kernel bank of depth 4, and the 2 x 2
    source, smaller than K + 1, yields a result. *)
Lemma apply_kernels_minimum_size_counterexample :
  (forall (kernel out : tensor Z) bk kh kw,
     shape kernel = [bk; 4; kh; kw] ->
     apply_kernels kernel (ramp [1; 1; 3; 3]) = Some out ->
     shape out <> [1; 1; 1; 1]) /\
  apply_kernels (ramp [1; 4; 1; 1]) (ramp [1; 1; 3; 3]) = None /\
  apply_kernels (ramp [1; 4; 1; 1]) (ramp [1; 1; 2; 2])
    = Some (mkTensor [1; 1; 1; 1] [30%Z]).
Proof.
  split; [|split; reflexivity].
  intros kernel out bk kh kw Hk E.
  pose proof (apply_kernels_inv kernel (ramp [1; 1; 3; 3]) out _ _ _ _ _ _ _ _
                Hk eq_refl E) as Hinv.
  cbv zeta in Hinv. change (Nat.sqrt 4) with 2 in Hinv.
  destruct Hinv as (_ & Hh & _ & Hn & ->).
  remember (kh - 2 * kernel_crop kh 2 3) as kh'.
  remember (kw - 2 * kernel_crop kh 2 3) as kw'.
  intros [= -> ->].
  assert (E0 : source_crop kh 2 3 = 0) by lia.
  rewrite E0 in Hn. simpl in Hn. lia.
Qed.

Lemma apply_kernels_depth_batch_mismatch_witness :
  apply_kernels (ramp [1; 5; 1; 1]) (ramp [1; 1; 2; 2]) = None /\
  apply_kernels (ramp [3; 4; 1; 1]) (ramp [2; 1; 2; 2]) = None.
Proof.
  split.
  - apply (apply_kernels_depth_batch_mismatch (ramp [1; 5; 1; 1]) (ramp [1; 1; 2; 2])
             1 5 1 1 1 1 2 2 eq_refl eq_refl); vm_compute; lia.
  - apply (apply_kernels_depth_batch_mismatch (ramp [3; 4; 1; 1]) (ramp [2; 1; 2; 2])
             3 4 1 1 2 1 2 2 eq_refl eq_refl); vm_compute; lia.
Defined.

(** C7 fails as stated: a depth of 8 is not a perfect square and the batch
    sizes 1 and 2 disagree, yet both views succeed and a result comes back. *)
Lemma apply_kernels_depth_batch_mismatch_counterexample :
  Nat.sqrt 8 * Nat.sqrt 8 <> 8 /\ 1 <> 2 /\
  apply_kernels (ramp [1; 8; 1; 1]) (ramp [2; 1; 2; 2])
    = Some (mkTensor [2; 1; 1; 1] [30%Z; 174%Z]).
Proof. split; [vm_compute; lia|]. split; [lia|reflexivity]. Qed.

Lemma apply_kernels_odd_margin_witness :
  apply_kernels (ramp [1; 1; 2; 2]) (ramp [1; 1; 3; 3]) = None.
Proof.
  apply (apply_kernels_odd_margin (ramp [1; 1; 2; 2]) (ramp [1; 1; 3; 3])
           1 1 2 2 1 1 3 3 eq_refl eq_refl); try lia; reflexivity.
Defined.

(** C9 fails as stated: a 2 x 3 kernel bank needs 2 rows of a source that
    has 1, an odd margin, yet the six tiles of the 1 x 6 source fill the view
    and a result comes back. *)
Lemma apply_kernels_odd_margin_counterexample :
  Z.odd (needed_rows 2 (Nat.sqrt 1) - Z.of_nat 1) = true /\
  apply_kernels (ramp [1; 1; 2; 3]) (ramp [1; 1; 1; 6])
    = Some (mkTensor [1; 1; 2; 3] [1; 4; 9; 16; 25; 36]%Z).
Proof. split; reflexivity. Qed.

(** C3 fails as stated: on the 2 x 2 mosaic 1 2 / 3 4 the planes come out as
    1, 3, 2, 4 and [unroll] lays them out as 1 3 / 2 4. *)
Lemma unpack_unroll_counterexample :
  (c <- color_samples_of (ramp [1; 1; 2; 2]) ;; unroll c)
    = Some (mkTensor [1; 1; 2; 2] [1; 3; 2; 4]%Z) /\
  ramp [1; 1; 2; 2] = mkTensor [1; 1; 2; 2] [1; 2; 3; 4]%Z.
Proof. split; reflexivity. Qed.

Lemma unpack_unroll_roundtrip_witness :
  exists cs g0 b r g1 c,
    color_samples_of (ramp [1; 1; 4; 6]) = Some cs /\
    slice 1 0%Z 1%Z cs = Some g0 /\ slice 1 1%Z 2%Z cs = Some b /\
    slice 1 2%Z 3%Z cs = Some r /\ slice 1 3%Z 4%Z cs = Some g1 /\
    cat1 [g0; r; b; g1] = Some c /\ unroll c = Some (ramp [1; 1; 4; 6]).
Proof.
  destruct (unpack_unroll_roundtrip (ramp [1; 1; 4; 6]) 1 2 3)
    as (cs & u0 & g0 & b & r & g1 & c & u & H1 & _ & _ & H2 & H3 & H4 & H5 & H6 & H7 & ->).
  - reflexivity.
  - reflexivity.
  - lia.
  - lia.
  - exists cs, g0, b, r, g1, c. repeat split; assumption.
Defined.

Lemma demo_forward : forward uniform_softmax demo_kp demo_samples = Some demo_output.
Proof. vm_compute. reflexivity. Qed.

Lemma forward_keeps_known_samples_witness :
  shape demo_output = [1; 3; 6; 6] /\
  get demo_output [0; 0; 0; 1] = get demo_mosaic [0; 0; 2; 3] /\
  get demo_output [0; 2; 1; 0] = get demo_mosaic [0; 0; 3; 2] /\
  get demo_output [0; 1; 5; 5] = get demo_mosaic [0; 0; 7; 7].
Proof.
  destruct (forward_keeps_known_samples uniform_softmax demo_kp demo_samples
              demo_mosaic demo_output 1 10 10 eq_refl eq_refl demo_forward)
    as (Ho & Wo & So & G).
  injection So as <- <-.
  split; [reflexivity|].
  split; [|split].
  - apply (proj1 (G 0 0 1 ltac:(lia) ltac:(lia) ltac:(lia))); reflexivity.
  - apply (proj1 (proj2 (G 0 1 0 ltac:(lia) ltac:(lia) ltac:(lia)))); reflexivity.
  - apply (proj2 (proj2 (G 0 5 5 ltac:(lia) ltac:(lia) ltac:(lia)))); reflexivity.
Defined.

Lemma reassembly_tile_offsets_witness :
  (exists idx' tiles e k,
     red_tiles uniform_softmax demo_kp demo_kernels (demo_plane 2) 0 = Some (idx', tiles) /\
     nth_error tiles 0 = Some e /\ crop_like (demo_plane 2) e = Some k /\
     nth_error tiles 1 = Some k) /\
  (exists idx' tiles e k,
     blue_tiles uniform_softmax demo_kp demo_kernels (demo_plane 1) 27 = Some (idx', tiles) /\
     nth_error tiles 0 = Some e /\ crop_like (demo_plane 1) e = Some k /\
     nth_error tiles 2 = Some k) /\
  (exists idx' tiles e k0 k1,
     green_tiles uniform_softmax demo_kp demo_kernels (demo_plane 0) (demo_plane 3) 54
       = Some (idx', tiles) /\
     nth_error tiles 1 = Some e /\
     crop_like (demo_plane 0) e = Some k0 /\ crop_like (demo_plane 3) e = Some k1 /\
     nth_error tiles 0 = Some k0 /\ nth_error tiles 3 = Some k1).
Proof.
  pose proof (reassembly_tile_offsets uniform_softmax demo_kp demo_kernels)
    as (Hred & Hblue & Hgreen).
  split; [|split].
  - destruct (red_tiles uniform_softmax demo_kp demo_kernels (demo_plane 2) 0)
      as [[i t]|] eqn:E; [|vm_compute in E; discriminate].
    destruct (Hred _ _ _ _ E) as (e & k & H0 & _ & Hk & H1).
    exists i, t, e, k. repeat split; assumption.
  - destruct (blue_tiles uniform_softmax demo_kp demo_kernels (demo_plane 1) 27)
      as [[i t]|] eqn:E; [|vm_compute in E; discriminate].
    destruct (Hblue _ _ _ _ E) as (e & k & H0 & _ & Hk & H2).
    exists i, t, e, k. repeat split; assumption.
  - destruct (green_tiles uniform_softmax demo_kp demo_kernels
                (demo_plane 0) (demo_plane 3) 54)
      as [[i t]|] eqn:E; [|vm_compute in E; discriminate].
    destruct (Hgreen _ _ _ _ _ E) as (e & k0 & k1 & H1 & _ & Hk0 & Hk1 & H0 & H3).
    exists i, t, e, k0, k1. repeat split; assumption.
Defined.

(** C4 fails as stated for blue: in the run of [forward] on the demo mosaic
    element 0 of the blue list is an estimate whose first entry differs from
    that of the known blue plane, which is element 2. *)
Lemma reassembly_tile_offsets_counterexample :
  exists idx' tiles e k,
    blue_tiles uniform_softmax demo_kp demo_kernels (demo_plane 1) 27 = Some (idx', tiles) /\
    nth_error tiles 0 = Some e /\
    crop_like (demo_plane 1) e = Some k /\
    ~ Qeq (get e [0; 0; 0; 0]) (get k [0; 0; 0; 0]) /\
    nth_error tiles 0 <> Some k /\
    nth_error tiles 2 = Some k.
Proof.
  eexists _, _, _, _.
  split; [vm_compute; reflexivity|].
  split; [reflexivity|].
  split; [vm_compute; reflexivity|].
  split; [vm_compute; intros E; discriminate E|].
  split; [intros E; discriminate E|reflexivity].
Qed.

(** ** Construction of the models *)

(** C10.  [XtransNetwork.__init__] raises [TypeError] for every depth and
    width, because it calls [super(BayerNetwork, self)] on an instance of a
    class that does not derive from [BayerNetwork]; and [get] raises for every
    parameter dictionary whose "model" entry is "XtransNetwork". *)
Theorem XtransNetwork_never_constructs :
  (forall depth width,
     Construction.XtransNetwork_init depth width
       = Construction.Raised Construction.TypeError) /\
  (forall params,
     Construction.lookup_arg "model" params
       = Some (Construction.VStr "XtransNetwork") ->
     Construction.get params = Construction.Raised Construction.TypeError).
Proof.
  split.
  - intros depth width. reflexivity.
  - intros params Hm. unfold Construction.get.
    cbn [Construction.depth Construction.get_upto].
    unfold Construction.get_body. rewrite Hm.
    cbn [Construction.module_class String.eqb Ascii.eqb Bool.eqb].
    unfold Construction.construct.
    destruct (Construction.bind_kwargs _ _); reflexivity.
Qed.

Lemma XtransNetwork_never_constructs_witness :
  Construction.get [("model", Construction.VStr "XtransNetwork");
                    ("depth", Construction.VInt 11);
                    ("width", Construction.VInt 64)]%string
    = Construction.Raised Construction.TypeError.
Proof.
  apply (proj2 XtransNetwork_never_constructs). reflexivity.
Defined.

(** The [super] call of the sibling class names the class itself, and
    returns. *)
Lemma BayerNetwork_super_returns :
  Construction.get [("model", Construction.VStr "BayerNetwork");
                    ("depth", Construction.VInt 3)]%string
    = Construction.SuperReturned Construction.BayerNetwork
        [("depth", Construction.VInt 3); ("width", Construction.VInt 64)]%string.
Proof. reflexivity. Qed.

(** ** The nested calls of [get] *)

Module ConstructionFacts.
Import Construction.

Lemma depth_entry (k : string) (v : pyval) (d : list (string * pyval)) :
  In (k, v) d -> depth v < depth (VDict d).
Proof.
  cbn [depth]. induction d as [|[k' v'] d IH]; [intros []|].
  intros [E|Hin]; cbn [fold_right snd].
  - injection E as -> ->. lia.
  - specialize (IH Hin). lia.
Qed.

Lemma lookup_arg_In (k : string) (v : pyval) (d : list (string * pyval)) :
  lookup_arg k d = Some v -> exists k', In (k', v) d.
Proof.
  induction d as [|[k' v'] d IH]; cbn [lookup_arg]; [discriminate|].
  destruct (String.eqb k' k).
  - intros E. injection E as ->. exists k'. now left.
  - intros E. destruct (IH E) as [k'' Hin]. exists k''. now right.
Qed.

Lemma remove_key_In (k : string) (kv : string * pyval) (d : list (string * pyval)) :
  In kv (remove_key k d) -> In kv d.
Proof.
  induction d as [|[k' v'] d IH]; cbn [remove_key]; [intros []|].
  destruct (String.eqb k' k).
  - intros Hin. right. now apply IH.
  - intros [E|Hin]; [now left|right; now apply IH].
Qed.

(** The nested call of [get] is on a value of smaller depth. *)
Lemma get_body_ext (g1 g2 : list (string * pyval) -> outcome)
    (params : list (string * pyval)) :
  (forall d, depth (VDict d) < depth (VDict params) -> g1 d = g2 d) ->
  get_body g1 params = get_body g2 params.
Proof.
  intros Hg. unfold get_body.
  destruct (lookup_arg "model" params) as [[| | |name|]|]; try reflexivity.
  destruct (module_class name); [reflexivity|].
  destruct (String.eqb name "get"); [|reflexivity].
  unfold bind_required.
  destruct (forallb _ _); [|reflexivity].
  cbn [lookup_all].
  destruct (lookup_arg "params" (remove_key "model" params)) as [v|] eqn:E;
    [|reflexivity].
  destruct v as [| | | |d]; try reflexivity.
  apply Hg. destruct (lookup_arg_In _ _ _ E) as [k Hin].
  apply remove_key_In in Hin. exact (depth_entry _ _ _ Hin).
Qed.

Lemma get_upto_enough (fuel : nat) : forall params,
  depth (VDict params) <= fuel -> get_upto fuel params = get params.
Proof.
  induction fuel as [fuel IH] using lt_wf_ind. intros params Hd.
  unfold get. destruct fuel as [|fuel]; [cbn [depth] in Hd; lia|].
  destruct (depth (VDict params)) as [|n] eqn:En; [cbn [depth] in En; lia|].
  cbn [get_upto]. apply get_body_ext. intros d Hlt.
  rewrite (IH fuel) by lia. rewrite (IH n) by lia. reflexivity.
Qed.

(** [get] satisfies the equation of its source: the body of the function,
    with the function itself for the attribute "get" of the module. *)
Lemma get_unfold (params : list (string * pyval)) :
  get params = get_body get params.
Proof.
  unfold get at 1.
  destruct (depth (VDict params)) as [|n] eqn:En; [cbn [depth] in En; discriminate|].
  cbn [get_upto]. apply get_body_ext. intros d Hlt.
  apply get_upto_enough. lia.
Qed.

(** Nested calls: [get] under the name "get" raises [ValueError] when the
    inner dictionary has no "model"; it reaches a class through two levels;
    [apply_kernels] without its arguments raises [TypeError]; the name of a
    metadata attribute is not followed. *)
Lemma get_nested_calls :
  get [("model", VStr "get"); ("params", VDict [])]%string = Raised ValueError /\
  get [("model", VStr "get");
       ("params", VDict [("model", VStr "get");
                         ("params", VDict [("model", VStr "BayerKP")])])]%string
    = SuperReturned BayerKP [("ksize", VInt 7); ("normalize", VBool true)]%string /\
  get [("model", VStr "apply_kernels")]%string = Raised TypeError /\
  get [("model", VStr "__name__")]%string = Unmodelled "__name__".
Proof. repeat split. Qed.

End ConstructionFacts.

(** ** Caller buffers under the view embedding *)

Module StoreFacts.
Import Store.
Section Frames.
Context {A : Type} {SA : Scalar A}.


Lemma extends_refl (h : list (list A)) : extends h h.
Proof. exists []. now rewrite app_nil_r. Qed.

Lemma extends_trans (h1 h2 h3 : list (list A)) : extends h1 h2 -> extends h2 h3 -> extends h1 h3.
Proof. intros [e1 ->] [e2 ->]. exists (e1 ++ e2). now rewrite app_assoc. Qed.

Lemma extends_length (h h' : list (list A)) : extends h h' -> length h <= length h'.
Proof. intros [e ->]. rewrite length_app. lia. Qed.

Lemma extends_keeps (n : nat) (h h' : list (list A)) :
  n <= length h -> extends h h' -> keeps n h h'.
Proof.
  intros Hn [e ->]. split.
  - rewrite length_app. lia.
  - intros l Hl. apply nth_error_app1. lia.
Qed.

Lemma keeps_trans (n : nat) (h1 h2 h3 : list (list A)) :
  keeps n h1 h2 -> keeps n h2 h3 -> keeps n h1 h3.
Proof.
  intros [L1 K1] [L2 K2]. split; [assumption|].
  intros l Hl. rewrite K2, K1 by assumption. reflexivity.
Qed.

Lemma bind_inv {X Y : Type} (m : M (A:=A) X) (k : X -> M (A:=A) Y) (h h'' : list (list A)) (y : Y) :
  bind m k h = Some (y, h'') ->
  exists x h', m h = Some (x, h') /\ k x h' = Some (y, h'').
Proof.
  unfold bind. destruct (m h) as [[x h']|]; [|discriminate]. eauto.
Qed.

Lemma lift_inv {X : Type} (o : option X) (h h' : list (list A)) (x : X) :
  lift o h = Some (x, h') -> o = Some x /\ h' = h.
Proof. unfold lift. destruct o; [|discriminate]. now intros [= -> ->]. Qed.

Lemma alloc_only_ret {X : Type} (x : X) : alloc_only (ret x : M (A:=A) X).
Proof. intros h x' h' [= _ <-]. apply extends_refl. Qed.

Lemma alloc_only_lift {X : Type} (o : option X) : alloc_only (lift o : M (A:=A) X).
Proof. intros h x h' E. apply lift_inv in E as [_ ->]. apply extends_refl. Qed.

Lemma alloc_only_bind {X Y : Type} (m : M (A:=A) X) (k : X -> M (A:=A) Y) :
  alloc_only m -> (forall x, alloc_only (k x)) -> alloc_only (bind m k).
Proof.
  intros Hm Hk h y h'' E. apply bind_inv in E as (x & h' & E1 & E2).
  eapply extends_trans; [exact (Hm _ _ _ E1)|exact (Hk _ _ _ _ E2)].
Qed.

Lemma alloc_only_fresh (s : list nat) (f : list (list A) -> list nat -> A) :
  alloc_only (fresh s f).
Proof. intros h x h' [= _ <-]. now eexists. Qed.

Lemma alloc_only_contiguous (v : handle) : alloc_only (contiguous_v v).
Proof.
  unfold contiguous_v. destruct (is_dense v);
    [apply alloc_only_ret|apply alloc_only_fresh].
Qed.

Lemma alloc_only_zip (op : A -> A -> A) (v1 v2 : handle) :
  alloc_only (zip_with_bc_v op v1 v2).
Proof.
  unfold zip_with_bc_v. destruct (broadcast _ _);
    [apply alloc_only_fresh|apply alloc_only_lift].
Qed.

Lemma alloc_only_sum_dim (d : nat) (v : handle) : alloc_only (sum_dim_v d v).
Proof.
  unfold sum_dim_v. destruct (d <? _);
    [apply alloc_only_fresh|apply alloc_only_lift].
Qed.

Lemma alloc_only_cat1 (vs : list handle) : alloc_only (cat1_v vs).
Proof.
  unfold cat1_v. destruct vs as [|v vs]; [apply alloc_only_lift|].
  destruct (_ && _); [apply alloc_only_fresh|apply alloc_only_lift].
Qed.

Ltac alloc_step :=
  first [ apply alloc_only_ret | apply alloc_only_lift | apply alloc_only_fresh
        | apply alloc_only_contiguous | apply alloc_only_zip
        | apply alloc_only_sum_dim | apply alloc_only_cat1
        | apply alloc_only_bind; [|intros ?] ].

Lemma alloc_only_weighted_sum (bs ci K : nat) (st : handle * nat * nat * handle) :
  alloc_only (weighted_sum_v bs ci K st).
Proof.
  destruct st as [[[kernel kh] kw] noisy]. unfold weighted_sum_v, tmul_v.
  repeat alloc_step.
Qed.

Lemma alloc_only_apply_kernels (kernel noisy : handle) :
  alloc_only (apply_kernels_v kernel noisy).
Proof.
  unfold apply_kernels_v.
  destruct (hshape kernel) as [|? [|? [|? [|? [|? ?]]]]]; try apply alloc_only_lift.
  destruct (hshape noisy) as [|? [|? [|? [|? [|? ?]]]]]; try apply alloc_only_lift.
  apply alloc_only_bind; [apply alloc_only_lift|intros st].
  apply alloc_only_weighted_sum.
Qed.

Lemma alloc_only_unroll (buf : handle) : alloc_only (unroll_v buf).
Proof.
  unfold unroll_v.
  destruct (hshape buf) as [|? [|? [|? [|? [|? ?]]]]]; try apply alloc_only_lift.
  repeat alloc_step.
Qed.


Section ForwardFrame.
Variable softmax1_v : handle -> M (A:=A) handle.
Hypothesis softmax_alloc_only : forall v, alloc_only (softmax1_v v).

Lemma alloc_only_for_range {S : Type} (n : nat) (body : S -> M (A:=A) S) (st : S) :
  (forall st', alloc_only (body st')) -> alloc_only (for_range_v n body st).
Proof.
  intros Hb. revert st. induction n as [|n IH]; intros st; cbn [for_range_v].
  - apply alloc_only_ret.
  - apply alloc_only_bind; [apply Hb|intros st'; apply IH].
Qed.

Lemma alloc_only_single_plane_step (self : BayerKP_v) (kern src : handle)
    (st : nat * list handle) :
  alloc_only (single_plane_step_v softmax1_v self kern src st).
Proof.
  destruct st as [idx planes]. unfold single_plane_step_v.
  apply alloc_only_bind; [apply alloc_only_lift|intros k].
  apply alloc_only_bind; [apply softmax_alloc_only|intros k'].
  apply alloc_only_bind; [apply alloc_only_apply_kernels|intros e].
  apply alloc_only_ret.
Qed.

Lemma alloc_only_green_step (self : BayerKP_v) (kern g0 g1 : handle)
    (st : nat * list handle) :
  alloc_only (green_step_v softmax1_v self kern g0 g1 st).
Proof.
  destruct st as [idx planes]. unfold green_step_v, tadd_v.
  apply alloc_only_bind; [apply alloc_only_lift|intros k].
  apply alloc_only_bind; [apply softmax_alloc_only|intros k'].
  apply alloc_only_bind; [apply alloc_only_lift|intros k0].
  apply alloc_only_bind; [apply alloc_only_apply_kernels|intros e0].
  apply alloc_only_bind; [apply alloc_only_lift|intros k1].
  apply alloc_only_bind; [apply alloc_only_apply_kernels|intros e1].
  apply alloc_only_bind; [apply alloc_only_zip|intros s].
  apply alloc_only_ret.
Qed.

Lemma alloc_only_red_tiles (self : BayerKP_v) (kern r : handle) (idx : nat) :
  alloc_only (red_tiles_v softmax1_v self kern r idx).
Proof.
  unfold red_tiles_v.
  apply alloc_only_bind.
  - apply alloc_only_for_range. intros st. apply alloc_only_single_plane_step.
  - intros [i reds]. repeat alloc_step.
Qed.

Lemma alloc_only_blue_tiles (self : BayerKP_v) (kern b : handle) (idx : nat) :
  alloc_only (blue_tiles_v softmax1_v self kern b idx).
Proof.
  unfold blue_tiles_v.
  apply alloc_only_bind.
  - apply alloc_only_for_range. intros st. apply alloc_only_single_plane_step.
  - intros [i blues]. repeat alloc_step.
Qed.

Lemma alloc_only_green_tiles (self : BayerKP_v) (kern g0 g1 : handle) (idx : nat) :
  alloc_only (green_tiles_v softmax1_v self kern g0 g1 idx).
Proof.
  unfold green_tiles_v.
  apply alloc_only_bind.
  - apply alloc_only_for_range. intros st. apply alloc_only_green_step.
  - intros [i greens]. repeat alloc_step.
Qed.

Lemma alloc_only_reassemble (self : BayerKP_v) (cs kern : handle) :
  alloc_only (reassemble_v softmax1_v self cs kern).
Proof.
  unfold reassemble_v.
  destruct (hshape kern) as [|? [|? [|? [|? [|? ?]]]]]; try apply alloc_only_lift.
  do 4 (apply alloc_only_bind; [apply alloc_only_lift|intros ?]).
  apply alloc_only_bind; [apply alloc_only_red_tiles|intros [i1 reds]].
  apply alloc_only_bind; [apply alloc_only_cat1|intros ?].
  apply alloc_only_bind; [apply alloc_only_unroll|intros ?].
  apply alloc_only_bind; [apply alloc_only_blue_tiles|intros [i2 blues]].
  apply alloc_only_bind; [apply alloc_only_cat1|intros ?].
  apply alloc_only_bind; [apply alloc_only_unroll|intros ?].
  apply alloc_only_bind; [apply alloc_only_green_tiles|intros [i3 greens]].
  apply alloc_only_bind; [apply alloc_only_cat1|intros ?].
  apply alloc_only_bind; [apply alloc_only_unroll|intros ?].
  apply alloc_only_cat1.
Qed.
End ForwardFrame.

(** Views keep the buffer of their argument. *)
Lemma unfold_v_loc (d size step : nat) (v v' : handle) :
  unfold_v d size step v = Some v' -> loc v' = loc v.
Proof. unfold unfold_v. destruct (_ && _); [|discriminate]. now intros [= <-]. Qed.

Lemma permute_v_loc (dims : list nat) (v v' : handle) :
  permute_v dims v = Some v' -> loc v' = loc v.
Proof. unfold permute_v. destruct (is_perm _ _); [|discriminate]. now intros [= <-]. Qed.

Lemma view_v_loc (s : list nat) (v v' : handle) :
  view_v s v = Some v' -> loc v' = loc v.
Proof. unfold view_v. destruct (_ && _); [|discriminate]. now intros [= <-]. Qed.

Lemma fresh_loc (s : list nat) (f : list (list A) -> list nat -> A)
    (h h' : list (list A)) (v : handle) :
  fresh s f h = Some (v, h') -> loc v = length h /\ length h' = S (length h).
Proof.
  intros [= <- <-]. split; [reflexivity|]. rewrite length_app. simpl. lia.
Qed.

Lemma contiguous_v_loc (v v' : handle) (h h' : list (list A)) :
  contiguous_v v h = Some (v', h') -> loc v' = loc v \/ loc v' = length h.
Proof.
  unfold contiguous_v. destruct (is_dense v).
  - intros [= <- <-]. now left.
  - intros E. apply fresh_loc in E. right. tauto.
Qed.

(** The unpacked planes live in a buffer allocated by [forward]. *)
Lemma color_samples_fresh (mosaic cs : handle) (h h' : list (list A)) :
  color_samples_of_v mosaic h = Some (cs, h') ->
  extends h h' /\ length h <= loc cs.
Proof.
  unfold color_samples_of_v. intros E.
  apply bind_inv in E as (gray & h1 & E1 & E).
  assert (X1 : extends h h1) by exact (alloc_only_sum_dim _ _ _ _ _ E1).
  assert (L1 : loc gray = length h).
  { unfold sum_dim_v in E1. destruct (1 <? _).
    - apply fresh_loc in E1. tauto.
    - discriminate. }
  apply bind_inv in E as (c1 & h2 & E2 & E). apply lift_inv in E2 as [E2 ->].
  apply bind_inv in E as (c2 & h3 & E3 & E). apply lift_inv in E3 as [E3 ->].
  apply bind_inv in E as (c3 & h4 & E4 & E). apply lift_inv in E4 as [E4 ->].
  apply unfold_v_loc in E2. apply unfold_v_loc in E3. apply permute_v_loc in E4.
  destruct (hshape c3) as [|? [|? [|? [|? [|? [|? ?]]]]]]; try discriminate.
  apply bind_inv in E as (c4 & h5 & E5 & E). apply lift_inv in E as [E ->].
  apply view_v_loc in E.
  pose proof (alloc_only_contiguous _ _ _ _ E5) as X2.
  apply contiguous_v_loc in E5.
  split; [eapply extends_trans; eassumption|].
  pose proof (extends_length _ _ X1). destruct E5; lia.
Qed.

Lemma keeps_to_tensor (h h' : list (list A)) (v : handle) :
  keeps (length h) h h' -> loc v < length h ->
  to_tensor h' v = to_tensor h v.
Proof.
  intros [_ K] Hv. unfold to_tensor, tabulate. f_equal.
  apply map_ext. intros k. unfold load.
  specialize (K _ Hv).
  destruct (nth_error h (loc v)) as [buf|] eqn:E.
  - now rewrite (nth_error_nth _ _ _ E), (nth_error_nth _ _ _ K).
  - apply nth_error_None in E. lia.
Qed.

(** C8.  On tensors seen as views of shared buffers, [apply_kernels] leaves
    every buffer that exists when it is called unchanged, and so does
    [BayerKP.forward] when the softmax allocates its result and the kernel
    predictor overwrites at most the buffer of its own argument: every
    tensor of the caller (the kernel, the source, the mosaic) holds the same
    values after the call as before it. *)
Theorem inputs_not_mutated :
  (forall kernel noisy (h h' : list (list A)) out,
     apply_kernels_v kernel noisy h = Some (out, h') ->
     forall v, loc v < length h -> to_tensor h' v = to_tensor h v) /\
  (forall softmax1_v self samples (h h' : list (list A)) out,
     (forall v, alloc_only (softmax1_v v)) ->
     writes_only_argument (kernels_v self) ->
     forward_v softmax1_v self samples h = Some (out, h') ->
     forall v, loc v < length h -> to_tensor h' v = to_tensor h v).
Proof.
  split.
  - intros kernel noisy h h' out E v Hv.
    apply keeps_to_tensor; [|assumption].
    apply extends_keeps; [lia|]. exact (alloc_only_apply_kernels _ _ _ _ _ E).
  - intros softmax1_v self samples h h' out Hsm Hk E v Hv.
    apply keeps_to_tensor; [|assumption].
    unfold forward_v in E.
    apply bind_inv in E as (mosaic & h0 & E0 & E). apply lift_inv in E0 as [_ ->].
    apply bind_inv in E as (cs & h1 & E1 & E).
    apply color_samples_fresh in E1 as [X1 L1].
    apply bind_inv in E as (kern & h2 & E2 & E).
    apply Hk in E2 as [L2 K2].
    pose proof (alloc_only_reassemble softmax1_v Hsm _ _ _ _ _ _ E) as X3.
    pose proof (extends_length _ _ X1) as L01.
    apply (keeps_trans _ _ h1); [apply extends_keeps; [lia|assumption]|].
    apply (keeps_trans _ _ h2).
    + split; [lia|]. intros l Hl. apply K2; lia.
    + apply extends_keeps; [lia|assumption].
Qed.

End Frames.
End StoreFacts.

(** ** The view embedding refines the value embedding *)

Module Refinement.
Import Store StoreFacts.
Section Refines.
Context {A : Type} {SA : Scalar A}.

Lemma tabulate_ext (s : list nat) (f g : list nat -> A) :
  (forall idx, inb s idx -> f idx = g idx) -> tabulate s f = tabulate s g.
Proof.
  intros E. unfold tabulate. f_equal. apply map_ext_in.
  intros k Hk. apply in_seq in Hk. apply E. apply unravel_inb. lia.
Qed.

Lemma dot_dense (s idx : list nat) : dot idx (dense_strides s) = ravel s idx.
Proof.
  revert idx; induction s as [|n s IH]; intros [|i idx]; simpl; try reflexivity.
  now rewrite IH.
Qed.

Lemma inb_length (s idx : list nat) : inb s idx -> length idx = length s.
Proof.
  revert idx; induction s as [|n s IH]; intros [|i idx]; simpl; try tauto.
  intros [_ Hr]. f_equal. now apply IH.
Qed.

Lemma inb_ix (s idx : list nat) (d : nat) :
  inb s idx -> d < length s -> ix idx d < nth d s 0.
Proof.
  revert idx d; induction s as [|n s IH]; intros [|i idx] d; simpl; try tauto; try lia.
  intros [Hi Hr] Hd. destruct d as [|d]; [exact Hi|].
  apply (IH idx d Hr). lia.
Qed.

(** Replacing one coordinate. *)
Lemma inb_upd (s idx : list nat) (d m v : nat) :
  inb (upd d m s) idx -> v < nth d s 0 -> inb s (upd d v idx).
Proof.
  revert idx d; induction s as [|n s IH]; intros idx d.
  - destruct d; simpl; lia.
  - destruct idx as [|i idx]; destruct d as [|d]; simpl; try tauto.
    intros [Hi Hr] Hv. split; [assumption|]. now apply IH.
Qed.

Lemma dot_upd (idx st : list nat) (d v : nat) :
  d < length idx -> length idx = length st ->
  dot (upd d v idx) st + ix idx d * nth d st 0 = dot idx st + v * nth d st 0.
Proof.
  revert st d; induction idx as [|i idx IH]; intros [|k st] d; simpl; try lia.
  intros Hd Hl. destruct d as [|d]; simpl.
  - unfold ix; simpl. lia.
  - unfold ix in *; simpl. specialize (IH st d ltac:(lia) ltac:(lia)). lia.
Qed.

Lemma dot_upd_strides (idx st : list nat) (d c : nat) :
  d < length idx -> length idx = length st ->
  dot idx (upd d c st) + ix idx d * nth d st 0 = dot idx st + ix idx d * c.
Proof.
  revert st d; induction idx as [|i idx IH]; intros [|k st] d; simpl; try lia.
  intros Hd Hl. destruct d as [|d]; simpl.
  - unfold ix; simpl. lia.
  - unfold ix in *; simpl. specialize (IH st d ltac:(lia) ltac:(lia)). lia.
Qed.

Lemma length_upd (d v : nat) (l : list nat) : length (upd d v l) = length l.
Proof.
  revert d; induction l as [|x l IH]; intros [|d]; simpl; try reflexivity.
  now rewrite IH.
Qed.

Lemma nth_upd_same (d v : nat) (l : list nat) :
  d < length l -> nth d (upd d v l) 0 = v.
Proof.
  revert d; induction l as [|x l IH]; intros [|d]; simpl; try lia; try reflexivity.
  intros Hd. apply IH. lia.
Qed.

Lemma norm_index_le (n : nat) (v : Z) : norm_index n v <= n.
Proof. unfold norm_index. destruct (Z.ltb_spec v 0); lia. Qed.

Lemma sees_shape (h : list (list A)) (v : handle) (t : tensor A) :
  sees h v t -> shape t = hshape v.
Proof. intros [_ <-]. reflexivity. Qed.

Lemma sees_get (h : list (list A)) (v : handle) (t : tensor A) (idx : list nat) :
  sees h v t -> inb (hshape v) idx -> get t idx = load h v idx.
Proof. intros [_ <-] Hin. unfold to_tensor. now rewrite get_tabulate. Qed.

Lemma sees_extends (h h' : list (list A)) (v : handle) (t : tensor A) :
  sees h v t -> extends h h' -> sees h' v t.
Proof.
  intros [[Hl Hs] <-] X. split.
  - split; [|assumption]. pose proof (extends_length _ _ X). lia.
  - apply keeps_to_tensor; [|assumption]. apply extends_keeps; [lia|assumption].
Qed.

Lemma slice_refines (h : list (list A)) (v : handle) (t : tensor A)
    (d : nat) (lo hi : Z) :
  sees h v t -> refines_o h (slice_v d lo hi v) (slice d lo hi t).
Proof.
  intros Hs. pose proof (sees_shape _ _ _ Hs) as Sh.
  unfold refines_o, slice_v, slice. rewrite Sh.
  destruct (Nat.ltb_spec d (length (hshape v))) as [Hd|Hd]; [|reflexivity].
  eexists. split; [reflexivity|].
  destruct Hs as [[Hl Hst] Ht]. split.
  - split; [exact Hl|]. cbn [strides hshape]. now rewrite length_upd.
  - unfold to_tensor. cbn [hshape]. apply tabulate_ext. intros idx Hin.
    set (a := norm_index (nth d (hshape v) 0) lo) in *.
    set (b := norm_index (nth d (hshape v) 0) hi) in *.
    assert (Hb : b <= nth d (hshape v) 0) by apply norm_index_le.
    pose proof (inb_length _ _ Hin) as Hlen. rewrite length_upd in Hlen.
    pose proof (inb_ix _ _ d Hin ltac:(now rewrite length_upd)) as Hix.
    rewrite nth_upd_same in Hix by assumption.
    rewrite <- Ht. unfold to_tensor.
    rewrite get_tabulate by (eapply inb_upd; [exact Hin|lia]).
    unfold load, address. cbn [loc offset strides].
    pose proof (dot_upd idx (strides v) d (ix idx d + a) ltac:(lia) ltac:(lia)).
    f_equal. lia.
Qed.

Lemma length_dense_strides (s : list nat) : length (dense_strides s) = length s.
Proof. induction s as [|n s IH]; simpl; [reflexivity|now rewrite IH]. Qed.

Lemma is_dense_true (v : handle) :
  is_dense v = true <-> strides v = dense_strides (hshape v).
Proof. unfold is_dense. destruct (list_eq_dec _ _ _); split; congruence. Qed.

(** The view of a new buffer shows what was written to it. *)
Lemma fresh_sees (s : list nat) (f : list (list A) -> list nat -> A)
    (h h' : list (list A)) (v : handle) :
  fresh s f h = Some (v, h') ->
  extends h h' /\ sees h' v (tabulate s (f h)) /\ is_dense v = true.
Proof.
  intros [= <- <-]. split; [now eexists|]. split; [split|].
  - split; cbn [loc strides hshape].
    + rewrite length_app. simpl. lia.
    + apply length_dense_strides.
  - unfold to_tensor. cbn [hshape]. apply tabulate_ext. intros idx Hin.
    unfold load, address. cbn [loc offset strides].
    rewrite nth_middle, dot_dense. cbn [Nat.add].
    change (nth (ravel s idx) (map (fun k => f h (unravel s k)) (seq 0 (numel s))) zero)
      with (get (tabulate s (f h)) idx).
    now apply get_tabulate.
  - apply is_dense_true. reflexivity.
Qed.

Lemma permute_0231_refines (h : list (list A)) (v : handle) (t : tensor A) :
  sees h v t -> refines_o h (permute_v [0; 2; 3; 1] v) (permute [0; 2; 3; 1] t).
Proof.
  intros Hs. pose proof (sees_shape _ _ _ Hs) as Sh.
  unfold refines_o, permute_v, permute. rewrite Sh.
  destruct (is_perm [0; 2; 3; 1] (length (hshape v))) eqn:Ep; [|reflexivity].
  eexists. split; [reflexivity|].
  destruct Hs as [[Hl Hst] Ht].
  assert (Hr : length (hshape v) = 4).
  { unfold is_perm in Ep. apply andb_prop in Ep as [Ep _].
    apply Nat.eqb_eq in Ep. simpl in Ep. lia. }
  destruct v as [l o sh st]. cbn [hshape strides loc offset] in *.
  destruct sh as [|n0 [|n1 [|n2 [|n3 [|? ?]]]]]; try discriminate.
  destruct st as [|s0 [|s1 [|s2 [|s3 [|? ?]]]]]; try discriminate.
  split; [split; [exact Hl|reflexivity]|].
  unfold to_tensor. cbn [hshape map nth]. apply tabulate_ext.
  intros [|i0 [|i1 [|i2 [|i3 [|? ?]]]]]; cbn [inb]; try tauto.
  intros (H0 & H1 & H2 & H3 & _).
  cbn [map seq length index_of Nat.eqb ix nth].
  rewrite <- Ht. unfold to_tensor. cbn [hshape].
  rewrite get_tabulate by (cbn [inb]; repeat split; assumption).
  unfold load, address. cbn [loc offset strides dot]. f_equal. lia.
Qed.

Lemma contiguous_refines (h : list (list A)) (v : handle) (t : tensor A) :
  sees h v t ->
  match contiguous_v v h with
  | Some (v', h') => extends h h' /\ sees h' v' t /\ is_dense v' = true
  | None => False
  end.
Proof.
  intros Hs. unfold contiguous_v. destruct (is_dense v) eqn:Ed.
  - cbn. split; [apply extends_refl|]. split; assumption.
  - destruct (fresh (hshape v) (fun h0 idx => load h0 v idx) h) as [[v' h']|] eqn:E;
      [|discriminate].
    destruct (fresh_sees _ _ _ _ _ E) as (X & S' & D).
    split; [exact X|]. split; [|exact D].
    destruct Hs as [_ <-]. exact S'.
Qed.

Lemma view_refines (h : list (list A)) (v : handle) (t : tensor A) (s : list nat) :
  sees h v t -> is_dense v = true -> refines_o h (view_v s v) (view s t).
Proof.
  intros Hs Hd. pose proof (sees_shape _ _ _ Hs) as Sh.
  unfold refines_o, view_v, view. rewrite Hd, Sh. cbn [andb].
  destruct (Nat.eqb_spec (numel s) (numel (hshape v))) as [En|En]; [|reflexivity].
  eexists. split; [reflexivity|].
  destruct Hs as [[Hl Hst] Ht]. split.
  - split; [exact Hl|]. cbn [strides hshape]. apply length_dense_strides.
  - unfold to_tensor, tabulate. cbn [hshape]. f_equal.
    rewrite <- Ht. unfold to_tensor, tabulate. cbn [data]. rewrite En.
    apply map_ext_in. intros k Hk. apply in_seq in Hk.
    unfold load, address. cbn [loc offset strides].
    apply is_dense_true in Hd. rewrite Hd, !dot_dense.
    rewrite !ravel_unravel by lia. reflexivity.
Qed.

Lemma inb_app_last (s idx : list nat) (size : nat) :
  inb (s ++ [size]) idx ->
  exists idx0 j, idx = idx0 ++ [j] /\ inb s idx0 /\ j < size.
Proof.
  revert idx; induction s as [|n s IH]; intros idx; cbn [app inb].
  - destruct idx as [|j [|? ?]]; try tauto.
    intros [Hj _]. exists [], j. repeat split. exact Hj.
  - destruct idx as [|i idx]; [tauto|]. intros [Hi Hr].
    destruct (IH _ Hr) as (idx0 & j & -> & H0 & Hj).
    exists (i :: idx0), j. repeat split; assumption.
Qed.

Lemma dot_app_last (idx0 st : list nat) (j k : nat) :
  length idx0 = length st -> dot (idx0 ++ [j]) (st ++ [k]) = dot idx0 st + j * k.
Proof.
  revert st; induction idx0 as [|i idx0 IH]; intros [|c st]; simpl; try lia.
  intros Hl. rewrite IH by lia. lia.
Qed.

Lemma ix_app_l (idx0 : list nat) (j d : nat) :
  d < length idx0 -> ix (idx0 ++ [j]) d = ix idx0 d.
Proof. intros Hd. unfold ix. now apply app_nth1. Qed.

Lemma ix_app_last (idx0 : list nat) (j : nat) : ix (idx0 ++ [j]) (length idx0) = j.
Proof. unfold ix. rewrite app_nth2 by lia. now rewrite Nat.sub_diag. Qed.

Lemma inb_upd_same (s idx : list nat) (d m : nat) :
  inb (upd d m s) idx -> d < length s -> ix idx d < m.
Proof.
  intros Hin Hd. pose proof (inb_ix _ _ d Hin) as Hi.
  rewrite length_upd, nth_upd_same in Hi by assumption. now apply Hi.
Qed.

Lemma unfold_refines (h : list (list A)) (v : handle) (t : tensor A)
    (d size step : nat) :
  sees h v t -> refines_o h (unfold_v d size step v) (unfold d size step t).
Proof.
  intros Hs. pose proof (sees_shape _ _ _ Hs) as Sh.
  unfold refines_o, unfold_v, unfold. rewrite Sh.
  destruct (Nat.ltb_spec d (length (hshape v))) as [Hd|Hd]; [|reflexivity].
  destruct (Nat.leb_spec size (nth d (hshape v) 0)) as [Hsz|Hsz]; [|reflexivity].
  destruct (Nat.ltb_spec 0 step) as [Hstp|Hstp]; [|reflexivity].
  cbn [andb]. eexists. split; [reflexivity|].
  destruct Hs as [[Hl Hst] Ht]. split.
  - split; [exact Hl|]. cbn [strides hshape].
    rewrite !length_app, !length_upd. simpl. lia.
  - unfold to_tensor. cbn [hshape]. apply tabulate_ext. intros idx Hin.
    destruct (inb_app_last _ _ _ Hin) as (idx0 & j & -> & H0 & Hj).
    pose proof (inb_length _ _ H0) as Hlen. rewrite length_upd in Hlen.
    pose proof (inb_upd_same _ _ _ _ H0 Hd) as Hid.
    rewrite <- Hlen. rewrite ix_app_l, ix_app_last by lia.
    rewrite firstn_app, firstn_all, Nat.sub_diag. cbn [firstn]. rewrite app_nil_r.
    set (n := nth d (hshape v) 0) in *. set (k := nth d (strides v) 0) in *.
    assert (Hbound : ix idx0 d * step + j < n).
    { pose proof (Nat.Div0.mul_div_le (n - size) step).
      assert (ix idx0 d <= (n - size) / step) by lia. nia. }
    rewrite <- Ht. unfold to_tensor.
    rewrite get_tabulate by (eapply inb_upd; [exact H0|exact Hbound]).
    unfold load, address. cbn [loc offset strides].
    rewrite dot_app_last by (rewrite length_upd; lia).
    pose proof (dot_upd_strides idx0 (strides v) d (k * step) ltac:(lia) ltac:(lia)) as E1.
    pose proof (dot_upd idx0 (strides v) d (ix idx0 d * step + j) ltac:(lia) ltac:(lia)) as E2.
    fold k in E1, E2. f_equal. nia.
Qed.

Lemma bc_index_inb (s1 s2 s idx : list nat) :
  broadcast s1 s2 = Some s -> inb s idx ->
  inb s1 (bc_index s1 idx) /\ inb s2 (bc_index s2 idx).
Proof.
  revert s2 s idx; induction s1 as [|a s1 IH]; intros [|b s2] s idx; simpl; try discriminate.
  - intros [= <-]. destruct idx; simpl; tauto.
  - destruct (broadcast s1 s2) as [s'|] eqn:E; [|discriminate].
    intros Hs Hin.
    assert (Hc : exists c, s = c :: s' /\
               (c = a /\ c = b \/ a = 1 /\ c = b \/ b = 1 /\ c = a)).
    { destruct (Nat.eqb_spec a b); [injection Hs as <-; subst; eauto 10|].
      destruct (Nat.eqb_spec a 1); [injection Hs as <-; eauto 10|].
      destruct (Nat.eqb_spec b 1); [injection Hs as <-; eauto 10|discriminate]. }
    destruct Hc as (c & -> & Hc). destruct idx as [|i idx]; [simpl in Hin; tauto|].
    destruct Hin as [Hi Hr]. destruct (IH _ _ _ E Hr) as [I1 I2].
    cbn [bc_index inb]. repeat split; try assumption.
    + destruct (Nat.eqb_spec a 1); lia.
    + destruct (Nat.eqb_spec b 1); lia.
Qed.

Lemma zip_refines (op : A -> A -> A) (h : list (list A)) (v1 v2 : handle)
    (t1 t2 : tensor A) :
  sees h v1 t1 -> sees h v2 t2 ->
  refines_m h (zip_with_bc_v op v1 v2) (zip_with_bc op t1 t2).
Proof.
  intros S1 S2. unfold refines_m, zip_with_bc_v, zip_with_bc.
  rewrite (sees_shape _ _ _ S1), (sees_shape _ _ _ S2).
  destruct (broadcast (hshape v1) (hshape v2)) as [s|] eqn:E; [|reflexivity].
  match goal with |- match fresh ?s ?f ?h with _ => _ end =>
    destruct (fresh s f h) as [[v' h']|] eqn:Ef; [|discriminate Ef];
    destruct (fresh_sees _ _ _ _ _ Ef) as (X & S' & _)
  end.
  split; [exact X|]. eexists. split; [reflexivity|].
  destruct S' as [V' T']. split; [exact V'|]. rewrite T'.
  apply tabulate_ext. intros idx Hin.
  destruct (bc_index_inb _ _ _ _ E Hin) as [I1 I2].
  now rewrite (sees_get _ _ _ _ S1 I1), (sees_get _ _ _ _ S2 I2).
Qed.

Lemma inb_insert_at (s idx : list nat) (d k : nat) :
  d < length s -> inb (remove_at d s) idx -> k < nth d s 0 ->
  inb s (insert_at d k idx).
Proof.
  revert idx d; induction s as [|n s IH]; intros idx d; simpl; [lia|].
  destruct d as [|d]; simpl.
  - intros _ Hin Hk. split; assumption.
  - intros Hd. destruct idx as [|i idx]; simpl.
    + destruct s; simpl in *; [lia|tauto].
    + intros [Hi Hr] Hk. split; [assumption|]. apply IH; [lia|assumption|assumption].
Qed.

Lemma sum_dim_refines (h : list (list A)) (v : handle) (t : tensor A) (d : nat) :
  sees h v t -> refines_m h (sum_dim_v d v) (sum_dim d t).
Proof.
  intros Hs. unfold refines_m, sum_dim_v, sum_dim.
  rewrite (sees_shape _ _ _ Hs).
  destruct (Nat.ltb_spec d (length (hshape v))) as [Hd|Hd]; [|reflexivity].
  match goal with |- match fresh ?s ?f ?h with _ => _ end =>
    destruct (fresh s f h) as [[v' h']|] eqn:Ef; [|discriminate Ef];
    destruct (fresh_sees _ _ _ _ _ Ef) as (X & S' & _)
  end.
  split; [exact X|]. eexists. split; [reflexivity|].
  destruct S' as [V' T']. split; [exact V'|]. rewrite T'.
  apply tabulate_ext. intros idx Hin. f_equal.
  apply map_ext_in. intros k Hk. apply in_seq in Hk.
  symmetry. apply (sees_get _ _ _ _ Hs).
  apply inb_insert_at; [assumption|assumption|lia].
Qed.

Lemma crop_hw_refines (h : list (list A)) (v : handle) (t : tensor A) (c : Z) :
  sees h v t -> refines_o h (crop_hw_v c v) (crop_hw c t).
Proof.
  intros Hs. unfold crop_hw_v, crop_hw.
  pose proof (slice_refines h v t 2 c (- c) Hs) as R1. unfold refines_o in R1.
  destruct (slice_v 2 c (- c) v) as [v1|].
  - destruct R1 as (t1 & -> & S1). now apply slice_refines.
  - rewrite R1. reflexivity.
Qed.

Lemma crop_to_match_refines (h : list (list A)) (k n : handle) (tk tn : tensor A)
    (kh kw h0 K : nat) :
  sees h k tk -> sees h n tn ->
  match crop_to_match_v k n kh kw h0 K with
  | Some (k', kh', kw', n') =>
      exists tk' tn', crop_to_match tk tn kh kw h0 K = Some (tk', kh', kw', tn') /\
        sees h k' tk' /\ sees h n' tn'
  | None => crop_to_match tk tn kh kw h0 K = None
  end.
Proof.
  intros Sk Sn. unfold crop_to_match_v, crop_to_match.
  destruct (Z.of_nat kh + Z.of_nat K - 1 >? Z.of_nat h0)%Z.
  - set (c := ((Z.of_nat kh + Z.of_nat K - 1 - Z.of_nat h0) / 2)%Z).
    assert (R : refines_o h (if (c >? 0)%Z then crop_hw_v c k else Some k)
                  (if (c >? 0)%Z then crop_hw c tk else Some tk)).
    { destruct (c >? 0)%Z; [now apply crop_hw_refines|]. exists tk. now split. }
    unfold refines_o in R.
    destruct (if (c >? 0)%Z then crop_hw_v c k else Some k) as [k'|].
    + destruct R as (tk' & -> & Sk'). rewrite (sees_shape _ _ _ Sk').
      destruct (hshape k') as [|? [|? [|? [|? [|? ?]]]]]; try reflexivity.
      exists tk', tn. auto.
    + rewrite R. reflexivity.
  - set (c := ((Z.of_nat h0 - (Z.of_nat kh + Z.of_nat K - 1)) / 2)%Z).
    assert (R : refines_o h (if (c >? 0)%Z then crop_hw_v c n else Some n)
                  (if (c >? 0)%Z then crop_hw c tn else Some tn)).
    { destruct (c >? 0)%Z; [now apply crop_hw_refines|]. exists tn. now split. }
    unfold refines_o in R.
    destruct (if (c >? 0)%Z then crop_hw_v c n else Some n) as [n'|].
    + destruct R as (tn' & -> & Sn'). exists tk, tn'. auto.
    + rewrite R. reflexivity.
Qed.

Lemma weighted_sum_refines (h : list (list A)) (k n : handle) (tk tn : tensor A)
    (bs ci K kh kw : nat) :
  sees h k tk -> sees h n tn ->
  refines_m h (weighted_sum_v bs ci K (k, kh, kw, n))
    (weighted_sum bs ci K (tk, kh, kw, tn)).
Proof.
  intros Sk Sn. unfold refines_m, weighted_sum_v, weighted_sum, bind, lift, contiguous.
  (* kernel.permute(0, 2, 3, 1) *)
  pose proof (permute_0231_refines h k tk Sk) as R1. unfold refines_o in R1.
  destruct (permute_v [0; 2; 3; 1] k) as [k1|]; [|now rewrite R1].
  destruct R1 as (t1 & -> & S1).
  (* .contiguous() *)
  pose proof (contiguous_refines h k1 t1 S1) as R2.
  destruct (contiguous_v k1 h) as [[k2 h1]|]; [|contradiction].
  destruct R2 as (X1 & S2 & D2).
  (* .view(bs, 1, kh, kw, ksize*ksize) *)
  pose proof (view_refines h1 k2 t1 [bs; 1; kh; kw; K * K] S2 D2) as R3.
  unfold refines_o in R3.
  destruct (view_v _ k2) as [k3|]; [|now rewrite R3].
  destruct R3 as (t3 & -> & S3).
  (* noisy_data.unfold(2, ksize, 1).unfold(3, ksize, 1) *)
  pose proof (sees_extends _ _ _ _ Sn X1) as Sn1.
  pose proof (unfold_refines h1 n tn 2 K 1 Sn1) as R4. unfold refines_o in R4.
  destruct (unfold_v 2 K 1 n) as [n1|]; [|now rewrite R4].
  destruct R4 as (u1 & -> & S4).
  pose proof (unfold_refines h1 n1 u1 3 K 1 S4) as R5. unfold refines_o in R5.
  destruct (unfold_v 3 K 1 n1) as [n2|]; [|now rewrite R5].
  destruct R5 as (u2 & -> & S5).
  (* .contiguous().view(bs, ci, kh, kw, ksize*ksize) *)
  pose proof (contiguous_refines h1 n2 u2 S5) as R6.
  destruct (contiguous_v n2 h1) as [[n3 h2]|]; [|contradiction].
  destruct R6 as (X2 & S6 & D6).
  pose proof (view_refines h2 n3 u2 [bs; ci; kh; kw; K * K] S6 D6) as R7.
  unfold refines_o in R7.
  destruct (view_v _ n3) as [n4|]; [|now rewrite R7].
  destruct R7 as (u4 & -> & S7).
  (* kernel * tiles *)
  pose proof (sees_extends _ _ _ _ S3 X2) as S3'.
  pose proof (zip_refines mul h2 k3 n4 t3 u4 S3' S7) as R8.
  unfold refines_m in R8. unfold tmul_v, tmul.
  destruct (zip_with_bc_v mul k3 n4 h2) as [[p h3]|]; [|now rewrite R8].
  destruct R8 as (X3 & tp & -> & S8).
  (* th.sum(..., dim=4) *)
  pose proof (sum_dim_refines h3 p tp 4 S8) as R9. unfold refines_m in R9.
  destruct (sum_dim_v 4 p h3) as [[o h4]|]; [|exact R9].
  destruct R9 as (X4 & to & -> & S9).
  split; [|now exists to].
  eapply extends_trans; [exact X1|].
  eapply extends_trans; [exact X2|].
  eapply extends_trans; [exact X3|exact X4].
Qed.

(** The view embedding of [apply_kernels] computes the tensor that the value
    embedding computes, and fails when it fails. *)
Lemma apply_kernels_refines (h : list (list A)) (k n : handle) (tk tn : tensor A) :
  sees h k tk -> sees h n tn ->
  refines_m h (apply_kernels_v k n) (apply_kernels tk tn).
Proof.
  intros Sk Sn. unfold apply_kernels_v, apply_kernels.
  rewrite (sees_shape _ _ _ Sk), (sees_shape _ _ _ Sn).
  destruct (hshape k) as [|bk [|k2 [|kh [|kw [|? ?]]]]]; try reflexivity.
  destruct (hshape n) as [|bs [|ci [|h0 [|w0 [|? ?]]]]]; try reflexivity.
  pose proof (crop_to_match_refines h k n tk tn kh kw h0 (Nat.sqrt k2) Sk Sn) as R.
  unfold refines_m, bind, lift.
  destruct (crop_to_match_v k n kh kw h0 (Nat.sqrt k2)) as [[[[k' kh'] kw'] n']|].
  - destruct R as (tk' & tn' & -> & Sk' & Sn').
    exact (weighted_sum_refines h k' n' tk' tn' bs ci (Nat.sqrt k2) kh' kw' Sk' Sn').
  - rewrite R. reflexivity.
Qed.
End Refines.
End Refinement.

Lemma alloc_only_writes_only_argument {A : Type}
    (f : Store.handle -> Store.M (A:=A) Store.handle) :
  (forall v, Store.alloc_only (f v)) -> Store.writes_only_argument f.
Proof.
  intros Hf v h x h' E. destruct (Hf v _ _ _ E) as [ext ->]. split.
  - rewrite length_app. lia.
  - intros l Hl _. apply nth_error_app1. exact Hl.
Qed.

Lemma zero_logits_v_alloc_only (depth margin : nat) (v : Store.handle) :
  Store.alloc_only (Store.zero_logits_v depth margin v).
Proof.
  unfold Store.zero_logits_v.
  destruct (Store.hshape v) as [|? [|? [|? [|? [|? ?]]]]];
    first [apply StoreFacts.alloc_only_fresh | apply StoreFacts.alloc_only_lift].
Qed.

Lemma uniform_softmax_v_alloc_only (v : Store.handle) :
  Store.alloc_only (Store.uniform_softmax_v v).
Proof.
  unfold Store.uniform_softmax_v.
  destruct (Store.hshape v) as [|? [|[|?] ?]];
    first [apply StoreFacts.alloc_only_fresh | apply StoreFacts.alloc_only_lift].
Qed.

(** On the demo input the view embedding computes the tensor that the
    value embedding computes. *)
Lemma forward_v_agrees_on_demo :
  match Store.forward_v Store.uniform_softmax_v demo_kp_v
          [("mosaic"%string, demo_mosaic_v)] demo_heap with
  | Some (out, h') => Store.to_tensor h' out = demo_output
  | None => False
  end.
Proof. vm_compute. reflexivity. Qed.

Lemma apply_kernels_v_agrees_on_demo :
  match Store.apply_kernels_v (Store.dense_view 0 [1; 4; 4; 4])
          (Store.dense_view 1 [1; 2; 3; 3])
          [data (ramp [1; 4; 4; 4]); data (ramp [1; 2; 3; 3])] with
  | Some (out, h') =>
      Some (Store.to_tensor h' out)
        = apply_kernels (ramp [1; 4; 4; 4]) (ramp [1; 2; 3; 3])
  | None => False
  end.
Proof. vm_compute. reflexivity. Qed.

Lemma inputs_not_mutated_witness :
  (exists out h',
     Store.apply_kernels_v (Store.dense_view 0 [1; 4; 4; 4])
       (Store.dense_view 1 [1; 2; 3; 3])
       [data (ramp [1; 4; 4; 4]); data (ramp [1; 2; 3; 3])] = Some (out, h') /\
     Store.to_tensor h' (Store.dense_view 0 [1; 4; 4; 4]) = ramp [1; 4; 4; 4] /\
     Store.to_tensor h' (Store.dense_view 1 [1; 2; 3; 3]) = ramp [1; 2; 3; 3]) /\
  (exists out h',
     Store.forward_v Store.uniform_softmax_v demo_kp_v
       [("mosaic"%string, demo_mosaic_v)] demo_heap = Some (out, h') /\
     Store.to_tensor h' demo_mosaic_v = demo_mosaic).
Proof.
  split.
  - destruct (Store.apply_kernels_v (Store.dense_view 0 [1; 4; 4; 4])
                (Store.dense_view 1 [1; 2; 3; 3])
                [data (ramp [1; 4; 4; 4]); data (ramp [1; 2; 3; 3])])
      as [[out h']|] eqn:E; [|vm_compute in E; discriminate].
    exists out, h'. split; [reflexivity|].
    pose proof (proj1 StoreFacts.inputs_not_mutated _ _ _ _ _ E) as K.
    split.
    + rewrite (K (Store.dense_view 0 [1; 4; 4; 4])) by (simpl; lia). reflexivity.
    + rewrite (K (Store.dense_view 1 [1; 2; 3; 3])) by (simpl; lia). reflexivity.
  - destruct (Store.forward_v Store.uniform_softmax_v demo_kp_v
                [("mosaic"%string, demo_mosaic_v)] demo_heap)
      as [[out h']|] eqn:E; [|vm_compute in E; discriminate].
    exists out, h'. split; [reflexivity|].
    rewrite (proj2 StoreFacts.inputs_not_mutated Store.uniform_softmax_v demo_kp_v
               _ _ _ _ uniform_softmax_v_alloc_only
               (alloc_only_writes_only_argument _ (zero_logits_v_alloc_only 90 1))
               E demo_mosaic_v) by (simpl; lia).
    reflexivity.
Defined.

(** ** When [apply_kernels] returns *)

Section MoreApplyKernels.
Context {A : Type} {SA : Scalar A}.

(** The steps after the crop succeed as soon as the element counts agree. *)
Lemma weighted_sum_some (kernel noisy : tensor A)
    (bs ci K kh kw bk k2 kh' kw' bs' ci' h w : nat) :
  shape kernel = [bk; k2; kh'; kw'] -> shape noisy = [bs'; ci'; h; w] ->
  bs * (kh * kw) * (K * K) = bk * (kh' * kw') * k2 ->
  K <= h -> K <= w ->
  bs * ci * (kh * kw) * (K * K) = bs' * ci' * ((h - K + 1) * (w - K + 1)) * (K * K) ->
  exists out, weighted_sum bs ci K (kernel, kh, kw, noisy) = Some out.
Proof.
  intros Hk Hn E1 HKh HKw E2. unfold weighted_sum, permute, contiguous.
  rewrite Hk. cbn [length is_perm Nat.eqb andb forallb seq existsb orb map nth].
  rewrite view_ok by (cbn [numel shape tabulate]; lia).
  rewrite unfold_ok by (rewrite ?Hn; simpl; lia).
  rewrite unfold_ok by (simpl; rewrite ?Hn; simpl; lia).
  rewrite Hn. cbn [shape tabulate upd app nth length].
  rewrite !Nat.div_1_r.
  rewrite view_ok by (cbn [numel shape tabulate]; lia).
  unfold tmul, zip_with_bc. cbn [shape]. rewrite broadcast_axis1.
  unfold sum_dim. cbn [shape tabulate length Nat.ltb Nat.leb remove_at nth].
  eexists. reflexivity.
Qed.

Lemma apply_kernels_some (kernel src : tensor A)
    (bk k2 kh0 kw0 bs ci h0 w0 : nat) :
  shape kernel = [bk; k2; kh0; kw0] -> shape src = [bs; ci; h0; w0] ->
  let K := Nat.sqrt k2 in
  let ck := kernel_crop kh0 K h0 in
  let cs := source_crop kh0 K h0 in
  let kh := kh0 - 2 * ck in
  let kw := kw0 - 2 * ck in
  let h := h0 - 2 * cs in
  let w := w0 - 2 * cs in
  bs * (kh * kw) * (K * K) = bk * (kh * kw) * k2 ->
  K <= h -> K <= w ->
  bs * ci * (kh * kw) * (K * K) = bs * ci * ((h - K + 1) * (w - K + 1)) * (K * K) ->
  exists out, apply_kernels kernel src = Some out /\ shape out = [bs; ci; kh; kw].
Proof.
  intros Hk Hs K ck cs kh kw h w E1 HKh HKw E2.
  assert (Hex : exists out, apply_kernels kernel src = Some out).
  { unfold apply_kernels. rewrite Hk, Hs.
    destruct (crop_to_match_spec kernel src _ _ _ _ _ _ _ _ (Nat.sqrt k2) Hk Hs)
      as (k' & s' & -> & Hk' & Hs' & _).
    cbv beta iota zeta.
    exact (weighted_sum_some k' s' bs ci K kh kw bk k2 kh kw bs ci h w
             Hk' Hs' E1 HKh HKw E2). }
  destruct Hex as [out E]. exists out. split; [exact E|].
  pose proof (apply_kernels_inv kernel src out _ _ _ _ _ _ _ _ Hk Hs E) as Hinv.
  cbv zeta in Hinv. tauto.
Qed.

(** X1.  [apply_kernels] returns exactly when, after its crop, the kernel has
    as many elements as the view (bs, 1, kh, kw, K*K), the source has at
    least K rows and K columns, and the unfolded tiles have as many
    elements as the view (bs, ci, kh, kw, K*K): element counts are compared,
    shapes are not.  The result then has the batch and channels of the
    source and the rows and columns of the cropped kernel. *)
Theorem apply_kernels_returns_iff (kernel src : tensor A)
    (bk k2 kh0 kw0 bs ci h0 w0 : nat) :
  shape kernel = [bk; k2; kh0; kw0] -> shape src = [bs; ci; h0; w0] ->
  1 <= k2 ->
  let K := Nat.sqrt k2 in
  let ck := kernel_crop kh0 K h0 in
  let cs := source_crop kh0 K h0 in
  let kh := kh0 - 2 * ck in
  let kw := kw0 - 2 * ck in
  let h := h0 - 2 * cs in
  let w := w0 - 2 * cs in
  ((exists out, apply_kernels kernel src = Some out) <->
   (bs * (kh * kw) * (K * K) = bk * (kh * kw) * k2 /\
    K <= h /\ K <= w /\
    bs * ci * (kh * kw) * (K * K) = bs * ci * ((h - K + 1) * (w - K + 1)) * (K * K))) /\
  (forall out, apply_kernels kernel src = Some out -> shape out = [bs; ci; kh; kw]).
Proof.
  intros Hk Hs Hk2 K ck cs kh kw h w. split; [split|].
  - intros [out E].
    pose proof (apply_kernels_inv kernel src out _ _ _ _ _ _ _ _ Hk Hs E) as Hinv.
    cbv zeta in Hinv. tauto.
  - intros (E1 & HKh & HKw & E2).
    destruct (apply_kernels_some kernel src _ _ _ _ _ _ _ _ Hk Hs E1 HKh HKw E2)
      as (out & E & _). now exists out.
  - intros out E.
    pose proof (apply_kernels_inv kernel src out _ _ _ _ _ _ _ _ Hk Hs E) as Hinv.
    cbv zeta in Hinv. tauto.
Qed.

(** The crops when the source exceeds the rows the kernel needs by an even
    amount. *)
Lemma crops_source_larger (kh K h c : nat) :
  1 <= K -> h = kh + K - 1 + 2 * c ->
  kernel_crop kh K h = 0 /\ source_crop kh K h = c.
Proof.
  intros HK ->. unfold kernel_crop, source_crop, needed_rows.
  destruct (Z.gtb_spec (Z.of_nat kh + Z.of_nat K - 1) (Z.of_nat (kh + K - 1 + 2 * c)));
    [lia|].
  split; [reflexivity|].
  replace (Z.of_nat (kh + K - 1 + 2 * c) - (Z.of_nat kh + Z.of_nat K - 1))%Z
    with (Z.of_nat c * 2)%Z by lia.
  rewrite Z.div_mul by lia. lia.
Qed.

(** The crops when the kernel needs more rows than the source has, by an
    even amount. *)
Lemma crops_kernel_larger (kh K h c : nat) :
  1 <= c -> kh + K - 1 = h + 2 * c ->
  kernel_crop kh K h = c /\ source_crop kh K h = 0.
Proof.
  intros Hc E. unfold kernel_crop, source_crop, needed_rows.
  destruct (Z.gtb_spec (Z.of_nat kh + Z.of_nat K - 1) (Z.of_nat h)); [|lia].
  split; [|reflexivity].
  replace (Z.of_nat kh + Z.of_nat K - 1 - Z.of_nat h)%Z with (Z.of_nat c * 2)%Z by lia.
  rewrite Z.div_mul by lia. lia.
Qed.

(** X2.  The crop is computed from the rows alone and applied to rows and
    columns.  When the rows are compatible (the source has 2c more rows
    than the kh + K - 1 the kernel needs), a non-empty problem is accepted
    exactly when the columns differ by the same margin. *)
Theorem apply_kernels_margin_from_rows (kernel src : tensor A)
    (bs ci K kh kw h w c : nat) :
  shape kernel = [bs; K * K; kh; kw] -> shape src = [bs; ci; h; w] ->
  1 <= bs -> 1 <= ci -> 1 <= K -> 1 <= kh -> 1 <= kw ->
  h = kh + K - 1 + 2 * c ->
  ((exists out, apply_kernels kernel src = Some out) <-> w = kw + K - 1 + 2 * c).
Proof.
  intros Hk Hs Hbs Hci HK Hkh Hkw Hh.
  destruct (crops_source_larger kh K h c HK Hh) as [Eck Ecs].
  split.
  - intros [out E].
    pose proof (apply_kernels_inv kernel src out _ _ _ _ _ _ _ _ Hk Hs E) as Hinv.
    cbv zeta in Hinv. rewrite Nat.sqrt_square, Eck, Ecs in Hinv.
    destruct Hinv as (_ & HKh & HKw & E2 & _).
    replace (kh - 2 * 0) with kh in E2 by lia.
    replace (kw - 2 * 0) with kw in E2 by lia.
    replace (h - 2 * c - K + 1) with kh in E2 by lia.
    assert (Hcan : kh * kw = kh * (w - 2 * c - K + 1)).
    { apply (Nat.mul_cancel_l _ _ (bs * ci * (K * K)) ltac:(nia)). nia. }
    apply Nat.mul_cancel_l in Hcan; lia.
  - intros Hw.
    destruct (apply_kernels_some kernel src bs (K * K) kh kw bs ci h w Hk Hs)
      as (out & E & _); rewrite ?Nat.sqrt_square, ?Eck, ?Ecs; try lia.
    + replace (h - 2 * c - K + 1) with kh by lia.
      replace (w - 2 * c - K + 1) with kw by lia.
      replace (kh - 2 * 0) with kh by lia.
      replace (kw - 2 * 0) with kw by lia. reflexivity.
    + now exists out.
Qed.
End MoreApplyKernels.

Lemma apply_kernels_returns_iff_witness :
  (exists out, apply_kernels (ramp [1; 8; 1; 1]) (ramp [2; 1; 2; 2]) = Some out) /\
  ~ (exists out, apply_kernels (ramp [1; 4; 1; 1]) (ramp [1; 1; 3; 3]) = Some out).
Proof.
  split.
  - apply (proj2 (proj1 (apply_kernels_returns_iff (ramp [1; 8; 1; 1]) (ramp [2; 1; 2; 2])
                    1 8 1 1 2 1 2 2 eq_refl eq_refl ltac:(lia)))).
    vm_compute. repeat split; lia.
  - intros Hex.
    apply (proj1 (proj1 (apply_kernels_returns_iff (ramp [1; 4; 1; 1]) (ramp [1; 1; 3; 3])
                    1 4 1 1 1 1 3 3 eq_refl eq_refl ltac:(lia)))) in Hex.
    vm_compute in Hex. lia.
Defined.

Lemma apply_kernels_margin_from_rows_witness :
  (exists out, apply_kernels (ramp [1; 4; 1; 2]) (ramp [1; 1; 4; 5]) = Some out) /\
  ~ (exists out, apply_kernels (ramp [1; 4; 1; 2]) (ramp [1; 1; 4; 6]) = Some out).
Proof.
  split.
  - apply (proj2 (apply_kernels_margin_from_rows (ramp [1; 4; 1; 2]) (ramp [1; 1; 4; 5])
                    1 1 2 1 2 4 5 1 eq_refl eq_refl
                    ltac:(lia) ltac:(lia) ltac:(lia) ltac:(lia) ltac:(lia) ltac:(lia))).
    lia.
  - intros Hex.
    apply (proj1 (apply_kernels_margin_from_rows (ramp [1; 4; 1; 2]) (ramp [1; 1; 4; 6])
                    1 1 2 1 2 4 6 1 eq_refl eq_refl
                    ltac:(lia) ltac:(lia) ltac:(lia) ltac:(lia) ltac:(lia) ltac:(lia))) in Hex.
    lia.
Defined.

(** ** The planes of the unpacking and the pixels of [unroll] *)

Lemma half_floor (n : nat) : 2 <= n -> (n - 2) / 2 + 1 = n / 2.
Proof.
  intros Hn. replace n with (n - 2 + 1 * 2) at 2 by lia.
  now rewrite Nat.div_add by lia.
Qed.

Section MoreTiles.
Context {A : Type} {SA : Scalar A}.

(** X3.  The unpacking that opens every [forward] of the module (lines
    423-428; the same statements on lines 191-195, 265-273 and 332-340)
    returns exactly when the mosaic has at least two rows and two columns.
    Its result has four planes of half the size, rounded down; plane [p]
    holds, for every 2x2 tile, the channel sum of the sample at row offset
    [p mod 2] and column offset [p / 2].  The last row or column of a mosaic
    of odd size is not read. *)
Theorem unpack_planes (mosaic : tensor A) (bs C H W : nat) :
  shape mosaic = [bs; C; H; W] ->
  ((exists cs, color_samples_of mosaic = Some cs) <-> 2 <= H /\ 2 <= W) /\
  (forall cs, color_samples_of mosaic = Some cs ->
     shape cs = [bs; 4; H / 2; W / 2] /\
     forall b p y x, b < bs -> p < 4 -> y < H / 2 -> x < W / 2 ->
       2 * y + p mod 2 < 2 * (H / 2) /\ 2 * x + p / 2 < 2 * (W / 2) /\
       get cs [b; p; y; x]
         = sensor_reading mosaic C b (2 * y + p mod 2) (2 * x + p / 2)).
Proof.
  intros Hm. split; [split|].
  - intros [cs E]. exact (color_samples_inv _ _ _ _ _ _ Hm E).
  - intros [HH HW].
    destruct (color_samples_ok mosaic bs C H W Hm HH HW) as (cs & E & _). now exists cs.
  - intros cs E.
    destruct (color_samples_inv _ _ _ _ _ _ Hm E) as [HH HW].
    destruct (color_samples_ok mosaic bs C H W Hm HH HW) as (cs' & E' & Scs & Gcs).
    rewrite E in E'. injection E' as <-.
    rewrite !half_floor in Scs, Gcs by assumption.
    split; [exact Scs|].
    intros b p y x Hb Hp Hy Hx.
    assert (p / 2 < 2) by (apply Nat.Div0.div_lt_upper_bound; lia).
    assert (p mod 2 < 2) by (apply Nat.mod_upper_bound; lia).
    split; [lia|]. split; [lia|].
    rewrite Gcs by assumption. unfold sensor_reading.
    rewrite (Nat.mul_comm 2 y), (Nat.mul_comm 2 x). reflexivity.
Qed.

(** X4.  [unroll] returns exactly when the buffer has as many elements as
    four planes of its size: four channels, or an empty buffer.  On four
    channels the result is one plane of twice the size whose pixel (Y, X)
    is the entry (Y / 2, X / 2) of channel 2 * (Y mod 2) + X mod 2. *)
Theorem unroll_pixels (buf : tensor A) (bs c h w : nat) :
  shape buf = [bs; c; h; w] ->
  ((exists u, unroll buf = Some u) <-> c = 4 \/ bs * h * w = 0) /\
  (c = 4 -> exists u, unroll buf = Some u /\
     shape u = [bs; 1; h * 2; w * 2] /\
     forall b Y X, b < bs -> Y < h * 2 -> X < w * 2 ->
       get u [b; 0; Y; X] = get buf [b; 2 * (Y mod 2) + X mod 2; Y / 2; X / 2]).
Proof.
  intros Hb. split; [split|].
  - intros [u E]. unfold unroll in E. rewrite Hb in E.
    destruct (view [bs; 2; 2; h; w] buf) as [b1|] eqn:E1; [|discriminate].
    apply view_some in E1. destruct E1 as (E1 & _ & _).
    rewrite Hb in E1. cbn [numel] in E1.
    destruct (Nat.eq_dec c 4) as [->|Hc]; [now left|right]. nia.
  - intros Hc. unfold unroll, permute, contiguous. rewrite Hb.
    rewrite view_ok by (rewrite Hb; cbn [numel]; destruct Hc as [->|Hz]; nia).
    cbn [shape length is_perm Nat.eqb andb forallb seq existsb orb map nth].
    rewrite view_ok by (simpl; ring).
    eexists. reflexivity.
  - intros ->.
    destruct (unroll_ok buf bs h w Hb) as (u & Eu & _ & Su & Gu).
    exists u. split; [exact Eu|]. split; [exact Su|].
    intros b Y X Hbb HY HX.
    pose proof (Nat.div_mod_eq Y 2) as EY. pose proof (Nat.div_mod_eq X 2) as EX.
    pose proof (Nat.mod_upper_bound Y 2 ltac:(lia)) as BY.
    pose proof (Nat.mod_upper_bound X 2 ltac:(lia)) as BX.
    rewrite EY at 1. rewrite EX at 1.
    rewrite (Nat.mul_comm 2 (Y / 2)), (Nat.mul_comm 2 (X / 2)).
    rewrite Gu by (try assumption; lia).
    now rewrite (Nat.mul_comm (Y mod 2) 2).
Qed.
End MoreTiles.

Lemma unpack_planes_witness :
  (exists cs, color_samples_of (ramp [1; 2; 3; 5]) = Some cs /\
     shape cs = [1; 4; 1; 2] /\
     get cs [0; 1; 0; 1] = sensor_reading (ramp [1; 2; 3; 5]) 2 0 1 2) /\
  ~ (exists cs, color_samples_of (ramp [1; 2; 1; 5]) = Some cs).
Proof.
  split.
  - destruct (proj2 (proj1 (unpack_planes (ramp [1; 2; 3; 5]) 1 2 3 5 eq_refl))
                ltac:(lia)) as [cs E].
    exists cs. split; [exact E|].
    destruct (proj2 (unpack_planes (ramp [1; 2; 3; 5]) 1 2 3 5 eq_refl) cs E) as [S G].
    split; [exact S|].
    exact (proj2 (proj2 (G 0 1 0 1 ltac:(lia) ltac:(lia) ltac:(simpl; lia) ltac:(simpl; lia)))).
  - intros Hex.
    apply (proj1 (proj1 (unpack_planes (ramp [1; 2; 1; 5]) 1 2 1 5 eq_refl))) in Hex. lia.
Defined.

Lemma unroll_pixels_witness :
  (exists u, unroll (ramp [1; 4; 2; 3]) = Some u /\ shape u = [1; 1; 4; 6] /\
     get u [0; 0; 3; 4] = get (ramp [1; 4; 2; 3]) [0; 2; 1; 2]) /\
  ~ (exists u, unroll (ramp [1; 3; 2; 3]) = Some u).
Proof.
  split.
  - destruct (proj2 (unroll_pixels (ramp [1; 4; 2; 3]) 1 4 2 3 eq_refl) eq_refl)
      as (u & E & S & G).
    exists u. split; [exact E|]. split; [exact S|].
    exact (G 0 3 4 ltac:(lia) ltac:(lia) ltac:(lia)).
  - intros Hex.
    apply (proj1 (proj1 (unroll_pixels (ramp [1; 3; 2; 3]) 1 3 2 3 eq_refl))) in Hex.
    simpl in Hex. lia.
Defined.

(** ** The channels of the predicted bank *)

Section MoreForward.
Context {A : Type} {SA : Scalar A}.
Variable softmax1 : tensor A -> option (tensor A).

Lemma single_plane_step_idx (self : BayerKP) (kern src : tensor A)
    (idx : nat) (planes : list (tensor A)) (st' : nat * list (tensor A)) :
  single_plane_step softmax1 self kern src (idx, planes) = Some st' ->
  fst st' = idx + ksize self * ksize self.
Proof.
  intros E. destruct (single_plane_step_inv softmax1 _ _ _ _ _ _ E) as (e & -> & _).
  reflexivity.
Qed.

Lemma green_step_idx (self : BayerKP) (kern g0 g1 : tensor A)
    (idx : nat) (planes : list (tensor A)) (st' : nat * list (tensor A)) :
  green_step softmax1 self kern g0 g1 (idx, planes) = Some st' ->
  fst st' = idx + 2 * (ksize self * ksize self).
Proof.
  intros E. destruct (green_step_inv softmax1 _ _ _ _ _ _ _ E) as (e & -> & _).
  reflexivity.
Qed.

Lemma red_tiles_idx (self : BayerKP) (kern r : tensor A) (idx idx' : nat)
    (tiles : list (tensor A)) :
  red_tiles softmax1 self kern r idx = Some (idx', tiles) ->
  idx' = idx + 3 * (ksize self * ksize self).
Proof.
  unfold red_tiles. cbn [for_range].
  destruct (single_plane_step _ _ _ _ (idx, [r])) as [[i1 p1]|] eqn:E1; [|discriminate].
  apply single_plane_step_idx in E1. cbn [fst] in E1.
  destruct (single_plane_step _ _ _ _ (i1, p1)) as [[i2 p2]|] eqn:E2; [|discriminate].
  apply single_plane_step_idx in E2. cbn [fst] in E2.
  destruct (single_plane_step _ _ _ _ (i2, p2)) as [[i3 p3]|] eqn:E3; [|discriminate].
  apply single_plane_step_idx in E3. cbn [fst] in E3.
  destruct (item p3 0); [|discriminate]. destruct (item p3 1); [|discriminate].
  destruct (crop_like _ _); [|discriminate].
  destruct (setitem p3 0 _) as [p4|]; [|discriminate].
  destruct (item p4 1); [|discriminate]. destruct (item p4 0); [|discriminate].
  destruct (item p4 2); [|discriminate]. destruct (item p4 3); [|discriminate].
  intros [= <- _]. lia.
Qed.

Lemma blue_tiles_idx (self : BayerKP) (kern b : tensor A) (idx idx' : nat)
    (tiles : list (tensor A)) :
  blue_tiles softmax1 self kern b idx = Some (idx', tiles) ->
  idx' = idx + 3 * (ksize self * ksize self).
Proof.
  unfold blue_tiles. cbn [for_range].
  destruct (single_plane_step _ _ _ _ (idx, [b])) as [[i1 p1]|] eqn:E1; [|discriminate].
  apply single_plane_step_idx in E1. cbn [fst] in E1.
  destruct (single_plane_step _ _ _ _ (i1, p1)) as [[i2 p2]|] eqn:E2; [|discriminate].
  apply single_plane_step_idx in E2. cbn [fst] in E2.
  destruct (single_plane_step _ _ _ _ (i2, p2)) as [[i3 p3]|] eqn:E3; [|discriminate].
  apply single_plane_step_idx in E3. cbn [fst] in E3.
  destruct (item p3 0); [|discriminate]. destruct (item p3 1); [|discriminate].
  destruct (crop_like _ _); [|discriminate].
  destruct (setitem p3 0 _) as [p4|]; [|discriminate].
  destruct (item p4 1); [|discriminate]. destruct (item p4 2); [|discriminate].
  destruct (item p4 0); [|discriminate]. destruct (item p4 3); [|discriminate].
  intros [= <- _]. lia.
Qed.

Lemma green_tiles_idx (self : BayerKP) (kern g0 g1 : tensor A) (idx idx' : nat)
    (tiles : list (tensor A)) :
  green_tiles softmax1 self kern g0 g1 idx = Some (idx', tiles) ->
  idx' = idx + 4 * (ksize self * ksize self).
Proof.
  unfold green_tiles. cbn [for_range].
  destruct (green_step _ _ _ _ _ (idx, [g0; g1])) as [[i1 p1]|] eqn:E1; [|discriminate].
  apply green_step_idx in E1. cbn [fst] in E1.
  destruct (green_step _ _ _ _ _ (i1, p1)) as [[i2 p2]|] eqn:E2; [|discriminate].
  apply green_step_idx in E2. cbn [fst] in E2.
  destruct (item p2 0); [|discriminate]. destruct (item p2 2); [|discriminate].
  destruct (crop_like _ _); [|discriminate].
  destruct (setitem p2 0 _) as [p3|]; [|discriminate].
  destruct (item p3 1); [|discriminate]. destruct (item p3 2); [|discriminate].
  destruct (crop_like _ _); [|discriminate].
  destruct (setitem p3 1 _) as [p4|]; [|discriminate].
  destruct (item p4 0); [|discriminate]. destruct (item p4 2); [|discriminate].
  destruct (item p4 3); [|discriminate]. destruct (item p4 1); [|discriminate].
  intros [= <- _]. lia.
Qed.

(** X5.  The three groups of loops of [forward] read the channels of the
    predicted bank in order and without gaps: the reds end at channel
    3 K^2, the blues at 6 K^2 and the greens at 10 K^2, which is the number
    of output channels that [__init__] requests from [ConvChain]. *)
Theorem forward_channel_budget (self : BayerKP) (kern r b g0 g1 : tensor A)
    (i1 i2 i3 : nat) (reds blues greens : list (tensor A)) :
  red_tiles softmax1 self kern r 0 = Some (i1, reds) ->
  blue_tiles softmax1 self kern b i1 = Some (i2, blues) ->
  green_tiles softmax1 self kern g0 g1 i2 = Some (i3, greens) ->
  i1 = 3 * (ksize self * ksize self) /\
  i2 = 6 * (ksize self * ksize self) /\
  i3 = cc_outputs (BayerKP_init_kernels (ksize self)).
Proof.
  intros Er Eb Eg.
  apply red_tiles_idx in Er. apply blue_tiles_idx in Eb. apply green_tiles_idx in Eg.
  cbn [BayerKP_init_kernels cc_outputs]. nia.
Qed.

(** Slices of the first [N] channels of a bank. *)
Lemma slice_of_kept (kern kern' : tensor A) (N lo hi : nat) :
  length (shape kern) = 4 ->
  slice 1 0%Z (Z.of_nat N) kern = Some kern' -> lo <= hi -> hi <= N ->
  slice 1 (Z.of_nat lo) (Z.of_nat hi) kern' = slice 1 (Z.of_nat lo) (Z.of_nat hi) kern.
Proof.
  intros Hlen E Hlo Hhi.
  destruct (shape kern) as [|n0 [|n1 [|n2 [|n3 [|? ?]]]]] eqn:Hs; try discriminate.
  unfold slice in E. rewrite Hs in E. cbn [length Nat.ltb Nat.leb nth upd] in E.
  rewrite !norm_index_nonneg, !Nat2Z.id in E by lia.
  cbn [Z.to_nat Nat.min] in E. rewrite Nat.sub_0_r in E. injection E as <-.
  unfold slice. rewrite Hs. cbn [shape tabulate length Nat.ltb Nat.leb nth upd].
  rewrite !norm_index_nonneg, !Nat2Z.id by lia.
  replace (Nat.min hi (Nat.min N n1)) with (Nat.min hi n1) by lia.
  replace (Nat.min lo (Nat.min N n1)) with (Nat.min lo n1) by lia.
  f_equal. apply Refinement.tabulate_ext.
  intros [|i0 [|i1 [|i2 [|i3 [|? ?]]]]]; cbn [inb]; try tauto.
  intros (H0 & H1 & H2 & H3 & _). cbn [ix nth upd].
  rewrite get_tabulate by inb_solve. cbn [ix nth upd].
  now rewrite Nat.add_0_r.
Qed.

Lemma single_plane_step_kept (self self' : BayerKP) (kern kern' src : tensor A)
    (N idx : nat) (planes : list (tensor A)) :
  ksize self' = ksize self -> length (shape kern) = 4 ->
  slice 1 0%Z (Z.of_nat N) kern = Some kern' ->
  idx + ksize self * ksize self <= N ->
  single_plane_step softmax1 self' kern' src (idx, planes)
    = single_plane_step softmax1 self kern src (idx, planes).
Proof.
  intros EK Hlen E Hidx. unfold single_plane_step. rewrite EK.
  rewrite (slice_of_kept kern kern' N) by (try assumption; lia). reflexivity.
Qed.

Lemma green_step_kept (self self' : BayerKP) (kern kern' g0 g1 : tensor A)
    (N idx : nat) (planes : list (tensor A)) :
  ksize self' = ksize self -> length (shape kern) = 4 ->
  slice 1 0%Z (Z.of_nat N) kern = Some kern' ->
  idx + 2 * (ksize self * ksize self) <= N ->
  green_step softmax1 self' kern' g0 g1 (idx, planes)
    = green_step softmax1 self kern g0 g1 (idx, planes).
Proof.
  intros EK Hlen E Hidx. unfold green_step. rewrite EK.
  rewrite (slice_of_kept kern kern' N) by (try assumption; lia). reflexivity.
Qed.

Lemma red_tiles_kept (self self' : BayerKP) (kern kern' r : tensor A) (N idx : nat) :
  ksize self' = ksize self -> length (shape kern) = 4 ->
  slice 1 0%Z (Z.of_nat N) kern = Some kern' ->
  idx + 3 * (ksize self * ksize self) <= N ->
  red_tiles softmax1 self' kern' r idx = red_tiles softmax1 self kern r idx.
Proof.
  intros EK Hlen E Hidx. unfold red_tiles. cbn [for_range].
  rewrite (single_plane_step_kept self self' kern kern' r N) by (try assumption; lia).
  destruct (single_plane_step _ self kern r (idx, [r])) as [[i1 p1]|] eqn:E1; [|reflexivity].
  apply single_plane_step_idx in E1. cbn [fst] in E1.
  rewrite (single_plane_step_kept self self' kern kern' r N) by (try assumption; lia).
  destruct (single_plane_step _ self kern r (i1, p1)) as [[i2 p2]|] eqn:E2; [|reflexivity].
  apply single_plane_step_idx in E2. cbn [fst] in E2.
  rewrite (single_plane_step_kept self self' kern kern' r N) by (try assumption; lia).
  reflexivity.
Qed.

Lemma blue_tiles_kept (self self' : BayerKP) (kern kern' b : tensor A) (N idx : nat) :
  ksize self' = ksize self -> length (shape kern) = 4 ->
  slice 1 0%Z (Z.of_nat N) kern = Some kern' ->
  idx + 3 * (ksize self * ksize self) <= N ->
  blue_tiles softmax1 self' kern' b idx = blue_tiles softmax1 self kern b idx.
Proof.
  intros EK Hlen E Hidx. unfold blue_tiles. cbn [for_range].
  rewrite (single_plane_step_kept self self' kern kern' b N) by (try assumption; lia).
  destruct (single_plane_step _ self kern b (idx, [b])) as [[i1 p1]|] eqn:E1; [|reflexivity].
  apply single_plane_step_idx in E1. cbn [fst] in E1.
  rewrite (single_plane_step_kept self self' kern kern' b N) by (try assumption; lia).
  destruct (single_plane_step _ self kern b (i1, p1)) as [[i2 p2]|] eqn:E2; [|reflexivity].
  apply single_plane_step_idx in E2. cbn [fst] in E2.
  rewrite (single_plane_step_kept self self' kern kern' b N) by (try assumption; lia).
  reflexivity.
Qed.

Lemma green_tiles_kept (self self' : BayerKP) (kern kern' g0 g1 : tensor A) (N idx : nat) :
  ksize self' = ksize self -> length (shape kern) = 4 ->
  slice 1 0%Z (Z.of_nat N) kern = Some kern' ->
  idx + 4 * (ksize self * ksize self) <= N ->
  green_tiles softmax1 self' kern' g0 g1 idx = green_tiles softmax1 self kern g0 g1 idx.
Proof.
  intros EK Hlen E Hidx. unfold green_tiles. cbn [for_range].
  rewrite (green_step_kept self self' kern kern' g0 g1 N) by (try assumption; lia).
  destruct (green_step _ self kern g0 g1 (idx, [g0; g1])) as [[i1 p1]|] eqn:E1; [|reflexivity].
  apply green_step_idx in E1. cbn [fst] in E1.
  rewrite (green_step_kept self self' kern kern' g0 g1 N) by (try assumption; lia).
  reflexivity.
Qed.

Lemma slice_keeps_rank (d : nat) (lo hi : Z) (t t' : tensor A) :
  slice d lo hi t = Some t' -> length (shape t') = length (shape t).
Proof.
  unfold slice. destruct (d <? length (shape t)); [|discriminate].
  intros [= <-]. cbn [shape tabulate]. apply Refinement.length_upd.
Qed.

(** X6.  [forward] reads no channel of the predicted bank beyond the first
    10 K^2: a predictor and the same predictor cut to its first 10 K^2
    channels give the same result, error or tensor, on every input. *)
Theorem forward_ignores_extra_channels (K : nat)
    (pred : tensor A -> option (tensor A)) (samples : list (string * tensor A)) :
  forward softmax1 (mkBayerKP K (keep_channels (10 * K * K) pred)) samples
    = forward softmax1 (mkBayerKP K pred) samples.
Proof.
  unfold forward. destruct (lookup "mosaic" samples) as [mosaic|]; [|reflexivity].
  destruct (color_samples_of mosaic) as [cs|]; [|reflexivity].
  cbn [kernels]. unfold keep_channels.
  destruct (pred cs) as [kern|]; [|reflexivity].
  destruct (slice 1 0%Z (Z.of_nat (10 * K * K)) kern) as [kern'|] eqn:E.
  2:{ unfold slice in E.
      destruct (shape kern) as [|? [|? [|? [|? [|? ?]]]]]; try reflexivity; discriminate. }
  pose proof (slice_keeps_rank _ _ _ _ _ E) as Hrank.
  destruct (shape kern) as [|n0 [|n1 [|n2 [|n3 [|? ?]]]]] eqn:Hs;
    destruct (shape kern') as [|m0 [|m1 [|m2 [|m3 [|? ?]]]]] eqn:Hs';
    try discriminate; try reflexivity.
  assert (Hlen : length (shape kern) = 4) by now rewrite Hs.
  set (self := mkBayerKP K pred).
  set (self' := mkBayerKP K (fun cs0 => k <- pred cs0 ;; slice 1 0%Z (Z.of_nat (10 * K * K)) k)).
  assert (EK : ksize self' = ksize self) by reflexivity.
  assert (HK : ksize self = K) by reflexivity.
  destruct (slice 1 0%Z 1%Z cs) as [g0|]; [|reflexivity].
  destruct (slice 1 1%Z 2%Z cs) as [b|]; [|reflexivity].
  destruct (slice 1 2%Z 3%Z cs) as [r|]; [|reflexivity].
  destruct (slice 1 3%Z 4%Z cs) as [g1|]; [|reflexivity].
  rewrite (red_tiles_kept self self' kern kern' r (10 * K * K)) by (try assumption; nia).
  destruct (red_tiles softmax1 self kern r 0) as [[i1 reds]|] eqn:Er; [|reflexivity].
  apply red_tiles_idx in Er.
  destruct (cat1 reds) as [cr|]; [|reflexivity]. cbn beta iota.
  destruct (unroll cr) as [red|]; [|reflexivity].
  rewrite (blue_tiles_kept self self' kern kern' b (10 * K * K)) by (try assumption; nia).
  destruct (blue_tiles softmax1 self kern b i1) as [[i2 blues]|] eqn:Eb; [|reflexivity].
  apply blue_tiles_idx in Eb.
  destruct (cat1 blues) as [cb|]; [|reflexivity]. cbn beta iota.
  destruct (unroll cb) as [blue|]; [|reflexivity].
  rewrite (green_tiles_kept self self' kern kern' g0 g1 (10 * K * K)) by (try assumption; nia).
  reflexivity.
Qed.
End MoreForward.

Lemma forward_channel_budget_witness :
  exists i1 i2 i3 reds blues greens,
    red_tiles uniform_softmax demo_kp demo_kernels (demo_plane 2) 0 = Some (i1, reds) /\
    blue_tiles uniform_softmax demo_kp demo_kernels (demo_plane 1) i1 = Some (i2, blues) /\
    green_tiles uniform_softmax demo_kp demo_kernels (demo_plane 0) (demo_plane 3) i2
      = Some (i3, greens) /\
    i1 = 27 /\ i2 = 54 /\ i3 = 90.
Proof.
  destruct (red_tiles uniform_softmax demo_kp demo_kernels (demo_plane 2) 0)
    as [[i1 reds]|] eqn:Er; [|vm_compute in Er; discriminate].
  assert (Ei1 : i1 = 27) by (vm_compute in Er; congruence).
  subst i1.
  destruct (blue_tiles uniform_softmax demo_kp demo_kernels (demo_plane 1) 27)
    as [[i2 blues]|] eqn:Eb; [|vm_compute in Eb; discriminate].
  assert (Ei2 : i2 = 54) by (vm_compute in Eb; congruence).
  subst i2.
  destruct (green_tiles uniform_softmax demo_kp demo_kernels (demo_plane 0) (demo_plane 3) 54)
    as [[i3 greens]|] eqn:Eg; [|vm_compute in Eg; discriminate].
  exists 27, 54, i3, reds, blues, greens.
  do 3 (split; [first [reflexivity | assumption]|]).
  exact (forward_channel_budget uniform_softmax demo_kp demo_kernels
           (demo_plane 2) (demo_plane 1) (demo_plane 0) (demo_plane 3)
           27 54 i3 reds blues greens Er Eb Eg).
Defined.

(** ** When [forward] returns *)

Section ForwardTotal.
Context {A : Type} {SA : Scalar A}.
Variable softmax1 : tensor A -> option (tensor A).

Lemma broadcast_same (s : list nat) : broadcast s s = Some s.
Proof.
  induction s as [|a s IH]; [reflexivity|].
  cbn [broadcast]. rewrite IH, Nat.eqb_refl. reflexivity.
Qed.

Lemma tadd_same (t1 t2 : tensor A) (s : list nat) :
  shape t1 = s -> shape t2 = s ->
  exists t, tadd t1 t2 = Some t /\ shape t = s.
Proof.
  intros H1 H2. unfold tadd, zip_with_bc. rewrite H1, H2, broadcast_same.
  eexists. split; reflexivity.
Qed.

(** [apply_kernels] for an odd footprint K = 2m + 1 and a bank that is [e]
    entries smaller than the source on every side. *)
Lemma apply_kernels_even_margin (kernel src : tensor A) (bs ci m e h w : nat) :
  shape kernel = [bs; (2 * m + 1) * (2 * m + 1); h - 2 * e; w - 2 * e] ->
  shape src = [bs; ci; h; w] ->
  2 * e < h -> 2 * e < w -> 2 * m + 1 <= h -> 2 * m + 1 <= w ->
  exists out, apply_kernels kernel src = Some out /\
    shape out = [bs; ci; h - 2 * Nat.max e m; w - 2 * Nat.max e m].
Proof.
  intros Hk Hs He1 He2 HK1 HK2.
  pose proof (apply_kernels_some kernel src _ _ _ _ _ _ _ _ Hk Hs) as P.
  cbv zeta in P. rewrite Nat.sqrt_square in P.
  destruct (le_lt_dec m e) as [Hme|Hme].
  - destruct (crops_source_larger (h - 2 * e) (2 * m + 1) h (e - m)) as [Eck Ecs]; [lia|lia|].
    rewrite Eck, Ecs in P.
    replace (Nat.max e m) with e by lia.
    replace (h - 2 * e - 2 * 0) with (h - 2 * e) in P by lia.
    replace (w - 2 * e - 2 * 0) with (w - 2 * e) in P by lia.
    replace (h - 2 * (e - m) - (2 * m + 1) + 1) with (h - 2 * e) in P by lia.
    replace (w - 2 * (e - m) - (2 * m + 1) + 1) with (w - 2 * e) in P by lia.
    apply P; lia.
  - destruct (crops_kernel_larger (h - 2 * e) (2 * m + 1) h (m - e)) as [Eck Ecs]; [lia|lia|].
    rewrite Eck, Ecs in P.
    replace (Nat.max e m) with m by lia.
    replace (h - 2 * e - 2 * (m - e)) with (h - 2 * m) in P by lia.
    replace (w - 2 * e - 2 * (m - e)) with (w - 2 * m) in P by lia.
    replace (h - 2 * 0 - (2 * m + 1) + 1) with (h - 2 * m) in P by lia.
    replace (w - 2 * 0 - (2 * m + 1) + 1) with (w - 2 * m) in P by lia.
    apply P; lia.
Qed.

(** [apply_kernels] for an even footprint K = 2m under the same margins. *)
Lemma apply_kernels_even_ksize (kernel src : tensor A) (bs ci m e h w : nat) :
  shape kernel = [bs; (2 * m) * (2 * m); h - 2 * e; w - 2 * e] ->
  shape src = [bs; ci; h; w] ->
  1 <= bs -> 1 <= ci -> 1 <= m -> 2 * e < h -> 2 * e < w ->
  apply_kernels kernel src = None.
Proof.
  intros Hk Hs Hbs Hci Hm He1 He2.
  destruct (apply_kernels kernel src) as [out|] eqn:E; [|reflexivity].
  exfalso. pose proof (apply_kernels_inv _ _ _ _ _ _ _ _ _ _ _ Hk Hs E) as Hinv.
  cbv zeta in Hinv. rewrite Nat.sqrt_square in Hinv.
  remember (2 * m) as K eqn:EK. remember (h - 2 * e) as kh eqn:Ekh.
  remember (w - 2 * e) as kw eqn:Ekw.
  destruct Hinv as (_ & HKh & HKw & E2 & _).
  assert (HK1 : 1 <= K) by lia.
  assert (Hnz : bs * ci * (K * K) <> 0).
  { apply Nat.neq_mul_0. split; [apply Nat.neq_mul_0; lia|apply Nat.neq_mul_0; lia]. }
  assert (Hcan : (kh - 2 * kernel_crop kh K h) * (kw - 2 * kernel_crop kh K h)
                 = (h - 2 * source_crop kh K h - K + 1) * (w - 2 * source_crop kh K h - K + 1)).
  { apply (Nat.mul_cancel_l _ _ (bs * ci * (K * K)) Hnz).
    set (X := (kh - 2 * kernel_crop kh K h) * (kw - 2 * kernel_crop kh K h)) in *.
    set (Y := (h - 2 * source_crop kh K h - K + 1) * (w - 2 * source_crop kh K h - K + 1)) in *.
    replace (bs * ci * (K * K) * X) with (bs * ci * X * (K * K)) by ring.
    replace (bs * ci * (K * K) * Y) with (bs * ci * Y * (K * K)) by ring.
    exact E2. }
  clear E2. revert HKh HKw Hcan.
  unfold kernel_crop, source_crop, needed_rows.
  destruct (Z.gtb_spec (Z.of_nat kh + Z.of_nat K - 1) (Z.of_nat h)) as [Hgt|Hle].
  - replace ((Z.of_nat kh + Z.of_nat K - 1 - Z.of_nat h) / 2)%Z
      with (Z.of_nat m - Z.of_nat e - 1)%Z.
    2:{ replace (Z.of_nat kh + Z.of_nat K - 1 - Z.of_nat h)%Z
          with (1 + (Z.of_nat m - Z.of_nat e - 1) * 2)%Z by lia.
        rewrite Z.div_add by lia. reflexivity. }
    intros HKh HKw Hcan.
    assert (R1 : kh - 2 * Z.to_nat (Z.of_nat m - Z.of_nat e - 1) = h - K + 2) by lia.
    assert (R2 : kw - 2 * Z.to_nat (Z.of_nat m - Z.of_nat e - 1) = w - K + 2) by lia.
    rewrite R1, R2 in Hcan.
    replace (h - 2 * 0 - K + 1) with (h - K + 1) in Hcan by lia.
    replace (w - 2 * 0 - K + 1) with (w - K + 1) in Hcan by lia.
    remember (h - K) as a. remember (w - K) as b. clear - Hcan. nia.
  - replace ((Z.of_nat h - (Z.of_nat kh + Z.of_nat K - 1)) / 2)%Z
      with (Z.of_nat e - Z.of_nat m)%Z.
    2:{ replace (Z.of_nat h - (Z.of_nat kh + Z.of_nat K - 1))%Z
          with (1 + (Z.of_nat e - Z.of_nat m) * 2)%Z by lia.
        rewrite Z.div_add by lia. reflexivity. }
    intros HKh HKw Hcan.
    assert (R1 : h - 2 * Z.to_nat (Z.of_nat e - Z.of_nat m) - K + 1 = kh + 1) by lia.
    assert (R2 : w - 2 * Z.to_nat (Z.of_nat e - Z.of_nat m) - K + 1 = kw + 1) by lia.
    rewrite R1, R2 in Hcan.
    replace (kh - 2 * 0) with kh in Hcan by lia.
    replace (kw - 2 * 0) with kw in Hcan by lia.
    clear - Hcan. nia.
Qed.

Lemma bank_slice (kern : tensor A) (bs D kh kw lo n : nat) :
  shape kern = [bs; D; kh; kw] -> lo + n <= D ->
  exists k, slice 1 (Z.of_nat lo) (Z.of_nat (lo + n)) kern = Some k /\
    shape k = [bs; n; kh; kw].
Proof.
  intros Hs Hle.
  destruct (slice_axis1_spec kern bs D kh kw (Z.of_nat lo) (Z.of_nat (lo + n)) Hs)
    as (k & E & Sk & _); [lia|lia|].
  exists k. split; [exact E|]. rewrite Sk, !Nat2Z.id.
  repeat f_equal. lia.
Qed.

Section OddFootprint.
Variables (self : BayerKP (A:=A)) (kern : tensor A) (bs D m e h w : nat).
Hypothesis softmax_ok : softmax_returns softmax1.
Hypothesis ksize_odd : ksize self = 2 * m + 1.
Hypothesis kern_shape : shape kern = [bs; D; h - 2 * e; w - 2 * e].
Hypothesis margin_h : 2 * e < h.
Hypothesis margin_w : 2 * e < w.
Hypothesis ksize_h : 2 * m + 1 <= h.
Hypothesis ksize_w : 2 * m + 1 <= w.

Lemma single_plane_step_ok (src : tensor A) (idx : nat) (planes : list (tensor A)) :
  shape src = [bs; 1; h; w] -> idx + ksize self * ksize self <= D ->
  exists est,
    single_plane_step softmax1 self kern src (idx, planes)
      = Some (idx + ksize self * ksize self, planes ++ [est]) /\
    shape est = [bs; 1; h - 2 * Nat.max e m; w - 2 * Nat.max e m].
Proof.
  intros Hs Hidx. unfold single_plane_step.
  destruct (bank_slice kern bs D _ _ idx (ksize self * ksize self) kern_shape Hidx)
    as (k & -> & Sk).
  assert (Hpos : exists c, ksize self * ksize self = S c).
  { rewrite ksize_odd. exists ((2 * m + 1) * (2 * m + 1) - 1). nia. }
  destruct Hpos as [c Hc].
  destruct (softmax_ok k bs c _ _ ltac:(rewrite Sk, Hc; reflexivity)) as (k' & -> & Sk').
  rewrite Sk, ksize_odd in Sk'.
  destruct (apply_kernels_even_margin k' src bs 1 m e h w Sk' Hs)
    as (est & -> & Sest); try assumption.
  exists est. split; [reflexivity|exact Sest].
Qed.

Lemma green_step_ok (g0 g1 : tensor A) (idx : nat) (planes : list (tensor A)) :
  shape g0 = [bs; 1; h; w] -> shape g1 = [bs; 1; h; w] ->
  idx + 2 * (ksize self * ksize self) <= D ->
  exists est,
    green_step softmax1 self kern g0 g1 (idx, planes)
      = Some (idx + 2 * (ksize self * ksize self), planes ++ [est]) /\
    shape est = [bs; 1; h - 2 * Nat.max e m; w - 2 * Nat.max e m].
Proof.
  intros H0 H1 Hidx. unfold green_step.
  destruct (bank_slice kern bs D _ _ idx (2 * (ksize self * ksize self)) kern_shape Hidx)
    as (k & -> & Sk).
  assert (Hpos : exists c, 2 * (ksize self * ksize self) = S c).
  { rewrite ksize_odd. exists (2 * ((2 * m + 1) * (2 * m + 1)) - 1). nia. }
  destruct Hpos as [c Hc].
  destruct (softmax_ok k bs c _ _ ltac:(rewrite Sk, Hc; reflexivity)) as (k' & -> & Sk').
  rewrite Sk in Sk'.
  destruct (bank_slice k' bs _ _ _ 0 (ksize self * ksize self) Sk' ltac:(lia))
    as (k0 & E0 & Sk0).
  cbn [Nat.add Z.of_nat] in E0. rewrite E0.
  rewrite ksize_odd in Sk0.
  destruct (apply_kernels_even_margin k0 g0 bs 1 m e h w Sk0 H0)
    as (e0 & -> & Se0); try assumption.
  destruct (bank_slice k' bs _ _ _ (ksize self * ksize self) (ksize self * ksize self)
              Sk' ltac:(lia)) as (k1 & E1 & Sk1).
  replace (ksize self * ksize self + ksize self * ksize self)
    with (2 * (ksize self * ksize self)) in E1 by lia.
  rewrite E1. rewrite ksize_odd in Sk1.
  destruct (apply_kernels_even_margin k1 g1 bs 1 m e h w Sk1 H1)
    as (e1 & -> & Se1); try assumption.
  destruct (tadd_same e0 e1 _ Se0 Se1) as (s & -> & Ss).
  exists s. split; [reflexivity|exact Ss].
Qed.

Lemma crop_like_estimate (plane est : tensor A) :
  shape plane = [bs; 1; h; w] -> shape est = [bs; 1; h - 2 * Nat.max e m; w - 2 * Nat.max e m] ->
  exists k, crop_like plane est = Some k /\ shape k = [bs; 1; h - 2 * Nat.max e m; w - 2 * Nat.max e m].
Proof.
  intros Hp He.
  destruct (crop_like_spec plane est _ _ _ _ _ _ _ _ Hp He) as (k & E & Sk & _).
  exists k. split; [exact E|]. rewrite Sk.
  set (M := Nat.max e m).
  replace (h - (h - 2 * M)) with (M * 2) by lia.
  replace (w - (w - 2 * M)) with (M * 2) by lia.
  rewrite Nat.div_mul by lia. reflexivity.
Qed.

Lemma red_tiles_ok (r : tensor A) (idx : nat) :
  shape r = [bs; 1; h; w] -> idx + 3 * (ksize self * ksize self) <= D ->
  exists tiles,
    red_tiles softmax1 self kern r idx
      = Some (idx + 3 * (ksize self * ksize self), tiles) /\
    length tiles = 4 /\ Forall (fun t => shape t = [bs; 1; h - 2 * Nat.max e m; w - 2 * Nat.max e m]) tiles.
Proof.
  intros Hr Hidx. unfold red_tiles. cbn [for_range].
  destruct (single_plane_step_ok r idx [r] Hr ltac:(lia)) as (e1 & -> & S1).
  destruct (single_plane_step_ok r (idx + ksize self * ksize self) ([r] ++ [e1]) Hr
              ltac:(lia)) as (e2 & -> & S2).
  destruct (single_plane_step_ok r (idx + ksize self * ksize self + ksize self * ksize self)
              (([r] ++ [e1]) ++ [e2]) Hr ltac:(lia)) as (e3 & -> & S3).
  cbn [app item nth_error setitem].
  destruct (crop_like_estimate r e1 Hr S1) as (k & -> & Sk).
  cbn [app item nth_error setitem].
  eexists. split; [f_equal; f_equal; lia|].
  split; [reflexivity|]. repeat constructor; assumption.
Qed.

Lemma blue_tiles_ok (b : tensor A) (idx : nat) :
  shape b = [bs; 1; h; w] -> idx + 3 * (ksize self * ksize self) <= D ->
  exists tiles,
    blue_tiles softmax1 self kern b idx
      = Some (idx + 3 * (ksize self * ksize self), tiles) /\
    length tiles = 4 /\ Forall (fun t => shape t = [bs; 1; h - 2 * Nat.max e m; w - 2 * Nat.max e m]) tiles.
Proof.
  intros Hb Hidx. unfold blue_tiles. cbn [for_range].
  destruct (single_plane_step_ok b idx [b] Hb ltac:(lia)) as (e1 & -> & S1).
  destruct (single_plane_step_ok b (idx + ksize self * ksize self) ([b] ++ [e1]) Hb
              ltac:(lia)) as (e2 & -> & S2).
  destruct (single_plane_step_ok b (idx + ksize self * ksize self + ksize self * ksize self)
              (([b] ++ [e1]) ++ [e2]) Hb ltac:(lia)) as (e3 & -> & S3).
  cbn [app item nth_error setitem].
  destruct (crop_like_estimate b e1 Hb S1) as (k & -> & Sk).
  cbn [app item nth_error setitem].
  eexists. split; [f_equal; f_equal; lia|].
  split; [reflexivity|]. repeat constructor; assumption.
Qed.

Lemma green_tiles_ok (g0 g1 : tensor A) (idx : nat) :
  shape g0 = [bs; 1; h; w] -> shape g1 = [bs; 1; h; w] ->
  idx + 4 * (ksize self * ksize self) <= D ->
  exists tiles,
    green_tiles softmax1 self kern g0 g1 idx
      = Some (idx + 4 * (ksize self * ksize self), tiles) /\
    length tiles = 4 /\ Forall (fun t => shape t = [bs; 1; h - 2 * Nat.max e m; w - 2 * Nat.max e m]) tiles.
Proof.
  intros H0 H1 Hidx. unfold green_tiles. cbn [for_range].
  destruct (green_step_ok g0 g1 idx [g0; g1] H0 H1 ltac:(lia)) as (e1 & -> & S1).
  destruct (green_step_ok g0 g1 (idx + 2 * (ksize self * ksize self)) ([g0; g1] ++ [e1])
              H0 H1 ltac:(lia)) as (e2 & -> & S2).
  cbn [app item nth_error setitem].
  destruct (crop_like_estimate g0 e1 H0 S1) as (k0 & -> & Sk0).
  cbn [app item nth_error setitem].
  destruct (crop_like_estimate g1 e1 H1 S1) as (k1 & -> & Sk1).
  cbn [app item nth_error setitem].
  eexists. split; [f_equal; f_equal; lia|].
  split; [reflexivity|]. repeat constructor; assumption.
Qed.

Lemma group_ok (tiles : list (tensor A)) :
  length tiles = 4 -> Forall (fun t => shape t = [bs; 1; h - 2 * Nat.max e m; w - 2 * Nat.max e m]) tiles ->
  exists u, (c <- cat1 tiles ;; unroll c) = Some u /\
    shape u = [bs; 1; (h - 2 * Nat.max e m) * 2; (w - 2 * Nat.max e m) * 2].
Proof.
  intros Hlen Hall.
  destruct (cat1_planes tiles bs (h - 2 * Nat.max e m) (w - 2 * Nat.max e m)) as (c & -> & _ & Sc & _); [|assumption|].
  { intros ->. discriminate. }
  rewrite Hlen in Sc.
  destruct (unroll_ok c bs _ _ Sc) as (u & -> & _ & Su & _).
  exists u. split; [reflexivity|exact Su].
Qed.
End OddFootprint.

(** [forward] returns on an odd footprint, with the shape of its result. *)
Lemma forward_ok (self : BayerKP) (samples : list (string * tensor A))
    (mosaic : tensor A) (bs C H W D m e : nat) :
  lookup "mosaic" samples = Some mosaic -> shape mosaic = [bs; C; H; W] ->
  softmax_returns softmax1 ->
  predicts_bank (kernels self) bs (H / 2) (W / 2) D e ->
  ksize self = 2 * m + 1 -> 10 * (ksize self * ksize self) <= D ->
  2 * e < H / 2 -> 2 * e < W / 2 -> ksize self <= H / 2 -> ksize self <= W / 2 ->
  exists out, forward softmax1 self samples = Some out /\
    shape out = [bs; 3; (H / 2 - 2 * Nat.max e m) * 2; (W / 2 - 2 * Nat.max e m) * 2].
Proof.
  intros Hl Hm Hsm Hpred HK HD He1 He2 HK1 HK2.
  assert (HH : 2 <= H).
  { destruct (le_lt_dec 2 H) as [|Hlt]; [assumption|].
    rewrite (Nat.div_small H 2) in He1 by lia. lia. }
  assert (HW : 2 <= W).
  { destruct (le_lt_dec 2 W) as [|Hlt]; [assumption|].
    rewrite (Nat.div_small W 2) in He2 by lia. lia. }
  unfold forward. rewrite Hl.
  destruct (color_samples_ok mosaic bs C H W Hm HH HW) as (cs & -> & Scs & _).
  rewrite !half_floor in Scs by assumption.
  set (h := H / 2) in *. set (w := W / 2) in *.
  destruct (Hpred cs Scs) as (kern & -> & Skern). rewrite Skern.
  destruct (plane_spec cs bs h w 0 Scs ltac:(lia)) as (g0 & Eg0 & Sg0 & _).
  destruct (plane_spec cs bs h w 1 Scs ltac:(lia)) as (b & Eb & Sb & _).
  destruct (plane_spec cs bs h w 2 Scs ltac:(lia)) as (r & Er & Sr & _).
  destruct (plane_spec cs bs h w 3 Scs ltac:(lia)) as (g1 & Eg1 & Sg1 & _).
  cbn [Z.of_nat Pos.of_succ_nat Pos.succ] in Eg0, Eb, Er, Eg1.
  rewrite Eg0, Eb, Er, Eg1.
  rewrite HK in HK1, HK2.
  destruct (red_tiles_ok self kern bs D m e h w Hsm HK Skern He1 He2 HK1 HK2 r 0 Sr
              ltac:(lia)) as (reds & -> & Lr & Fr).
  destruct (group_ok bs m e h w reds Lr Fr) as (red & -> & Sred).
  destruct (blue_tiles_ok self kern bs D m e h w Hsm HK Skern He1 He2 HK1 HK2 b
              (0 + 3 * (ksize self * ksize self)) Sb
              ltac:(lia)) as (blues & -> & Lb & Fb).
  destruct (group_ok bs m e h w blues Lb Fb) as (blue & -> & Sblue).
  destruct (green_tiles_ok self kern bs D m e h w Hsm HK Skern He1 He2 HK1 HK2 g0 g1
              (0 + 3 * (ksize self * ksize self) + 3 * (ksize self * ksize self))
              Sg0 Sg1 ltac:(lia)) as (greens & -> & Lg & Fg).
  destruct (group_ok bs m e h w greens Lg Fg) as (green & -> & Sgreen).
  destruct (cat1_planes [red; green; blue] bs
              ((h - 2 * Nat.max e m) * 2) ((w - 2 * Nat.max e m) * 2))
    as (out & -> & _ & So & _).
  { discriminate. }
  { repeat constructor; assumption. }
  exists out. split; [reflexivity|exact So].
Qed.

(** X7.  [forward] returns for an odd footprint K = 2m + 1.  Let the planes
    of the unpacked mosaic have h = H / 2 rows and w = W / 2 columns, let
    the predictor return a bank of at least 10 K^2 channels that is e
    entries smaller than the planes on every side and not empty, with
    K <= h and K <= w, and let softmax return tensors of the shape of its
    argument.  Then [forward] returns three channels of
    2 (h - 2 max(e, m)) rows and 2 (w - 2 max(e, m)) columns. *)
Theorem forward_returns (self : BayerKP) (samples : list (string * tensor A))
    (mosaic : tensor A) (bs C H W D m e : nat) :
  lookup "mosaic" samples = Some mosaic -> shape mosaic = [bs; C; H; W] ->
  softmax_returns softmax1 ->
  predicts_bank (kernels self) bs (H / 2) (W / 2) D e ->
  ksize self = 2 * m + 1 -> 10 * (ksize self * ksize self) <= D ->
  2 * e < H / 2 -> 2 * e < W / 2 -> ksize self <= H / 2 -> ksize self <= W / 2 ->
  exists out, forward softmax1 self samples = Some out /\
    shape out = [bs; 3; (H / 2 - 2 * Nat.max e m) * 2; (W / 2 - 2 * Nat.max e m) * 2].
Proof. exact (forward_ok self samples mosaic bs C H W D m e). Qed.

(** X8.  [forward] returns nothing for an even footprint K = 2m >= 2: on a
    mosaic with at least one batch entry, whenever the predicted bank has
    at least K^2 channels and is e entries smaller than the unpacked
    planes on every side, and softmax keeps the shape of its argument, the
    first call of [apply_kernels] fails. *)
Theorem forward_even_ksize_raises (self : BayerKP) (samples : list (string * tensor A))
    (mosaic : tensor A) (bs C H W D m e : nat) :
  lookup "mosaic" samples = Some mosaic -> shape mosaic = [bs; C; H; W] ->
  1 <= bs ->
  softmax_keeps_shape softmax1 ->
  bank_of (kernels self) bs (H / 2) (W / 2) D e ->
  ksize self = 2 * m -> 1 <= m -> ksize self * ksize self <= D ->
  2 * e < H / 2 -> 2 * e < W / 2 ->
  forward softmax1 self samples = None.
Proof.
  intros Hl Hm Hbs Hsm Hpred HK Hm1 HD He1 He2.
  unfold forward. rewrite Hl.
  destruct (color_samples_of mosaic) as [cs|] eqn:Ecs; [|reflexivity].
  destruct (color_samples_inv _ _ _ _ _ _ Hm Ecs) as [HH HW].
  destruct (color_samples_ok mosaic bs C H W Hm HH HW) as (cs' & Ecs' & Scs & _).
  rewrite Ecs in Ecs'. injection Ecs' as <-.
  rewrite !half_floor in Scs by assumption.
  set (h := H / 2) in *. set (w := W / 2) in *.
  destruct (kernels self cs) as [kern|] eqn:Ekern; [|reflexivity].
  pose proof (Hpred cs kern Scs Ekern) as Skern. rewrite Skern.
  destruct (plane_spec cs bs h w 0 Scs ltac:(lia)) as (g0 & Eg0 & Sg0 & _).
  destruct (plane_spec cs bs h w 1 Scs ltac:(lia)) as (b & Eb & Sb & _).
  destruct (plane_spec cs bs h w 2 Scs ltac:(lia)) as (r & Er & Sr & _).
  destruct (plane_spec cs bs h w 3 Scs ltac:(lia)) as (g1 & Eg1 & Sg1 & _).
  cbn [Z.of_nat Pos.of_succ_nat Pos.succ] in Eg0, Eb, Er, Eg1.
  rewrite Eg0, Eb, Er, Eg1.
  assert (Hred : red_tiles softmax1 self kern r 0 = None).
  { unfold red_tiles. cbn [for_range].
    assert (Hstep : single_plane_step softmax1 self kern r (0, [r]) = None).
    { unfold single_plane_step.
      destruct (bank_slice kern bs D _ _ 0 (ksize self * ksize self) Skern HD)
        as (k & -> & Sk).
      destruct (softmax1 k) as [k'|] eqn:Ek'; [|reflexivity].
      apply Hsm in Ek'. rewrite Sk, HK in Ek'.
      now rewrite (apply_kernels_even_ksize k' r bs 1 m e h w Ek' Sr). }
    now rewrite Hstep. }
  now rewrite Hred.
Qed.
End ForwardTotal.

Lemma uniform_softmax_returns : softmax_returns uniform_softmax.
Proof.
  intros t b c h w Hs. unfold uniform_softmax. rewrite Hs.
  eexists. split; reflexivity.
Qed.

Lemma uniform_softmax_keeps_shape : softmax_keeps_shape uniform_softmax.
Proof.
  intros t t'. unfold uniform_softmax.
  destruct (shape t) as [|? [|[|?] ?]] eqn:Hs; try discriminate.
  intros [= <-]. reflexivity.
Qed.

Lemma zero_logits_predicts (bs h w D e : nat) :
  predicts_bank (zero_logits D e) bs h w D e.
Proof.
  intros cs Hs. unfold zero_logits. rewrite Hs. eexists. split; reflexivity.
Qed.

Lemma zero_logits_bank (bs h w D e : nat) : bank_of (zero_logits D e) bs h w D e.
Proof.
  intros cs kern Hs. unfold zero_logits. rewrite Hs. intros [= <-]. reflexivity.
Qed.

Lemma forward_returns_witness :
  exists out, forward uniform_softmax demo_kp demo_samples = Some out /\
    shape out = [1; 3; 6; 6].
Proof.
  apply (forward_returns uniform_softmax demo_kp demo_samples demo_mosaic
           1 1 10 10 90 1 1 eq_refl eq_refl
           uniform_softmax_returns (zero_logits_predicts 1 5 5 90 1) eq_refl);
    vm_compute; lia.
Defined.

Lemma forward_even_ksize_raises_witness :
  forward uniform_softmax (mkBayerKP 2 (zero_logits 40 1)) demo_samples = None.
Proof.
  apply (forward_even_ksize_raises uniform_softmax (mkBayerKP 2 (zero_logits 40 1))
           demo_samples demo_mosaic 1 1 10 10 40 1 1 eq_refl eq_refl
           ltac:(lia) uniform_softmax_keeps_shape (zero_logits_bank 1 5 5 40 1) eq_refl);
    vm_compute; lia.
Defined.

(** ** [DemosaicVizCallback.on_epoch_end] *)

Module CallbackFacts.
Import Callbacks.

Section Facts.
Variable obj : Type.
Variable rt : runtime obj.

Ltac body_step :=
  cbv beta iota delta [bind call store load ret emit fst snd];
  cbn [find String.eqb Ascii.eqb Bool.eqb];
  lazymatch goal with
  | |- context [match ?c with inl _ => _ | inr _ => _ end] =>
      lazymatch c with
      | context [match _ with _ => _ end] => fail
      | _ => destruct c as [?msg|?v] eqn:?E
      end
  end.

(** A pass of the body never completes and leaves the updates as they
    were; it stops at the read of [data] unless a callee raises before. *)
Lemma body_raises (self : callback obj) (epoch batch : obj) (tr : list (event obj)) :
  exists e rho,
    on_epoch_end_body rt self epoch batch ([], tr) = (inl e, (rho, tr)) /\
    (e = UnboundLocalError "data" \/ exists msg, e = Raised msg) /\
    (never_raises rt -> e = UnboundLocalError "data").
Proof.
  unfold on_epoch_end_body.
  repeat (body_step;
          [do 2 eexists; split; [reflexivity|];
           split; [right; eexists; reflexivity|];
           intros (T1 & T2 & T3 & T4 & T5 & _); exfalso;
           first [eapply T1; eassumption | eapply T2; eassumption
                 | eapply T3; eassumption | eapply T4; eassumption
                 | eapply T5; eassumption]
          |]).
  cbv beta iota delta [bind call store load ret emit fst snd].
  cbn [find String.eqb Ascii.eqb Bool.eqb].
  do 2 eexists. split; [reflexivity|]. split; [now left|reflexivity].
Qed.

(** X9.  [on_epoch_end] never calls [self.batch_viz.update]: the updates
    after the call are the updates before it.  With no batch in the loader
    the method returns; with at least one batch it raises, either the
    exception of a callee or, when no callee raises, [UnboundLocalError]
    for the local [data], which line 37 reads before assigning it. *)
Theorem on_epoch_end_never_updates (self : callback obj) (epoch logs : obj)
    (tr : list (event obj)) :
  snd (on_epoch_end rt self epoch logs tr) = tr /\
  (loader self = [] -> fst (on_epoch_end rt self epoch logs tr) = inr tt) /\
  (loader self <> [] ->
     (fst (on_epoch_end rt self epoch logs tr) = inl (UnboundLocalError "data") \/
      exists msg, fst (on_epoch_end rt self epoch logs tr) = inl (Raised msg)) /\
     (never_raises rt ->
      fst (on_epoch_end rt self epoch logs tr) = inl (UnboundLocalError "data"))).
Proof.
  unfold on_epoch_end. destruct (loader self) as [|batch rest].
  - cbn. split; [reflexivity|]. split; [reflexivity|]. intros Hne. now elim Hne.
  - cbn [for_in]. unfold bind.
    destruct (body_raises self epoch batch tr) as (e & rho & -> & Hor & Hnr).
    cbn [fst snd]. split; [reflexivity|]. split; [discriminate|].
    intros _. split.
    + destruct Hor as [->|[msg ->]]; [now left|right; now exists msg].
    + intros Ht. now rewrite (Hnr Ht).
Qed.
End Facts.
End CallbackFacts.

Lemma demo_runtime_never_raises : Callbacks.never_raises Callbacks.demo_runtime.
Proof. repeat split; intros; discriminate. Qed.

Lemma on_epoch_end_never_updates_witness :
  snd (Callbacks.on_epoch_end Callbacks.demo_runtime Callbacks.demo_callback 3 0 []) = [] /\
  fst (Callbacks.on_epoch_end Callbacks.demo_runtime Callbacks.demo_callback 3 0 [])
    = inl (Callbacks.UnboundLocalError "data").
Proof.
  destruct (CallbackFacts.on_epoch_end_never_updates nat Callbacks.demo_runtime
              Callbacks.demo_callback 3 0 []) as (Htr & _ & Hraise).
  split; [exact Htr|].
  apply Hraise; [discriminate|exact demo_runtime_never_raises].
Defined.

(** ** The estimated samples of [forward] *)

Section Estimates.
Context {A : Type} {SA : Scalar A}.
Variable softmax1 : tensor A -> option (tensor A).

Lemma single_plane_step_from (self : BayerKP) (kern src : tensor A)
    (idx : nat) (planes : list (tensor A)) (st' : nat * list (tensor A)) :
  single_plane_step softmax1 self kern src (idx, planes) = Some st' ->
  exists e, st' = (idx + ksize self * ksize self, planes ++ [e]) /\
    estimate_from softmax1 kern src idx (ksize self * ksize self) e.
Proof.
  unfold single_plane_step.
  destruct (slice 1 _ _ kern) as [k|] eqn:Ek; [|discriminate].
  destruct (softmax1 k) as [k'|] eqn:Ek'; [|discriminate].
  destruct (apply_kernels k' src) as [e|] eqn:E; [|discriminate].
  intros [= <-]. exists e. split; [reflexivity|]. now exists k, k'.
Qed.

Lemma green_step_from (self : BayerKP) (kern g0 g1 : tensor A)
    (idx : nat) (planes : list (tensor A)) (st' : nat * list (tensor A)) :
  green_step softmax1 self kern g0 g1 (idx, planes) = Some st' ->
  exists e, st' = (idx + 2 * (ksize self * ksize self), planes ++ [e]) /\
    green_estimate_from softmax1 kern g0 g1 idx (ksize self * ksize self) e.
Proof.
  unfold green_step.
  destruct (slice 1 _ _ kern) as [k|] eqn:Ek; [|discriminate].
  destruct (softmax1 k) as [k'|] eqn:Ek'; [|discriminate].
  destruct (slice 1 0%Z _ k') as [k0|] eqn:Ek0; [|discriminate].
  destruct (apply_kernels k0 g0) as [e0|] eqn:E0; [|discriminate].
  destruct (slice 1 (Z.of_nat _) _ k') as [k1|] eqn:Ek1; [|discriminate].
  destruct (apply_kernels k1 g1) as [e1|] eqn:E1; [|discriminate].
  destruct (tadd e0 e1) as [s|] eqn:Es; [|discriminate].
  intros [= <-]. exists s. split; [reflexivity|]. now exists k, k', k0, k1, e0, e1.
Qed.

Lemma estimate_from_estimate (kern src : tensor A) (lo n : nat) (e : tensor A) :
  estimate_from softmax1 kern src lo n e -> estimate_of src e.
Proof. intros (k & k' & _ & _ & E). now exists k'. Qed.

Lemma green_estimate_from_estimate (kern g0 g1 : tensor A) (lo n : nat) (e : tensor A) :
  green_estimate_from softmax1 kern g0 g1 lo n e -> green_estimate_of g0 g1 e.
Proof. intros (k & k' & k0 & k1 & e0 & e1 & _ & _ & _ & _ & E0 & E1 & Es). now exists k0, k1, e0, e1. Qed.

Lemma red_tiles_from (self : BayerKP) (kern r : tensor A) (idx idx' : nat)
    (tiles : list (tensor A)) :
  red_tiles softmax1 self kern r idx = Some (idx', tiles) ->
  exists e1 k e2 e3, tiles = [e1; k; e2; e3] /\ crop_like r e1 = Some k /\
    estimate_from softmax1 kern r idx (ksize self * ksize self) e1 /\
    estimate_from softmax1 kern r (idx + ksize self * ksize self) (ksize self * ksize self) e2 /\
    estimate_from softmax1 kern r (idx + 2 * (ksize self * ksize self)) (ksize self * ksize self) e3.
Proof.
  unfold red_tiles. cbn [for_range].
  destruct (single_plane_step _ _ _ _ (idx, [r])) as [st1|] eqn:E1; [|discriminate].
  destruct (single_plane_step_from _ _ _ _ _ _ E1) as (e1 & -> & S1).
  destruct (single_plane_step _ _ _ _ (_, [r] ++ [e1])) as [st2|] eqn:E2; [|discriminate].
  destruct (single_plane_step_from _ _ _ _ _ _ E2) as (e2 & -> & S2).
  destruct (single_plane_step _ _ _ _ (_, ([r] ++ [e1]) ++ [e2])) as [st3|] eqn:E3;
    [|discriminate].
  destruct (single_plane_step_from _ _ _ _ _ _ E3) as (e3 & -> & S3).
  cbn [app item nth_error setitem].
  destruct (crop_like r e1) as [k|] eqn:Ek; [|discriminate].
  cbn [app item nth_error setitem].
  intros [= _ <-]. exists e1, k, e2, e3.
  replace (idx + 2 * (ksize self * ksize self)) with (idx + (ksize self * ksize self) + ksize self * ksize self) by lia.
  repeat split; assumption.
Qed.

Lemma blue_tiles_from (self : BayerKP) (kern b : tensor A) (idx idx' : nat)
    (tiles : list (tensor A)) :
  blue_tiles softmax1 self kern b idx = Some (idx', tiles) ->
  exists e1 e2 k e3, tiles = [e1; e2; k; e3] /\ crop_like b e1 = Some k /\
    estimate_from softmax1 kern b idx (ksize self * ksize self) e1 /\
    estimate_from softmax1 kern b (idx + ksize self * ksize self) (ksize self * ksize self) e2 /\
    estimate_from softmax1 kern b (idx + 2 * (ksize self * ksize self)) (ksize self * ksize self) e3.
Proof.
  unfold blue_tiles. cbn [for_range].
  destruct (single_plane_step _ _ _ _ (idx, [b])) as [st1|] eqn:E1; [|discriminate].
  destruct (single_plane_step_from _ _ _ _ _ _ E1) as (e1 & -> & S1).
  destruct (single_plane_step _ _ _ _ (_, [b] ++ [e1])) as [st2|] eqn:E2; [|discriminate].
  destruct (single_plane_step_from _ _ _ _ _ _ E2) as (e2 & -> & S2).
  destruct (single_plane_step _ _ _ _ (_, ([b] ++ [e1]) ++ [e2])) as [st3|] eqn:E3;
    [|discriminate].
  destruct (single_plane_step_from _ _ _ _ _ _ E3) as (e3 & -> & S3).
  cbn [app item nth_error setitem].
  destruct (crop_like b e1) as [k|] eqn:Ek; [|discriminate].
  cbn [app item nth_error setitem].
  intros [= _ <-]. exists e1, e2, k, e3.
  replace (idx + 2 * (ksize self * ksize self)) with (idx + (ksize self * ksize self) + ksize self * ksize self) by lia.
  repeat split; assumption.
Qed.

Lemma green_tiles_from (self : BayerKP) (kern g0 g1 : tensor A) (idx idx' : nat)
    (tiles : list (tensor A)) :
  green_tiles softmax1 self kern g0 g1 idx = Some (idx', tiles) ->
  exists k0 e1 e2 k1, tiles = [k0; e1; e2; k1] /\
    crop_like g0 e1 = Some k0 /\ crop_like g1 e1 = Some k1 /\
    green_estimate_from softmax1 kern g0 g1 idx (ksize self * ksize self) e1 /\
    green_estimate_from softmax1 kern g0 g1 (idx + 2 * (ksize self * ksize self)) (ksize self * ksize self) e2.
Proof.
  unfold green_tiles. cbn [for_range].
  destruct (green_step _ _ _ _ _ (idx, [g0; g1])) as [st1|] eqn:E1; [|discriminate].
  destruct (green_step_from _ _ _ _ _ _ _ E1) as (e1 & -> & S1).
  destruct (green_step _ _ _ _ _ (_, [g0; g1] ++ [e1])) as [st2|] eqn:E2; [|discriminate].
  destruct (green_step_from _ _ _ _ _ _ _ E2) as (e2 & -> & S2).
  cbn [app item nth_error setitem].
  destruct (crop_like g0 e1) as [k0|] eqn:Ek0; [|discriminate].
  cbn [app item nth_error setitem].
  destruct (crop_like g1 e1) as [k1|] eqn:Ek1; [|discriminate].
  cbn [app item nth_error setitem].
  intros [= _ <-]. exists k0, e1, e2, k1. repeat split; assumption.
Qed.

(** The estimates in the output of [forward] and the channels they are
    computed from. *)
Lemma forward_estimates (self : BayerKP) (samples : list (string * tensor A))
    (mosaic cs kern out : tensor A) (bs C H W : nat) :
  lookup "mosaic" samples = Some mosaic -> shape mosaic = [bs; C; H; W] ->
  color_samples_of mosaic = Some cs -> kernels self cs = Some kern ->
  forward softmax1 self samples = Some out ->
  let kk := ksize self * ksize self in
  exists g0 b r g1 r0 r2 r3 b0 b1 b3 g01 g10 ho wo,
    slice 1 0%Z 1%Z cs = Some g0 /\ slice 1 1%Z 2%Z cs = Some b /\
    slice 1 2%Z 3%Z cs = Some r /\ slice 1 3%Z 4%Z cs = Some g1 /\
    estimate_from softmax1 kern r 0 kk r0 /\
    estimate_from softmax1 kern r kk kk r2 /\
    estimate_from softmax1 kern r (2 * kk) kk r3 /\
    estimate_from softmax1 kern b (3 * kk) kk b0 /\
    estimate_from softmax1 kern b (4 * kk) kk b1 /\
    estimate_from softmax1 kern b (5 * kk) kk b3 /\
    green_estimate_from softmax1 kern g0 g1 (6 * kk) kk g01 /\
    green_estimate_from softmax1 kern g0 g1 (8 * kk) kk g10 /\
    shape out = [bs; 3; ho * 2; wo * 2] /\
    forall n y x, n < bs -> y < ho -> x < wo ->
      get out [n; 0; y * 2 + 0; x * 2 + 0] = get r0 [n; 0; y; x] /\
      get out [n; 0; y * 2 + 1; x * 2 + 0] = get r2 [n; 0; y; x] /\
      get out [n; 0; y * 2 + 1; x * 2 + 1] = get r3 [n; 0; y; x] /\
      get out [n; 2; y * 2 + 0; x * 2 + 0] = get b0 [n; 0; y; x] /\
      get out [n; 2; y * 2 + 0; x * 2 + 1] = get b1 [n; 0; y; x] /\
      get out [n; 2; y * 2 + 1; x * 2 + 1] = get b3 [n; 0; y; x] /\
      get out [n; 1; y * 2 + 0; x * 2 + 1] = get g01 [n; 0; y; x] /\
      get out [n; 1; y * 2 + 1; x * 2 + 0] = get g10 [n; 0; y; x].
Proof.
  intros Hl Hm Ecs Ekern. unfold forward. rewrite Hl, Ecs, Ekern.
  destruct (color_samples_inv _ _ _ _ _ _ Hm Ecs) as [HH HW].
  destruct (color_samples_ok mosaic bs C H W Hm HH HW) as (cs' & Ecs' & Scs & _).
  rewrite Ecs in Ecs'. injection Ecs' as <-.
  set (h := (H - 2) / 2 + 1) in *. set (w := (W - 2) / 2 + 1) in *.
  destruct (shape kern) as [|? [|? [|? [|? [|? ?]]]]]; try discriminate.
  destruct (plane_spec cs bs h w 0 Scs ltac:(lia)) as (g0 & Eg0 & Sg0 & _).
  destruct (plane_spec cs bs h w 1 Scs ltac:(lia)) as (b & Eb & Sb & _).
  destruct (plane_spec cs bs h w 2 Scs ltac:(lia)) as (r & Er & Sr & _).
  destruct (plane_spec cs bs h w 3 Scs ltac:(lia)) as (g1 & Eg1 & Sg1 & _).
  cbn [Z.of_nat Pos.of_succ_nat Pos.succ] in Eg0, Eb, Er, Eg1.
  rewrite Eg0, Eb, Er, Eg1.
  destruct (red_tiles _ _ _ _ _) as [[idx1 reds]|] eqn:Ereds; [|discriminate].
  destruct (cat1 reds) as [cr|] eqn:Ecr; [|discriminate].
  destruct (unroll cr) as [red|] eqn:Eur; [|discriminate].
  destruct (blue_tiles _ _ _ _ _) as [[idx2 blues]|] eqn:Eblues; [|discriminate].
  destruct (cat1 blues) as [cb|] eqn:Ecb; [|discriminate].
  destruct (unroll cb) as [blue|] eqn:Eub; [|discriminate].
  destruct (green_tiles _ _ _ _ _ _) as [[idx3 greens]|] eqn:Egreens; [|discriminate].
  destruct (cat1 greens) as [cg|] eqn:Ecg; [|discriminate].
  destruct (unroll cg) as [green|] eqn:Eug; [|discriminate].
  intros Eout. set (kk := ksize self * ksize self).
  pose proof (red_tiles_idx softmax1 _ _ _ _ _ _ Ereds) as Ei1.
  pose proof (blue_tiles_idx softmax1 _ _ _ _ _ _ Eblues) as Ei2.
  fold kk in Ei1, Ei2. subst idx1 idx2.
  (* red *)
  destruct (red_tiles_from _ _ _ _ _ _ Ereds)
    as (re1 & rk & re2 & re3 & -> & Hrk & Fr1 & Fr2 & Fr3).
  fold kk in Fr1, Fr2, Fr3.
  pose proof (estimate_plane _ _ _ _ _ Sr (estimate_from_estimate _ _ _ _ _ Fr1)) as Hr1.
  pose proof (estimate_plane _ _ _ _ _ Sr (estimate_from_estimate _ _ _ _ _ Fr2)) as Hr2.
  pose proof (estimate_plane _ _ _ _ _ Sr (estimate_from_estimate _ _ _ _ _ Fr3)) as Hr3.
  pose proof (crop_like_plane _ _ _ _ _ _ Sr Hr1 Hrk) as Hrk'.
  assert (HallR : Forall (plane_like bs) [re1; rk; re2; re3])
    by (repeat constructor; assumption).
  destruct Hr1 as (hr & wr & Sr1).
  destruct (group_unroll [re1; rk; re2; re3] cr red re1 bs hr wr
              eq_refl HallR (or_introl eq_refl) Sr1 Ecr Eur) as (Sred & Gred).
  (* blue *)
  destruct (blue_tiles_from _ _ _ _ _ _ Eblues)
    as (be1 & be2 & bk & be3 & -> & Hbk & Fb1 & Fb2 & Fb3).
  fold kk in Fb1, Fb2, Fb3.
  pose proof (estimate_plane _ _ _ _ _ Sb (estimate_from_estimate _ _ _ _ _ Fb1)) as Hb1.
  pose proof (estimate_plane _ _ _ _ _ Sb (estimate_from_estimate _ _ _ _ _ Fb2)) as Hb2.
  pose proof (estimate_plane _ _ _ _ _ Sb (estimate_from_estimate _ _ _ _ _ Fb3)) as Hb3.
  pose proof (crop_like_plane _ _ _ _ _ _ Sb Hb1 Hbk) as Hbk'.
  assert (HallB : Forall (plane_like bs) [be1; be2; bk; be3])
    by (repeat constructor; assumption).
  destruct Hb1 as (hb & wb & Sb1).
  destruct (group_unroll [be1; be2; bk; be3] cb blue be1 bs hb wb
              eq_refl HallB (or_introl eq_refl) Sb1 Ecb Eub) as (Sblue & Gblue).
  (* green *)
  destruct (green_tiles_from _ _ _ _ _ _ _ Egreens)
    as (gk0 & ge1 & ge2 & gk1 & -> & Hgk0 & Hgk1 & Fg1 & Fg2).
  fold kk in Fg1, Fg2.
  pose proof (green_estimate_plane _ _ _ _ _ _ _ _ Sg0 Sg1
                (green_estimate_from_estimate _ _ _ _ _ _ Fg1)) as Hg1.
  pose proof (green_estimate_plane _ _ _ _ _ _ _ _ Sg0 Sg1
                (green_estimate_from_estimate _ _ _ _ _ _ Fg2)) as Hg2.
  pose proof (crop_like_plane _ _ _ _ _ _ Sg0 Hg1 Hgk0) as Hgk0'.
  pose proof (crop_like_plane _ _ _ _ _ _ Sg1 Hg1 Hgk1) as Hgk1'.
  assert (HallG : Forall (plane_like bs) [gk0; ge1; ge2; gk1])
    by (repeat constructor; assumption).
  destruct Hg1 as (hg & wg & Sg1').
  destruct (group_unroll [gk0; ge1; ge2; gk1] cg green ge1 bs hg wg
              eq_refl HallG (or_intror (or_introl eq_refl)) Sg1' Ecg Eug)
    as (Sgreen & Ggreen).
  (* the three channels *)
  pose proof (cat1_inv _ _ _ Eout) as Hinv.
  pose proof (Hinv green ltac:(right; now left)) as Eg.
  pose proof (Hinv blue ltac:(right; right; now left)) as Ebl.
  rewrite Sred, Sgreen in Eg. rewrite Sred, Sblue in Ebl.
  cbn [upd] in Eg, Ebl. injection Eg as Eg1' Eg2'. injection Ebl as Eb1' Eb2'.
  assert (hg = hr) by lia. assert (wg = wr) by lia.
  assert (hb = hr) by lia. assert (wb = wr) by lia. subst hg wg hb wb.
  destruct (cat1_planes [red; green; blue] bs (hr * 2) (wr * 2))
    as (out' & Eo & _ & So & Go).
  { discriminate. }
  { repeat constructor; assumption. }
  rewrite Eout in Eo. injection Eo as <-.
  exists g0, b, r, g1, re1, re2, re3, be1, be2, be3, ge1, ge2, hr, wr.
  replace (3 * kk) with (0 + 3 * kk) by lia.
  replace (4 * kk) with (0 + 3 * kk + kk) by lia.
  replace (5 * kk) with (0 + 3 * kk + 2 * kk) by lia.
  replace (6 * kk) with (0 + 3 * kk + 3 * kk) by lia.
  replace (8 * kk) with (0 + 3 * kk + 3 * kk + 2 * kk) by lia.
  replace (2 * kk) with (0 + 2 * kk) at 1 by lia.
  do 4 (split; [reflexivity|]).
  do 8 (split; [assumption|]).
  split; [exact So|].
  intros bi y x Hbi Hy Hx.
  rewrite !(Go bi 0 _ _ red), !(Go bi 2 _ _ blue), !(Go bi 1 _ _ green)
    by (try reflexivity; lia).
  repeat split.
  - apply (Gred bi y x 0 0); try assumption; try lia. reflexivity.
  - apply (Gred bi y x 1 0); try assumption; try lia. reflexivity.
  - apply (Gred bi y x 1 1); try assumption; try lia. reflexivity.
  - apply (Gblue bi y x 0 0); try assumption; try lia. reflexivity.
  - apply (Gblue bi y x 0 1); try assumption; try lia. reflexivity.
  - apply (Gblue bi y x 1 1); try assumption; try lia. reflexivity.
  - apply (Ggreen bi y x 0 1); try assumption; try lia. reflexivity.
  - apply (Ggreen bi y x 1 0); try assumption; try lia. reflexivity.
Qed.

(** X10.  The estimated samples in the output of [forward].  With
    g0, b, r, g1 the planes 0, 1, 2, 3 of the unpacked mosaic and K^2 the
    footprint, the eight unknown samples of every 2x2 tile are these
    estimates, each computed from its own block of channels of the bank:
    red at tile positions (0,0), (1,0), (1,1) from the blocks that start at
    0, K^2, 2 K^2, applied to r; blue at (0,0), (0,1), (1,1) from the blocks
    at 3 K^2, 4 K^2, 5 K^2, applied to b; green at (0,1) and (1,0) from the
    double blocks at 6 K^2 and 8 K^2, applied to g0 and g1. *)
Theorem forward_estimated_samples (self : BayerKP) (samples : list (string * tensor A))
    (mosaic cs kern out : tensor A) (bs C H W : nat) :
  lookup "mosaic" samples = Some mosaic -> shape mosaic = [bs; C; H; W] ->
  color_samples_of mosaic = Some cs -> kernels self cs = Some kern ->
  forward softmax1 self samples = Some out ->
  let kk := ksize self * ksize self in
  exists g0 b r g1 r0 r2 r3 b0 b1 b3 g01 g10 ho wo,
    slice 1 0%Z 1%Z cs = Some g0 /\ slice 1 1%Z 2%Z cs = Some b /\
    slice 1 2%Z 3%Z cs = Some r /\ slice 1 3%Z 4%Z cs = Some g1 /\
    estimate_from softmax1 kern r 0 kk r0 /\
    estimate_from softmax1 kern r kk kk r2 /\
    estimate_from softmax1 kern r (2 * kk) kk r3 /\
    estimate_from softmax1 kern b (3 * kk) kk b0 /\
    estimate_from softmax1 kern b (4 * kk) kk b1 /\
    estimate_from softmax1 kern b (5 * kk) kk b3 /\
    green_estimate_from softmax1 kern g0 g1 (6 * kk) kk g01 /\
    green_estimate_from softmax1 kern g0 g1 (8 * kk) kk g10 /\
    shape out = [bs; 3; ho * 2; wo * 2] /\
    forall n y x, n < bs -> y < ho -> x < wo ->
      get out [n; 0; y * 2 + 0; x * 2 + 0] = get r0 [n; 0; y; x] /\
      get out [n; 0; y * 2 + 1; x * 2 + 0] = get r2 [n; 0; y; x] /\
      get out [n; 0; y * 2 + 1; x * 2 + 1] = get r3 [n; 0; y; x] /\
      get out [n; 2; y * 2 + 0; x * 2 + 0] = get b0 [n; 0; y; x] /\
      get out [n; 2; y * 2 + 0; x * 2 + 1] = get b1 [n; 0; y; x] /\
      get out [n; 2; y * 2 + 1; x * 2 + 1] = get b3 [n; 0; y; x] /\
      get out [n; 1; y * 2 + 0; x * 2 + 1] = get g01 [n; 0; y; x] /\
      get out [n; 1; y * 2 + 1; x * 2 + 0] = get g10 [n; 0; y; x].
Proof. exact (forward_estimates self samples mosaic cs kern out bs C H W). Qed.
End Estimates.

Lemma demo_unpack : color_samples_of demo_mosaic = Some demo_color_samples.
Proof. vm_compute. reflexivity. Qed.

Lemma demo_bank : kernels demo_kp demo_color_samples = Some demo_kernels.
Proof. vm_compute. reflexivity. Qed.

Lemma forward_estimated_samples_witness :
  exists r r2, slice 1 2%Z 3%Z demo_color_samples = Some r /\
    estimate_from uniform_softmax demo_kernels r 9 9 r2 /\
    get demo_output [0; 0; 3; 4] = get r2 [0; 0; 1; 2].
Proof.
  destruct (forward_estimated_samples uniform_softmax demo_kp demo_samples demo_mosaic
              demo_color_samples demo_kernels demo_output 1 1 10 10
              eq_refl eq_refl demo_unpack demo_bank demo_forward)
    as (g0 & b & r & g1 & r0 & r2 & r3 & b0 & b1 & b3 & g01 & g10 & ho & wo
        & _ & _ & Er & _ & _ & F2 & _ & _ & _ & _ & _ & _ & Sout & G).
  exists r, r2. split; [exact Er|]. split; [exact F2|].
  injection Sout as Eh Ew.
  exact (proj1 (proj2 (G 0 1 2 ltac:(lia) ltac:(lia) ltac:(lia)))).
Defined.

(** ** The layers of [BayerNetwork] and [BayerExperimental] *)

Module LayerFacts.
Import Layers.

Lemma str_inj (m n : nat) :
  DecimalString.NilEmpty.string_of_uint (Nat.to_uint m)
    = DecimalString.NilEmpty.string_of_uint (Nat.to_uint n) -> m = n.
Proof.
  intros E. apply DecimalNat.Unsigned.to_uint_inj.
  apply (f_equal DecimalString.NilEmpty.uint_of_string) in E.
  rewrite !DecimalString.NilEmpty.usu in E. congruence.
Qed.

Lemma append_inj_l (p s1 s2 : string) : (p ++ s1 = p ++ s2)%string -> s1 = s2.
Proof. induction p as [|a p IH]; cbn; [auto|]. intros [= E]. auto. Qed.

Lemma fmt_inj (p : string) (m n : nat) : fmt p m = fmt p n -> m = n.
Proof. unfold fmt. intros E. apply append_inj_l in E. now apply str_inj. Qed.

Lemma setitem_fresh (d : odict) (key : string) (v : layer) :
  ~ In key (map fst d) -> setitem d key v = d ++ [(key, v)].
Proof.
  induction d as [|[k x] d IH]; cbn [setitem map fst In app]; [reflexivity|].
  intros Hn. destruct (String.eqb_spec k key) as [->|Hk].
  - exfalso. apply Hn. now left.
  - rewrite IH; [reflexivity|]. intros Hin. apply Hn. now right.
Qed.


Lemma loop_appends (N : nat) (body : nat -> odict -> odict) (pass : nat -> odict) :
  (forall a L, a < N -> (forall k, In k (map fst L) -> earlier_key a k) ->
     body a L = L ++ pass a /\
     (forall k, In k (map fst (pass a)) -> earlier_key (S a) k)) ->
  forall n a L, a + n <= N -> (forall k, In k (map fst L) -> earlier_key a k) ->
    fold_left (fun st i => body i st) (seq a n) L = L ++ flat_map pass (seq a n) /\
    (forall k, In k (map fst (L ++ flat_map pass (seq a n))) -> earlier_key (a + n) k).
Proof.
  intros Hstep. induction n as [|n IH]; intros a L Hle HL.
  - cbn. rewrite app_nil_r, Nat.add_0_r. split; [reflexivity|exact HL].
  - cbn [seq fold_left flat_map].
    destruct (Hstep a L ltac:(lia) HL) as [-> Hnew].
    assert (HL' : forall k, In k (map fst (L ++ pass a)) -> earlier_key (S a) k).
    { intros k Hk. rewrite map_app in Hk. apply in_app_or in Hk.
      destruct Hk as [Hk|Hk]; [|now apply Hnew].
      destruct (HL k Hk) as [->|(j & Hj & Hkj)]; [now left|].
      right. exists j. split; [lia|exact Hkj]. }
    destruct (IH (S a) (L ++ pass a) ltac:(lia) HL') as [-> Hinv].
    rewrite <- app_assoc in Hinv |- *. split; [reflexivity|].
    replace (a + S n) with (S a + n) by lia. exact Hinv.
Qed.

Lemma earlier_not_conv (a : nat) (k : string) :
  earlier_key a k -> k <> fmt "conv" (a + 1).
Proof.
  intros [->|(j & Hj & [->| ->])] E.
  - discriminate.
  - apply fmt_inj in E. lia.
  - discriminate.
Qed.

Lemma earlier_not_relu (a : nat) (k : string) :
  earlier_key a k -> k <> fmt "relu" (a + 1).
Proof.
  intros [->|(j & Hj & [->| ->])] E.
  - discriminate.
  - discriminate.
  - apply fmt_inj in E. lia.
Qed.

Lemma earlier_not_output (a : nat) (k : string) :
  earlier_key a k -> k <> "output"%string.
Proof. intros [->|(j & Hj & [->| ->])] E; discriminate. Qed.

(** Two assignments under the keys of pass [a + 1] append two entries. *)
Lemma pass_appends (a : nat) (L : odict) (c r : layer) :
  (forall k, In k (map fst L) -> earlier_key a k) ->
  setitem (setitem L (fmt "conv" (a + 1)) c) (fmt "relu" (a + 1)) r
    = L ++ [(fmt "conv" (a + 1), c); (fmt "relu" (a + 1), r)].
Proof.
  intros HL.
  rewrite (setitem_fresh L).
  2:{ intros Hin. exact (earlier_not_conv a _ (HL _ Hin) eq_refl). }
  rewrite setitem_fresh; [now rewrite <- app_assoc|].
  rewrite map_app. intros Hin. apply in_app_or in Hin. destruct Hin as [Hin|Hin].
  - exact (earlier_not_relu a _ (HL _ Hin) eq_refl).
  - cbn in Hin. destruct Hin as [E|[]]. discriminate.
Qed.

Lemma pass_keys (a : nat) (c r : layer) (k : string) :
  In k (map fst [(fmt "conv" (a + 1), c); (fmt "relu" (a + 1), r)]) ->
  earlier_key (S a) k.
Proof.
  cbn [map fst In]. intros [<-|[<-|[]]]; right; exists (a + 1); split; try lia; auto.
Qed.

Lemma flat_map_pairs (pass : nat -> odict) :
  (forall i, length (pass i) = 2) ->
  forall n a, length (flat_map pass (seq a n)) = 2 * n.
Proof.
  intros Hp. induction n as [|n IH]; intros a; [reflexivity|].
  cbn [seq flat_map]. rewrite length_app, Hp, IH. lia.
Qed.

(** X11.  No assignment in the loop of [BayerNetwork.__init__] replaces an
    earlier layer: after "pack_mosaic", pass [i] appends "conv(i+1)" and
    "relu(i+1)", so [main_processor] has 1 + 2 depth layers in the order of
    the loop. *)
Theorem BayerNetwork_main_processor (depth width : nat) :
  main_processor (BayerNetwork_init depth width)
    = ("pack_mosaic"%string, Conv2d 3 4 2 2 0 true)
        :: flat_map (bn_pass depth width) (seq 0 depth) /\
  length (main_processor (BayerNetwork_init depth width)) = 1 + 2 * depth.
Proof.
  assert (E : main_processor (BayerNetwork_init depth width)
              = ("pack_mosaic"%string, Conv2d 3 4 2 2 0 true)
                  :: flat_map (bn_pass depth width) (seq 0 depth)).
  { cbn [BayerNetwork_init main_processor]. unfold for_i.
    refine (proj1 (loop_appends depth _ (bn_pass depth width) _ depth 0 _ _ _)); [|lia|].
    - intros a L Ha HL. split.
      + apply pass_appends. exact HL.
      + apply pass_keys.
    - cbn [map fst In]. intros k [<-|[]]. now left. }
  split; [exact E|]. rewrite E. cbn [length].
  now rewrite (flat_map_pairs (bn_pass depth width)).
Qed.

Lemma conv_shape (n_in n_out k : nat) (b : bool) (bs h w : nat) :
  layer_shape (Conv2d n_in n_out k 1 0 b) [bs; n_in; h; w]
    = if (k <=? h) && (k <=? w) then Some [bs; n_out; h - k + 1; w - k + 1] else None.
Proof.
  unfold layer_shape. rewrite Nat.eqb_refl. change (0 <? 1) with true.
  rewrite !Nat.mul_0_r, !Nat.add_0_r, !Nat.div_1_r. reflexivity.
Qed.

Lemma conv_shape_ok (n_in n_out k : nat) (b : bool) (bs h w : nat) :
  k <= h -> k <= w ->
  layer_shape (Conv2d n_in n_out k 1 0 b) [bs; n_in; h; w]
    = Some [bs; n_out; h - k + 1; w - k + 1].
Proof.
  intros Hh Hw. rewrite conv_shape.
  now rewrite (proj2 (Nat.leb_le _ _) Hh), (proj2 (Nat.leb_le _ _) Hw).
Qed.

(** The shapes through the passes [a], ..., [depth - 1] of [main_processor]. *)
Lemma bn_chain_shape (depth width bs : nat) :
  forall n a h w, 1 <= n -> a + n = depth -> 2 * n < h -> 2 * n < w ->
    sequential_shape (map snd (flat_map (bn_pass depth width) (seq a n)))
      [bs; if a =? 0 then 4 else width; h; w]
    = Some [bs; 2 * width; h - 2 * n; w - 2 * n].
Proof.
  induction n as [|n IH]; intros a h w Hn Ha Hh Hw; [lia|].
  cbn [seq flat_map bn_pass app map snd sequential_shape].
  rewrite conv_shape_ok by lia.
  replace (h - 3 + 1) with (h - 2) by lia.
  replace (w - 3 + 1) with (w - 2) by lia.
  cbn [layer_shape].
  destruct n as [|n].
  - replace (a =? depth - 1) with true by (symmetry; apply Nat.eqb_eq; lia).
    cbn [seq flat_map map sequential_shape].
    replace (h - 2 * 1) with (h - 2) by lia. replace (w - 2 * 1) with (w - 2) by lia.
    reflexivity.
  - replace (a =? depth - 1) with false by (symmetry; apply Nat.eqb_neq; lia).
    specialize (IH (S a) (h - 2) (w - 2) ltac:(lia) ltac:(lia) ltac:(lia) ltac:(lia)).
    cbn [Nat.eqb] in IH. rewrite IH.
    replace (h - 2 - 2 * S n) with (h - 2 * S (S n)) by lia.
    replace (w - 2 - 2 * S n) with (w - 2 * S (S n)) by lia.
    reflexivity.
Qed.

Lemma relu_shape (b : bool) (s : list nat) : layer_shape (ReLU b) s = Some s.
Proof. destruct s as [|? [|? [|? [|? [|? ?]]]]]; reflexivity. Qed.

Lemma pack_shape (bs h w : nat) :
  1 <= h -> 1 <= w ->
  layer_shape (Conv2d 3 4 2 2 0 true) [bs; 3; 2 * h; 2 * w] = Some [bs; 4; h; w].
Proof.
  intros Hh Hw. unfold layer_shape. rewrite Nat.eqb_refl. change (0 <? 2) with true.
  rewrite !Nat.mul_0_r, !Nat.add_0_r.
  rewrite (proj2 (Nat.leb_le 2 (2 * h))), (proj2 (Nat.leb_le 2 (2 * w))) by lia.
  replace (2 * h - 2) with ((h - 1) * 2) by lia.
  replace (2 * w - 2) with ((w - 1) * 2) by lia.
  rewrite !Nat.div_mul by lia.
  replace (h - 1 + 1) with h by lia. replace (w - 1 + 1) with w by lia. reflexivity.
Qed.

Section Runs.
Context {A : Type} {SA : Scalar A}.
Variable run : layer -> tensor A -> option (tensor A).
Hypothesis run_ok : runs_as_documented run.

Lemma run_shape (l : layer) (t : tensor A) (s : list nat) :
  layer_shape l (shape t) = Some s ->
  exists t', run l t = Some t' /\ shape t' = s.
Proof.
  intros E. pose proof (run_ok l t) as R. rewrite E in R.
  destruct (run l t) as [t'|]; [|discriminate].
  injection R as R. now exists t'.
Qed.

Lemma sequential_shape_ok (ls : odict) (t : tensor A) (s : list nat) :
  sequential_shape (map snd ls) (shape t) = Some s ->
  exists t', sequential run ls t = Some t' /\ shape t' = s.
Proof.
  revert t. induction ls as [|[k l] ls IH]; intros t; cbn [map snd sequential_shape sequential].
  - intros [= <-]. now exists t.
  - destruct (layer_shape l (shape t)) as [s1|] eqn:E1; [|discriminate].
    destruct (run_shape l t s1 E1) as (t1 & -> & S1). rewrite <- S1. apply IH.
Qed.

(** X12.  [BayerNetwork.forward] on a mosaic of three channels and even
    size 2 h x 2 w, for a network of depth >= 1 and width >= 1 whose layers
    behave as documented: when 2 depth + 2 <= h and 2 depth + 2 <= w the
    result has three channels and 4 depth + 2 fewer rows and columns than
    the mosaic. *)
Theorem BayerNetwork_forward_shape (depth width : nat)
    (samples : list (string * tensor A)) (mosaic : tensor A) (bs h w : nat) :
  lookup "mosaic" samples = Some mosaic -> shape mosaic = [bs; 3; 2 * h; 2 * w] ->
  1 <= depth -> 1 <= width -> 2 * depth + 2 <= h -> 2 * depth + 2 <= w ->
  exists out,
    BayerNetwork_forward run (BayerNetwork_init depth width) samples = Some out /\
    shape out = [bs; 3; 2 * h - (4 * depth + 2); 2 * w - (4 * depth + 2)].
Proof.
  intros Hl Hm Hd Hwd Hh Hw. unfold BayerNetwork_forward. rewrite Hl.
  destruct (BayerNetwork_main_processor depth width) as [Emain _].
  (* 1/4 resolution features *)
  destruct (sequential_shape_ok (main_processor (BayerNetwork_init depth width)) mosaic
              [bs; 2 * width; h - 2 * depth; w - 2 * depth]) as (features & -> & Sf).
  { rewrite Emain, Hm. cbn [map snd sequential_shape].
    rewrite pack_shape by lia.
    exact (bn_chain_shape depth width bs depth 0 h w Hd eq_refl ltac:(lia) ltac:(lia)). }
  set (hf := h - 2 * depth) in *. set (wf := w - 2 * depth) in *.
  cbn [BayerNetwork_init bn_width residual_predictor upsampler fullres_processor].
  destruct (slice_axis1_spec features bs (2 * width) hf wf 0%Z (Z.of_nat width) Sf)
    as (filters & -> & Sfl & _); [lia|lia|].
  unfold slice_from1. rewrite Sf. cbn [nth].
  destruct (slice_axis1_spec features bs (2 * width) hf wf (Z.of_nat width)
              (Z.of_nat (2 * width)) Sf) as (masks & -> & Smk & _); [lia|lia|].
  repeat rewrite Nat2Z.id in Sfl. repeat rewrite Nat2Z.id in Smk. cbn [Z.to_nat] in Sfl.
  replace (Nat.min width (2 * width) - Nat.min 0 (2 * width)) with width in Sfl by lia.
  replace (Nat.min (2 * width) (2 * width) - Nat.min width (2 * width)) with width
    in Smk by lia.
  unfold tmul, zip_with_bc. rewrite Sfl, Smk, broadcast_same.
  set (filtered := tabulate _ _).
  destruct (run_shape (Conv2d width 12 1 1 0 true) filtered [bs; 12; hf; wf])
    as (residual & -> & Sres).
  { cbn [filtered shape tabulate]. rewrite conv_shape_ok by lia.
    replace (hf - 1 + 1) with hf by lia. replace (wf - 1 + 1) with wf by lia.
    reflexivity. }
  destruct (run_shape (ConvTranspose2d 12 3 2 2 3) residual [bs; 3; hf * 2; wf * 2])
    as (upsampled & -> & Sup).
  { rewrite Sres. unfold layer_shape. rewrite Nat.eqb_refl.
    rewrite (proj2 (Nat.ltb_lt 0 hf)), (proj2 (Nat.ltb_lt 0 wf)) by lia.
    cbn [andb].
    replace ((hf - 1) * 2 + 2) with (hf * 2) by lia.
    replace ((wf - 1) * 2 + 2) with (wf * 2) by lia. reflexivity. }
  (* crop original mosaic to match output size *)
  destruct (crop_like_spec mosaic upsampled _ _ _ _ _ _ _ _ Hm Sup)
    as (cropped & -> & Scr & _).
  replace (2 * h - hf * 2) with (2 * depth * 2) in Scr by lia.
  replace (2 * w - wf * 2) with (2 * depth * 2) in Scr by lia.
  rewrite Nat.div_mul in Scr by lia.
  replace (2 * h - 2 * (2 * depth)) with (hf * 2) in Scr by lia.
  replace (2 * w - 2 * (2 * depth)) with (wf * 2) in Scr by lia.
  (* Concated input samples and residual for further filtering *)
  assert (Ecat : exists packed, cat1 [cropped; upsampled] = Some packed /\
                   shape packed = [bs; 6; hf * 2; wf * 2]).
  { unfold cat1. cbn [forallb map]. rewrite !Scr, !Sup.
    cbn [length Nat.ltb Nat.leb andb].
    rewrite !(proj2 (same_off_axis1_true _ _) eq_refl). cbn [andb].
    eexists. split; reflexivity. }
  destruct Ecat as (packed & -> & Spk).
  destruct (sequential_shape_ok
              [("post_conv"%string, Conv2d 6 width 3 1 0 true);
               ("post_relu"%string, ReLU true);
               ("output"%string, Conv2d width 3 1 1 0 true)] packed
              [bs; 3; 2 * h - (4 * depth + 2); 2 * w - (4 * depth + 2)])
    as (out & -> & So).
  { rewrite Spk. cbn [map snd sequential_shape].
    rewrite conv_shape_ok by lia. rewrite relu_shape.
    rewrite conv_shape_ok by lia.
    replace (hf * 2 - 3 + 1 - 1 + 1) with (2 * h - (4 * depth + 2)) by lia.
    replace (wf * 2 - 3 + 1 - 1 + 1) with (2 * w - (4 * depth + 2)) by lia.
    reflexivity. }
  exists out. split; [reflexivity|exact So].
Qed.
End Runs.

Lemma zero_layer_as_documented : runs_as_documented zero_layer.
Proof.
  intros l t. unfold zero_layer. destruct (layer_shape l (shape t)); reflexivity.
Qed.

Lemma BayerNetwork_forward_shape_witness :
  exists out,
    BayerNetwork_forward zero_layer (BayerNetwork_init 1 2)
      [("mosaic"%string, qramp [1; 3; 8; 8])] = Some out /\
    shape out = [1; 3; 2; 2].
Proof.
  apply (BayerNetwork_forward_shape zero_layer zero_layer_as_documented 1 2
           [("mosaic"%string, qramp [1; 3; 8; 8])] (qramp [1; 3; 8; 8]) 1 4 4
           eq_refl eq_refl); lia.
Defined.

Lemma shape4_eq (bs c h w h' w' : nat) :
  h = h' -> w = w' -> Some [bs; c; h; w] = Some [bs; c; h'; w'].
Proof. intros -> ->. reflexivity. Qed.

(** The shapes through [n] passes of the loop of
    [BayerExperimental.__init__], from pass [a], and the output layer. *)
Lemma be_chain_shape (width bs : nat) :
  forall n a h w,
    sequential_shape
      (map snd (flat_map (be_pass width) (seq a n)
                ++ [("output"%string,
                     Conv2d (if a + n =? 0 then 4 else width) 8 1 1 0 true)]))
      [bs; if a =? 0 then 4 else width; h; w]
    = if (2 * n + 1 <=? h) && (2 * n + 1 <=? w)
      then Some [bs; 8; h - 2 * n; w - 2 * n] else None.
Proof.
  induction n as [|n IH]; intros a h w.
  - cbn [seq flat_map app map snd sequential_shape].
    rewrite Nat.add_0_r, conv_shape.
    change (2 * 0 + 1) with 1.
    destruct (Nat.leb_spec 1 h); destruct (Nat.leb_spec 1 w); cbn [andb];
      try reflexivity.
    cbn [sequential_shape]. apply shape4_eq; lia.
  - cbn [seq flat_map be_pass app map snd sequential_shape].
    rewrite conv_shape.
    specialize (IH (S a) (h - 3 + 1) (w - 3 + 1)). cbn [Nat.eqb] in IH.
    replace (S a + n) with (a + S n) in IH by lia.
    destruct (Nat.leb_spec 3 h); destruct (Nat.leb_spec 3 w); cbn [andb].
    + rewrite relu_shape, IH.
      destruct (Nat.leb_spec (2 * n + 1) (h - 3 + 1));
        destruct (Nat.leb_spec (2 * n + 1) (w - 3 + 1));
        destruct (Nat.leb_spec (2 * S n + 1) h);
        destruct (Nat.leb_spec (2 * S n + 1) w); cbn [andb];
        try lia; try reflexivity.
      apply shape4_eq; lia.
    + destruct (Nat.leb_spec (2 * S n + 1) h);
        destruct (Nat.leb_spec (2 * S n + 1) w); cbn [andb]; try lia; reflexivity.
    + destruct (Nat.leb_spec (2 * S n + 1) h);
        destruct (Nat.leb_spec (2 * S n + 1) w); cbn [andb]; try lia; reflexivity.
    + destruct (Nat.leb_spec (2 * S n + 1) h);
        destruct (Nat.leb_spec (2 * S n + 1) w); cbn [andb]; try lia; reflexivity.
Qed.

Lemma BayerExperimental_net (depth width : nat) :
  1 <= depth ->
  net (BayerExperimental_init depth width)
    = flat_map (be_pass width) (seq 0 (depth - 1))
      ++ [("output"%string, Conv2d (if depth - 1 =? 0 then 4 else width) 8 1 1 0 true)].
Proof.
  intros Hd. cbn [BayerExperimental_init net]. unfold for_i.
  replace depth with (depth - 1 + 1) at 1 by lia.
  rewrite seq_app, fold_left_app. cbn [seq fold_left Nat.add].
  destruct (loop_appends (depth - 1)
              (fun i layers =>
                 if (Z.of_nat i <? Z.of_nat depth - 1)%Z
                 then setitem
                        (setitem layers (fmt "conv" (i + 1))
                           (Conv2d (if i =? 0 then 4 else width) width 3 1 0 true))
                        (fmt "relu" (i + 1)) (ReLU true)
                 else setitem layers "output"
                        (Conv2d (if i =? 0 then 4 else width) 8 1 1 0 true))
              (be_pass width)) with (n := depth - 1) (a := 0) (L := @nil (string * layer))
    as [-> Hinv]; [|lia|intros k []|].
  - intros a L Ha HL.
    destruct (Z.ltb_spec (Z.of_nat a) (Z.of_nat depth - 1)); [|lia].
    split; [apply pass_appends; exact HL|apply pass_keys].
  - destruct (Z.ltb_spec (Z.of_nat (depth - 1)) (Z.of_nat depth - 1)); [lia|].
    apply setitem_fresh. intros Hin.
    exact (earlier_not_output _ _ (Hinv _ Hin) eq_refl).
Qed.

Lemma BayerExperimental_net_shape (depth width bs h w : nat) :
  1 <= depth ->
  sequential_shape (map snd (net (BayerExperimental_init depth width))) [bs; 4; h; w]
    = if (2 * depth - 1 <=? h) && (2 * depth - 1 <=? w)
      then Some [bs; 8; h - (2 * depth - 2); w - (2 * depth - 2)] else None.
Proof.
  intros Hd. rewrite BayerExperimental_net by assumption.
  pose proof (be_chain_shape width bs (depth - 1) 0 h w) as C.
  cbn [Nat.eqb Nat.add] in C. rewrite C.
  replace (2 * (depth - 1) + 1) with (2 * depth - 1) by lia.
  replace (2 * (depth - 1)) with (2 * depth - 2) by lia. reflexivity.
Qed.

(** X13.  [BayerExperimental.__init__] for depth >= 1: [net] is depth - 1
    pairs of a 3x3 convolution and a ReLU followed by the 1x1 layer
    "output"; [self.fov] = 2 depth - 1 is the smallest input size that
    [net] accepts, and on a larger input of four channels the result has
    eight channels and fov - 1 fewer rows and columns. *)
Theorem BayerExperimental_fov (depth width : nat) :
  1 <= depth ->
  fov (BayerExperimental_init depth width) = Z.of_nat (2 * depth - 1) /\
  net (BayerExperimental_init depth width)
    = flat_map (be_pass width) (seq 0 (depth - 1))
      ++ [("output"%string, Conv2d (if depth - 1 =? 0 then 4 else width) 8 1 1 0 true)] /\
  forall bs h w,
    sequential_shape (map snd (net (BayerExperimental_init depth width))) [bs; 4; h; w]
    = if (2 * depth - 1 <=? h) && (2 * depth - 1 <=? w)
      then Some [bs; 8; h - (2 * depth - 2); w - (2 * depth - 2)] else None.
Proof.
  intros Hd. split; [|split].
  - cbn [BayerExperimental_init fov]. lia.
  - now apply BayerExperimental_net.
  - intros bs h w. now apply BayerExperimental_net_shape.
Qed.

Lemma BayerExperimental_fov_witness :
  fov (BayerExperimental_init 4 32) = 7%Z /\
  sequential_shape (map snd (net (BayerExperimental_init 4 32))) [1; 4; 7; 9]
    = Some [1; 8; 1; 3] /\
  sequential_shape (map snd (net (BayerExperimental_init 4 32))) [1; 4; 6; 9] = None.
Proof.
  destruct (BayerExperimental_fov 4 32 ltac:(lia)) as (Ef & _ & Es).
  split; [exact Ef|]. split; [exact (Es 1 7 9)|exact (Es 1 6 9)].
Defined.

Section Assembly.
Context {A : Type} {SA : Scalar A}.

Lemma tmap_shape (f : A -> A) (t : tensor A) : shape (tmap f t) = shape t.
Proof. reflexivity. Qed.

Lemma get_tmap (f : A -> A) (t : tensor A) (idx : list nat) :
  inb (shape t) idx -> get (tmap f t) idx = f (get t idx).
Proof. intros Hin. unfold tmap. now rewrite get_tabulate. Qed.

Lemma broadcast_channel (a m c d : nat) :
  broadcast [a; m; c; d] [a; 1; c; d] = Some [a; m; c; d].
Proof.
  cbn [broadcast]. rewrite !Nat.eqb_refl.
  destruct m as [|[|m]]; reflexivity.
Qed.

Lemma phase_len_even (h a : nat) : a < 2 -> phase_len (2 * h) a = h.
Proof.
  intros Ha. unfold phase_len.
  assert (E : a = 0 \/ a = 1) by lia. destruct E as [-> | ->].
  - replace (2 * h - 0 + 1) with (1 + h * 2) by lia.
    rewrite Nat.div_add by lia. reflexivity.
  - destruct h as [|h]; [reflexivity|].
    replace (2 * S h - 1 + 1) with (S h * 2) by lia.
    now rewrite Nat.div_mul by lia.
Qed.

Lemma select1_spec (c : nat) (t : tensor A) (n0 n1 n2 n3 : nat) :
  shape t = [n0; n1; n2; n3] -> c < n1 ->
  exists v, select1 c t = Some v /\ shape v = [n0; n2; n3] /\
    forall n y x, n < n0 -> y < n2 -> x < n3 ->
      get v [n; y; x] = get t [n; c; y; x].
Proof.
  intros Hs Hc. unfold select1. rewrite Hs.
  rewrite (proj2 (Nat.ltb_lt c n1) Hc).
  eexists. split; [reflexivity|]. split; [reflexivity|].
  intros n y x Hn Hy Hx. rewrite get_tabulate by inb_solve. reflexivity.
Qed.

Lemma phase_spec (c a b : nat) (t : tensor A) (n0 n1 h w : nat) :
  shape t = [n0; n1; 2 * h; 2 * w] -> c < n1 -> a < 2 -> b < 2 ->
  exists v, phase c a b t = Some v /\ shape v = [n0; h; w] /\
    forall n y x, n < n0 -> y < h -> x < w ->
      get v [n; y; x] = get t [n; c; a + 2 * y; b + 2 * x].
Proof.
  intros Hs Hc Ha Hb. unfold phase. rewrite Hs.
  rewrite (proj2 (Nat.ltb_lt c n1) Hc), !phase_len_even by assumption.
  eexists. split; [reflexivity|]. split; [reflexivity|].
  intros n y x Hn Hy Hx. rewrite get_tabulate by inb_solve. reflexivity.
Qed.

Lemma phase_index (y a a0 : nat) :
  a < 2 -> a0 < 2 ->
  ((a <=? y * 2 + a0) && ((y * 2 + a0 - a) mod 2 =? 0)) = (a0 =? a) /\
  (a0 = a -> (y * 2 + a0 - a) / 2 = y).
Proof.
  intros Ha Ha0.
  assert (E : (a = 0 \/ a = 1) /\ (a0 = 0 \/ a0 = 1)) by lia.
  destruct E as [[-> | ->] [-> | ->]]; cbn [Nat.eqb].
  - rewrite Nat.add_0_r, Nat.sub_0_r, Nat.Div0.mod_mul, Nat.div_mul by lia.
    split; [reflexivity|reflexivity].
  - rewrite Nat.sub_0_r. replace (y * 2 + 1) with (1 + y * 2) by lia.
    rewrite Nat.Div0.mod_add. split; [reflexivity|discriminate].
  - rewrite Nat.add_0_r. split; [|discriminate].
    destruct y as [|y]; [reflexivity|].
    replace (S y * 2 - 1) with (1 + y * 2) by lia.
    rewrite Nat.Div0.mod_add.
    destruct (1 <=? S y * 2); reflexivity.
  - replace (y * 2 + 1 - 1) with (y * 2) by lia.
    rewrite Nat.Div0.mod_mul, Nat.div_mul by lia.
    replace (1 <=? y * 2 + 1) with true by (symmetry; apply Nat.leb_le; lia).
    split; reflexivity.
Qed.

(** The entries after [out[:, c, a::2, b::2] = src]. *)
Lemma assign_phase_spec (c a b : nat) (out src : tensor A) (n0 n1 h w : nat) :
  shape out = [n0; n1; 2 * h; 2 * w] -> shape src = [n0; h; w] ->
  c < n1 -> a < 2 -> b < 2 ->
  exists out', assign_phase c a b out src = Some out' /\
    shape out' = [n0; n1; 2 * h; 2 * w] /\
    forall n ch y x a0 b0, n < n0 -> ch < n1 -> y < h -> x < w -> a0 < 2 -> b0 < 2 ->
      get out' [n; ch; y * 2 + a0; x * 2 + b0] =
        if (ch =? c) && (a0 =? a) && (b0 =? b) then get src [n; y; x]
        else get out [n; ch; y * 2 + a0; x * 2 + b0].
Proof.
  intros Ho Hs Hc Ha Hb. unfold assign_phase. rewrite Ho, Hs.
  rewrite (proj2 (Nat.ltb_lt c n1) Hc), !phase_len_even by assumption.
  rewrite broadcast_same.
  destruct (list_eq_dec Nat.eq_dec [n0; h; w] [n0; h; w]) as [_|Hne]; [|congruence].
  eexists. split; [reflexivity|]. split; [reflexivity|].
  intros n ch y x a0 b0 Hn Hch Hy Hx Ha0 Hb0.
  rewrite get_tabulate by inb_solve. cbn [ix nth].
  destruct (phase_index y a a0 Ha Ha0) as [Ey Dy].
  destruct (phase_index x b b0 Hb Hb0) as [Ex Dx].
  rewrite <- !andb_assoc.
  rewrite (andb_assoc (a <=? y * 2 + a0)), Ey.
  rewrite Ex.
  destruct (ch =? c); [|reflexivity].
  destruct (Nat.eqb_spec a0 a) as [Ea|]; [|reflexivity].
  destruct (Nat.eqb_spec b0 b) as [Eb|]; [|reflexivity].
  cbn [andb bc_index]. rewrite Dy, Dx by assumption.
  rewrite !bc_fix by assumption. reflexivity.
Qed.
End Assembly.

Section ExperimentalForward.
Context {A : Type} {SA : Scalar A}.
Variable run : layer -> tensor A -> option (tensor A).
Hypothesis run_ok : runs_as_documented run.
Variables (th_log th_exp : A -> A) (sub : A -> A -> A) (eps : A).

Lemma BayerExperimental_recons_ok (depth width : nat)
    (samples : list (string * tensor A)) (mosaic : tensor A) (bs C h w : nat) :
  lookup "mosaic" samples = Some mosaic -> shape mosaic = [bs; C; 2 * h; 2 * w] ->
  1 <= depth -> 2 * depth - 1 <= h -> 2 * depth - 1 <= w ->
  exists recons,
    BayerExperimental_recons run th_log th_exp sub eps
      (BayerExperimental_init depth width) samples = Some (mosaic, bs, recons) /\
    shape recons = [bs; 8; h - (2 * depth - 2); w - (2 * depth - 2)].
Proof.
  intros Hl Hm Hd Hh Hw. unfold BayerExperimental_recons. rewrite Hl.
  destruct (color_samples_ok mosaic bs C (2 * h) (2 * w) Hm ltac:(lia) ltac:(lia))
    as (cs & -> & Scs & _).
  rewrite !half_of_even in Scs by lia. rewrite Scs.
  set (cs' := tmap _ cs).
  assert (Scs' : shape cs' = [bs; 4; h; w]) by exact Scs.
  cbn [BayerExperimental_init local_mean].
  destruct (run_shape run run_ok (Conv2d 4 1 3 1 1 false) cs' [bs; 1; h; w])
    as (input_mean & -> & Sim).
  { rewrite Scs'. unfold layer_shape. rewrite Nat.eqb_refl. change (0 <? 1) with true.
    rewrite (proj2 (Nat.leb_le 3 (h + 2 * 1))), (proj2 (Nat.leb_le 3 (w + 2 * 1))) by lia.
    cbn [andb]. rewrite !Nat.div_1_r. apply shape4_eq; lia. }
  unfold zip_with_bc at 1. rewrite Scs', Sim, broadcast_channel.
  set (centred := tabulate _ _).
  destruct (sequential_shape_ok run run_ok
              (net (BayerExperimental_init depth width)) centred
              [bs; 8; h - (2 * depth - 2); w - (2 * depth - 2)])
    as (r1 & Er1 & Sr1).
  { cbn [centred shape tabulate]. rewrite BayerExperimental_net_shape by assumption.
    now rewrite (proj2 (Nat.leb_le _ _) Hh), (proj2 (Nat.leb_le _ _) Hw). }
  cbn [BayerExperimental_init net] in Er1 |- *. rewrite Er1.
  destruct (crop_like_spec input_mean r1 _ _ _ _ _ _ _ _ Sim Sr1)
    as (cmean & -> & Scm & _).
  replace (h - (h - (2 * depth - 2))) with ((depth - 1) * 2) in Scm by lia.
  replace (w - (w - (2 * depth - 2))) with ((depth - 1) * 2) in Scm by lia.
  rewrite Nat.div_mul in Scm by lia.
  replace (2 * (depth - 1)) with (2 * depth - 2) in Scm by lia.
  unfold tadd, zip_with_bc. rewrite Sr1, Scm, broadcast_channel.
  eexists. split; reflexivity.
Qed.

Lemma BayerExperimental_assemble_ok (mosaic recons : tensor A) (bs h w m : nat) :
  shape mosaic = [bs; 3; 2 * h; 2 * w] -> shape recons = [bs; 8; h - 2 * m; w - 2 * m] ->
  2 * m <= h -> 2 * m <= w ->
  exists out, BayerExperimental_assemble (mosaic, bs, recons) = Some out /\
    shape out = [bs; 3; 2 * (h - 2 * m); 2 * (w - 2 * m)] /\
    forall n y x, n < bs -> y < h - 2 * m -> x < w - 2 * m ->
      (get out [n; 1; y * 2 + 0; x * 2 + 0]
         = get mosaic [n; 1; y * 2 + 0 + 2 * m; x * 2 + 0 + 2 * m] /\
       get out [n; 0; y * 2 + 0; x * 2 + 1]
         = get mosaic [n; 0; y * 2 + 0 + 2 * m; x * 2 + 1 + 2 * m] /\
       get out [n; 2; y * 2 + 1; x * 2 + 0]
         = get mosaic [n; 2; y * 2 + 1 + 2 * m; x * 2 + 0 + 2 * m] /\
       get out [n; 1; y * 2 + 1; x * 2 + 1]
         = get mosaic [n; 1; y * 2 + 1 + 2 * m; x * 2 + 1 + 2 * m]) /\
      (get out [n; 0; y * 2 + 0; x * 2 + 0] = get recons [n; 0; y; x] /\
       get out [n; 2; y * 2 + 0; x * 2 + 0] = get recons [n; 1; y; x] /\
       get out [n; 1; y * 2 + 0; x * 2 + 1] = get recons [n; 2; y; x] /\
       get out [n; 2; y * 2 + 0; x * 2 + 1] = get recons [n; 3; y; x] /\
       get out [n; 0; y * 2 + 1; x * 2 + 0] = get recons [n; 4; y; x] /\
       get out [n; 1; y * 2 + 1; x * 2 + 0] = get recons [n; 5; y; x] /\
       get out [n; 0; y * 2 + 1; x * 2 + 1] = get recons [n; 6; y; x] /\
       get out [n; 2; y * 2 + 1; x * 2 + 1] = get recons [n; 7; y; x]).
Proof.
  intros Hm Hr Hh Hw. unfold BayerExperimental_assemble. rewrite Hr.
  set (h' := h - 2 * m) in *. set (w' := w - 2 * m) in *.
  set (o0 := zeros [bs; 3; 2 * h'; 2 * w']).
  assert (S0 : shape o0 = [bs; 3; 2 * h'; 2 * w']) by reflexivity.
  destruct (crop_like_spec mosaic o0 _ _ _ _ _ _ _ _ Hm S0) as (cm & -> & Scm & Gcm).
  replace (2 * h - 2 * h') with (2 * m * 2) in Scm, Gcm by lia.
  replace (2 * w - 2 * w') with (2 * m * 2) in Scm, Gcm by lia.
  rewrite Nat.div_mul in Scm, Gcm by lia.
  replace (2 * h - 2 * (2 * m)) with (2 * h') in Scm, Gcm by lia.
  replace (2 * w - 2 * (2 * m)) with (2 * w') in Scm, Gcm by lia.
  destruct (select1_spec 0 recons _ _ _ _ Hr ltac:(lia)) as (v1 & -> & Sv1 & Gv1).
  destruct (assign_phase_spec 0 0 0 o0 v1 _ _ _ _ S0 Sv1 ltac:(lia) ltac:(lia) ltac:(lia))
    as (o1 & -> & S1 & G1).
  destruct (phase_spec 1 0 0 cm _ _ _ _ Scm ltac:(lia) ltac:(lia) ltac:(lia))
    as (v2 & -> & Sv2 & Gv2).
  destruct (assign_phase_spec 1 0 0 o1 v2 _ _ _ _ S1 Sv2 ltac:(lia) ltac:(lia) ltac:(lia))
    as (o2 & -> & S2 & G2).
  destruct (select1_spec 1 recons _ _ _ _ Hr ltac:(lia)) as (v3 & -> & Sv3 & Gv3).
  destruct (assign_phase_spec 2 0 0 o2 v3 _ _ _ _ S2 Sv3 ltac:(lia) ltac:(lia) ltac:(lia))
    as (o3 & -> & S3 & G3).
  destruct (phase_spec 0 0 1 cm _ _ _ _ Scm ltac:(lia) ltac:(lia) ltac:(lia))
    as (v4 & -> & Sv4 & Gv4).
  destruct (assign_phase_spec 0 0 1 o3 v4 _ _ _ _ S3 Sv4 ltac:(lia) ltac:(lia) ltac:(lia))
    as (o4 & -> & S4 & G4).
  destruct (select1_spec 2 recons _ _ _ _ Hr ltac:(lia)) as (v5 & -> & Sv5 & Gv5).
  destruct (assign_phase_spec 1 0 1 o4 v5 _ _ _ _ S4 Sv5 ltac:(lia) ltac:(lia) ltac:(lia))
    as (o5 & -> & S5 & G5).
  destruct (select1_spec 3 recons _ _ _ _ Hr ltac:(lia)) as (v6 & -> & Sv6 & Gv6).
  destruct (assign_phase_spec 2 0 1 o5 v6 _ _ _ _ S5 Sv6 ltac:(lia) ltac:(lia) ltac:(lia))
    as (o6 & -> & S6 & G6).
  destruct (select1_spec 4 recons _ _ _ _ Hr ltac:(lia)) as (v7 & -> & Sv7 & Gv7).
  destruct (assign_phase_spec 0 1 0 o6 v7 _ _ _ _ S6 Sv7 ltac:(lia) ltac:(lia) ltac:(lia))
    as (o7 & -> & S7 & G7).
  destruct (select1_spec 5 recons _ _ _ _ Hr ltac:(lia)) as (v8 & -> & Sv8 & Gv8).
  destruct (assign_phase_spec 1 1 0 o7 v8 _ _ _ _ S7 Sv8 ltac:(lia) ltac:(lia) ltac:(lia))
    as (o8 & -> & S8 & G8).
  destruct (phase_spec 2 1 0 cm _ _ _ _ Scm ltac:(lia) ltac:(lia) ltac:(lia))
    as (v9 & -> & Sv9 & Gv9).
  destruct (assign_phase_spec 2 1 0 o8 v9 _ _ _ _ S8 Sv9 ltac:(lia) ltac:(lia) ltac:(lia))
    as (o9 & -> & S9 & G9).
  destruct (select1_spec 6 recons _ _ _ _ Hr ltac:(lia)) as (v10 & -> & Sv10 & Gv10).
  destruct (assign_phase_spec 0 1 1 o9 v10 _ _ _ _ S9 Sv10 ltac:(lia) ltac:(lia) ltac:(lia))
    as (o10 & -> & S10 & G10).
  destruct (phase_spec 1 1 1 cm _ _ _ _ Scm ltac:(lia) ltac:(lia) ltac:(lia))
    as (v11 & -> & Sv11 & Gv11).
  destruct (assign_phase_spec 1 1 1 o10 v11 _ _ _ _ S10 Sv11 ltac:(lia) ltac:(lia) ltac:(lia))
    as (o11 & -> & S11 & G11).
  destruct (select1_spec 7 recons _ _ _ _ Hr ltac:(lia)) as (v12 & -> & Sv12 & Gv12).
  destruct (assign_phase_spec 2 1 1 o11 v12 _ _ _ _ S11 Sv12 ltac:(lia) ltac:(lia) ltac:(lia))
    as (o12 & -> & S12 & G12).
  exists o12. split; [reflexivity|]. split; [exact S12|].
  intros n y x Hn Hy Hx.
  rewrite !G12 by lia. cbn [Nat.eqb andb].
  rewrite ?G11 by lia. cbn [Nat.eqb andb].
  rewrite ?G10 by lia. cbn [Nat.eqb andb].
  rewrite ?G9 by lia. cbn [Nat.eqb andb].
  rewrite ?G8 by lia. cbn [Nat.eqb andb].
  rewrite ?G7 by lia. cbn [Nat.eqb andb].
  rewrite ?G6 by lia. cbn [Nat.eqb andb].
  rewrite ?G5 by lia. cbn [Nat.eqb andb].
  rewrite ?G4 by lia. cbn [Nat.eqb andb].
  rewrite ?G3 by lia. cbn [Nat.eqb andb].
  rewrite ?G2 by lia. cbn [Nat.eqb andb].
  rewrite ?G1 by lia. cbn [Nat.eqb andb].
  rewrite Gv1, Gv2, Gv3, Gv4, Gv5, Gv6, Gv7, Gv8, Gv9, Gv10, Gv11, Gv12 by assumption.
  rewrite !Gcm by lia.
  repeat split; f_equal; repeat (f_equal; try lia).
Qed.

(** X14.  [BayerExperimental.forward] on a mosaic of three channels and even
    size 2 h x 2 w with fov = 2 depth - 1 <= h, w, for layers that behave
    as documented: the result has three channels of size
    2 (h - fov + 1) x 2 (w - fov + 1).  In every 2x2 tile the green samples
    at positions (0,0) and (1,1), the red sample at (0,1) and the blue
    sample at (1,0) are those of channels 1, 0 and 2 of the mosaic,
    fov - 1 pixels further down and right; the other eight entries are
    the channels 0, ..., 7 of [recons_samples] in the order of the
    assignments. *)
Theorem BayerExperimental_forward_pixels (depth width : nat)
    (samples : list (string * tensor A)) (mosaic : tensor A) (bs h w : nat) :
  lookup "mosaic" samples = Some mosaic -> shape mosaic = [bs; 3; 2 * h; 2 * w] ->
  1 <= depth -> 2 * depth - 1 <= h -> 2 * depth - 1 <= w ->
  let m := 2 * (depth - 1) in
  exists recons out,
    BayerExperimental_recons run th_log th_exp sub eps
      (BayerExperimental_init depth width) samples = Some (mosaic, bs, recons) /\
    BayerExperimental_forward run th_log th_exp sub eps
      (BayerExperimental_init depth width) samples = Some out /\
    shape out = [bs; 3; 2 * (h - m); 2 * (w - m)] /\
    forall n y x, n < bs -> y < h - m -> x < w - m ->
      (get out [n; 1; y * 2 + 0; x * 2 + 0]
         = get mosaic [n; 1; y * 2 + 0 + m; x * 2 + 0 + m] /\
       get out [n; 0; y * 2 + 0; x * 2 + 1]
         = get mosaic [n; 0; y * 2 + 0 + m; x * 2 + 1 + m] /\
       get out [n; 2; y * 2 + 1; x * 2 + 0]
         = get mosaic [n; 2; y * 2 + 1 + m; x * 2 + 0 + m] /\
       get out [n; 1; y * 2 + 1; x * 2 + 1]
         = get mosaic [n; 1; y * 2 + 1 + m; x * 2 + 1 + m]) /\
      (get out [n; 0; y * 2 + 0; x * 2 + 0] = get recons [n; 0; y; x] /\
       get out [n; 2; y * 2 + 0; x * 2 + 0] = get recons [n; 1; y; x] /\
       get out [n; 1; y * 2 + 0; x * 2 + 1] = get recons [n; 2; y; x] /\
       get out [n; 2; y * 2 + 0; x * 2 + 1] = get recons [n; 3; y; x] /\
       get out [n; 0; y * 2 + 1; x * 2 + 0] = get recons [n; 4; y; x] /\
       get out [n; 1; y * 2 + 1; x * 2 + 0] = get recons [n; 5; y; x] /\
       get out [n; 0; y * 2 + 1; x * 2 + 1] = get recons [n; 6; y; x] /\
       get out [n; 2; y * 2 + 1; x * 2 + 1] = get recons [n; 7; y; x]).
Proof.
  intros Hl Hm Hd Hh Hw m.
  destruct (BayerExperimental_recons_ok depth width samples mosaic bs 3 h w
              Hl Hm Hd Hh Hw) as (recons & Er & Sr).
  replace (2 * depth - 2) with (2 * (depth - 1)) in Sr by lia.
  destruct (BayerExperimental_assemble_ok mosaic recons bs h w (depth - 1) Hm Sr
              ltac:(lia) ltac:(lia)) as (out & Eo & So & G).
  exists recons, out. split; [exact Er|].
  split; [unfold BayerExperimental_forward; rewrite Er; exact Eo|].
  split; [exact So|exact G].
Qed.
End ExperimentalForward.

Lemma BayerExperimental_forward_pixels_witness :
  exists out,
    BayerExperimental_forward zero_layer (fun x => x) (fun x => x) Qminus 0%Q
      (BayerExperimental_init 2 2) [("mosaic"%string, qramp [1; 3; 6; 6])] = Some out /\
    shape out = [1; 3; 2; 2] /\
    get out [0; 1; 0; 0] = get (qramp [1; 3; 6; 6]) [0; 1; 2; 2] /\
    get out [0; 0; 0; 1] = get (qramp [1; 3; 6; 6]) [0; 0; 2; 3] /\
    get out [0; 2; 1; 0] = get (qramp [1; 3; 6; 6]) [0; 2; 3; 2].
Proof.
  destruct (BayerExperimental_forward_pixels zero_layer zero_layer_as_documented
              (fun x => x) (fun x => x) Qminus 0%Q 2 2
              [("mosaic"%string, qramp [1; 3; 6; 6])] (qramp [1; 3; 6; 6]) 1 3 3
              eq_refl eq_refl ltac:(lia) ltac:(lia) ltac:(lia))
    as (recons & out & _ & Eo & So & G).
  exists out. split; [exact Eo|]. split; [exact So|].
  destruct (G 0 0 0 ltac:(lia) ltac:(lia) ltac:(lia)) as ((G1 & G2 & G3 & _) & _).
  split; [exact G1|]. split; [exact G2|exact G3].
Defined.
End LayerFacts.

(** ** The range of the output of [forward] *)

Lemma softmax_distribution_returns (softmax1 : tensor Q -> option (tensor Q)) :
  softmax_distribution softmax1 -> softmax_returns softmax1.
Proof.
  intros Hd t b c h w Hs. destruct (Hd t b c h w Hs) as (t' & E & S' & _).
  now exists t'.
Qed.

(** The weights of a kernel at one position, summed over the channels. *)
Lemma weights_bounds (kernel src est : tensor Q) (bs m e h w : nat) (lo hi : Q) :
  shape kernel = [bs; (2 * m + 1) * (2 * m + 1); h - 2 * e; w - 2 * e] ->
  shape src = [bs; 1; h; w] ->
  2 * e < h -> 2 * e < w -> 2 * m + 1 <= h -> 2 * m + 1 <= w ->
  (forall b q i j, b < bs -> q < (2 * m + 1) * (2 * m + 1) ->
     i < h - 2 * e -> j < w - 2 * e -> Qle 0 (get kernel [b; q; i; j])) ->
  (forall b y x, b < bs -> y < h -> x < w ->
     Qle lo (get src [b; 0; y; x]) /\ Qle (get src [b; 0; y; x]) hi) ->
  apply_kernels kernel src = Some est ->
  forall b i j, b < bs -> i < h - 2 * Nat.max e m -> j < w - 2 * Nat.max e m ->
    let total :=
      fold_right Qplus 0%Q
        (map (fun q => get kernel [b; q; i + (m - e); j + (m - e)])
             (seq 0 ((2 * m + 1) * (2 * m + 1)))) in
    Qle (lo * total) (get est [b; 0; i; j]) /\ Qle (get est [b; 0; i; j]) (hi * total).
Proof.
  intros Hk Hs He1 He2 HK1 HK2 Hpos Hrange E b i j Hb Hi Hj total.
  set (K := 2 * m + 1) in *.
  assert (Hcrops : kernel_crop (h - 2 * e) K h = m - e /\
                   source_crop (h - 2 * e) K h = e - m).
  { destruct (le_lt_dec m e) as [Hme|Hme].
    - destruct (crops_source_larger (h - 2 * e) K h (e - m)) as [-> ->];
        [subst K; lia|subst K; lia|]. split; lia.
    - destruct (crops_kernel_larger (h - 2 * e) K h (m - e)) as [-> ->];
        [lia|subst K; lia|]. split; lia. }
  destruct Hcrops as [Eck Ecs].
  destruct (apply_kernels_value kernel src bs 1 K (h - 2 * e) (w - 2 * e) h w Hk Hs)
    as (out & Eo & So & G).
  { subst K; lia. }
  { rewrite Eck. subst K; lia. }
  { rewrite Eck. subst K; lia. }
  { rewrite Eck, Ecs. subst K; lia. }
  { rewrite Eck, Ecs. subst K; lia. }
  rewrite E in Eo. injection Eo as <-. rewrite Eck, Ecs in G.
  rewrite (G b 0 i j) by lia.
  rewrite sum_list_Q.
  pose proof (convex_bounds (seq 0 (K * K))
                (fun q => get kernel [b; q; i + (m - e); j + (m - e)])
                (fun q => get src [b; 0; i + (e - m) + q / K; j + (e - m) + q mod K])
                lo hi) as CB.
  cbn [mul Scalar_Q].
  apply CB. intros q Hq. apply in_seq in Hq.
  assert (q / K < K) by (apply div_lt_sq; lia).
  assert (q mod K < K) by (apply Nat.mod_upper_bound; subst K; lia).
  split; [apply Hpos; subst K; lia|].
  apply Hrange; subst K; lia.
Qed.

Lemma fold_right_Qplus_app (l1 l2 : list Q) :
  (fold_right Qplus 0 (l1 ++ l2) == fold_right Qplus 0 l1 + fold_right Qplus 0 l2)%Q.
Proof.
  induction l1 as [|x l1 IH]; cbn [app fold_right]; [ring|]. rewrite IH. ring.
Qed.

Lemma map_seq_shift {X : Type} (f : nat -> X) (a n : nat) :
  map f (seq a n) = map (fun q => f (q + a)) (seq 0 n).
Proof.
  revert a. induction n as [|n IH]; intros a; [reflexivity|].
  cbn [seq map]. f_equal. rewrite (IH (S a)), <- seq_shift, map_map.
  apply map_ext. intros q. f_equal. lia.
Qed.

Lemma tadd_get (t1 t2 t : tensor Q) (s idx : list nat) :
  shape t1 = s -> shape t2 = s -> tadd t1 t2 = Some t -> inb s idx ->
  get t idx = Qplus (get t1 idx) (get t2 idx).
Proof.
  intros H1 H2. unfold tadd, zip_with_bc. rewrite H1, H2, broadcast_same.
  intros [= <-] Hin. rewrite get_tabulate by assumption.
  assert (Hbc : forall s' idx', inb s' idx' -> bc_index s' idx' = idx').
  { induction s' as [|n s' IH]; intros [|i idx']; cbn [inb bc_index]; try tauto.
    intros [Hi Hrest]. rewrite bc_fix by assumption. now rewrite IH. }
  now rewrite Hbc.
Qed.

Section Range.
Variable softmax1 : tensor Q -> option (tensor Q).
Hypothesis softmax_ok : softmax_distribution softmax1.
Variables (kern : tensor Q) (bs D m e h w : nat) (lo hi : Q).
Hypothesis kern_shape : shape kern = [bs; D; h - 2 * e; w - 2 * e].
Hypothesis margin_h : 2 * e < h.
Hypothesis margin_w : 2 * e < w.
Hypothesis ksize_h : 2 * m + 1 <= h.
Hypothesis ksize_w : 2 * m + 1 <= w.

Lemma estimate_within (src est : tensor Q) (idx : nat) :
  shape src = [bs; 1; h; w] ->
  (forall b y x, b < bs -> y < h -> x < w ->
     Qle lo (get src [b; 0; y; x]) /\ Qle (get src [b; 0; y; x]) hi) ->
  idx + (2 * m + 1) * (2 * m + 1) <= D ->
  estimate_from softmax1 kern src idx ((2 * m + 1) * (2 * m + 1)) est ->
  forall b i j, b < bs -> i < h - 2 * Nat.max e m -> j < w - 2 * Nat.max e m ->
    Qle lo (get est [b; 0; i; j]) /\ Qle (get est [b; 0; i; j]) hi.
Proof.
  intros Hs Hrange Hidx (k & k' & Ek & Ek' & Eapp) b i j Hb Hi Hj.
  set (KK := (2 * m + 1) * (2 * m + 1)) in *.
  destruct (bank_slice kern bs D _ _ idx KK kern_shape Hidx) as (k0 & Ek0 & Sk).
  rewrite Ek in Ek0. injection Ek0 as <-.
  assert (Hpos : exists c, KK = S c) by (exists (KK - 1); subst KK; nia).
  destruct Hpos as [c Hc].
  destruct (softmax_ok k bs c _ _ ltac:(rewrite Sk, Hc; reflexivity))
    as (t' & Et' & St' & Hnn & Hsum).
  rewrite Ek' in Et'. injection Et' as <-. rewrite Sk in St'. rewrite <- Hc in Hnn, Hsum.
  destruct (weights_bounds k' src est bs m e h w lo hi St' Hs margin_h margin_w
              ksize_h ksize_w Hnn Hrange Eapp b i j Hb Hi Hj) as [B1 B2].
  cbv zeta in B1, B2. fold KK in B1, B2.
  rewrite <- sum_list_Q in B1, B2.
  rewrite Hsum in B1, B2 by lia.
  rewrite Qmult_1_r in B1, B2. split; assumption.
Qed.

Lemma green_within (g0 g1 est : tensor Q) (idx : nat) :
  shape g0 = [bs; 1; h; w] -> shape g1 = [bs; 1; h; w] ->
  (forall b y x, b < bs -> y < h -> x < w ->
     Qle lo (get g0 [b; 0; y; x]) /\ Qle (get g0 [b; 0; y; x]) hi) ->
  (forall b y x, b < bs -> y < h -> x < w ->
     Qle lo (get g1 [b; 0; y; x]) /\ Qle (get g1 [b; 0; y; x]) hi) ->
  idx + 2 * ((2 * m + 1) * (2 * m + 1)) <= D ->
  green_estimate_from softmax1 kern g0 g1 idx ((2 * m + 1) * (2 * m + 1)) est ->
  forall b i j, b < bs -> i < h - 2 * Nat.max e m -> j < w - 2 * Nat.max e m ->
    Qle lo (get est [b; 0; i; j]) /\ Qle (get est [b; 0; i; j]) hi.
Proof.
  intros H0 H1 R0 R1 Hidx (k & k' & k0 & k1 & e0 & e1 & Ek & Ek' & Ek0 & Ek1 & E0 & E1 & Es)
    b i j Hb Hi Hj.
  set (KK := (2 * m + 1) * (2 * m + 1)) in *.
  assert (HKK : 1 <= KK) by (subst KK; nia).
  destruct (bank_slice kern bs D _ _ idx (2 * KK) kern_shape Hidx) as (kx & Ekx & Sk).
  rewrite Ek in Ekx. injection Ekx as <-.
  assert (Hpos : exists c, 2 * KK = S c) by (exists (2 * KK - 1); lia).
  destruct Hpos as [c Hc].
  destruct (softmax_ok k bs c _ _ ltac:(rewrite Sk, Hc; reflexivity))
    as (t' & Et' & St' & Hnn & Hsum).
  rewrite Ek' in Et'. injection Et' as <-. rewrite Sk in St'. rewrite <- Hc in Hnn, Hsum.
  (* the two halves of the bank *)
  destruct (slice_axis1_spec k' bs (2 * KK) _ _ 0%Z (Z.of_nat KK) St')
    as (k0' & Ek0' & Sk0 & Gk0); [lia|lia|].
  rewrite Ek0 in Ek0'. injection Ek0' as <-.
  destruct (slice_axis1_spec k' bs (2 * KK) _ _ (Z.of_nat KK) (Z.of_nat (2 * KK)) St')
    as (k1' & Ek1' & Sk1 & Gk1); [lia|lia|].
  rewrite Ek1 in Ek1'. injection Ek1' as <-.
  repeat rewrite Nat2Z.id in Sk0, Gk0. repeat rewrite Nat2Z.id in Sk1, Gk1.
  cbn [Z.to_nat] in Sk0, Gk0.
  replace (Nat.min KK (2 * KK) - Nat.min 0 (2 * KK)) with KK in Sk0, Gk0 by lia.
  replace (Nat.min (2 * KK) (2 * KK) - Nat.min KK (2 * KK)) with KK in Sk1, Gk1 by lia.
  replace (Nat.min 0 (2 * KK)) with 0 in Gk0 by lia.
  replace (Nat.min KK (2 * KK)) with KK in Gk1 by lia.
  assert (Hin : i + (m - e) < h - 2 * e /\ j + (m - e) < w - 2 * e) by lia.
  destruct Hin as [HI HJ].
  destruct (weights_bounds k0 g0 e0 bs m e h w lo hi Sk0 H0 margin_h margin_w
              ksize_h ksize_w) with (b := b) (i := i) (j := j) as [A1 A2];
    try assumption.
  { intros b' q i' j' Hb' Hq Hi' Hj'. rewrite Gk0 by assumption.
    apply Hnn; lia. }
  destruct (weights_bounds k1 g1 e1 bs m e h w lo hi Sk1 H1 margin_h margin_w
              ksize_h ksize_w) with (b := b) (i := i) (j := j) as [B1 B2];
    try assumption.
  { intros b' q i' j' Hb' Hq Hi' Hj'. rewrite Gk1 by assumption.
    apply Hnn; lia. }
  cbv zeta in A1, A2, B1, B2. fold KK in A1, A2, B1, B2.
  (* the weights of both halves sum to 1 *)
  specialize (Hsum b (i + (m - e)) (j + (m - e)) Hb HI HJ).
  rewrite sum_list_Q in Hsum.
  replace (2 * KK) with (KK + KK) in Hsum by lia.
  rewrite seq_app, map_app, fold_right_Qplus_app in Hsum.
  cbn [Nat.add] in Hsum.
  rewrite (map_seq_shift _ KK KK) in Hsum.
  set (T0 := fold_right Qplus 0%Q
               (map (fun q => get k0 [b; q; i + (m - e); j + (m - e)]) (seq 0 KK))) in *.
  set (T1 := fold_right Qplus 0%Q
               (map (fun q => get k1 [b; q; i + (m - e); j + (m - e)]) (seq 0 KK))) in *.
  assert (ET0 : fold_right Qplus 0%Q
                  (map (fun q => get k' [b; q; i + (m - e); j + (m - e)]) (seq 0 KK)) = T0).
  { subst T0. f_equal. apply map_ext_in. intros q Hq. apply in_seq in Hq.
    rewrite Gk0 by lia. now rewrite Nat.add_0_r. }
  assert (ET1 : fold_right Qplus 0%Q
                  (map (fun q => get k' [b; q + KK; i + (m - e); j + (m - e)]) (seq 0 KK))
                = T1).
  { subst T1. f_equal. apply map_ext_in. intros q Hq. apply in_seq in Hq.
    now rewrite Gk1 by lia. }
  rewrite ET0, ET1 in Hsum.
  (* the sum of the two estimates *)
  destruct (apply_kernels_even_margin k0 g0 bs 1 m e h w Sk0 H0 margin_h margin_w
              ksize_h ksize_w) as (e0' & Ee0 & Se0).
  rewrite E0 in Ee0. injection Ee0 as <-.
  destruct (apply_kernels_even_margin k1 g1 bs 1 m e h w Sk1 H1 margin_h margin_w
              ksize_h ksize_w) as (e1' & Ee1 & Se1).
  rewrite E1 in Ee1. injection Ee1 as <-.
  rewrite (tadd_get e0 e1 est _ [b; 0; i; j] Se0 Se1 Es) by inb_solve.
  clearbody T0 T1. split; nra.
Qed.
End Range.

(** X15.  Over the rationals, for an odd footprint and under the
    hypotheses under which [forward] returns: when softmax returns
    non-negative weights that sum to 1 along the channels and every sensor
    reading of the mosaic lies between [lo] and [hi], every entry of the
    output lies between [lo] and [hi].  For green this rests on the softmax
    being taken jointly over the weights applied to g0 and to g1. *)
Theorem forward_within_range (softmax1 : tensor Q -> option (tensor Q))
    (self : BayerKP) (samples : list (string * tensor Q)) (mosaic : tensor Q)
    (bs C H W D m e : nat) (lo hi : Q) :
  lookup "mosaic" samples = Some mosaic -> shape mosaic = [bs; C; H; W] ->
  softmax_distribution softmax1 ->
  predicts_bank (kernels self) bs (H / 2) (W / 2) D e ->
  ksize self = 2 * m + 1 -> 10 * (ksize self * ksize self) <= D ->
  2 * e < H / 2 -> 2 * e < W / 2 -> ksize self <= H / 2 -> ksize self <= W / 2 ->
  (forall b Y X, b < bs -> Y < H -> X < W ->
     Qle lo (sensor_reading mosaic C b Y X) /\ Qle (sensor_reading mosaic C b Y X) hi) ->
  exists out, forward softmax1 self samples = Some out /\
    forall b c Y X, inb (shape out) [b; c; Y; X] ->
      Qle lo (get out [b; c; Y; X]) /\ Qle (get out [b; c; Y; X]) hi.
Proof.
  intros Hl Hm Hsm Hpred HK HD He1 He2 HK1 HK2 Hrange.
  destruct (forward_ok softmax1 self samples mosaic bs C H W D m e Hl Hm
              (softmax_distribution_returns _ Hsm) Hpred HK HD He1 He2 HK1 HK2)
    as (out & E & So).
  exists out. split; [exact E|].
  assert (HH : 2 <= H).
  { destruct (le_lt_dec 2 H) as [|Hlt]; [assumption|].
    rewrite (Nat.div_small H 2) in He1 by lia. lia. }
  assert (HW : 2 <= W).
  { destruct (le_lt_dec 2 W) as [|Hlt]; [assumption|].
    rewrite (Nat.div_small W 2) in He2 by lia. lia. }
  destruct (color_samples_ok mosaic bs C H W Hm HH HW) as (cs & Ecs & Scs & Gcs).
  rewrite !half_floor in Scs, Gcs by assumption.
  set (h := H / 2) in *. set (w := W / 2) in *.
  assert (Hh2 : 2 * h <= H).
  { subst h. pose proof (Nat.div_mod_eq H 2). lia. }
  assert (Hw2 : 2 * w <= W).
  { subst w. pose proof (Nat.div_mod_eq W 2). lia. }
  destruct (Hpred cs Scs) as (kern & Ekern & Skern).
  (* the planes lie in the range *)
  assert (Hplane : forall p pl, p < 4 ->
            slice 1 (Z.of_nat p) (Z.of_nat (S p)) cs = Some pl ->
            shape pl = [bs; 1; h; w] /\
            forall b y x, b < bs -> y < h -> x < w ->
              Qle lo (get pl [b; 0; y; x]) /\ Qle (get pl [b; 0; y; x]) hi).
  { intros p pl Hp Epl.
    destruct (plane_spec cs bs h w p Scs Hp) as (pl' & Epl' & Spl & Gpl).
    rewrite Epl in Epl'. injection Epl' as <-. split; [exact Spl|].
    intros b y x Hb Hy Hx. rewrite Gpl, Gcs by assumption.
    assert (p / 2 < 2) by (apply Nat.Div0.div_lt_upper_bound; lia).
    assert (p mod 2 < 2) by (apply Nat.mod_upper_bound; lia).
    apply (Hrange b (y * 2 + p mod 2) (x * 2 + p / 2)); lia. }
  (* the estimates *)
  destruct (forward_estimates softmax1 self samples mosaic cs kern out bs C H W
              Hl Hm Ecs Ekern E)
    as (g0 & b & r & g1 & r0 & r2 & r3 & b0 & b1 & b3 & g01 & g10 & ho & wo
        & Eg0 & Eb & Er & Eg1 & Fr0 & Fr2 & Fr3 & Fb0 & Fb1 & Fb3 & Fg01 & Fg10
        & So' & Gest).
  rewrite HK in Fr0, Fr2, Fr3, Fb0, Fb1, Fb3, Fg01, Fg10, HD, HK1, HK2.
  set (KK := (2 * m + 1) * (2 * m + 1)) in *.
  destruct (Hplane 0 g0 ltac:(lia) Eg0) as [Sg0 Rg0].
  destruct (Hplane 1 b ltac:(lia) Eb) as [Sb Rb].
  destruct (Hplane 2 r ltac:(lia) Er) as [Sr Rr].
  destruct (Hplane 3 g1 ltac:(lia) Eg1) as [Sg1 Rg1].
  rewrite So in So'. injection So' as Eho Ewo.
  assert (Hho : ho = h - 2 * Nat.max e m) by lia.
  assert (Hwo : wo = w - 2 * Nat.max e m) by lia.
  pose proof (estimate_within softmax1 Hsm kern bs D m e h w lo hi Skern He1 He2 HK1 HK2)
    as EW.
  pose proof (green_within softmax1 Hsm kern bs D m e h w lo hi Skern He1 He2 HK1 HK2
                g0 g1) as GW.
  (* the known samples *)
  destruct (forward_known_gray softmax1 self samples mosaic out bs C H W Hl Hm E)
    as (ho' & wo' & cy & cx & So'' & Ehy & Ewx & _ & _ & Gknown).
  rewrite So in So''. injection So'' as Eho' Ewo'.
  assert (ho' = ho) by lia. assert (wo' = wo) by lia. subst ho' wo'.
  rewrite !half_floor in Ehy, Ewx by assumption. fold h w in Ehy, Ewx.
  intros n c Y X Hin. rewrite So in Hin. cbn [inb] in Hin.
  destruct Hin as (Hn & Hc & HY & HX & _).
  pose proof (Nat.div_mod_eq Y 2) as EY. pose proof (Nat.div_mod_eq X 2) as EX.
  pose proof (Nat.mod_upper_bound Y 2 ltac:(lia)) as BY.
  pose proof (Nat.mod_upper_bound X 2 ltac:(lia)) as BX.
  set (y := Y / 2) in *. set (a0 := Y mod 2) in *.
  set (x := X / 2) in *. set (a1 := X mod 2) in *.
  clearbody y a0 x a1.
  assert (Hy : y < ho) by lia. assert (Hx : x < wo) by lia.
  replace Y with (y * 2 + a0) by lia. replace X with (x * 2 + a1) by lia.
  destruct (Gest n y x Hn Hy Hx) as (R0 & R2 & R3 & B0 & B1 & B3 & G01 & G10).
  destruct (Gknown n y x Hn Hy Hx) as (Kr & Kb & Kg0 & Kg1).
  assert (Hknown : forall a b', a < 2 -> b' < 2 ->
            Qle lo (sensor_reading mosaic C n ((y + cy) * 2 + a) ((x + cx) * 2 + b')) /\
            Qle (sensor_reading mosaic C n ((y + cy) * 2 + a) ((x + cx) * 2 + b')) hi).
  { intros a b' Ha Hb'. apply Hrange; lia. }
  assert (Ha : (a0 = 0 \/ a0 = 1) /\ (a1 = 0 \/ a1 = 1)) by lia.
  destruct c as [|[|[|c]]]; [| | |lia];
    destruct Ha as [[-> | ->] [-> | ->]].
  - rewrite R0. apply (EW r r0 0); try assumption; lia.
  - rewrite Kr. apply Hknown; lia.
  - rewrite R2. apply (EW r r2 KK); try assumption; lia.
  - rewrite R3. apply (EW r r3 (2 * KK)); try assumption; lia.
  - rewrite Kg0. apply Hknown; lia.
  - rewrite G01. apply (GW g01 (6 * KK)); try assumption; lia.
  - rewrite G10. apply (GW g10 (8 * KK)); try assumption; lia.
  - rewrite Kg1. apply Hknown; lia.
  - rewrite B0. apply (EW b b0 (3 * KK)); try assumption; lia.
  - rewrite B1. apply (EW b b1 (4 * KK)); try assumption; lia.
  - rewrite Kb. apply Hknown; lia.
  - rewrite B3. apply (EW b b3 (5 * KK)); try assumption; lia.
Qed.

Lemma sum_uniform (n : nat) (x : Q) :
  (fold_right Qplus 0 (map (fun _ : nat => x) (seq 0 n)) == inject_Z (Z.of_nat n) * x)%Q.
Proof.
  generalize 0. induction n as [|n IH]; intros a.
  - cbn. ring.
  - cbn [seq map fold_right]. rewrite IH, Nat2Z.inj_succ, <- Z.add_1_r, inject_Z_plus.
    change (inject_Z 1) with 1%Q. ring.
Qed.

Lemma uniform_softmax_distribution : softmax_distribution uniform_softmax.
Proof.
  intros t b c h w Hs. unfold uniform_softmax. rewrite Hs.
  eexists. split; [reflexivity|]. split; [reflexivity|]. split.
  - intros n q i j Hn Hq Hi Hj. rewrite get_tabulate by inb_solve. discriminate.
  - intros n i j Hn Hi Hj. rewrite sum_list_Q.
    rewrite (map_ext_in _ (fun _ => (1 # Pos.of_nat (S c))%Q)).
    2:{ intros q Hq. apply in_seq in Hq. rewrite get_tabulate by inb_solve. reflexivity. }
    rewrite sum_uniform. unfold Qeq, inject_Z, Qmult. cbn [Qnum Qden].
    rewrite !Z.mul_1_r, Z.mul_1_l, Pos.mul_1_l.
    cbn [Z.of_nat]. now rewrite Pos.of_nat_succ.
Qed.

Lemma demo_mosaic_range (b Y X : nat) :
  b < 1 -> Y < 10 -> X < 10 ->
  Qle 1 (sensor_reading demo_mosaic 1 b Y X) /\
  Qle (sensor_reading demo_mosaic 1 b Y X) (10000 # 1).
Proof.
  intros Hb HY HX. assert (b = 0) by lia. subst b.
  do 10 (destruct Y as [|Y]; [do 10 (destruct X as [|X]; [vm_compute; split; discriminate|]); lia|]).
  lia.
Qed.

Lemma forward_within_range_witness :
  exists out, forward uniform_softmax demo_kp demo_samples = Some out /\
    Qle 1 (get out [0; 0; 0; 0]) /\ Qle (get out [0; 0; 0; 0]) (10000 # 1).
Proof.
  destruct (forward_within_range uniform_softmax demo_kp demo_samples demo_mosaic
              1 1 10 10 90 1 1 1%Q (10000 # 1)%Q eq_refl eq_refl
              uniform_softmax_distribution (zero_logits_predicts 1 5 5 90 1) eq_refl)
    as (out & E & G); try (vm_compute; lia).
  - exact demo_mosaic_range.
  - exists out. split; [exact E|].
    apply G. rewrite demo_forward in E. injection E as <-. vm_compute. repeat split; lia.
Defined.

(** ** The layout of [BayerNN.forward] *)

Module NNFacts.
Import Layers LayerFacts.

Section Patches.
Context {A : Type} {SA : Scalar A}.

(** The matrix of patches: the row of position (b, y, x) holds, for plane c
    and window offsets p (columns) and q (rows), the entry (y + q, x + p)
    of plane c, at column (c fov + p) fov + q. *)
Lemma BayerNN_patches_ok (self : BayerNN) (samples : list (string * tensor A))
    (mosaic : tensor A) (bs C H W : nat) :
  lookup "mosaic" samples = Some mosaic -> shape mosaic = [bs; C; H; W] ->
  1 <= nn_fov self -> nn_fov self <= H / 2 -> nn_fov self <= W / 2 ->
  let fov := nn_fov self in
  let h := H / 2 - fov + 1 in
  let w := W / 2 - fov + 1 in
  exists in_f,
    BayerNN_patches self samples = Some (in_f, bs, h, w, 4) /\
    shape in_f = [bs * h * w; 4 * fov * fov] /\
    forall b y x c p q, b < bs -> y < h -> x < w -> c < 4 -> p < fov -> q < fov ->
      get in_f [(b * h + y) * w + x; (c * fov + p) * fov + q]
        = sensor_reading mosaic C b ((y + q) * 2 + c mod 2) ((x + p) * 2 + c / 2).
Proof.
  intros Hl Hm Hf Hh Hw fov h w. unfold BayerNN_patches. rewrite Hl. fold fov.
  assert (HH : 2 <= H).
  { destruct (le_lt_dec 2 H) as [|Hlt]; [assumption|].
    rewrite (Nat.div_small H 2) in Hh by lia. lia. }
  assert (HW : 2 <= W).
  { destruct (le_lt_dec 2 W) as [|Hlt]; [assumption|].
    rewrite (Nat.div_small W 2) in Hw by lia. lia. }
  destruct (color_samples_ok mosaic bs C H W Hm HH HW) as (cs & -> & Scs & Gcs).
  rewrite !half_floor in Scs, Gcs by assumption.
  rewrite unfold_ok by (rewrite ?Scs; cbn [length nth]; lia).
  rewrite unfold_ok by (cbn [shape tabulate]; rewrite ?Scs; cbn [length nth upd app]; lia).
  unfold permute. rewrite Scs.
  cbn [shape tabulate upd app nth length is_perm Nat.eqb andb forallb seq existsb orb map].
  rewrite !Nat.div_1_r. fold h w. unfold contiguous.
  rewrite view_ok by (cbn [numel shape tabulate]; ring).
  eexists. split; [reflexivity|]. split; [reflexivity|].
  intros b y x c p q Hb Hy Hx Hc Hp Hq.
  rewrite (get_reshape _ _ _ [b; y; x; c; p; q]) by (cbn [ravel numel shape tabulate]; ring).
  rewrite get_tabulate by inb_solve.
  cbn [map seq length index_of Nat.eqb ix nth].
  rewrite get_tabulate by inb_solve.
  cbn [length firstn upd ix nth].
  rewrite get_tabulate by (subst h w; inb_solve).
  cbn [length firstn upd ix nth].
  rewrite !Nat.mul_1_r.
  rewrite Gcs by (subst h w; lia). reflexivity.
Qed.

(** From the rows of twelve values to the output: the pixel (2 y + a0,
    2 x + a1) of channel ch is the value 4 ch + 2 a0 + a1 of the row of
    position (b, y, x). *)
Lemma BayerNN_assemble_ok (out_f : tensor A) (bs h w : nat) :
  shape out_f = [bs * h * w; 12] ->
  exists out, BayerNN_assemble (out_f, bs, h, w) = Some out /\
    shape out = [bs; 3; h * 2; w * 2] /\
    forall b ch y x a0 a1, b < bs -> ch < 3 -> y < h -> x < w -> a0 < 2 -> a1 < 2 ->
      get out [b; ch; y * 2 + a0; x * 2 + a1]
        = get out_f [(b * h + y) * w + x; (ch * 2 + a0) * 2 + a1].
Proof.
  intros Hs. unfold BayerNN_assemble, permute, contiguous.
  rewrite view_ok by (rewrite Hs; cbn [numel]; ring).
  cbn [shape length is_perm Nat.eqb andb forallb seq existsb orb map nth].
  rewrite view_ok by (cbn [numel shape tabulate]; ring).
  eexists. split; [reflexivity|]. split; [reflexivity|].
  intros b ch y x a0 a1 Hb Hch Hy Hx Ha0 Ha1.
  rewrite (get_reshape _ _ _ [b; ch; y; a0; x; a1]) by (cbn [ravel numel shape tabulate]; ring).
  rewrite get_tabulate by inb_solve.
  cbn [map seq length index_of Nat.eqb ix nth].
  apply get_reshape. rewrite Hs. cbn [ravel numel]. ring.
Qed.
End Patches.

Section NNForward.
Context {A : Type} {SA : Scalar A}.
Variable run : layer -> tensor A -> option (tensor A).
Hypothesis run_ok : runs_as_documented run.
Variables (th_log th_exp : A -> A) (sub : A -> A -> A) (th_clamp : A -> A).
Variables (th_mean : list A -> A) (one : A).

Lemma broadcast_column (n f : nat) : broadcast [n; f] [n; 1] = Some [n; f].
Proof.
  destruct f as [|[|f]]; cbn [broadcast Nat.eqb]; rewrite Nat.eqb_refl; reflexivity.
Qed.

Lemma inplace_column (op : A -> A -> A) (t u : tensor A) (n f : nat) :
  shape t = [n; f] -> shape u = [n; 1] ->
  exists r, inplace op t u = Some r /\ shape r = [n; f].
Proof.
  intros Ht Hu. unfold inplace, zip_with_bc. rewrite Ht, Hu, broadcast_column.
  cbn [shape tabulate].
  destruct (list_eq_dec Nat.eq_dec [n; f] [n; f]) as [_|Hne]; [|congruence].
  eexists. split; reflexivity.
Qed.

Lemma BayerNN_net_shape (fov : nat) (normalize : bool) (n : nat) :
  sequential_shape (map snd (nn_net (BayerNN_init fov normalize))) [n; 4 * fov * fov]
    = Some [n; 12].
Proof.
  cbn [BayerNN_init nn_net map snd sequential_shape layer_shape].
  replace (4 * fov * fov =? fov * fov * 4) with true
    by (symmetry; apply Nat.eqb_eq; ring).
  reflexivity.
Qed.

(** Normalization, network and denormalization keep one row per position
    and return twelve values per row. *)
Lemma BayerNN_process_ok (fov : nat) (normalize : bool) (in_f : tensor A)
    (bs h w : nat) :
  shape in_f = [bs * h * w; 4 * fov * fov] ->
  exists out_f,
    BayerNN_process run th_log th_exp sub th_clamp th_mean one
      (BayerNN_init fov normalize) (in_f, bs, h, w, 4) = Some (out_f, bs, h, w) /\
    shape out_f = [bs * h * w; 12].
Proof.
  intros Hs. unfold BayerNN_process.
  cbn [BayerNN_init nn_fov nn_normalize nn_net].
  destruct normalize.
  - set (t1 := tmap _ in_f).
    assert (S1 : shape t1 = [bs * h * w; 4 * fov * fov]) by exact Hs.
    unfold mean1. rewrite S1.
    set (mean_f := tabulate [bs * h * w; 1] _).
    destruct (inplace_column sub t1 mean_f _ _ S1 eq_refl) as (t2 & -> & S2).
    set (t3 := tmap _ t2).
    assert (S3 : shape t3 = [bs * h * w; 4 * fov * fov]) by exact S2.
    rewrite view_ok by (rewrite S3; reflexivity).
    destruct (sequential_shape_ok run run_ok (nn_net (BayerNN_init fov true))
                (mkTensor [bs * h * w; 4 * fov * fov] (data t3)) [bs * h * w; 12])
      as (o1 & Eo1 & So1).
    { cbn [shape]. apply BayerNN_net_shape. }
    cbn [BayerNN_init nn_net] in Eo1. rewrite Eo1.
    set (o2 := tmap _ o1).
    assert (So2 : shape o2 = [bs * h * w; 12]) by exact So1.
    destruct (inplace_column add o2 mean_f _ _ So2 eq_refl) as (o3 & -> & So3).
    eexists. split; [reflexivity|exact So3].
  - rewrite view_ok by (rewrite Hs; reflexivity).
    destruct (sequential_shape_ok run run_ok (nn_net (BayerNN_init fov false))
                (mkTensor [bs * h * w; 4 * fov * fov] (data in_f)) [bs * h * w; 12])
      as (o1 & Eo1 & So1).
    { cbn [shape]. apply BayerNN_net_shape. }
    cbn [BayerNN_init nn_net] in Eo1. rewrite Eo1.
    eexists. split; [reflexivity|exact So1].
Qed.

(** X17.  [BayerNN.forward] for a field of view 1 <= fov <= H/2, W/2 and
    layers that behave as documented.  It returns three channels of size
    2 h x 2 w with h = H/2 - fov + 1 and w = W/2 - fov + 1.  The matrix
    that enters the network has one row per position (b, y, x); its column
    (c fov + p) fov + q is the sensor reading of plane c at window offset
    q in rows and p in columns.  The pixel (2 y + a0, 2 x + a1) of
    channel ch of the result is the value 4 ch + 2 a0 + a1 of the row that
    leaves the network for that position. *)
Theorem BayerNN_forward_layout (fov : nat) (normalize : bool)
    (samples : list (string * tensor A)) (mosaic : tensor A) (bs C H W : nat) :
  lookup "mosaic" samples = Some mosaic -> shape mosaic = [bs; C; H; W] ->
  1 <= fov -> fov <= H / 2 -> fov <= W / 2 ->
  let self := BayerNN_init fov normalize in
  let h := H / 2 - fov + 1 in
  let w := W / 2 - fov + 1 in
  exists in_f out_f out,
    BayerNN_patches self samples = Some (in_f, bs, h, w, 4) /\
    BayerNN_process run th_log th_exp sub th_clamp th_mean one self (in_f, bs, h, w, 4)
      = Some (out_f, bs, h, w) /\
    BayerNN_forward run th_log th_exp sub th_clamp th_mean one self samples = Some out /\
    shape in_f = [bs * h * w; 4 * fov * fov] /\
    shape out_f = [bs * h * w; 12] /\
    shape out = [bs; 3; h * 2; w * 2] /\
    (forall b y x c p q, b < bs -> y < h -> x < w -> c < 4 -> p < fov -> q < fov ->
       get in_f [(b * h + y) * w + x; (c * fov + p) * fov + q]
         = sensor_reading mosaic C b ((y + q) * 2 + c mod 2) ((x + p) * 2 + c / 2)) /\
    (forall b ch y x a0 a1, b < bs -> ch < 3 -> y < h -> x < w -> a0 < 2 -> a1 < 2 ->
       get out [b; ch; y * 2 + a0; x * 2 + a1]
         = get out_f [(b * h + y) * w + x; (ch * 2 + a0) * 2 + a1]).
Proof.
  intros Hl Hm Hf Hh Hw self h w.
  destruct (BayerNN_patches_ok self samples mosaic bs C H W Hl Hm Hf Hh Hw)
    as (in_f & Ep & Sin & Gin).
  cbn [self BayerNN_init nn_fov] in Ep, Sin, Gin. fold h w in Ep, Sin, Gin.
  destruct (BayerNN_process_ok fov normalize in_f bs h w Sin) as (out_f & Epr & Sof).
  destruct (BayerNN_assemble_ok out_f bs h w Sof) as (out & Ea & So & Go).
  exists in_f, out_f, out.
  split; [exact Ep|]. split; [exact Epr|].
  split; [unfold BayerNN_forward; fold self; rewrite Ep; unfold self; rewrite Epr; exact Ea|].
  repeat (split; [assumption|]). exact Go.
Qed.
End NNForward.

Lemma BayerNN_forward_layout_witness :
  exists in_f out,
    BayerNN_patches (BayerNN_init 2 true) [("mosaic"%string, qramp [1; 1; 6; 6])]
      = Some (in_f, 1, 2, 2, 4) /\
    get in_f [3; 6] = sensor_reading (qramp [1; 1; 6; 6]) 1 0 3 4 /\
    BayerNN_forward zero_layer (fun x => x) (fun x => x) Qminus (fun x => x)
      (fun _ => 0%Q) 1%Q (BayerNN_init 2 true) [("mosaic"%string, qramp [1; 1; 6; 6])]
      = Some out /\
    shape out = [1; 3; 4; 4].
Proof.
  destruct (BayerNN_forward_layout zero_layer zero_layer_as_documented
              (fun x => x) (fun x => x) Qminus (fun x => x) (fun _ => 0%Q) 1%Q
              2 true [("mosaic"%string, qramp [1; 1; 6; 6])] (qramp [1; 1; 6; 6])
              1 1 6 6 eq_refl eq_refl ltac:(lia))
    as (in_f & out_f & out & Ep & _ & Ef & _ & _ & So & Gin & _); [vm_compute; lia..|].
  exists in_f, out. split; [exact Ep|]. split; [|split; [exact Ef|exact So]].
  exact (Gin 0 1 1 1 1 0 ltac:(lia) ltac:(vm_compute; lia) ltac:(vm_compute; lia)
           ltac:(lia) ltac:(lia) ltac:(lia)).
Defined.
End NNFacts.
